(** * Banshee: the search orchestration engine of [banshee.go]

    A shallow embedding of the query builder, the link filter, the
    credential pool, the pagination/retry loop ([dorkRun]), the multi-target
    loop ([readDomainsFile]) and the output sink ([outputOrPrintUnique]),
    followed by the properties the specification states about them.

    Conventions.
    - Go strings are byte strings: [string] of [ascii].  [strings.TrimSpace]
      trims the white space of Unicode in its UTF-8 encoding;
      [strings.ToLower] is computed on strings of ASCII bytes and is an
      oracle of [Env] on the others.
    - [int] is [Z]; the one product that could leave the 64-bit range is
      wrapped explicitly ([wrap64]).
    - [float64] is the kernel's binary64 type [float].
    - A nil slice and an empty slice are both [[]]: the program only ever
      takes their length or ranges over them.
    - Everything the program reads from outside (clock, cancellation context,
      HTTP transport, map iteration order) is an oracle of [Env], indexed by
      a tick counter kept in [World]. *)

From Stdlib Require Import ZArith Ascii String List Floats DecimalString.
From stdpp Require Import base decidable list strings gmap sorting.

Set Warnings "-clear-no-such-hyp".

Local Open Scope Z_scope.
Local Open Scope string_scope.

(** ** Package [strings] *)

Module Strings.

Definition isUpper (a : ascii) : bool :=
  let n := nat_of_ascii a in (65 <=? n)%nat && (n <=? 90)%nat.

Definition lowerByte (a : ascii) : ascii :=
  if isUpper a then ascii_of_nat (nat_of_ascii a + 32) else a.

(** The bytes [A] to [Z] lowered, every other byte kept. *)
Fixpoint lowerASCII (s : string) : string :=
  match s with
  | EmptyString => EmptyString
  | String a r => String (lowerByte a) (lowerASCII r)
  end.

(** No byte of [s] is [utf8.RuneSelf] (128) or above. *)
Fixpoint isASCII (s : string) : bool :=
  match s with
  | EmptyString => true
  | String a r => (nat_of_ascii a <? 128)%nat && isASCII r
  end.

(** [strings.ToLower].  A string of ASCII bytes is lowered byte by byte; any
    other string goes through [strings.Map(unicode.ToLower, s)], the oracle
    [unicode]. *)
Definition ToLower (unicode : string -> string) (s : string) : string :=
  if isASCII s then lowerASCII s else unicode s.

(** [strings.HasPrefix s p] *)
Definition HasPrefix (s p : string) : bool := String.prefix p s.

(** [strings.Contains s sub] *)
Fixpoint Contains (s sub : string) : bool :=
  HasPrefix s sub ||
  match s with
  | EmptyString => false
  | String _ r => Contains r sub
  end.

Definition ofBytes (l : list nat) : string :=
  string_of_list_ascii (map ascii_of_nat l).

(** The runes of [unicode.IsSpace] in UTF-8: '\t', '\n', '\v', '\f', '\r',
    ' ', U+0085, U+00A0, U+1680, U+2000 to U+200A, U+2028, U+2029, U+202F,
    U+205F and U+3000.  No one of these byte sequences starts or ends
    another, and a sequence of several bytes is a well-formed encoding, so a
    string starts (ends) with one of them exactly when its first (last) rune
    is a space. *)
Definition spaceRunes : list string :=
  map ofBytes
    [ [9]; [10]; [11]; [12]; [13]; [32]; [194; 133]; [194; 160]; [225; 154; 128];
      [226; 128; 128]; [226; 128; 129]; [226; 128; 130]; [226; 128; 131];
      [226; 128; 132]; [226; 128; 133]; [226; 128; 134]; [226; 128; 135];
      [226; 128; 136]; [226; 128; 137]; [226; 128; 138];
      [226; 128; 168]; [226; 128; 169]; [226; 128; 175]; [226; 129; 159];
      [227; 128; 128] ]%nat.

(** The space rune [s] starts with, if any. *)
Definition spaceAhead (s : string) : option string :=
  find (fun q => HasPrefix s q) spaceRunes.

Definition isSpaceRune (s : string) : bool := existsb (String.eqb s) spaceRunes.

(** [strings.TrimLeftFunc(s, unicode.IsSpace)]; [skip] counts the bytes of a
    space rune still to be dropped. *)
Fixpoint trimLeftSpace (skip : nat) (s : string) : string :=
  match s with
  | EmptyString => EmptyString
  | String a r =>
      match skip with
      | S k => trimLeftSpace k r
      | O =>
          match spaceAhead s with
          | Some q => trimLeftSpace (String.length q - 1) r
          | None => s
          end
      end
  end.

(** [strings.TrimRightFunc(s, unicode.IsSpace)]: once what follows the first
    byte is trimmed, the string is dropped if what is left is one space
    rune. *)
Fixpoint trimRightSpace (s : string) : string :=
  match s with
  | EmptyString => EmptyString
  | String a r =>
      let t := String a (trimRightSpace r) in
      if isSpaceRune t then EmptyString else t
  end.

Fixpoint trimLeft (f : ascii -> bool) (s : string) : string :=
  match s with
  | EmptyString => EmptyString
  | String a r => if f a then trimLeft f r else s
  end.

(** Drops the longest suffix of bytes satisfying [f]. *)
Fixpoint trimRight (f : ascii -> bool) (s : string) : string :=
  match s with
  | EmptyString => EmptyString
  | String a r =>
      match trimRight f r with
      | EmptyString => if f a then EmptyString else String a EmptyString
      | r' => String a r'
      end
  end.

(** [strings.TrimSpace] *)
Definition TrimSpace (s : string) : string := trimRightSpace (trimLeftSpace 0 s).

(** [strings.Trim s cutset] for a [cutset] of ASCII bytes. *)
Definition Trim (s cutset : string) : string :=
  let f a := existsb (Ascii.eqb a) (list_ascii_of_string cutset) in
  trimRight f (trimLeft f s).

(** The scanner shared by [Split] and [ReplaceAll]: walks [s] left to
    right; [skip] counts the bytes of a matched separator still to be
    consumed, [cur] is the piece being collected. *)
Fixpoint splitGo (sep : string) (skip : nat) (cur : string) (s : string) : list string :=
  match s with
  | EmptyString => [cur]
  | String a r =>
      match skip with
      | S k => splitGo sep k cur r
      | O =>
          if HasPrefix s sep
          then cur :: splitGo sep (String.length sep - 1) EmptyString r
          else splitGo sep O (cur +:+ String a EmptyString) r
      end
  end.

(** [strings.Split s sep] for a non-empty [sep]. *)
Definition Split (s sep : string) : list string := splitGo sep O EmptyString s.

(** [strings.Join elems sep] *)
Definition Join (elems : list string) (sep : string) : string := String.concat sep elems.

(** [strings.ReplaceAll s old new] for a non-empty [old]. *)
Definition ReplaceAll (s old new : string) : string := Join (Split s old) new.

(** The one-byte string holding a double quote (byte 34). *)
Definition dquote : string := String (ascii_of_nat 34) EmptyString.

(** [%d] of [fmt.Sprintf] *)
Definition Itoa (z : Z) : string := NilZero.string_of_int (Z.to_int z).

End Strings.

(** A no-break space (U+00A0) and a line separator (U+2028) are trimmed; a
    byte 194 that encodes nothing is not. *)
(** ** Package [net/url]: [QueryEscape] and [QueryUnescape]

    Both are standard-library functions; they are modelled after their
    documented behaviour in query-component mode. *)

Module Url.

Definition isDigit (a : ascii) : bool :=
  let n := nat_of_ascii a in (48 <=? n)%nat && (n <=? 57)%nat.
Definition isLowerAF (a : ascii) : bool :=
  let n := nat_of_ascii a in (97 <=? n)%nat && (n <=? 102)%nat.
Definition isUpperAF (a : ascii) : bool :=
  let n := nat_of_ascii a in (65 <=? n)%nat && (n <=? 70)%nat.

Definition ishex (a : ascii) : bool := isDigit a || isLowerAF a || isUpperAF a.

Definition unhex (a : ascii) : nat :=
  let n := nat_of_ascii a in
  if isDigit a then n - 48
  else if isLowerAF a then n - 97 + 10
  else if isUpperAF a then n - 65 + 10
  else 0.

(** First pass of [unescape]: every '%' must be followed by two hex digits. *)
Fixpoint wellEscaped (s : string) : bool :=
  match s with
  | String "%" r =>
      match r with
      | String h (String l _) => ishex h && ishex l && wellEscaped r
      | _ => false
      end
  | String _ r => wellEscaped r
  | EmptyString => true
  end.

(** Second pass of [unescape]; [skip] counts the hex digits of an escape
    still to be consumed. *)
Fixpoint decodeGo (skip : nat) (s : string) : string :=
  match s with
  | EmptyString => EmptyString
  | String a r =>
      match skip with
      | S k => decodeGo k r
      | O =>
          match a, r with
          | "%"%char, String h (String l _) =>
              String (ascii_of_nat (unhex h * 16 + unhex l)) (decodeGo 2 r)
          | "+"%char, _ => String " " (decodeGo O r)
          | _, _ => String a (decodeGo O r)
          end
      end
  end.

(** [url.QueryUnescape]: [None] stands for the [EscapeError] result. *)
Definition QueryUnescape (s : string) : option string :=
  if wellEscaped s then Some (decodeGo O s) else None.

Definition isAlnum (a : ascii) : bool :=
  let n := nat_of_ascii a in
  isDigit a || ((97 <=? n)%nat && (n <=? 122)%nat) || ((65 <=? n)%nat && (n <=? 90)%nat).

(** [shouldEscape c encodeQueryComponent]: only the unreserved bytes stay. *)
Definition shouldEscape (a : ascii) : bool :=
  negb (isAlnum a || existsb (Ascii.eqb a) (list_ascii_of_string "-_.~")).

Definition upperhex (n : nat) : ascii :=
  nth n (list_ascii_of_string "0123456789ABCDEF") "0"%char.

(** [url.QueryEscape] *)
Fixpoint QueryEscape (s : string) : string :=
  match s with
  | EmptyString => EmptyString
  | String a r =>
      if Ascii.eqb a " " then String "+" (QueryEscape r)
      else if shouldEscape a
      then String "%" (String (upperhex (nat_of_ascii a / 16))
                         (String (upperhex (nat_of_ascii a mod 16)) (QueryEscape r)))
      else String a (QueryEscape r)
  end.

End Url.

(** ** The outside world *)

(** The JSON document of the provider: the links of [items] and, when the
    [error] object is present, its message. *)
Record GoogleResponse := { Items : list string; Error : option string }.

(** Result of [httpGetJSON]: a transport or decoding error with its text, or
    a decoded response. *)
Inductive HttpResult :=
| HttpErr (msg : string)
| HttpOk (gr : GoogleResponse).

(** What the program reads from its environment.  Each oracle is asked at
    the current tick. *)
Record Env := {
  (** [time.Now().UnixNano()]; non-negative for any clock after 1970 *)
  unixNano : nat -> N;
  (** [ctx.Err() != nil] *)
  ctxErr : nat -> bool;
  (** the transport: outcome of one GET of the given URL *)
  httpGet : nat -> string -> HttpResult;
  (** the order in which [range] visits the entries of a map *)
  rangeOrder : nat -> list (string * string) -> list (string * string);
  (** [url.Parse raw]: [None] on error, otherwise [u.Host] *)
  urlParseHost : string -> option string;
  (** [strings.ToLower] of a string that holds a byte above 127 *)
  toLowerUnicode : string -> string
}.

(** The file system: the paths that exist ([os.Stat] succeeds) with their
    contents; those among them that cannot be read ([os.Open] or the read
    fails: a directory, no permission); and the paths that
    [os.OpenFile(p, O_CREATE|O_WRONLY|O_APPEND)] refuses (a directory, a
    missing parent, no permission). *)
Record FileSys := {
  files : gmap string string;
  noRead : gset string;
  noAppend : gset string
}.

(** Observable steps of a run.  [EvGet] and [EvSleep] are the transport
    calls and the pacing sleeps; the others mark control points of
    [dorkRun] and [readDomainsFile]. *)
Inductive Event :=
| EvCheck (cancelled : bool)
| EvPage (page : Z)
| EvAttempt (page : Z) (apiKey : string)
| EvGet (apiKey : string) (u : string) (r : HttpResult)
| EvFound (page : Z) (links : list string)
| EvDelay (found : bool) (old new : float)
| EvSleep (d : float)
| EvTarget (target : string) (pool : list string) (dStart : float) (exStart : gset string)
           (dEnd : float) (exEnd : gset string).

(** Mutable state outside [Config]: the oracle tick, the files, the maps
    allocated on the heap (a [map[string]struct{}] is a set of keys), the two
    output streams (one entry per line) and the trace. *)
Record World := {
  tick : nat;
  fs : FileSys;
  maps : gmap nat (gset string);
  stdout : list string;
  stderr : list string;
  trace : list Event
}.

Definition M (A : Type) : Type := World -> A * World.

Definition ret {A} (a : A) : M A := fun w => (a, w).
Definition bind {A B} (m : M A) (k : A -> M B) : M B :=
  fun w => let (a, w') := m w in k a w'.

Declare Scope m_scope.
Delimit Scope m_scope with M.
Notation "'let*' x := m 'in' k" := (bind m (fun x => k))
  (at level 10, x pattern, m at level 200, k at level 200) : m_scope.
Notation "m ;; k" := (bind m (fun _ => k))
  (at level 100, k at level 200, right associativity) : m_scope.
Local Open Scope m_scope.

Definition nextTick : M nat :=
  fun w => (tick w, {| tick := S (tick w); fs := fs w; maps := maps w;
                       stdout := stdout w; stderr := stderr w; trace := trace w |}).

Definition emit (e : Event) : M unit :=
  fun w => (tt, {| tick := tick w; fs := fs w; maps := maps w;
                   stdout := stdout w; stderr := stderr w; trace := trace w ++ [e] |}).

(** [fmt.Println] / [fmt.Printf] of one line *)
Definition println (s : string) : M unit :=
  fun w => (tt, {| tick := tick w; fs := fs w; maps := maps w;
                   stdout := stdout w ++ [s]; stderr := stderr w; trace := trace w |}).

(** [logErr] *)
Definition logErr (s : string) : M unit :=
  fun w => (tt, {| tick := tick w; fs := fs w; maps := maps w;
                   stdout := stdout w; stderr := stderr w ++ [s]; trace := trace w |}).

(** [logv] *)
Definition logv (v : bool) (s : string) : M unit :=
  if v then println s else ret tt.

Definition getFs : M FileSys := fun w => (fs w, w).

Definition putFs (f : FileSys) : M unit :=
  fun w => (tt, {| tick := tick w; fs := f; maps := maps w;
                   stdout := stdout w; stderr := stderr w; trace := trace w |}).

(** Reading a Go map through its reference; a reference that was never
    allocated reads as the empty map. *)
Definition mapAt (l : nat) : M (gset string) :=
  fun w => (default ∅ (maps w !! l), w).

(** [m[k] = struct{}{}] *)
Definition mapAdd (l : nat) (k : string) : M unit :=
  fun w => (tt, {| tick := tick w; fs := fs w;
                   maps := <[l := {[k]} ∪ default ∅ (maps w !! l)]> (maps w);
                   stdout := stdout w; stderr := stderr w; trace := trace w |}).

(** [time.Sleep] *)
Definition sleep (d : float) : M unit := emit (EvSleep d).

(** ** [Config]

    The struct of the program, field for field.  [exhaustedKeys] is a Go map,
    hence a reference: the field holds the address of the map in [maps], and
    a copy of the struct ([c2 := *c]) copies the address, not the set.  The
    HTTP client is not a field here: the transport is the oracle [httpGet]. *)
Record Config := {
  target : string;
  pages : Z;
  dork : string;
  exclusions : string;
  contents : string;
  delay : float;
  dictionary : string;
  extension : string;
  outputPath : string;
  domainsFile : string;
  proxy : string;
  includeSubdomains : bool;
  subdomainMode : bool;
  verbose : bool;
  excludeTargets : string;
  inFile : string;
  inUrl : string;
  apiKeys : list string;
  exhaustedKeys : nat;
  dynamicDelay : float;
  requestStore : list string;
  resultsFound : bool;
  requestCounter : Z;
  noResultCounter : Z
}.

Definition set_target (v : string) (c : Config) : Config :=
  {| target := v; pages := pages c; dork := dork c; exclusions := exclusions c;
     contents := contents c; delay := delay c; dictionary := dictionary c;
     extension := extension c; outputPath := outputPath c;
     domainsFile := domainsFile c; proxy := proxy c;
     includeSubdomains := includeSubdomains c; subdomainMode := subdomainMode c;
     verbose := verbose c; excludeTargets := excludeTargets c; inFile := inFile c;
     inUrl := inUrl c; apiKeys := apiKeys c; exhaustedKeys := exhaustedKeys c;
     dynamicDelay := dynamicDelay c; requestStore := requestStore c;
     resultsFound := resultsFound c; requestCounter := requestCounter c;
     noResultCounter := noResultCounter c |}.

Definition set_pages (v : Z) (c : Config) : Config :=
  {| target := target c; pages := v; dork := dork c; exclusions := exclusions c;
     contents := contents c; delay := delay c; dictionary := dictionary c;
     extension := extension c; outputPath := outputPath c;
     domainsFile := domainsFile c; proxy := proxy c;
     includeSubdomains := includeSubdomains c; subdomainMode := subdomainMode c;
     verbose := verbose c; excludeTargets := excludeTargets c; inFile := inFile c;
     inUrl := inUrl c; apiKeys := apiKeys c; exhaustedKeys := exhaustedKeys c;
     dynamicDelay := dynamicDelay c; requestStore := requestStore c;
     resultsFound := resultsFound c; requestCounter := requestCounter c;
     noResultCounter := noResultCounter c |}.

Definition set_contents (v : string) (c : Config) : Config :=
  {| target := target c; pages := pages c; dork := dork c; exclusions := exclusions c;
     contents := v; delay := delay c; dictionary := dictionary c;
     extension := extension c; outputPath := outputPath c;
     domainsFile := domainsFile c; proxy := proxy c;
     includeSubdomains := includeSubdomains c; subdomainMode := subdomainMode c;
     verbose := verbose c; excludeTargets := excludeTargets c; inFile := inFile c;
     inUrl := inUrl c; apiKeys := apiKeys c; exhaustedKeys := exhaustedKeys c;
     dynamicDelay := dynamicDelay c; requestStore := requestStore c;
     resultsFound := resultsFound c; requestCounter := requestCounter c;
     noResultCounter := noResultCounter c |}.

Definition set_inFile (v : string) (c : Config) : Config :=
  {| target := target c; pages := pages c; dork := dork c; exclusions := exclusions c;
     contents := contents c; delay := delay c; dictionary := dictionary c;
     extension := extension c; outputPath := outputPath c;
     domainsFile := domainsFile c; proxy := proxy c;
     includeSubdomains := includeSubdomains c; subdomainMode := subdomainMode c;
     verbose := verbose c; excludeTargets := excludeTargets c; inFile := v;
     inUrl := inUrl c; apiKeys := apiKeys c; exhaustedKeys := exhaustedKeys c;
     dynamicDelay := dynamicDelay c; requestStore := requestStore c;
     resultsFound := resultsFound c; requestCounter := requestCounter c;
     noResultCounter := noResultCounter c |}.

Definition set_inUrl (v : string) (c : Config) : Config :=
  {| target := target c; pages := pages c; dork := dork c; exclusions := exclusions c;
     contents := contents c; delay := delay c; dictionary := dictionary c;
     extension := extension c; outputPath := outputPath c;
     domainsFile := domainsFile c; proxy := proxy c;
     includeSubdomains := includeSubdomains c; subdomainMode := subdomainMode c;
     verbose := verbose c; excludeTargets := excludeTargets c; inFile := inFile c;
     inUrl := v; apiKeys := apiKeys c; exhaustedKeys := exhaustedKeys c;
     dynamicDelay := dynamicDelay c; requestStore := requestStore c;
     resultsFound := resultsFound c; requestCounter := requestCounter c;
     noResultCounter := noResultCounter c |}.

Definition set_dynamicDelay (v : float) (c : Config) : Config :=
  {| target := target c; pages := pages c; dork := dork c; exclusions := exclusions c;
     contents := contents c; delay := delay c; dictionary := dictionary c;
     extension := extension c; outputPath := outputPath c;
     domainsFile := domainsFile c; proxy := proxy c;
     includeSubdomains := includeSubdomains c; subdomainMode := subdomainMode c;
     verbose := verbose c; excludeTargets := excludeTargets c; inFile := inFile c;
     inUrl := inUrl c; apiKeys := apiKeys c; exhaustedKeys := exhaustedKeys c;
     dynamicDelay := v; requestStore := requestStore c;
     resultsFound := resultsFound c; requestCounter := requestCounter c;
     noResultCounter := noResultCounter c |}.

Definition set_requestStore (v : list string) (c : Config) : Config :=
  {| target := target c; pages := pages c; dork := dork c; exclusions := exclusions c;
     contents := contents c; delay := delay c; dictionary := dictionary c;
     extension := extension c; outputPath := outputPath c;
     domainsFile := domainsFile c; proxy := proxy c;
     includeSubdomains := includeSubdomains c; subdomainMode := subdomainMode c;
     verbose := verbose c; excludeTargets := excludeTargets c; inFile := inFile c;
     inUrl := inUrl c; apiKeys := apiKeys c; exhaustedKeys := exhaustedKeys c;
     dynamicDelay := dynamicDelay c; requestStore := v;
     resultsFound := resultsFound c; requestCounter := requestCounter c;
     noResultCounter := noResultCounter c |}.

Definition set_resultsFound (v : bool) (c : Config) : Config :=
  {| target := target c; pages := pages c; dork := dork c; exclusions := exclusions c;
     contents := contents c; delay := delay c; dictionary := dictionary c;
     extension := extension c; outputPath := outputPath c;
     domainsFile := domainsFile c; proxy := proxy c;
     includeSubdomains := includeSubdomains c; subdomainMode := subdomainMode c;
     verbose := verbose c; excludeTargets := excludeTargets c; inFile := inFile c;
     inUrl := inUrl c; apiKeys := apiKeys c; exhaustedKeys := exhaustedKeys c;
     dynamicDelay := dynamicDelay c; requestStore := requestStore c;
     resultsFound := v; requestCounter := requestCounter c;
     noResultCounter := noResultCounter c |}.

Definition set_requestCounter (v : Z) (c : Config) : Config :=
  {| target := target c; pages := pages c; dork := dork c; exclusions := exclusions c;
     contents := contents c; delay := delay c; dictionary := dictionary c;
     extension := extension c; outputPath := outputPath c;
     domainsFile := domainsFile c; proxy := proxy c;
     includeSubdomains := includeSubdomains c; subdomainMode := subdomainMode c;
     verbose := verbose c; excludeTargets := excludeTargets c; inFile := inFile c;
     inUrl := inUrl c; apiKeys := apiKeys c; exhaustedKeys := exhaustedKeys c;
     dynamicDelay := dynamicDelay c; requestStore := requestStore c;
     resultsFound := resultsFound c; requestCounter := v;
     noResultCounter := noResultCounter c |}.

Definition set_noResultCounter (v : Z) (c : Config) : Config :=
  {| target := target c; pages := pages c; dork := dork c; exclusions := exclusions c;
     contents := contents c; delay := delay c; dictionary := dictionary c;
     extension := extension c; outputPath := outputPath c;
     domainsFile := domainsFile c; proxy := proxy c;
     includeSubdomains := includeSubdomains c; subdomainMode := subdomainMode c;
     verbose := verbose c; excludeTargets := excludeTargets c; inFile := inFile c;
     inUrl := inUrl c; apiKeys := apiKeys c; exhaustedKeys := exhaustedKeys c;
     dynamicDelay := dynamicDelay c; requestStore := requestStore c;
     resultsFound := resultsFound c; requestCounter := requestCounter c;
     noResultCounter := v |}.

Definition defaultAPIURL : string := "https://www.googleapis.com/customsearch/v1".
Definition defaultCX : string := "759aed2f7b4be4b83".

(** The [float64] nearest to 0.05, 0.1 and 0.25: the constants of the
    adaptive delay. *)
Definition delayStepDown : float := 0x1.999999999999ap-5%float.
Definition delayStepUp : float := 0x1.999999999999ap-4%float.
Definition delayInitial : float := 0.25%float.

(** Go's [int] is 64 bits wide. *)
Definition wrap64 (z : Z) : Z := (z + 2 ^ 63) mod 2 ^ 64 - 2 ^ 63.

Definition nonEmpty (s : string) : bool := negb (String.eqb s EmptyString).

(** ** Pure helpers of the program *)

(** [uniqueStrings], with its [seen] map. *)
Fixpoint uniqueGo (seen : gset string) (l : list string) : list string :=
  match l with
  | [] => []
  | s :: r =>
      if String.eqb s EmptyString then uniqueGo seen r
      else if bool_decide (s ∈ seen) then uniqueGo seen r
      else s :: uniqueGo ({[s]} ∪ seen) r
  end.

Definition uniqueStrings (l : list string) : list string := uniqueGo ∅ l.

(** [sort.Strings]: byte-wise lexicographic order. *)
Definition sortStrings (l : list string) : list string := merge_sort String.le l.

(** The replacement table of [urlDecodeLikeSed]. *)
Definition repls : list (string * string) :=
  [("%2520", " "); ("%20", " "); ("%3F", "?"); ("%3D", "="); ("%21", "!");
   ("%23", "#"); ("%24", "$"); ("%2B", "+"); ("%26", "&")].

(** The loop [for k, v := range repls] over the entries in the visited order. *)
Definition applyRepls (order : list (string * string)) (decoded : string) : string :=
  fold_left (fun d kv => Strings.ReplaceAll d (fst kv) (snd kv)) order decoded.

(** [googleHostFilter.MatchString]: the pattern [(?i)google] matches any
    string holding the marker in any letter case.  The letters of the marker
    fold to their ASCII capitals only, so the bytes are compared after
    lowering [A] to [Z]. *)
Definition googleHostFilter (l : string) : bool :=
  Strings.Contains (Strings.lowerASCII l) "google".

(** [strings.Contains(strings.ToLower(msg), "quota")].  The lowered message
    holds the marker exactly when the message holds it with each letter in
    either ASCII case: [unicode.ToLower] sends no rune from outside ASCII to
    a letter of the marker (the only ASCII letters it reaches from there are
    [i], from U+0130, and [k], from U+212A), and the bytes of the other
    runes, or of the replacement written for a malformed byte, are above
    127. *)
Definition holdsQuota (msg : string) : bool :=
  Strings.Contains (Strings.lowerASCII msg) "quota".

(** The parts collected by [buildExclusions] when the argument is not a file. *)
Definition trimmedNonBlank (l : list string) : list string :=
  filter (fun ex => nonEmpty ex = true) (map Strings.TrimSpace l).

(** The tail of [buildExclusions]: the clause written from [parts]. *)
Definition exclusionClause (parts : list string) : string :=
  match parts with
  | [] => EmptyString
  | p0 :: rest => fold_left (fun b p => b +:+ "+-" +:+ p) rest ("-site:" +:+ p0)
  end.

Definition newline : string := String (ascii_of_nat 10) EmptyString.

(** [bufio.MaxScanTokenSize] *)
Definition maxScanTokenSize : N := 65536.

(** The loop [for sc.Scan()] over the pieces between the newlines: the
    lines scanned, and whether [sc.Err()] is nil at the end.  A line of
    [maxScanTokenSize] bytes or more does not fit the buffer of the scanner:
    the scan stops there with [bufio.ErrTooLong]. *)
Fixpoint scanGo (pieces : list string) : list string * bool :=
  match pieces with
  | [] => ([], true)
  | l :: rest =>
      if (N.of_nat (String.length l) <? maxScanTokenSize)%N
      then let (ls, ok) := scanGo rest in (l :: ls, ok)
      else ([], false)
  end.

(** A [bufio.Scanner] over a file's contents. *)
Definition scanLines (content : string) : list string * bool :=
  scanGo (Strings.Split content newline).

(** The lines collected by the loop of [readLines]: those scanned, trimmed,
    the blank ones dropped. *)
Definition linesOf (content : string) : list string :=
  trimmedNonBlank (fst (scanLines content)).

(** Whether the scan of the whole file ends without error. *)
Definition scanOk (content : string) : bool := snd (scanLines content).

(** ** The program *)

Section Program.

Variable env : Env.

(** [ctx.Err() != nil], one of the cancellation check points. *)
Definition ctxCancelled : M bool :=
  let* t := nextTick in
  emit (EvCheck (ctxErr env t));;
  ret (ctxErr env t).

(** [fileExists] *)
Definition fileExists (p : string) : M bool :=
  let* f := getFs in ret (bool_decide (is_Some (files f !! p))).

(** [readLines]: the lines and whether [err] is nil.  When the scanner
    stops with an error the lines read before it are returned with it. *)
Definition readLines (p : string) : M (list string * bool) :=
  let* f := getFs in
  match files f !! p with
  | None => ret ([], false)
  | Some content =>
      if bool_decide (p ∈ noRead f) then ret ([], false)
      else ret (linesOf content, scanOk content)
  end.

(** [getRandomApiKey]: [None] is the error result. *)
Definition getRandomApiKey (c : Config) : M (option string) :=
  let* ex := mapAt (exhaustedKeys c) in
  let available := filter (fun k => k ∉ ex) (apiKeys c) in
  if (length available =? 0)%nat then ret None
  else
    let* t := nextTick in
    let idx := (unixNano env t mod N.of_nat (length available))%N in
    ret (Some (nth (N.to_nat idx) available EmptyString)).

(** [buildExclusions] *)
Definition buildExclusions (exclusions : string) (multiline : bool) : M string :=
  let* isFile := fileExists exclusions in
  if isFile then
    let* (lines, ok) := readLines exclusions in
    ret (exclusionClause (trimmedNonBlank lines))
  else if Strings.Contains exclusions ","
  then ret (exclusionClause (trimmedNonBlank (Strings.Split exclusions ",")))
  else ret (exclusionClause [Strings.TrimSpace exclusions]).

Definition intext (s : string) : string :=
  "intext:" +:+ Strings.dquote +:+ s +:+ Strings.dquote.

(** [buildContentsQuery] *)
Definition buildContentsQuery (contents : string) : M string :=
  let* isFile := fileExists contents in
  if isFile then
    let* (lines, ok) := readLines contents in
    match lines with
    | l0 :: _ => ret (intext l0)
    | [] => ret EmptyString
    end
  else if Strings.Contains contents ","
  then ret (Strings.Join (map intext (trimmedNonBlank (Strings.Split contents ","))) " OR ")
  else ret (intext contents).

(** [clean] of [buildInurlQuery] *)
Definition clean (s : string) : string :=
  Strings.Trim (Strings.TrimSpace s) Strings.dquote.

Definition cleanNonBlank (l : list string) : list string :=
  filter (fun t => nonEmpty t = true) (map clean l).

(** [buildInurlQuery] *)
Definition buildInurlQuery (dict : string) : M string :=
  let* isFile := fileExists dict in
  if isFile then
    let* (lines, ok) := readLines dict in
    ret (Strings.Join (cleanNonBlank lines) "|||")
  else if Strings.Contains dict ","
  then ret (Strings.Join (cleanNonBlank (Strings.Split dict ",")) "|||")
  else ret (Strings.Join (cleanNonBlank [dict]) "|||").

Definition printAll (l : list string) : M unit :=
  fun w => (tt, {| tick := tick w; fs := fs w; maps := maps w;
                   stdout := stdout w ++ l; stderr := stderr w; trace := trace w |}).

(** The lines [outputOrPrintUnique] appends: those of [uniq] not yet in
    [existing], each remembered once written. *)
Fixpoint newLines (existing : gset string) (uniq : list string) : list string :=
  match uniq with
  | [] => []
  | u :: r =>
      if bool_decide (u ∈ existing) then newLines existing r
      else u :: newLines ({[u]} ∪ existing) r
  end.

(** [outputOrPrintUnique].  The text of the operating system's error in
    the message on standard error is left out. *)
Definition outputOrPrintUnique (urls : list string) (outputPath : string) : M unit :=
  let uniq := sortStrings (uniqueStrings urls) in
  if String.eqb outputPath EmptyString then printAll uniq
  else
    let* isFile := fileExists outputPath in
    let* existing := (if isFile
                then let* (lines, ok) := readLines outputPath in ret (list_to_set lines)
                else ret (∅ : gset string)) in
    let* f := getFs in
    if bool_decide (outputPath ∈ noAppend f)
    then logErr "[!] cannot open output file";; printAll uniq
    else
      let added := String.concat EmptyString
                     (map (fun u => u +:+ newline) (newLines existing uniq)) in
      putFs {| files := <[outputPath := default EmptyString (files f !! outputPath) +:+ added]>
                          (files f);
               noRead := noRead f; noAppend := noAppend f |}.

(** [notFound] keeps silent. *)
Definition notFound (c : Config) : M unit := ret tt.

(** [urlDecodeLikeSed] *)
Definition urlDecodeLikeSed (s : string) : M string :=
  let decoded := default s (Url.QueryUnescape s) in
  let* t := nextTick in
  ret (applyRepls (rangeOrder env t repls) decoded).

(** The loop of [filterLinks], before [uniqueStrings]. *)
Fixpoint filterLoop (items : list string) (target : string) : M (list string) :=
  match items with
  | [] => ret []
  | l :: rest =>
      if String.eqb l EmptyString then filterLoop rest target
      else if negb (Strings.Contains (Strings.ToLower (toLowerUnicode env) l)
                                     (Strings.ToLower (toLowerUnicode env) target))
      then filterLoop rest target
      else if googleHostFilter l then filterLoop rest target
      else
        let* d := urlDecodeLikeSed l in
        let* out := filterLoop rest target in
        ret (d :: out)
  end.

(** [filterLinks] *)
Definition filterLinks (items : list string) (target : string) : M (list string) :=
  let* out := filterLoop items target in
  ret (uniqueStrings out).

(** [delayControl] *)
Definition delayControl (c : Config) : M unit :=
  let d := if (0 <? delay c)%float then delay c else dynamicDelay c in
  if (0 <? d)%float then sleep d else ret tt.

(** *** [dorkRun] *)

(** [withExcl] *)
Definition withExcl (c : Config) (q : string) : string :=
  if nonEmpty (excludeTargets c) then q +:+ " " +:+ excludeTargets c else q.

(** [buildOne] *)
Definition buildOne (base q : string) : string :=
  base +:+ "&q=" +:+ Url.QueryEscape (Strings.TrimSpace q).

(** [base] *)
Definition baseURL (apiKey : string) (startIdx : Z) : string :=
  defaultAPIURL +:+ "?key=" +:+ Url.QueryEscape apiKey +:+ "&cx=" +:+
  Url.QueryEscape defaultCX +:+ "&start=" +:+ Strings.Itoa startIdx.

(** The sub-domain prefixes negated by the widest custom-dork query that
    are given an operand. *)
Definition noisePrefixes : list string :=
  ["www"; "techblog"; "infohub"; "blog"; "store"; "support"; "help"; "addons";
   "forum"; "community"; "docs"; "developer"; "about"; "resources"; "cdn";
   "career"; "faq"; "news"; "jobs"; "library"; "id"; "blogs"; "faq"; "trust";
   "forums"; "dl"].

(** The tail of that query.  Its format has one verb more than the call has
    operands: [fmt.Sprintf] writes [%!s(MISSING)] for the last one. *)
Definition negated (t : string) (prefixes : list string) : string :=
  String.concat EmptyString (map (fun p => " -" +:+ p +:+ "." +:+ t) prefixes) +:+
  " -downloads.%!s(MISSING)".

(** The terms of the dictionary case. *)
Definition dictTerms (c : Config) : list string :=
  let terms := if nonEmpty (inUrl c) then Strings.Split (inUrl c) "|||" else [] in
  if (length terms =? 0)%nat then [dictionary c] else terms.

Definition inurl (pfx term : string) : string :=
  pfx +:+ " inurl:" +:+ Strings.dquote +:+ Strings.TrimSpace term +:+ Strings.dquote.

(** The [switch] of [dorkRun]: the request URLs of one attempt. *)
Definition buildURLs (c : Config) (ext : string) (base : string) : list string :=
  let t := target c in
  if nonEmpty (dork c) then
    if includeSubdomains c then
      [ buildOne base (withExcl c ("site:*." +:+ t +:+ " " +:+ dork c +:+ " -www." +:+ t));
        buildOne base (withExcl c ("site:*.*." +:+ t +:+ " " +:+ dork c));
        buildOne base (withExcl c ("site:*.*.*." +:+ t +:+ " " +:+ dork c));
        buildOne base (withExcl c ("site:*." +:+ t +:+ " " +:+ dork c +:+ negated t noisePrefixes)) ]
    else [ buildOne base (withExcl c ("site:" +:+ t +:+ " " +:+ dork c)) ]
  else if nonEmpty ext then
    let extToken := Strings.TrimSpace ext in
    let buildQ scope :=
      [ withExcl c (scope +:+ " filetype:" +:+ extToken);
        withExcl c (scope +:+ " ext:" +:+ extToken) ] in
    if includeSubdomains c then
      flat_map (fun scope => map (buildOne base) (buildQ scope))
        [ "site:" +:+ t; "site:*." +:+ t; "site:*.*." +:+ t; "site:*.*.*." +:+ t ]
    else map (buildOne base) (buildQ ("site:" +:+ t))
  else if nonEmpty (dictionary c) then
    let buildQ pfx term := withExcl c (inurl pfx term) in
    let terms := filter (fun x => nonEmpty x = true) (map Strings.TrimSpace (dictTerms c)) in
    if includeSubdomains c then
      flat_map (fun x =>
        [ buildOne base (buildQ ("site:*." +:+ t) x);
          buildOne base (buildQ ("site:*.*." +:+ t) x);
          buildOne base (buildQ ("site:*.*.*." +:+ t) x) ]) terms
    else map (fun x => buildOne base (buildQ ("site:" +:+ t) x)) terms
  else if nonEmpty (contents c) then
    let buildQ pfx := withExcl c (pfx +:+ " " +:+ inFile c) in
    if includeSubdomains c then
      [ buildOne base (buildQ ("site:*." +:+ t));
        buildOne base (buildQ ("site:*.*." +:+ t));
        buildOne base (buildQ ("site:*.*.*." +:+ t)) ]
    else [ buildOne base (buildQ ("site:" +:+ t)) ]
  else [ buildOne base (withExcl c ("site:" +:+ t)) ].

(** [httpGetJSON]: one transport call. *)
Definition httpGetJSON (u : string) : M HttpResult :=
  let* t := nextTick in ret (httpGet env t u).

(** The loop [for _, u := range urls] of one attempt; [None] when the
    cancellation check made [dorkRun] return. *)
Fixpoint urlLoop (c : Config) (apiKey : string) (urls : list string)
    (combined : list string) (respErr : option string)
    : M (option (list string * option string)) :=
  match urls with
  | [] => ret (Some (combined, respErr))
  | u :: rest =>
      let* cancelled := ctxCancelled in
      if cancelled then ret None
      else
        let* r := httpGetJSON u in
        emit (EvGet apiKey u r);;
        match r with
        | HttpErr msg => urlLoop c apiKey rest combined (Some msg)
        | HttpOk gr =>
            match Error gr with
            | Some msg =>
                if nonEmpty msg then
                  (if holdsQuota msg
                   then mapAdd (exhaustedKeys c) apiKey else ret tt);;
                  urlLoop c apiKey rest combined (Some msg)
                else
                  let* links := filterLinks (Items gr) (target c) in
                  urlLoop c apiKey rest (combined ++ links) respErr
            | None =>
                let* links := filterLinks (Items gr) (target c) in
                urlLoop c apiKey rest (combined ++ links) respErr
            end
        end
  end.

(** How one pass through the body of the attempt loop ends. *)
Inductive AttemptEnd :=
| Return                       (* [return c.requestStore] *)
| Break                        (* [break]: links were found *)
| Next (triedKeys : Z).        (* falls through to the loop test *)

(** The end of the body of the attempt loop, from [combined =
    uniqueStrings(combined)] on. *)
Definition settleAttempt (page triedKeys maxTries : Z) (c : Config)
    (combined : list string) (respErr : option string) : M (Config * AttemptEnd) :=
  let combined := uniqueStrings combined in
  if (0 <? length combined)%nat then
    emit (EvFound page combined);;
    let c := set_requestStore (requestStore c ++ combined) c in
    let c := set_resultsFound true c in
    let c := set_noResultCounter 0 c in
    let c := set_requestCounter (requestCounter c + 1) c in
    if (delay c =? 0)%float && (delayStepDown <? dynamicDelay c)%float
    then
      let old := dynamicDelay c in
      let c := set_dynamicDelay (dynamicDelay c - delayStepDown)%float c in
      emit (EvDelay true old (dynamicDelay c));;
      ret (c, Break)
    else ret (c, Break)
  else
    match respErr with
    | Some msg =>
        logv (verbose c) ("Error: " +:+ msg);;
        delayControl c;;
        ret (c, Next (triedKeys + 1))
    | None =>
        delayControl c;;
        let c := set_noResultCounter (noResultCounter c + 1) c in
        if (delay c =? 0)%float
        then
          let old := dynamicDelay c in
          let c := set_dynamicDelay (dynamicDelay c + delayStepUp)%float c in
          emit (EvDelay false old (dynamicDelay c));;
          delayControl c;;
          ret (c, Next maxTries)
        else
          delayControl c;;
          ret (c, Next maxTries)
    end.

(** The body of [for triedKeys < maxTries]. *)
Definition attemptBody (page startIdx triedKeys maxTries : Z) (ext : string) (c : Config)
    : M (Config * AttemptEnd) :=
  let* cancelled := ctxCancelled in
  if cancelled then ret (c, Return)
  else
    let* k := getRandomApiKey c in
    match k with
    | None => logErr "No valid API keys remaining.";; ret (c, Return)
    | Some apiKey =>
        if String.eqb apiKey EmptyString
        then logErr "No valid API keys remaining.";; ret (c, Return)
        else
          logv (verbose c) ("Using API Key: " +:+ apiKey);;
          emit (EvAttempt page apiKey);;
          let urls := buildURLs c ext (baseURL apiKey startIdx) in
          let* r := urlLoop c apiKey urls [] None in
          match r with
          | None => ret (c, Return)
          | Some (combined, respErr) =>
              settleAttempt page triedKeys maxTries c combined respErr
          end
    end.

(** [for triedKeys < maxTries]; the flag tells whether [dorkRun] returned
    from inside.  [fuel] bounds the number of passes. *)
Fixpoint attemptLoop (fuel : nat) (page startIdx triedKeys maxTries : Z) (ext : string)
    (c : Config) : M (Config * bool) :=
  match fuel with
  | O => ret (c, false)
  | S fuel' =>
      if (triedKeys <? maxTries)%Z then
        let* (c', e) := attemptBody page startIdx triedKeys maxTries ext c in
        match e with
        | Return => ret (c', true)
        | Break => ret (c', false)
        | Next tk => attemptLoop fuel' page startIdx tk maxTries ext c'
        end
      else ret (c, false)
  end.

(** [for page < c.pages]; the flag tells whether [dorkRun] returned from
    inside. *)
Fixpoint pageLoop (fuel : nat) (page : Z) (ext : string) (c : Config) : M (Config * bool) :=
  match fuel with
  | O => ret (c, false)
  | S fuel' =>
      if (page <? pages c)%Z then
        let* cancelled := ctxCancelled in
        if cancelled then ret (c, true)
        else
          emit (EvPage page);;
          let startIdx := wrap64 (page * 10 + 1) in
          let maxTries := Z.of_nat (length (apiKeys c)) in
          let* (c', returned) :=
            attemptLoop (length (apiKeys c)) page startIdx 0 maxTries ext c in
          if returned then ret (c', true)
          else if negb (resultsFound c') then ret (c', false)
          else pageLoop fuel' (page + 1) ext (set_resultsFound false c')
      else ret (c, false)
  end.

(** The assignments at the head of [dorkRun]. *)
Definition resetRun (c : Config) : Config :=
  let c := set_requestStore [] c in
  let c := set_requestCounter 0 c in
  let c := set_noResultCounter 0 c in
  let c := set_resultsFound false c in
  if (pages c =? 0)%Z then set_pages 10 c else c.

(** [dorkRun]: the returned slice and the receiver as the call leaves it. *)
Definition dorkRun (c : Config) (ext : string) : M (list string * Config) :=
  let c := resetRun c in
  let* (c', returned) := pageLoop (Z.to_nat (pages c)) 0 ext c in
  if returned then ret (requestStore c', c')
  else if (length (requestStore c') =? 0)%nat
  then notFound c';; ret ([], c')
  else ret (requestStore c', c').

(** *** The modes *)

Definition printTarget (c : Config) : M unit :=
  logv (verbose c) ("Target: " +:+ target c).

(** [dictionaryAttack] *)
Definition dictionaryAttack (c : Config) : M Config :=
  printTarget c;;
  let* c := (if nonEmpty (inUrl c) then ret c
             else let* q := buildInurlQuery (dictionary c) in ret (set_inUrl q c)) in
  let* (res, c) := dorkRun c EmptyString in
  if (length res =? 0)%nat then notFound c;; ret c
  else outputOrPrintUnique res (outputPath c);; ret c.

(** The list [exts] of [extensionAttack]. *)
Definition extensionList (c : Config) : M (list string) :=
  let* isFile := fileExists (extension c) in
  if isFile then let* (lines, ok) := readLines (extension c) in ret lines
  else if Strings.Contains (extension c) ","
  then ret (trimmedNonBlank (Strings.Split (extension c) ","))
  else if nonEmpty (extension c) then ret [Strings.TrimSpace (extension c)]
  else ret [].

(** The loop [for _, ext := range exts]; [None] when cancellation made
    [extensionAttack] return. *)
Fixpoint extensionLoop (exts : list string) (all : list string) (c : Config)
    : M (option (list string) * Config) :=
  match exts with
  | [] => ret (Some all, c)
  | ext :: rest =>
      let* cancelled := ctxCancelled in
      if cancelled
      then logErr "Operation cancelled: context canceled";; ret (None, c)
      else
        logv (verbose c) ("Checking extension: " +:+ ext);;
        let* (res, c) := dorkRun c ext in
        extensionLoop rest (if (0 <? length res)%nat then all ++ res else all) c
  end.

(** [extensionAttack] *)
Definition extensionAttack (c : Config) : M Config :=
  let* exts := extensionList c in
  let* (r, c) := extensionLoop exts [] c in
  match r with
  | None => ret c
  | Some all =>
      if (length all =? 0)%nat then notFound c;; ret c
      else
        let all := uniqueStrings all in
        if nonEmpty (outputPath c) then outputOrPrintUnique all (outputPath c);; ret c
        else printAll all;; ret c
  end.

(** [hostOf] *)
Definition hostOf (raw : string) : string :=
  let withScheme :=
    if negb (Strings.HasPrefix raw "http://") && negb (Strings.HasPrefix raw "https://")
    then default EmptyString (urlParseHost env ("http://" +:+ raw))
    else EmptyString in
  match urlParseHost env raw with
  | Some h => if nonEmpty h then h else withScheme
  | None => withScheme
  end.

(** [subdomainAttack]; the hosts are sorted after the [range] over
    [hostSet], so the order of that [range] does not show. *)
Definition subdomainAttack (c : Config) : M Config :=
  printTarget c;;
  let* (res, c) := dorkRun c EmptyString in
  if (length res =? 0)%nat then notFound c;; ret c
  else
    let hostSet : gset string :=
      list_to_set (filter (fun h => nonEmpty h = true) (map hostOf res)) in
    let hosts := sortStrings (elements hostSet) in
    if nonEmpty (outputPath c) then outputOrPrintUnique hosts (outputPath c);; ret c
    else printAll hosts;; ret c.

(** The loop over the lines of a contents file: every line runs on a
    copy [c2] of the configuration. *)
Fixpoint contentsLoop (lines : list string) (c : Config) : M unit :=
  match lines with
  | [] => ret tt
  | content :: rest =>
      let c2 := set_inFile (intext content) (set_contents content c) in
      let* (res, c2) := dorkRun c2 EmptyString in
      (if (length res =? 0)%nat then notFound c2
       else
         logv (verbose c2) ("Files found containing: " +:+ content);;
         outputOrPrintUnique res (outputPath c2));;
      contentsLoop rest c
  end.

(** [contentsAttack] *)
Definition contentsAttack (c : Config) : M Config :=
  printTarget c;;
  let* isFile := fileExists (contents c) in
  if isFile then
    let* (lines, ok) := readLines (contents c) in
    contentsLoop lines c;; ret c
  else
    let* q := buildContentsQuery (contents c) in
    let c := set_inFile q c in
    let* (res, c) := dorkRun c EmptyString in
    if (length res =? 0)%nat then notFound c;; ret c
    else outputOrPrintUnique res (outputPath c);; ret c.

(** *** [readDomainsFile] *)

(** Runs one target's mode on the copy [c2] and records, as [EvTarget],
    the credential pool of the copy, the adaptive delay the copy started
    and ended with and what the exhausted-key map of the copy held before
    and after. *)
Definition observeTarget {A} (c2 : Config) (run : M (A * Config)) : M A :=
  let* ex0 := mapAt (exhaustedKeys c2) in
  let* (a, c2') := run in
  let* ex1 := mapAt (exhaustedKeys c2) in
  emit (EvTarget (target c2) (apiKeys c2) (dynamicDelay c2) ex0 (dynamicDelay c2') ex1);;
  ret a.

Definition ctxCanceledError : string := "context canceled".

(** The body of the loop of [readDomainsFile] for one non-blank line:
    [None] to go on with the next line, [Some err] to return [err]. *)
Definition targetBody (c2 : Config) : M (option string) :=
  if nonEmpty (dork c2) then
    let* res := observeTarget c2 (dorkRun c2 EmptyString) in
    let* cancelled := ctxCancelled in
    if cancelled then ret (Some ctxCanceledError)
    else if (length res =? 0)%nat then notFound c2;; ret None
    else outputOrPrintUnique res (outputPath c2);; ret None
  else
    let mode : option (Config -> M Config) :=
      if nonEmpty (extension c2) then Some extensionAttack
      else if nonEmpty (dictionary c2) then Some dictionaryAttack
      else if subdomainMode c2 then Some subdomainAttack
      else if nonEmpty (contents c2) then Some contentsAttack
      else None in
    match mode with
    | Some attack =>
        observeTarget c2 (let* c2' := attack c2 in ret (tt, c2'));;
        let* cancelled := ctxCancelled in
        if cancelled then ret (Some ctxCanceledError) else ret None
    | None => ret None
    end.

(** The loop [for _, line := range lines]. *)
Fixpoint domainsLoop (lines : list string) (c : Config) : M (option string) :=
  match lines with
  | [] => ret None
  | line :: rest =>
      let* cancelled := ctxCancelled in
      if cancelled then ret (Some ctxCanceledError)
      else
        let target := Strings.TrimSpace line in
        if String.eqb target EmptyString then domainsLoop rest c
        else
          let c2 := set_target target c in
          let* err := targetBody c2 in
          match err with
          | Some e => ret (Some e)
          | None => domainsLoop rest c
          end
  end.

(** [readDomainsFile]: [None] is the nil error. *)
Definition readDomainsFile (c : Config) : M (option string) :=
  let* (lines, ok) := readLines (domainsFile c) in
  if negb ok then ret (Some ("[!] Error, file not found: " +:+ domainsFile c))
  else domainsLoop lines c.

End Program.

(** The [Config] that [main] builds before the flags are parsed: zero values,
    a fresh map at address [l] and an adaptive delay of 0.25 s. *)
Definition mainConfig (l : nat) : Config :=
  {| target := EmptyString; pages := 0; dork := EmptyString; exclusions := EmptyString;
     contents := EmptyString; delay := 0%float; dictionary := EmptyString;
     extension := EmptyString; outputPath := EmptyString; domainsFile := EmptyString;
     proxy := EmptyString; includeSubdomains := false; subdomainMode := false;
     verbose := false; excludeTargets := EmptyString; inFile := EmptyString;
     inUrl := EmptyString; apiKeys := []; exhaustedKeys := l;
     dynamicDelay := delayInitial; requestStore := []; resultsFound := false;
     requestCounter := 0; noResultCounter := 0 |}.

(** The state [main] starts from: the map of [mainConfig 0] allocated and
    empty, nothing printed, no step taken. *)
Definition startWorld (f : FileSys) : World :=
  {| tick := 0; fs := f; maps := {[ 0%nat := ∅ ]}; stdout := []; stderr := []; trace := [] |}.

(** The "Preprocess helpers" of [main]: the derived fields. *)
Definition set_excludeTargets (v : string) (c : Config) : Config :=
  {| target := target c; pages := pages c; dork := dork c; exclusions := exclusions c;
     contents := contents c; delay := delay c; dictionary := dictionary c;
     extension := extension c; outputPath := outputPath c;
     domainsFile := domainsFile c; proxy := proxy c;
     includeSubdomains := includeSubdomains c; subdomainMode := subdomainMode c;
     verbose := verbose c; excludeTargets := v; inFile := inFile c;
     inUrl := inUrl c; apiKeys := apiKeys c; exhaustedKeys := exhaustedKeys c;
     dynamicDelay := dynamicDelay c; requestStore := requestStore c;
     resultsFound := resultsFound c; requestCounter := requestCounter c;
     noResultCounter := noResultCounter c |}.

Definition preprocess (c : Config) : M Config :=
  let* c := (if nonEmpty (exclusions c)
             then let* x := buildExclusions (exclusions c) (includeSubdomains c) in
                  ret (set_excludeTargets x c)
             else ret c) in
  let* c := (if nonEmpty (contents c)
             then let* x := buildContentsQuery (contents c) in ret (set_inFile x c)
             else ret c) in
  if nonEmpty (dictionary c)
  then let* x := buildInurlQuery (dictionary c) in ret (set_inUrl x c)
  else ret c.

(** ** Concrete environments and states used by the examples *)

Definition okResponse (links : list string) : HttpResult :=
  HttpOk {| Items := links; Error := None |}.

Definition errorResponse (msg : string) : HttpResult :=
  HttpOk {| Items := []; Error := Some msg |}.

(** Nothing is cancelled, the clock stands at 0, every request is answered by
    [answer], maps are visited in table order, no URL parses.  The strings of
    the examples are ASCII, so [toLowerUnicode] is not consulted. *)
Definition envOf (answer : nat -> string -> HttpResult) (cancelAt : nat -> bool) : Env :=
  {| unixNano := fun _ => 0%N;
     ctxErr := cancelAt;
     httpGet := answer;
     rangeOrder := fun _ l => l;
     urlParseHost := fun _ => None;
     toLowerUnicode := fun s => s |}.

Definition never : nat -> bool := fun _ => false.

Definition emptyFs : FileSys := {| files := ∅; noRead := ∅; noAppend := ∅ |}.

(** The configuration of [main] after the flag [-x x]. *)
Definition withExclusions (x : string) : Config :=
  {| target := EmptyString; pages := 0; dork := EmptyString; exclusions := x;
     contents := EmptyString; delay := 0%float; dictionary := EmptyString;
     extension := EmptyString; outputPath := EmptyString; domainsFile := EmptyString;
     proxy := EmptyString; includeSubdomains := false; subdomainMode := false;
     verbose := false; excludeTargets := EmptyString; inFile := EmptyString;
     inUrl := EmptyString; apiKeys := []; exhaustedKeys := 0%nat;
     dynamicDelay := delayInitial; requestStore := []; resultsFound := false;
     requestCounter := 0; noResultCounter := 0 |}.

(** ** Reading a trace *)

(** The exhausted set behind a reference. *)
Definition exAt (l : nat) (w : World) : gset string := default ∅ (maps w !! l).

(** The links appended to [c.requestStore], in order. *)
Definition foundLinks (tr : list Event) : list string :=
  flat_map (fun e => match e with EvFound _ links => links | _ => [] end) tr.

(** The pages entered. *)
Definition pagesOf (tr : list Event) : list Z :=
  flat_map (fun e => match e with EvPage p => [p] | _ => [] end) tr.

(** The credentials of the attempts made on page [p], in order. *)
Definition attemptsOn (p : Z) (tr : list Event) : list string :=
  flat_map (fun e => match e with
                     | EvAttempt q k => if (q =? p)%Z then [k] else []
                     | _ => []
                     end) tr.

(** The credentials of all attempts. *)
Definition attemptKeys (tr : list Event) : list string :=
  flat_map (fun e => match e with EvAttempt _ k => [k] | _ => [] end) tr.

(** What [EvTarget] records of one target of a domains file: its credential
    pool, the adaptive delay and the exhausted set it started with, and
    those it ended with. *)
Record TargetRun := {
  poolAtStart : list string;
  delayAtStart : float;
  exhaustedAtStart : gset string;
  delayAtEnd : float;
  exhaustedAtEnd : gset string
}.

(** The targets that were run, in order. *)
Definition targetsOf (tr : list Event) : list TargetRun :=
  flat_map (fun e => match e with
                     | EvTarget _ ks d0 ex0 d1 ex1 =>
                         [{| poolAtStart := ks; delayAtStart := d0; exhaustedAtStart := ex0;
                             delayAtEnd := d1; exhaustedAtEnd := ex1 |}]
                     | _ => []
                     end) tr.

(** The values assigned to [c.dynamicDelay]. *)
Definition delaysOf (tr : list Event) : list float :=
  flat_map (fun e => match e with EvDelay _ _ d => [d] | _ => [] end) tr.

(** The two assignments to [c.dynamicDelay], with [fixed] the value of
    [c.delay]: after an attempt that found links, 0.05 s less, provided
    more than 0.05 s were left; after an attempt that found none and met no
    error, 0.1 s more; either only when [fixed] is zero. *)
Definition delayStepOK (fixed : float) (found : bool) (old new : float) : Prop :=
  (fixed =? 0)%float = true /\
  if found
  then (delayStepDown <? old)%float = true /\ new = (old - delayStepDown)%float
  else new = (old + delayStepUp)%float.

(** A response carrying the quota-exhaustion signal: an error message
    holding [quota] in any letter case. *)
Definition isQuota (r : HttpResult) : bool :=
  match r with
  | HttpOk gr =>
      match Error gr with
      | Some msg => holdsQuota msg
      | None => false
      end
  | HttpErr _ => false
  end.

(** The credentials whose requests were answered by the quota signal. *)
Definition quotaKeys (tr : list Event) : list string :=
  flat_map (fun e => match e with
                     | EvGet k _ r => if isQuota r then [k] else []
                     | _ => []
                     end) tr.

(** No check point saw the cancellation. *)
Definition noCancel (tr : list Event) : Prop := ~ In (EvCheck true) tr.

(** Nothing follows a check point that saw the cancellation. *)
Definition cancelLast (tr : list Event) : Prop :=
  forall tr1 tr2, tr = (tr1 ++ EvCheck true :: tr2)%list -> tr2 = [].

(** A credential answered by the quota signal is not selected afterwards. *)
Definition noReuse (tr : list Event) : Prop :=
  forall tr1 k u r tr2,
    tr = (tr1 ++ EvGet k u r :: tr2)%list -> isQuota r = true -> ~ In k (attemptKeys tr2).

(** [d] is not negative (and is a number). *)
Definition nonNegative (d : float) : Prop := (0 <=? d)%float = true.

(** The fields a run of [dorkRun] leaves alone. *)
Definition sameSettings (c c' : Config) : Prop :=
  target c' = target c /\ dork c' = dork c /\ contents c' = contents c /\
  delay c' = delay c /\ dictionary c' = dictionary c /\ extension c' = extension c /\
  outputPath c' = outputPath c /\ includeSubdomains c' = includeSubdomains c /\
  subdomainMode c' = subdomainMode c /\ verbose c' = verbose c /\
  excludeTargets c' = excludeTargets c /\ inFile c' = inFile c /\ inUrl c' = inUrl c /\
  apiKeys c' = apiKeys c /\ exhaustedKeys c' = exhaustedKeys c /\ pages c' = pages c.

(** The page count [dorkRun] works with: 10 when none is given. *)
Definition effectivePages (c : Config) : Z := if (pages c =? 0)%Z then 10 else pages c.

(** ** Loading the credentials, and the set type *)

(** [c.apiKeys = v] *)
Definition set_apiKeys (v : list string) (c : Config) : Config :=
  {| target := target c; pages := pages c; dork := dork c; exclusions := exclusions c;
     contents := contents c; delay := delay c; dictionary := dictionary c;
     extension := extension c; outputPath := outputPath c;
     domainsFile := domainsFile c; proxy := proxy c;
     includeSubdomains := includeSubdomains c; subdomainMode := subdomainMode c;
     verbose := verbose c; excludeTargets := excludeTargets c; inFile := inFile c;
     inUrl := inUrl c; apiKeys := v; exhaustedKeys := exhaustedKeys c;
     dynamicDelay := dynamicDelay c; requestStore := requestStore c;
     resultsFound := resultsFound c; requestCounter := requestCounter c;
     noResultCounter := noResultCounter c |}.

(** The errors [readApiKeysFromFile] returns: the error of [os.Open] or of
    the scanner, and its own [no API keys in file]. *)
Inductive KeysError :=
| ReadError
| NoApiKeys.

(** [readApiKeysFromFile]: the receiver after the call and the error, [None]
    for nil. *)
Definition readApiKeysFromFile (path : string) (c : Config) : M (Config * option KeysError) :=
  let* f := getFs in
  match files f !! path with
  | None => ret (c, Some ReadError)
  | Some content =>
      if bool_decide (path ∈ noRead f) then ret (c, Some ReadError)
      else
        let keys := linesOf content in
        if negb (scanOk content) then ret (c, Some ReadError)
        else if (length keys =? 0)%nat then ret (c, Some NoApiKeys)
        else ret (set_apiKeys keys c, None)
  end.

Module SafeSet.

(** The struct.  [m] is the reference to the map; the mutex [mu], which
    makes the body of [Add] one step for any other caller, has no part in a
    sequential run. *)
Record t := { m : nat }.

(** The method [Add]. *)
Definition Add (s : t) (v : string) : M bool :=
  let* cur := mapAt (m s) in
  if bool_decide (v ∈ cur) then ret false
  else mapAdd (m s) v;; ret true.

End SafeSet.

(** [NewSafeSet]: the map is allocated at an address not in use. *)
Definition NewSafeSet : M SafeSet.t :=
  fun w =>
    let l := fresh (dom (maps w)) in
    ({| SafeSet.m := l |},
     {| tick := tick w; fs := fs w; maps := <[l := ∅]> (maps w);
        stdout := stdout w; stderr := stderr w; trace := trace w |}).

(** ** Vocabulary of the statements and proofs *)

(** The pieces of an exclusion argument: the lines a scanner reads from the
    file when the argument names one, its comma-separated pieces
    otherwise. *)
Definition exclusionPieces (f : FileSys) (exclusions : string) : list string :=
  match files f !! exclusions with
  | Some content =>
      if bool_decide (exclusions ∈ noRead f) then [] else fst (scanLines content)
  | None => Strings.Split exclusions ","
  end.

(** The entries of a list of pieces, in the words of the specification:
    each piece without the white space around it, blank entries removed,
    input order kept. *)
Fixpoint nonBlankEntries (pieces : list string) : list string :=
  match pieces with
  | [] => []
  | x :: rest =>
      if String.eqb (Strings.TrimSpace x) EmptyString then nonBlankEntries rest
      else Strings.TrimSpace x :: nonBlankEntries rest
  end.

(** The exclusion list of an argument. *)
Definition exclusionEntries (f : FileSys) (exclusions : string) : list string :=
  nonBlankEntries (exclusionPieces f exclusions).

(** [-site:<first>] followed by [+-<entry>] for each further entry. *)
Definition clauseFormat (first : string) (rest : list string) : string :=
  "-site:" +:+ first +:+ String.concat EmptyString (map (fun e => "+-" +:+ e) rest).

(** The texts of the queries of one attempt, before the exclusion clause is
    appended. *)
Definition queryTexts (c : Config) (ext : string) : list string :=
  let t := target c in
  if nonEmpty (dork c) then
    if includeSubdomains c then
      [ "site:*." +:+ t +:+ " " +:+ dork c +:+ " -www." +:+ t;
        "site:*.*." +:+ t +:+ " " +:+ dork c;
        "site:*.*.*." +:+ t +:+ " " +:+ dork c;
        "site:*." +:+ t +:+ " " +:+ dork c +:+ negated t noisePrefixes ]
    else [ "site:" +:+ t +:+ " " +:+ dork c ]
  else if nonEmpty ext then
    let texts scope :=
      [ scope +:+ " filetype:" +:+ Strings.TrimSpace ext;
        scope +:+ " ext:" +:+ Strings.TrimSpace ext ] in
    if includeSubdomains c then
      flat_map texts [ "site:" +:+ t; "site:*." +:+ t; "site:*.*." +:+ t; "site:*.*.*." +:+ t ]
    else texts ("site:" +:+ t)
  else if nonEmpty (dictionary c) then
    let terms := filter (fun x => nonEmpty x = true) (map Strings.TrimSpace (dictTerms c)) in
    if includeSubdomains c then
      flat_map (fun x =>
        [ inurl ("site:*." +:+ t) x; inurl ("site:*.*." +:+ t) x;
          inurl ("site:*.*.*." +:+ t) x ]) terms
    else map (inurl ("site:" +:+ t)) terms
  else if nonEmpty (contents c) then
    if includeSubdomains c then
      [ "site:*." +:+ t +:+ " " +:+ inFile c; "site:*.*." +:+ t +:+ " " +:+ inFile c;
        "site:*.*.*." +:+ t +:+ " " +:+ inFile c ]
    else [ "site:" +:+ t +:+ " " +:+ inFile c ]
  else [ "site:" +:+ t ].

(** [e] is the decoding of a link of [items] that is not empty, holds the
    target in some letter case and does not hold the provider's marker. *)
Definition decodedFrom (env : Env) (items : list string) (target e : string) : Prop :=
  exists l t,
    In l items /\ l <> EmptyString /\
    Strings.Contains (Strings.ToLower (toLowerUnicode env) l)
      (Strings.ToLower (toLowerUnicode env) target) = true /\
    googleHostFilter l = false /\
    e = applyRepls (rangeOrder env t repls) (default l (Url.QueryUnescape l)).

(** The claim C2 as the specification states it, on the returned entries. *)
Definition LinkFilterClaim (env : Env) (items : list string) (target : string) (w : World) : Prop :=
  let out := fst (filterLinks env items target w) in
  NoDup out /\
  (forall e, In e out ->
     Strings.Contains (Strings.ToLower (toLowerUnicode env) e)
       (Strings.ToLower (toLowerUnicode env) target) = true) /\
  (forall e, In e out -> googleHostFilter e = false) /\
  (forall e, In e out -> exists l t, In l items /\
     e = applyRepls (rangeOrder env t repls) (default l (Url.QueryUnescape l))).

(** Events of the request loop made with credential [k]. *)
Definition urlEvent (k : string) (e : Event) : Prop :=
  (exists b, e = EvCheck b) \/ (exists u r, e = EvGet k u r).

(** What the request loop of one attempt, made with credential [k] on the
    exhausted-key map at [l], leaves behind: only check points and requests
    of [k] in the trace, nothing after a check point that saw the
    cancellation, a map that only grew and holds [k] if a request was
    answered by the quota signal, and files and output streams untouched. *)
Record UrlRun (l : nat) (k : string) (w : World) (r : option (list string * option string))
    (w' : World) (tr : list Event) : Prop := {
  ur_trace : trace w' = (trace w ++ tr)%list;
  ur_events : Forall (urlEvent k) tr;
  ur_last : cancelLast tr;
  ur_done : r <> None -> noCancel tr;
  ur_grow : exAt l w ⊆ exAt l w';
  ur_quota : forall x, In x (quotaKeys tr) -> x ∈ exAt l w';
  ur_fs : fs w' = fs w;
  ur_out : stdout w' = stdout w;
  ur_err : stderr w' = stderr w
}.

(** What holds between the configuration and world before a stretch of
    [dorkRun] and those after it, [tr] being the events of the stretch. *)
Record RunFacts (c : Config) (w : World) (c' : Config) (w' : World) (tr : list Event) : Prop := {
  rf_trace : trace w' = (trace w ++ tr)%list;
  rf_settings : sameSettings c c';
  rf_store : requestStore c' = (requestStore c ++ foundLinks tr)%list;
  rf_last : cancelLast tr;
  rf_grow : exAt (exhaustedKeys c) w ⊆ exAt (exhaustedKeys c) w';
  rf_quota : forall x, In x (quotaKeys tr) -> x ∈ exAt (exhaustedKeys c) w';
  rf_fresh : forall x, In x (attemptKeys tr) ->
             In x (apiKeys c) /\ x ∉ exAt (exhaustedKeys c) w;
  rf_noReuse : noReuse tr;
  rf_nonneg : nonNegative (dynamicDelay c) ->
              nonNegative (dynamicDelay c') /\ Forall nonNegative (delaysOf tr);
  rf_fixed : (delay c =? 0)%float = false ->
             dynamicDelay c' = dynamicDelay c /\ delaysOf tr = [];
  rf_steps : forall f o n, In (EvDelay f o n) tr -> delayStepOK (delay c) f o n;
  rf_fs : fs w' = fs w
}.

(** Events that touch neither the results, the credentials nor the delay. *)
Definition quietEvent (e : Event) : Prop :=
  match e with
  | EvCheck false | EvSleep _ => True
  | _ => False
  end.

(** A step that only adds quiet events to the trace. *)
Definition quietStep (w w' : World) (tr : list Event) : Prop :=
  trace w' = (trace w ++ tr)%list /\ Forall quietEvent tr /\
  maps w' = maps w /\ fs w' = fs w.

(** One pass through the body of the attempt loop on page [p]: at most one
    attempt, on [p]; links found only on leaving by [break]; and the attempt
    counter moved on. *)
Record AttemptFacts (p tk maxTries : Z) (c : Config) (w : World)
    (c' : Config) (e : AttemptEnd) (w' : World) (tr : list Event) : Prop := {
  af_run : RunFacts c w c' w' tr;
  af_nocancel : e <> Return -> noCancel tr;
  af_pages : pagesOf tr = [];
  af_attempts : (length (attemptsOn p tr) <= 1)%nat;
  af_others : forall q, q <> p -> attemptsOn q tr = [];
  af_found_page : forall q links, In (EvFound q links) tr -> q = p /\ NoDup links;
  af_break : e = Break -> resultsFound c' = true /\ exists links, In (EvFound p links) tr;
  af_other : e <> Break ->
             resultsFound c' = resultsFound c /\ forall q links, ~ In (EvFound q links) tr;
  af_next : forall tk', e = Next tk' -> tk' = tk + 1 \/ tk' = maxTries
}.

(** Events that belong to no page and no request: pacing only. *)
Definition calmEvent (e : Event) : Prop :=
  match e with
  | EvCheck false | EvSleep _ | EvDelay _ _ _ => True
  | _ => False
  end.

(** The attempt loop of page [p] with [budget] passes left. *)
Record LoopFacts (p : Z) (budget : nat) (c : Config) (w : World)
    (c' : Config) (returned : bool) (w' : World) (tr : list Event) : Prop := {
  lf_run : RunFacts c w c' w' tr;
  lf_nocancel : returned = false -> noCancel tr;
  lf_pages : pagesOf tr = [];
  lf_attempts : (length (attemptsOn p tr) <= budget)%nat;
  lf_others : forall q, q <> p -> attemptsOn q tr = [];
  lf_found_page : forall q links, In (EvFound q links) tr -> q = p /\ NoDup links;
  lf_found : (resultsFound c' = true /\ exists links, In (EvFound p links) tr) \/
             (resultsFound c' = resultsFound c /\ forall q links, ~ In (EvFound q links) tr)
}.

(** The page loop from page [p0] on. *)
Record PagesFacts (p0 : Z) (c : Config) (w : World) (c' : Config) (w' : World)
    (tr : list Event) : Prop := {
  pf_run : RunFacts c w c' w' tr;
  pf_range : forall q, In q (pagesOf tr) -> p0 <= q < pages c;
  pf_count : Z.of_nat (length (pagesOf tr)) <= Z.max 0 (pages c - p0);
  pf_attempts : forall q, (length (attemptsOn q tr) <= length (apiKeys c))%nat;
  pf_attempts_lo : forall q, q < p0 -> attemptsOn q tr = [];
  pf_attempt_pages : forall q, attemptsOn q tr <> [] -> In q (pagesOf tr);
  pf_found_lo : forall q links, In (EvFound q links) tr ->
                p0 <= q /\ In q (pagesOf tr) /\ NoDup links;
  pf_stop : forall p, In p (pagesOf tr) ->
            (exists links, In (EvFound p links) tr) \/
            (forall q, In q (pagesOf tr) -> q <= p)
}.

(** The events that open a page. *)
Definition pageHead (p0 : Z) : list Event := [EvCheck false; EvPage p0].

(** The events, the returned links, the receiver and the world of one call. *)
Definition dorkTrace (env : Env) (c : Config) (ext : string) (w : World) : list Event :=
  drop (length (trace w)) (trace (snd (dorkRun env c ext w))).
Definition dorkResult (env : Env) (c : Config) (ext : string) (w : World) : list string :=
  fst (fst (dorkRun env c ext w)).
Definition dorkConfig (env : Env) (c : Config) (ext : string) (w : World) : Config :=
  snd (fst (dorkRun env c ext w)).
Definition dorkWorld (env : Env) (c : Config) (ext : string) (w : World) : World :=
  snd (dorkRun env c ext w).

(** Events of the end of an attempt. *)
Definition settleEvent (e : Event) : Prop :=
  match e with
  | EvCheck false | EvSleep _ | EvDelay _ _ _ | EvFound _ _ => True
  | _ => False
  end.

(** What follows a quota answer received on page [p] with pool [ks] and
    the Exhausted Set behind [l]: a further attempt on the page, or links
    found on it, or a check point that saw the cancellation; unless no
    credential of the pool is left outside the set when the run ends in
    [w'], or the page has used up its attempts ([full]). *)
Definition goesOn (ks : list string) (l : nat) (w' : World) (p : Z) (full : Prop)
    (after : list Event) : Prop :=
  (exists k', In (EvAttempt p k') after) \/
  (exists links, In (EvFound p links) after) \/
  In (EvCheck true) after \/
  (forall k', In k' ks -> k' ∈ exAt l w') \/
  full.

(** [m] leaves the observation [f] of the world as it was. *)
Definition preserves {X A : Type} (f : World -> X) (m : M A) : Prop :=
  forall w, f (snd (m w)) = f w.

(** The two observations: the targets run so far, and the maps. *)
Definition ranTargets (w : World) := targetsOf (trace w).

(** Every target starts with the pool [ks], with the delay [d] and with the
    exhausted set the target before it ended with; [ex'] is the set after the
    last one. *)
Fixpoint chained (ks : list string) (d : float) (ex : gset string) (l : list TargetRun)
    (ex' : gset string) : Prop :=
  match l with
  | [] => ex' = ex
  | t :: r => poolAtStart t = ks /\ delayAtStart t = d /\ exhaustedAtStart t = ex /\
              chained ks d (exhaustedAtEnd t) r ex'
  end.

(** What one line of the domains file adds. *)
Definition targetStep (c2 : Config) (w w' : World) : Prop :=
  (ranTargets w' = ranTargets w /\ maps w' = maps w) \/
  exists d1,
    ranTargets w' =
      (ranTargets w ++ [{| poolAtStart := apiKeys c2;
                           delayAtStart := dynamicDelay c2;
                           exhaustedAtStart := exAt (exhaustedKeys c2) w;
                           delayAtEnd := d1;
                           exhaustedAtEnd := exAt (exhaustedKeys c2) w' |}])%list.

(** The targets run by one call of [readDomainsFile]. *)
Definition domainsTargets (env : Env) (c : Config) (w : World) : list TargetRun :=
  drop (length (ranTargets w)) (ranTargets (snd (readDomainsFile env c w))).

(** The claim C3 as the specification states it: between consecutive targets
    both the adaptive delay and the exhausted set are carried over. *)
Definition SharedAcrossTargets (env : Env) (c : Config) (w : World) : Prop :=
  forall pre a b post,
    domainsTargets env c w = (pre ++ a :: b :: post)%list ->
    delayAtStart b = delayAtEnd a /\ exhaustedAtStart b = exhaustedAtEnd a.

(** The lines of the output file that the sink can see: those [readLines]
    returns, the error left aside; none when the file is missing or cannot
    be read. *)
Definition knownLines (f : FileSys) (p : string) : list string :=
  match files f !! p with
  | Some content => if bool_decide (p ∈ noRead f) then [] else linesOf content
  | None => []
  end.

(** The lines the sink appends to the file [p]: the lines of the result set,
    sorted and without repetition, that are not among the lines read from it. *)
Definition appendedLines (f : FileSys) (p : string) (urls : list string) : list string :=
  filter (fun u => u ∉ (list_to_set (knownLines f p) : gset string))
    (sortStrings (uniqueStrings urls)).

(** The line fits the buffer of the scanner. *)
Definition shortLine (u : string) : Prop :=
  (N.of_nat (String.length u) <? maxScanTokenSize)%N = true.

(** A line as the sink can read it back: not empty, trimmed, on one line,
    and short enough for the scanner. *)
Definition cleanLine (u : string) : Prop :=
  u <> EmptyString /\ Strings.TrimSpace u = u /\ Strings.Contains u newline = false /\
  shortLine u.

(** The terms [buildInurlQuery] collects from its argument: the lines of the
    file it names, or its comma-separated pieces, or the argument itself;
    cleaned, the blank ones dropped. *)
Definition dictionaryEntries (f : FileSys) (dict : string) : list string :=
  cleanNonBlank
    match files f !! dict with
    | Some content => if bool_decide (dict ∈ noRead f) then [] else linesOf content
    | None => if Strings.Contains dict "," then Strings.Split dict "," else [dict]
    end.

(** The URLs of the transport calls of a trace, in order. *)
Definition requestsOf (tr : list Event) : list string :=
  flat_map (fun e => match e with EvGet _ u _ => [u] | _ => [] end) tr.

Definition requestsMade (w : World) : list string := requestsOf (trace w).

(** [m] only appends to the list [f] of the world, and what it appends is
    related to what it returns by [P]. *)
Definition grows {X A : Type} (f : World -> list X) (P : A -> list X -> Prop) (m : M A) : Prop :=
  forall w, exists l, f (snd (m w)) = (f w ++ l)%list /\ P (fst (m w)) l.

(** The number of requests of one attempt. *)
Definition urlsPerAttempt (c : Config) (ext : string) : nat :=
  length (buildURLs c ext EmptyString).

(** A request of an attempt on the page whose start index is [idx]. *)
Definition requestOf (c : Config) (ext : string) (idx : Z) (u : string) : Prop :=
  exists k, In k (apiKeys c) /\ In u (buildURLs c ext (baseURL k idx)).

(** A request of an attempt on one of the pages from [p] on. *)
Definition requestFrom (c : Config) (ext : string) (p : Z) (u : string) : Prop :=
  exists q, p <= q < pages c /\ requestOf c ext (wrap64 (q * 10 + 1)) u.

Definition noKeysMessage : string := "No valid API keys remaining.".

(** Standard error: the one message, and only on leaving the intent. *)
Definition saidAtExit {A} (left : A -> bool) (a : A) (l : list string) : Prop :=
  l = [] \/ (left a = true /\ l = [noKeysMessage]).

(** One of the five modes of a target is configured. *)
Definition modeSet (c : Config) : bool :=
  nonEmpty (dork c) || nonEmpty (extension c) || nonEmpty (dictionary c) ||
  subdomainMode c || nonEmpty (contents c).

(** The names of the targets that were run, in order. *)
Definition targetNames (tr : list Event) : list string :=
  flat_map (fun e => match e with EvTarget t _ _ _ _ _ => [t] | _ => [] end) tr.

Definition ranNames (w : World) : list string := targetNames (trace w).

(** The names of the targets run by one call of [readDomainsFile]. *)
Definition domainsNames (env : Env) (c : Config) (w : World) : list string :=
  drop (length (ranNames w)) (ranNames (snd (readDomainsFile env c w))).

(** The file can be read to its end. *)
Definition readable (f : FileSys) (p : string) : Prop :=
  exists content, files f !! p = Some content /\ (p ∉ noRead f) /\ scanOk content = true.

(** What one target adds to the targets run, and what it returns. *)
Definition targetOutcome (env : Env) (c2 : Config) (r : option string)
    (l : list string) : Prop :=
  l = (if modeSet c2 then [target c2] else []) /\
  ((forall t, ctxErr env t = false) -> r = None).

(** A caller offering the values of [vs] one after the other: the answers of
    [Add], in order. *)
Fixpoint addAll (s : SafeSet.t) (vs : list string) : M (list bool) :=
  match vs with
  | [] => ret []
  | v :: rest =>
      let* b := SafeSet.Add s v in
      let* bs := addAll s rest in
      ret (b :: bs)
  end.

(** The values that were accepted. *)
Fixpoint accepted (vs : list string) (bs : list bool) : list string :=
  match vs, bs with
  | v :: vs', true :: bs' => v :: accepted vs' bs'
  | _ :: vs', false :: bs' => accepted vs' bs'
  | _, _ => []
  end.

(** The hosts [subdomainAttack] reports for the links [res]. *)
Definition hostsOf (env : Env) (res : list string) : list string :=
  sortStrings (elements (list_to_set (C := gset string)
    (filter (fun h => nonEmpty h = true) (map (hostOf env) res)))).

(** All the replacements of a table made in one pass over [s], left to
    right: where an entry's key starts, its value is written and the key is
    skipped ([skip] counts the bytes of it still ahead); any other byte is
    copied. *)
Fixpoint sedGo (tbl : list (string * string)) (skip : nat) (s : string) : string :=
  match s with
  | EmptyString => EmptyString
  | String a r =>
      match skip with
      | S k => sedGo tbl k r
      | O =>
          match find (fun kv => Strings.HasPrefix s (fst kv)) tbl with
          | Some kv => snd kv +:+ sedGo tbl (String.length (fst kv) - 1) r
          | None => String a (sedGo tbl O r)
          end
      end
  end.

Definition hexByte (a : ascii) : bool :=
  existsb (Ascii.eqb a) (list_ascii_of_string "0123456789ABCDEF").

Fixpoint allBytes (f : ascii -> bool) (s : string) : bool :=
  match s with
  | EmptyString => true
  | String a r => f a && allBytes f r
  end.

(** The shape of the entries of [repls]: the key is a percent sign followed
    by hexadecimal digits, the value one byte that is neither. *)
Definition sedEntry (kv : string * string) : bool :=
  match kv with
  | (String p b, String c EmptyString) =>
      Ascii.eqb p "%" && allBytes hexByte b && negb (hexByte c) && negb (Ascii.eqb c "%")
  | _ => false
  end.

(** No key of the table starts another. *)
Definition prefixFree (tbl : list (string * string)) : bool :=
  forallb (fun kv => forallb (fun kv' =>
     bool_decide (kv = kv') || negb (String.prefix (fst kv) (fst kv'))) tbl) tbl.

(** The first [n] bytes of [s] hold no percent sign. *)
Fixpoint noPercent (n : nat) (s : string) : bool :=
  match n, s with
  | S m, String a r => negb (Ascii.eqb a "%") && noPercent m r
  | _, _ => true
  end.

(** The responses received and the links stored, in order. *)
Definition linkEventsOf (tr : list Event) : list Event :=
  flat_map (fun e => match e with
                     | EvGet _ _ _ | EvFound _ _ => [e]
                     | _ => []
                     end) tr.

Definition linkEvents (w : World) : list Event := linkEventsOf (trace w).

(** [e] was read from a response among the events [l]: a response without
    error message, sent for the credential [k], in which [e] is the decoding
    of an item that holds [target] and not the provider's marker. *)
Definition answered (env : Env) (target : string) (l : list Event) (e : string) : Prop :=
  exists k u gr,
    In (EvGet k u (HttpOk gr)) l /\ nonEmpty (default EmptyString (Error gr)) = false /\
    e <> EmptyString /\ decodedFrom env (Items gr) target e.

(** Every link stored among the events [l] was read from a response among
    them. *)
Definition sourced (env : Env) (target : string) (l : list Event) : Prop :=
  forall p links e, In (EvFound p links) l -> In e links -> answered env target l e.

Definition cancelledMessage : string := "Operation cancelled: context canceled".

(** ** Scenarios used by the examples *)

(** A configuration for target [example.com] in plain mode: [keys] as the
    pool, [n] pages, everything else as [main] leaves it. *)
Definition plainConfig (keys : list string) (n : Z) : Config :=
  {| target := "example.com"; pages := n; dork := EmptyString; exclusions := EmptyString;
     contents := EmptyString; delay := 0%float; dictionary := EmptyString;
     extension := EmptyString; outputPath := EmptyString; domainsFile := EmptyString;
     proxy := EmptyString; includeSubdomains := false; subdomainMode := false;
     verbose := false; excludeTargets := EmptyString; inFile := EmptyString;
     inUrl := EmptyString; apiKeys := keys; exhaustedKeys := 0%nat;
     dynamicDelay := delayInitial; requestStore := []; resultsFound := false;
     requestCounter := 0; noResultCounter := 0 |}.

(** Five links of the target. *)
Definition pageLinks (tag : string) : list string :=
  map (fun s => "http://example.com/" +:+ tag +:+ s) ["1"; "2"; "3"; "4"; "5"].

(** The provider answers the first two pages with five links each and every
    later page with none. *)
Definition twoPages : nat -> string -> HttpResult :=
  fun _ u =>
    if Strings.Contains u "&start=1&" then okResponse (pageLinks "a")
    else if Strings.Contains u "&start=11&" then okResponse (pageLinks "b")
    else okResponse [].

(** The provider answers the first page with five links and every later page
    with none. *)
Definition onePage : nat -> string -> HttpResult :=
  fun _ u =>
    if Strings.Contains u "&start=1&" then okResponse (pageLinks "a") else okResponse [].

(** The provider answers every page with the same five links. *)
Definition samePage : nat -> string -> HttpResult :=
  fun _ _ => okResponse (pageLinks "a").

(** The cancellation is signalled at tick [n]. *)
Definition cancelFrom (n : nat) : nat -> bool := fun t => (n <=? t)%nat.

(** The first request fails in transport, the later ones are answered by
    the quota signal. *)
Definition timeoutThenQuota : nat -> string -> HttpResult :=
  fun t _ => if (t <? 6)%nat then HttpErr "timeout" else errorResponse "Quota exceeded".

(** Credential [A] is over quota; the others are answered with no item. *)
Definition quotaOnA : nat -> string -> HttpResult :=
  fun _ u =>
    if Strings.Contains u "key=A&" then errorResponse "Quota exceeded" else okResponse [].

(** A run over a domains file with two targets, in custom-query mode. *)
Definition domainsConfig : Config :=
  {| target := EmptyString; pages := 1; dork := "admin"; exclusions := EmptyString;
     contents := EmptyString; delay := 0%float; dictionary := EmptyString;
     extension := EmptyString; outputPath := EmptyString; domainsFile := "domains.txt";
     proxy := EmptyString; includeSubdomains := false; subdomainMode := false;
     verbose := false; excludeTargets := EmptyString; inFile := EmptyString;
     inUrl := EmptyString; apiKeys := ["A"; "B"]; exhaustedKeys := 0%nat;
     dynamicDelay := delayInitial; requestStore := []; resultsFound := false;
     requestCounter := 0; noResultCounter := 0 |}.

Definition domainsFs : FileSys :=
  {| files := {[ "domains.txt" := "a.example" +:+ newline +:+ "b.example" +:+ newline ]};
     noRead := ∅; noAppend := ∅ |}.

Definition noTarget : TargetRun :=
  {| poolAtStart := []; delayAtStart := 0; exhaustedAtStart := ∅;
     delayAtEnd := 0; exhaustedAtEnd := ∅ |}.

(** The claim C1 as the specification states it: at most [pageCount] pages,
    and on each page no more attempts than there are distinct credentials,
    no credential attempted twice. *)
Definition AttemptBudgetClaim (env : Env) (c : Config) (ext : string) (w : World) : Prop :=
  let tr := dorkTrace env c ext w in
  Z.of_nat (length (pagesOf tr)) <= Z.max 0 (effectivePages c) /\
  forall p,
    (length (attemptsOn p tr) <= length (remove_dups (apiKeys c)))%nat /\
    NoDup (attemptsOn p tr).

(** The claim C4 as the specification states it: the credential answered by
    the quota signal is marked, is not selected again, and while a credential
    outside the Exhausted Set remains the engine goes on to attempt one. *)
Definition QuotaClaim (env : Env) (c : Config) (ext : string) (w : World) : Prop :=
  let tr := dorkTrace env c ext w in
  let w' := dorkWorld env c ext w in
  forall before k u r after,
    tr = (before ++ EvGet k u r :: after)%list -> isQuota r = true ->
    k ∈ exAt (exhaustedKeys c) w' /\ ~ In k (attemptKeys after) /\
    ((exists k', In k' (apiKeys c) /\ k' ∉ exAt (exhaustedKeys c) w') ->
     exists p k', In (EvAttempt p k') after).

(** The claim C5 as the specification states it: after the check point that
    sees the cancellation nothing more happens, and the call returns the
    links gathered until then, deduplicated. *)
Definition CancelClaim (env : Env) (c : Config) (ext : string) (w : World) : Prop :=
  forall before after,
    dorkTrace env c ext w = (before ++ EvCheck true :: after)%list ->
    after = [] /\
    NoDup (dorkResult env c ext w) /\
    forall x, In x (dorkResult env c ext w) <-> In x (foundLinks before).

(** Whether a link was found on page [p]. *)
Definition foundOn (p : Z) (tr : list Event) : bool :=
  existsb (fun e => match e with EvFound q _ => (q =? p)%Z | _ => false end) tr.

(** A file system holding [out.txt] with the single line [a]. *)
Definition oneLineFs : FileSys :=
  {| files := {[ "out.txt" := "a" +:+ newline ]}; noRead := ∅; noAppend := ∅ |}.

(** A dictionary run over two terms given on the command line. *)
Definition dictionaryConfig : Config :=
  {| target := "example.com"; pages := 1; dork := EmptyString; exclusions := EmptyString;
     contents := EmptyString; delay := 0%float; dictionary := "admin, login";
     extension := EmptyString; outputPath := EmptyString; domainsFile := EmptyString;
     proxy := EmptyString; includeSubdomains := false; subdomainMode := false;
     verbose := false; excludeTargets := EmptyString; inFile := EmptyString;
     inUrl := EmptyString; apiKeys := ["K"]; exhaustedKeys := 0%nat;
     dynamicDelay := delayInitial; requestStore := []; resultsFound := false;
     requestCounter := 0; noResultCounter := 0 |}.

(** As [envOf], with the host read from the links of [pageLinks] and the map
    visited in reverse table order. *)
Definition hostsEnv (answer : nat -> string -> HttpResult) (cancelAt : nat -> bool) : Env :=
  {| unixNano := fun _ => 0%N;
     ctxErr := cancelAt;
     httpGet := answer;
     rangeOrder := fun _ l => rev l;
     urlParseHost := fun raw =>
       if Strings.HasPrefix raw "http://example.com/" then Some "example.com" else None;
     toLowerUnicode := fun s => s |}.

(** The state in which the only credential [K] has been marked exhausted. *)
Definition exhaustedWorld : World :=
  snd (mapAdd 0%nat "K" (startWorld emptyFs)).

(** A one-page run over the extensions [pdf] and [doc]. *)
Definition extensionConfig : Config :=
  {| target := "example.com"; pages := 1; dork := EmptyString; exclusions := EmptyString;
     contents := EmptyString; delay := 0%float; dictionary := EmptyString;
     extension := "pdf,doc"; outputPath := EmptyString; domainsFile := EmptyString;
     proxy := EmptyString; includeSubdomains := false; subdomainMode := false;
     verbose := false; excludeTargets := EmptyString; inFile := EmptyString;
     inUrl := EmptyString; apiKeys := ["K"]; exhaustedKeys := 0%nat;
     dynamicDelay := delayInitial; requestStore := []; resultsFound := false;
     requestCounter := 0; noResultCounter := 0 |}.

(** A no-break space (U+00A0). *)
Definition nbsp : string := Strings.ofBytes [194; 160]%nat.

(** * Properties *)

(** ** The library models on examples *)

Example ToLower_ex :
  Strings.ToLower (fun s => s) "HTTP://Example.COM/a_Z" = "http://example.com/a_z".
Proof. reflexivity. Qed.

Example Split_ex : Strings.Split "a|||b||c|||" "|||" = ["a"; "b||c"; ""].
Proof. reflexivity. Qed.

Example Split_ex2 : Strings.Split "" "," = [""] /\ Strings.Split "abc" "," = ["abc"].
Proof. split; reflexivity. Qed.

Example ReplaceAll_ex : Strings.ReplaceAll "x%20y%2520z%2" "%20" " " = "x y%2520z%2".
Proof. reflexivity. Qed.

Example TrimSpace_ex :
  Strings.TrimSpace "  a b 	" = "a b" /\
  Strings.Trim (Strings.dquote +:+ "ab" +:+ Strings.dquote) Strings.dquote = "ab".
Proof. split; reflexivity. Qed.

Example TrimSpace_unicode_ex :
  Strings.TrimSpace (Strings.ofBytes [194; 160; 97; 32; 226; 128; 168]%nat) = "a" /\
  Strings.TrimSpace (Strings.ofBytes [194; 160]%nat) = EmptyString /\
  Strings.TrimSpace (Strings.ofBytes [97; 32; 194]%nat) =
    Strings.ofBytes [97; 32; 194]%nat.
Proof. repeat split; reflexivity. Qed.

Example Itoa_ex : Strings.Itoa 21 = "21" /\ Strings.Itoa 0 = "0" /\ Strings.Itoa (-5) = "-5".
Proof. repeat split; reflexivity. Qed.

Example QueryUnescape_ex :
  Url.QueryUnescape "http://e.com/a%2520b+c%3d" = Some "http://e.com/a%20b c=" /\
  Url.QueryUnescape "http://e.com/100%" = None /\
  Url.QueryUnescape "http://e.com/%zz" = None /\
  Url.QueryUnescape "plain" = Some "plain".
Proof. repeat split; reflexivity. Qed.

Example QueryEscape_ex :
  Url.QueryEscape "site:*.t.com inurl:x -site:a+-b" = "site%3A%2A.t.com+inurl%3Ax+-site%3Aa%2B-b".
Proof. reflexivity. Qed.

(** ** Lists without repetition *)

Lemma uniqueGo_spec (l : list string) : forall seen : gset string,
  NoDup (uniqueGo seen l) /\
  forall x, x ∈ uniqueGo seen l <-> x ∈ l /\ x <> EmptyString /\ x ∉ seen.
Proof.
  induction l as [|s r IH]; intros seen; simpl.
  - split; [constructor|]. intros x. rewrite elem_of_nil. tauto.
  - destruct (String.eqb_spec s EmptyString) as [He|He].
    + destruct (IH seen) as [Hn Hm]. split; [exact Hn|].
      intros x. rewrite Hm, elem_of_cons. subst s. intuition congruence.
    + case_bool_decide as Hs.
      * destruct (IH seen) as [Hn Hm]. split; [exact Hn|].
        intros x. rewrite Hm, elem_of_cons. intuition congruence.
      * destruct (IH ({[s]} ∪ seen)) as [Hn Hm]. split.
        -- constructor; [|exact Hn]. rewrite Hm. set_solver.
        -- intros x. rewrite elem_of_cons, Hm, elem_of_cons.
           rewrite not_elem_of_union, not_elem_of_singleton.
           destruct (decide (x = s)) as [->|Hx]; intuition congruence.
Qed.

Lemma uniqueStrings_NoDup (l : list string) : NoDup (uniqueStrings l).
Proof. apply uniqueGo_spec. Qed.

Lemma elem_of_uniqueStrings (l : list string) (x : string) :
  x ∈ uniqueStrings l <-> x ∈ l /\ x <> EmptyString.
Proof.
  unfold uniqueStrings. rewrite (proj2 (uniqueGo_spec l ∅)). set_solver.
Qed.

(** ** Strings *)

Lemma append_cons (a : ascii) (s t : string) : String a s +:+ t = String a (s +:+ t).
Proof. reflexivity. Qed.

Lemma append_nil_l (t : string) : EmptyString +:+ t = t.
Proof. reflexivity. Qed.

Lemma append_nil_r (s : string) : s +:+ EmptyString = s.
Proof. induction s as [|a s IH]; [reflexivity|]. rewrite append_cons. congruence. Qed.

Lemma append_assoc (s t u : string) : (s +:+ t) +:+ u = s +:+ (t +:+ u).
Proof.
  induction s as [|a s IH]; [reflexivity|].
  rewrite !append_cons. congruence.
Qed.

Lemma trimRightSpace_idem (s : string) :
  Strings.trimRightSpace (Strings.trimRightSpace s) = Strings.trimRightSpace s.
Proof.
  induction s as [|a r IH]; [reflexivity|]. cbn [Strings.trimRightSpace]. cbv zeta.
  destruct (Strings.isSpaceRune (String a (Strings.trimRightSpace r))) eqn:E; [reflexivity|].
  cbn [Strings.trimRightSpace]. cbv zeta. rewrite IH, E. reflexivity.
Qed.

(** Trimming on the right leaves a prefix. *)
Lemma trimRightSpace_prefix (s : string) : exists v, s = Strings.trimRightSpace s +:+ v.
Proof.
  induction s as [|a r [v IH]]; [exists EmptyString; reflexivity|].
  cbn [Strings.trimRightSpace]. cbv zeta.
  destruct (Strings.isSpaceRune (String a (Strings.trimRightSpace r))).
  - exists (String a r). reflexivity.
  - exists v. rewrite append_cons, <- IH. reflexivity.
Qed.

Lemma prefix_append (q : string) : forall s v,
  String.prefix q s = true -> String.prefix q (s +:+ v) = true.
Proof.
  induction q as [|x q IH]; intros s v H.
  - destruct (s +:+ v); reflexivity.
  - destruct s as [|y s]; [discriminate H|]. rewrite append_cons.
    cbn [String.prefix] in *. destruct (Ascii.ascii_dec x y); [|discriminate H].
    apply IH, H.
Qed.

Lemma spaceAhead_append (s v : string) :
  Strings.spaceAhead s <> None -> Strings.spaceAhead (s +:+ v) <> None.
Proof.
  unfold Strings.spaceAhead. intros H Hn.
  destruct (find _ Strings.spaceRunes) as [q|] eqn:E; [|congruence].
  apply find_some in E as [Hin Hq].
  pose proof (find_none _ _ Hn q Hin) as Hf. cbv beta in Hf.
  unfold Strings.HasPrefix in *. rewrite (prefix_append q s v Hq) in Hf. discriminate.
Qed.

(** What trimming on the left returns starts with no space. *)
Lemma trimLeftSpace_done (s : string) : forall n,
  Strings.trimLeftSpace n s = EmptyString \/
  Strings.spaceAhead (Strings.trimLeftSpace n s) = None.
Proof.
  induction s as [|a r IH]; intros n; [left; destruct n; reflexivity|].
  destruct n as [|n]; cbn [Strings.trimLeftSpace]; [|apply IH].
  destruct (Strings.spaceAhead (String a r)) as [q|] eqn:E; [apply IH|].
  right. exact E.
Qed.

Lemma trimLeftSpace_fixed (s : string) :
  Strings.spaceAhead s = None -> Strings.trimLeftSpace 0 s = s.
Proof.
  destruct s as [|a r]; [reflexivity|]. cbn [Strings.trimLeftSpace].
  intros ->. reflexivity.
Qed.

Lemma TrimSpace_idem (s : string) :
  Strings.TrimSpace (Strings.TrimSpace s) = Strings.TrimSpace s.
Proof.
  unfold Strings.TrimSpace.
  destruct (trimLeftSpace_done s 0) as [E|E].
  - rewrite E. reflexivity.
  - assert (Et : Strings.spaceAhead
                   (Strings.trimRightSpace (Strings.trimLeftSpace 0 s)) = None).
    { destruct (Strings.spaceAhead (Strings.trimRightSpace (Strings.trimLeftSpace 0 s)))
        as [q|] eqn:Eq; [exfalso|reflexivity].
      destruct (trimRightSpace_prefix (Strings.trimLeftSpace 0 s)) as [v Hv].
      assert (Hne : Strings.spaceAhead
                      (Strings.trimRightSpace (Strings.trimLeftSpace 0 s) +:+ v) <> None).
      { apply spaceAhead_append. rewrite Eq. discriminate. }
      rewrite <- Hv in Hne. contradiction. }
    rewrite (trimLeftSpace_fixed _ Et). apply trimRightSpace_idem.
Qed.

Lemma trimmedNonBlank_spec (l : list string) (x : string) :
  In x (trimmedNonBlank l) <->
  exists y, In y l /\ x = Strings.TrimSpace y /\ x <> EmptyString.
Proof.
  unfold trimmedNonBlank. rewrite <- list_elem_of_In, list_elem_of_filter.
  rewrite list_elem_of_In, in_map_iff. unfold nonEmpty.
  rewrite Bool.negb_true_iff, String.eqb_neq. firstorder congruence.
Qed.

Lemma trimmedNonBlank_idem (l : list string) :
  trimmedNonBlank (trimmedNonBlank l) = trimmedNonBlank l.
Proof.
  unfold trimmedNonBlank.
  induction l as [|y l IH]; [reflexivity|]. simpl.
  rewrite !filter_cons. case_decide as Hy; simpl.
  - rewrite filter_cons, TrimSpace_idem. rewrite decide_True by exact Hy.
    simpl in IH. rewrite IH. reflexivity.
  - exact IH.
Qed.

Lemma Contains_cons (a : ascii) (r sub : string) :
  Strings.Contains (String a r) sub = false ->
  Strings.HasPrefix (String a r) sub = false /\ Strings.Contains r sub = false.
Proof. simpl. intros H. apply Bool.orb_false_iff in H. exact H. Qed.

Lemma splitGo_no_sep (sep : string) (s : string) : forall cur,
  Strings.Contains s sep = false ->
  Strings.splitGo sep O cur s = [cur +:+ s].
Proof.
  induction s as [|a r IH]; intros cur H.
  - simpl. rewrite append_nil_r. reflexivity.
  - apply Contains_cons in H as [Hp Hc].
    change (Strings.splitGo sep 0 cur (String a r))
      with (if Strings.HasPrefix (String a r) sep
            then cur :: Strings.splitGo sep (String.length sep - 1) EmptyString r
            else Strings.splitGo sep O (cur +:+ String a EmptyString) r).
    rewrite Hp, (IH _ Hc), append_assoc. reflexivity.
Qed.

Lemma Split_no_sep (s sep : string) :
  Strings.Contains s sep = false -> Strings.Split s sep = [s].
Proof. intros H. unfold Strings.Split. rewrite (splitGo_no_sep sep s _ H). reflexivity. Qed.

(** ** Exclusion clause (C8) *)

Lemma exclusionClause_fold (rest : list string) : forall acc,
  fold_left (fun b p => b +:+ "+-" +:+ p) rest acc =
  acc +:+ String.concat EmptyString (map (fun e => "+-" +:+ e) rest).
Proof.
  induction rest as [|p rest IH]; intros acc; simpl.
  - rewrite append_nil_r. reflexivity.
  - rewrite IH. destruct rest as [|p' rest'].
    + simpl. rewrite !append_nil_r. reflexivity.
    + simpl. rewrite append_nil_l, append_assoc. reflexivity.
Qed.

Lemma exclusionClause_format (first : string) (rest : list string) :
  exclusionClause (first :: rest) = clauseFormat first rest.
Proof.
  unfold exclusionClause, clauseFormat. rewrite exclusionClause_fold.
  rewrite append_assoc. reflexivity.
Qed.

(** The loop of [buildExclusions] keeps these entries. *)
Lemma nonBlankEntries_code (l : list string) : nonBlankEntries l = trimmedNonBlank l.
Proof.
  unfold trimmedNonBlank. induction l as [|x l IH]; [reflexivity|].
  cbn [nonBlankEntries map]. unfold nonEmpty at 1.
  destruct (String.eqb_spec (Strings.TrimSpace x) EmptyString) as [E|E].
  - rewrite filter_cons_False; [exact IH|].
    unfold nonEmpty. rewrite E. discriminate.
  - rewrite filter_cons_True; [rewrite IH; reflexivity|].
    unfold nonEmpty. apply Bool.negb_true_iff, String.eqb_neq, E.
Qed.

Lemma buildExclusions_entries (exclusions : string) (multiline : bool) (w : World) :
  forall first rest,
  exclusionEntries (fs w) exclusions = first :: rest ->
  buildExclusions exclusions multiline w = (exclusionClause (first :: rest), w).
Proof.
  intros first rest H. unfold exclusionEntries, exclusionPieces in H.
  rewrite nonBlankEntries_code in H.
  cbv beta iota delta [buildExclusions fileExists readLines bind getFs ret].
  destruct (files (fs w) !! exclusions) as [content|] eqn:E.
  - rewrite bool_decide_true by eauto. cbv beta iota. rewrite E.
    destruct (bool_decide (exclusions ∈ noRead (fs w))); [discriminate|].
    cbv beta iota. unfold linesOf in *.
    rewrite trimmedNonBlank_idem, H. reflexivity.
  - rewrite bool_decide_false by (intros [x Hx]; discriminate). cbv beta iota.
    destruct (Strings.Contains exclusions ",") eqn:Hc.
    + rewrite H. reflexivity.
    + rewrite (Split_no_sep _ _ Hc) in H. unfold trimmedNonBlank in H. simpl in H.
      rewrite filter_cons in H. case_decide; [|discriminate].
      rewrite filter_nil in H. congruence.
Qed.

Lemma withExcl_appends (c : Config) (q : string) :
  nonEmpty (excludeTargets c) = true ->
  withExcl c q = q +:+ " " +:+ excludeTargets c.
Proof. intros H. unfold withExcl. rewrite H. reflexivity. Qed.

(** Every request URL of an attempt is [buildOne] of a clause passed through
    [withExcl]. *)
Lemma buildURLs_withExcl (c : Config) (ext base : string) (u : string) :
  In u (buildURLs c ext base) -> exists q, u = buildOne base (withExcl c q).
Proof.
  unfold buildURLs.
  repeat match goal with
         | |- context [if ?b then _ else _] => destruct b
         end;
    rewrite ?in_flat_map, ?in_map_iff; simpl;
    intros H;
    repeat match goal with
           | H : _ \/ _ |- _ => destruct H as [H|H]
           | H : False |- _ => destruct H
           | H : exists _, _ |- _ => destruct H as [? H]
           | H : _ /\ _ |- _ => destruct H as [? H]
           | H : In _ (map _ _) |- _ => apply in_map_iff in H
           | H : In _ (_ :: _) |- _ => simpl in H
           | H : In _ [] |- _ => destruct H
           end; subst; eauto.
Qed.

(** The "Preprocess helpers" of [main] store the clause in the configuration. *)
Lemma preprocess_excludeTargets (c0 : Config) (w : World) (first : string)
    (rest : list string) :
  exclusions c0 <> EmptyString ->
  exclusionEntries (fs w) (exclusions c0) = first :: rest ->
  excludeTargets (fst (preprocess c0 w)) = clauseFormat first rest.
Proof.
  intros Hne H. unfold preprocess. cbv beta iota zeta delta [bind ret].
  unfold nonEmpty at 1. rewrite (proj2 (String.eqb_neq _ _) Hne). cbn [negb].
  rewrite (buildExclusions_entries _ _ _ _ _ H). cbv beta iota.
  rewrite <- exclusionClause_format.
  set (c1 := set_excludeTargets _ c0).
  assert (E1 : excludeTargets c1 = exclusionClause (first :: rest)) by reflexivity.
  clearbody c1.
  destruct (nonEmpty (contents c1)); cbv beta iota.
  - destruct (buildContentsQuery (contents c1) w) as [x w1]. cbv beta iota.
    destruct (nonEmpty (dictionary (set_inFile x c1))); cbv beta iota.
    + destruct (buildInurlQuery (dictionary (set_inFile x c1)) w1) as [y w2]. exact E1.
    + exact E1.
  - destruct (nonEmpty (dictionary c1)); cbv beta iota.
    + destruct (buildInurlQuery (dictionary c1) w) as [y w2]. exact E1.
    + exact E1.
Qed.

(** Every request URL of an attempt is [buildOne] of one of these texts
    passed through [withExcl], in order. *)
Lemma buildURLs_queryTexts (c : Config) (ext base : string) :
  buildURLs c ext base = map (fun q => buildOne base (withExcl c q)) (queryTexts c ext).
Proof.
  unfold buildURLs, queryTexts.
  repeat match goal with
         | |- context [if ?b then _ else _] => destruct b
         end; try reflexivity.
  - induction (filter _ _) as [|x l IH]; [reflexivity|].
    cbn [flat_map map app]. rewrite IH. reflexivity.
  - induction (filter _ _) as [|x l IH]; [reflexivity|].
    cbn [map]. rewrite IH. reflexivity.
Qed.

(** Outside the dictionary case an attempt always has a query. *)
Lemma queryTexts_nonempty (c : Config) (ext : string) :
  nonEmpty (dork c) = true \/ nonEmpty ext = true \/ nonEmpty (dictionary c) = false ->
  queryTexts c ext <> [].
Proof.
  unfold queryTexts. intros H.
  destruct (nonEmpty (dork c)); [destruct (includeSubdomains c); discriminate|].
  destruct (nonEmpty ext); [destruct (includeSubdomains c); discriminate|].
  destruct (nonEmpty (dictionary c)); [destruct H as [H|[H|H]]; discriminate H|].
  destruct (nonEmpty (contents c)); [destruct (includeSubdomains c); discriminate|].
  discriminate.
Qed.

(** C8.  When the exclusion argument (a comma-separated string or a file,
    blank entries removed) yields the entries [first :: rest], the clause
    built by [buildExclusions] is [-site:<first>] followed by [+-<entry>] for
    each further entry, in input order; [main] stores it in the
    configuration; and with the clause so stored the request URLs of an
    attempt are, one for one and in order, those of the same configuration
    without exclusions with the clause appended to the text of the query.
    Outside the dictionary case there is at least one. *)
Theorem exclusion_clause_built (c0 : Config) (w : World) (first : string)
    (rest : list string) :
  exclusions c0 <> EmptyString ->
  exclusionEntries (fs w) (exclusions c0) = first :: rest ->
  let clause := clauseFormat first rest in
  let c := fst (preprocess c0 w) in
  fst (buildExclusions (exclusions c0) (includeSubdomains c0) w) = clause /\
  excludeTargets c = clause /\
  forall (c' : Config) (ext base : string),
    excludeTargets c' = excludeTargets c ->
    Forall2 (fun u u0 => exists q, u0 = buildOne base q /\
                                   u = buildOne base (q +:+ " " +:+ clause))
      (buildURLs c' ext base)
      (buildURLs (set_excludeTargets EmptyString c') ext base) /\
    (nonEmpty (dork c') = true \/ nonEmpty ext = true \/
     nonEmpty (dictionary c') = false -> buildURLs c' ext base <> []).
Proof.
  intros Hne H. cbv zeta.
  pose proof (preprocess_excludeTargets c0 w first rest Hne H) as Hp.
  split; [|split; [exact Hp|]].
  - rewrite (buildExclusions_entries _ _ _ _ _ H). apply exclusionClause_format.
  - intros c' ext base Hc. rewrite Hp in Hc.
    assert (Hn : nonEmpty (excludeTargets c') = true) by (rewrite Hc; reflexivity).
    rewrite !buildURLs_queryTexts.
    change (queryTexts (set_excludeTargets EmptyString c') ext) with (queryTexts c' ext).
    split.
    + induction (queryTexts c' ext) as [|q l IH]; [constructor|].
      cbn [map]. constructor; [|exact IH].
      exists q. split; [reflexivity|]. rewrite withExcl_appends, Hc by exact Hn. reflexivity.
    + intros Hm Hq. apply (queryTexts_nonempty c' ext Hm).
      destruct (queryTexts c' ext); [reflexivity|discriminate Hq].
Qed.

(** The clause of a comma-separated argument with a blank entry. *)
Lemma exclusion_clause_built_witness :
  exclusionEntries emptyFs "admin.example.com, ,cdn.example.com" =
    ["admin.example.com"; "cdn.example.com"] /\
  excludeTargets
    (fst (preprocess (withExclusions "admin.example.com, ,cdn.example.com")
            (startWorld emptyFs))) =
    "-site:admin.example.com+-cdn.example.com".
Proof.
  split; [reflexivity|].
  refine (proj1 (proj2 (exclusion_clause_built
                          (withExclusions "admin.example.com, ,cdn.example.com")
                          (startWorld emptyFs) "admin.example.com" ["cdn.example.com"]
                          _ eq_refl))).
  discriminate.
Defined.

(** An entry made of a no-break space (U+00A0) only is blank: the clause of
    [a.com,<U+00A0>,b.com] has two entries. *)
Example exclusion_clause_unicode_blank :
  let arg := "a.com," +:+ Strings.ofBytes [194; 160]%nat +:+ ",b.com" in
  exclusionEntries emptyFs arg = ["a.com"; "b.com"] /\
  fst (buildExclusions arg false (startWorld emptyFs)) = "-site:a.com+-b.com".
Proof. split; reflexivity. Qed.

(** ** Output sink (C9, C10) *)

Lemma elem_of_sortStrings (l : list string) (x : string) : x ∈ sortStrings l <-> x ∈ l.
Proof. unfold sortStrings. rewrite merge_sort_Permutation. reflexivity. Qed.

Lemma sortStrings_NoDup (l : list string) : NoDup l -> NoDup (sortStrings l).
Proof. unfold sortStrings. rewrite merge_sort_Permutation. auto. Qed.

(** C10.  With an output path configured, when the output file cannot be
    opened for appending the sink prints the sorted unique lines of the
    result set on standard output (after a message on standard error) and
    leaves the files alone: every non-empty line of the result set is
    printed, once. *)
Theorem output_falls_back_to_stdout (urls : list string) (outputPath : string) (w : World) :
  outputPath <> EmptyString ->
  outputPath ∈ noAppend (fs w) ->
  let w' := snd (outputOrPrintUnique urls outputPath w) in
  stdout w' = (stdout w ++ sortStrings (uniqueStrings urls))%list /\
  NoDup (sortStrings (uniqueStrings urls)) /\
  (forall u, u ∈ urls -> u <> EmptyString -> u ∈ stdout w') /\
  fs w' = fs w.
Proof.
  intros Hp Hd.
  assert (E : outputOrPrintUnique urls outputPath w =
              (tt, {| tick := tick w; fs := fs w; maps := maps w;
                      stdout := stdout w ++ sortStrings (uniqueStrings urls);
                      stderr := stderr w ++ ["[!] cannot open output file"];
                      trace := trace w |})).
  { cbv beta iota zeta delta [outputOrPrintUnique].
    rewrite (proj2 (String.eqb_neq _ _) Hp).
    cbv beta iota zeta delta [bind fileExists readLines getFs ret].
    destruct (bool_decide (is_Some (files (fs w) !! outputPath)));
      cbv beta iota zeta;
      [destruct (files (fs w) !! outputPath); cbv beta iota zeta;
       [destruct (bool_decide (outputPath ∈ noRead (fs w))); cbv beta iota zeta|]|];
      rewrite (bool_decide_true _ Hd); reflexivity. }
  rewrite E. simpl. repeat split.
  - apply sortStrings_NoDup, uniqueStrings_NoDup.
  - intros u Hu Hne. apply elem_of_app. right.
    apply elem_of_sortStrings, elem_of_uniqueStrings. auto.
Qed.

(** Two links and an output path that cannot be opened: both are printed,
    sorted. *)
Lemma output_falls_back_to_stdout_witness :
  stdout (snd (outputOrPrintUnique ["http://b.example.com/"; "http://a.example.com/"]
                 "/proc/out.txt"
                 (startWorld {| files := ∅; noRead := ∅; noAppend := {["/proc/out.txt"]} |}))) =
  ["http://a.example.com/"; "http://b.example.com/"].
Proof.
  refine (proj1 (output_falls_back_to_stdout ["http://b.example.com/"; "http://a.example.com/"]
                   "/proc/out.txt"
                   (startWorld {| files := ∅; noRead := ∅; noAppend := {["/proc/out.txt"]} |}) _ _)).
  - discriminate.
  - vm_compute. reflexivity.
Defined.

(** C9 fails for a result line that ends in a blank: the first run writes
    it as it is, the second run compares it with the trimmed lines read back
    and appends it again.  Such a line is what the link filter returns for
    a link ending in an escaped blank. *)
Theorem output_sink_repeats_padded_line :
  let env := envOf (fun _ _ => okResponse []) never in
  let w0 := startWorld emptyFs in
  let urls := fst (filterLinks env ["http://example.com/a%20"] "example.com" w0) in
  let w1 := snd (outputOrPrintUnique urls "out.txt" w0) in
  let w2 := snd (outputOrPrintUnique urls "out.txt" w1) in
  urls = ["http://example.com/a "] /\
  files (fs w1) !! "out.txt" = Some ("http://example.com/a " +:+ newline) /\
  files (fs w2) !! "out.txt" =
    Some ("http://example.com/a " +:+ newline +:+ "http://example.com/a " +:+ newline).
Proof. vm_compute. repeat split; reflexivity. Qed.

(** ** Link filter (C2) *)

Lemma decodedFrom_cons (env : Env) (l0 : string) (items : list string) (target e : string) :
  decodedFrom env items target e -> decodedFrom env (l0 :: items) target e.
Proof. intros (l & t & H & ?). exists l, t. split; [right; exact H|assumption]. Qed.

Lemma filterLoop_sound (env : Env) (target : string) (items : list string) :
  forall w e, In e (fst (filterLoop env items target w)) -> decodedFrom env items target e.
Proof.
  induction items as [|l rest IH]; intros w e; [intros []|].
  cbn [filterLoop].
  destruct (String.eqb_spec l EmptyString) as [Hl|Hl].
  { intros H. apply decodedFrom_cons, (IH _ _ H). }
  destruct (Strings.Contains (Strings.ToLower (toLowerUnicode env) l)
              (Strings.ToLower (toLowerUnicode env) target)) eqn:Ht.
  2:{ intros H. apply decodedFrom_cons, (IH _ _ H). }
  destruct (googleHostFilter l) eqn:Hg.
  { intros H. apply decodedFrom_cons, (IH _ _ H). }
  cbv beta iota zeta delta [bind ret urlDecodeLikeSed nextTick negb].
  match goal with
  | |- context [filterLoop env rest target ?w1] =>
      specialize (IH w1 e); destruct (filterLoop env rest target w1) as [out w2]
  end.
  simpl. intros [<-|H].
  - exists l, (tick w). repeat split; auto. left; reflexivity.
  - apply decodedFrom_cons, IH, H.
Qed.

(** C2, as amended.  The link filter returns no duplicate and no empty entry,
    and every returned entry is the percent-decoding of an input link that,
    before decoding, held the target (in any letter case) and did not hold
    the provider's marker. *)
Theorem filterLinks_sound (env : Env) (items : list string) (target : string) (w : World) :
  let out := fst (filterLinks env items target w) in
  NoDup out /\
  forall e, In e out -> e <> EmptyString /\ decodedFrom env items target e.
Proof.
  unfold filterLinks. cbv beta iota zeta delta [bind ret].
  pose proof (filterLoop_sound env target items w) as Hs.
  destruct (filterLoop env items target w) as [out w1]. simpl in *.
  split; [apply uniqueStrings_NoDup|].
  intros e He. apply list_elem_of_In, elem_of_uniqueStrings in He as [He Hne].
  split; [exact Hne|]. apply Hs, list_elem_of_In, He.
Qed.

(** C2 as stated fails: the tests are made before decoding, and decoding can
    remove the target from a link.  With target [1b.com] the link below is
    kept, since [%61b.com] holds the target, and its decoding [ab.com] does
    not. *)
Lemma filterLinks_output_may_lack_target :
  ~ LinkFilterClaim (envOf (fun _ _ => okResponse []) never)
      ["http://x.org/%61b.com"] "1b.com" (startWorld emptyFs).
Proof.
  intros (_ & H & _).
  specialize (H "http://x.org/ab.com").
  assert (Hin : In "http://x.org/ab.com"
                  (fst (filterLinks (envOf (fun _ _ => okResponse []) never)
                          ["http://x.org/%61b.com"] "1b.com" (startWorld emptyFs)))).
  { vm_compute. left. reflexivity. }
  specialize (H Hin). vm_compute in H. discriminate.
Qed.

(** ** Traces *)

Lemma foundLinks_app (a b : list Event) : foundLinks (a ++ b) = (foundLinks a ++ foundLinks b)%list.
Proof. apply flat_map_app. Qed.
Lemma pagesOf_app (a b : list Event) : pagesOf (a ++ b) = (pagesOf a ++ pagesOf b)%list.
Proof. apply flat_map_app. Qed.
Lemma attemptsOn_app (p : Z) (a b : list Event) :
  attemptsOn p (a ++ b) = (attemptsOn p a ++ attemptsOn p b)%list.
Proof. apply flat_map_app. Qed.
Lemma attemptKeys_app (a b : list Event) : attemptKeys (a ++ b) = (attemptKeys a ++ attemptKeys b)%list.
Proof. apply flat_map_app. Qed.
Lemma delaysOf_app (a b : list Event) : delaysOf (a ++ b) = (delaysOf a ++ delaysOf b)%list.
Proof. apply flat_map_app. Qed.
Lemma quotaKeys_app (a b : list Event) : quotaKeys (a ++ b) = (quotaKeys a ++ quotaKeys b)%list.
Proof. apply flat_map_app. Qed.

Ltac trace_app :=
  rewrite ?foundLinks_app, ?pagesOf_app, ?attemptsOn_app, ?attemptKeys_app,
    ?delaysOf_app, ?quotaKeys_app.

Lemma noCancel_app (a b : list Event) : noCancel (a ++ b) <-> noCancel a /\ noCancel b.
Proof. unfold noCancel. rewrite in_app_iff. tauto. Qed.

Lemma noCancel_cancelLast (tr : list Event) : noCancel tr -> cancelLast tr.
Proof.
  intros H tr1 tr2 ->. exfalso. apply H, in_elt.
Qed.

Lemma cancelLast_app (a b : list Event) : noCancel a -> cancelLast b -> cancelLast (a ++ b).
Proof.
  intros Ha Hb tr1 tr2 E.
  apply app_eq_app in E as [l [[-> E]|[-> E]]].
  - destruct l as [|e l].
    + simpl in E. rewrite app_nil_r in Ha. apply (Hb [] tr2). symmetry. exact E.
    + simpl in E. injection E as <- ->. exfalso. apply Ha, in_elt.
  - apply (Hb l tr2). exact E.
Qed.

Lemma cancelLast_end (a : list Event) : noCancel a -> cancelLast (a ++ [EvCheck true]).
Proof.
  intros Ha. apply cancelLast_app; [exact Ha|].
  intros tr1 tr2 E. destruct tr1 as [|e [|e' tr1]]; simpl in E.
  - injection E as <-. reflexivity.
  - injection E as _ E. destruct tr2; discriminate.
  - injection E as _ E. discriminate.
Qed.

(** ** The request loop of one attempt *)

Lemma urlEvents_silent (k : string) (tr : list Event) :
  Forall (urlEvent k) tr ->
  foundLinks tr = [] /\ pagesOf tr = [] /\ attemptKeys tr = [] /\ delaysOf tr = [] /\
  (forall p, attemptsOn p tr = []) /\ (forall x, In x (quotaKeys tr) -> x = k).
Proof.
  induction 1 as [|e tr He _ IH]; [repeat split; intros ? []|].
  destruct IH as (H1 & H2 & H3 & H4 & H5 & H6).
  change (e :: tr) with ([e] ++ tr)%list. trace_app.
  rewrite H1, H2, H3, H4.
  destruct He as [[b ->]|(u & r & ->)]; simpl; repeat split; auto;
    try (intros p; rewrite H5; reflexivity).
  intros x. destruct (isQuota r); simpl; rewrite ?app_nil_r; intros Hx; auto.
  destruct Hx as [<-|Hx]; auto.
Qed.

Ltac mrun H :=
  cbv beta iota zeta delta
    [bind ret ctxCancelled nextTick emit httpGetJSON mapAdd mapAt logErr logv println
     sleep delayControl notFound] in H.

Ltac wsimpl := cbn [tick fs maps stdout stderr trace fst snd] in *.

Lemma filterLinks_frame (env : Env) (items : list string) (target : string) :
  forall w out w', filterLinks env items target w = (out, w') ->
  fs w' = fs w /\ maps w' = maps w /\ stdout w' = stdout w /\ stderr w' = stderr w /\
  trace w' = trace w.
Proof.
  unfold filterLinks. cbv beta iota zeta delta [bind ret].
  intros w out w' H.
  assert (Hl : forall w o w1, filterLoop env items target w = (o, w1) ->
            fs w1 = fs w /\ maps w1 = maps w /\ stdout w1 = stdout w /\
            stderr w1 = stderr w /\ trace w1 = trace w).
  { clear. induction items as [|l rest IH]; intros w o w1 H.
    - injection H as _ <-. auto.
    - cbn [filterLoop] in H.
      destruct (String.eqb l EmptyString); [eauto|].
      destruct (negb _); [eauto|].
      destruct (googleHostFilter l); [eauto|].
      cbv beta iota zeta delta [bind ret urlDecodeLikeSed nextTick] in H.
      match type of H with
      | context [filterLoop env rest target ?w2] =>
          destruct (filterLoop env rest target w2) as [o2 w3] eqn:E
      end.
      apply IH in E. injection H as _ <-. exact E. }
  destruct (filterLoop env items target w) as [o w1] eqn:E.
  injection H as _ <-. eauto.
Qed.

Lemma exAt_mapAdd (l : nat) (k : string) (w : World) (m : gmap nat (gset string)) :
  m = <[l := {[k]} ∪ default ∅ (maps w !! l)]> (maps w) ->
  default ∅ (m !! l) = {[k]} ∪ exAt l w.
Proof. intros ->. rewrite lookup_insert_eq. reflexivity. Qed.

Lemma UrlRun_step (l : nat) (k : string) (w w1 w' : World) r (pre tr : list Event) :
  trace w1 = (trace w ++ pre)%list ->
  Forall (urlEvent k) pre -> noCancel pre ->
  exAt l w ⊆ exAt l w1 ->
  (forall x, In x (quotaKeys pre) -> x ∈ exAt l w1) ->
  fs w1 = fs w -> stdout w1 = stdout w -> stderr w1 = stderr w ->
  UrlRun l k w1 r w' tr ->
  UrlRun l k w r w' (pre ++ tr).
Proof.
  intros Ht He Hn Hg Hq Hf Ho Hr [].
  constructor.
  - rewrite ur_trace0, Ht, app_assoc. reflexivity.
  - apply Forall_app; auto.
  - apply cancelLast_app; auto.
  - intros Hr'. apply noCancel_app; auto.
  - set_solver.
  - intros x. rewrite quotaKeys_app, in_app_iff. intros [Hx|Hx]; auto.
  - congruence.
  - congruence.
  - congruence.
Qed.

Lemma urlLoop_spec (env : Env) (c : Config) (k : string) (urls : list string) :
  forall comb err w r w',
  urlLoop env c k urls comb err w = (r, w') ->
  exists tr, UrlRun (exhaustedKeys c) k w r w' tr.
Proof.
  induction urls as [|u rest IH]; intros comb err w r w' H.
  - injection H as <- <-. exists []. constructor; rewrite ?app_nil_r; auto.
    + intros ? ? E. destruct tr1; discriminate.
    + intros _ [].
    + intros x [].
  - cbn [urlLoop] in H. mrun H.
    destruct (ctxErr env (tick w)) eqn:Ec.
    { injection H as <- <-. exists [EvCheck true]. constructor; wsimpl; auto.
      - constructor; [left; eauto|constructor].
      - apply (cancelLast_end []). intros [].
      - congruence.
      - intros x []. }
    set (ev := EvGet k u (httpGet env (S (tick w)) u)) in *.
    assert (Hpre : Forall (urlEvent k) [EvCheck false; ev]).
    { constructor; [left; eauto|].
      constructor; [right; subst ev; eauto|constructor]. }
    assert (Hnc : noCancel [EvCheck false; ev]).
    { subst ev. intros [E|[E|[]]]; discriminate. }
    wsimpl.
    destruct (httpGet env (S (tick w)) u) as [msg|gr] eqn:Eg.
    + apply IH in H as [tr Hr]. exists ([EvCheck false; ev] ++ tr)%list.
      eapply UrlRun_step; [| | | | | | | |exact Hr]; wsimpl; auto.
      * subst ev. rewrite <- app_assoc. reflexivity.
      * subst ev. simpl. intros x [].
    + destruct (Error gr) as [msg|] eqn:Ee.
      * destruct (nonEmpty msg) eqn:En.
        -- destruct (holdsQuota msg) eqn:Eq;
             mrun H; wsimpl;
             apply IH in H as [tr Hr]; exists ([EvCheck false; ev] ++ tr)%list;
             (eapply UrlRun_step; [| | | | | | | |exact Hr]; wsimpl; auto);
             try (subst ev; rewrite <- app_assoc; reflexivity).
           ++ unfold exAt at 2. wsimpl. rewrite lookup_insert_eq. simpl. set_solver.
           ++ subst ev. simpl. rewrite Ee, Eq. simpl. intros x [<-|[]].
              unfold exAt. wsimpl. rewrite lookup_insert_eq. simpl. set_solver.
           ++ subst ev. simpl. rewrite Ee, Eq. intros x [].
        -- destruct (filterLinks env (Items gr) (target c) _) as [links w1] eqn:Ef.
           apply filterLinks_frame in Ef as (F1 & F2 & F3 & F4 & F5). wsimpl.
           apply IH in H as [tr Hr]. exists ([EvCheck false; ev] ++ tr)%list.
           eapply UrlRun_step; [| | | | | | | |exact Hr]; wsimpl; auto.
           ++ subst ev. rewrite F5, <- app_assoc. reflexivity.
           ++ unfold exAt. rewrite F2. reflexivity.
           ++ subst ev. simpl. rewrite Ee.
              assert (msg = EmptyString) as ->.
              { unfold nonEmpty in En. apply Bool.negb_false_iff, String.eqb_eq in En. exact En. }
              simpl. intros x [].
      * destruct (filterLinks env (Items gr) (target c) _) as [links w1] eqn:Ef.
        apply filterLinks_frame in Ef as (F1 & F2 & F3 & F4 & F5). wsimpl.
        apply IH in H as [tr Hr]. exists ([EvCheck false; ev] ++ tr)%list.
        eapply UrlRun_step; [| | | | | | | |exact Hr]; wsimpl; auto.
        -- subst ev. rewrite F5, <- app_assoc. reflexivity.
        -- unfold exAt. rewrite F2. reflexivity.
        -- subst ev. simpl. rewrite Ee. intros x [].
Qed.

(** ** Credential selection *)

Lemma getRandomApiKey_spec (env : Env) (c : Config) (w : World) r w' :
  getRandomApiKey env c w = (r, w') ->
  fs w' = fs w /\ maps w' = maps w /\ stdout w' = stdout w /\ stderr w' = stderr w /\
  trace w' = trace w /\
  forall k, r = Some k -> In k (apiKeys c) /\ k ∉ exAt (exhaustedKeys c) w.
Proof.
  unfold getRandomApiKey. intros H.
  cbv beta iota zeta delta [bind ret mapAt nextTick] in H.
  fold (exAt (exhaustedKeys c) w) in H.
  set (available := filter (fun k => k ∉ exAt (exhaustedKeys c) w) (apiKeys c)) in *.
  destruct (length available =? 0)%nat eqn:El.
  - injection H as <- <-. do 5 (split; [reflexivity|]). discriminate.
  - injection H as <- <-. wsimpl.
    assert (Hnth : In (nth (N.to_nat (unixNano env (tick w) mod N.of_nat (length available))%N)
                          available EmptyString) available).
    { apply nth_In. apply Nat.eqb_neq in El.
      assert (unixNano env (tick w) mod N.of_nat (length available)
              < N.of_nat (length available))%N by (apply N.mod_lt; lia). lia. }
    apply list_elem_of_In, list_elem_of_filter in Hnth as [Hx Hy].
    do 5 (split; [reflexivity|]). intros k [= <-]. split.
    + apply list_elem_of_In, Hy.
    + exact Hx.
Qed.

(** ** The adaptive delay in binary64 *)

Lemma iter_pos_invariant {A} (f : A -> A) (P : A -> Prop) :
  (forall x, P x -> P (f x)) -> forall n x, P x -> P (SpecFloat.iter_pos f n x).
Proof.
  intros Hf. induction n as [n IH|n IH|]; intros x Hx; simpl; auto.
Qed.

Lemma shr_1_nonneg (mrs : shr_record) : 0 <= shr_m mrs -> 0 <= shr_m (shr_1 mrs).
Proof.
  destruct mrs as [m r s]. simpl.
  destruct m as [|[p|p|]|p]; simpl; lia.
Qed.

Lemma shr_fexp_nonneg (m e : Z) (l : location) :
  0 <= m -> 0 <= shr_m (fst (shr_fexp prec emax m e l)).
Proof.
  intros Hm. unfold shr_fexp, shr.
  assert (H0 : 0 <= shr_m (shr_record_of_loc m l)).
  { destruct l as [|[]]; exact Hm. }
  destruct (fexp prec emax (Zdigits2 m + e) - e) as [|p|p]; simpl; auto.
  apply (iter_pos_invariant shr_1 (fun x => 0 <= shr_m x)); auto using shr_1_nonneg.
Qed.

Lemma round_nearest_even_nonneg (m : Z) (l : location) :
  0 <= m -> 0 <= round_nearest_even m l.
Proof.
  intros Hm. destruct l as [|[]]; simpl; try lia.
  destruct (Z.even m); lia.
Qed.

Lemma binary_round_aux_nonneg (mx ex : Z) (lx : location) :
  0 <= mx ->
  SFleb (S754_zero false) (binary_round_aux prec emax false mx ex lx) = true.
Proof.
  intros Hm. unfold binary_round_aux.
  pose proof (shr_fexp_nonneg mx ex lx Hm) as H1.
  destruct (shr_fexp prec emax mx ex lx) as [mrs' e']. simpl in H1.
  pose proof (shr_fexp_nonneg _ e' loc_Exact
                (round_nearest_even_nonneg _ (loc_of_shr_record mrs') H1)) as H2.
  destruct (shr_fexp prec emax _ e' loc_Exact) as [mrs'' e'']. simpl in H2.
  destruct (shr_m mrs'') as [|p|p]; [reflexivity| |lia].
  destruct (e'' <=? emax - prec)%Z; reflexivity.
Qed.

Lemma binary_normalize_nonneg (m e : Z) :
  0 <= m -> SFleb (S754_zero false) (binary_normalize prec emax m e false) = true.
Proof.
  intros Hm. destruct m as [|p|p]; [reflexivity| |lia].
  unfold binary_normalize, binary_round.
  destruct (shl_align p e _) as [mz ez].
  apply binary_round_aux_nonneg. lia.
Qed.

Lemma stepUp_nonneg (d : float) : nonNegative d -> nonNegative (d + delayStepUp)%float.
Proof.
  unfold nonNegative. rewrite !FloatAxioms.leb_spec, FloatAxioms.add_spec.
  change (Prim2SF 0) with (S754_zero false).
  change (Prim2SF delayStepUp) with (S754_finite false 7205759403792794 (-56)).
  destruct (Prim2SF d) as [s|s| |s m e].
  - destruct s; reflexivity.
  - destruct s; [discriminate|reflexivity].
  - discriminate.
  - destruct s; [discriminate|]. intros _.
    unfold SF64add, SFadd. cbv zeta. unfold cond_Zopp.
    apply binary_normalize_nonneg. lia.
Qed.

Lemma digits2_pos_lower (m : positive) : 2 ^ (Z.pos (digits2_pos m) - 1) <= Z.pos m.
Proof.
  induction m as [m IH|m IH|]; simpl digits2_pos.
  - rewrite Pos2Z.inj_succ. replace (Z.succ (Z.pos (digits2_pos m)) - 1) with (Z.succ (Z.pos (digits2_pos m) - 1)) by lia.
    rewrite Z.pow_succ_r by lia. lia.
  - rewrite Pos2Z.inj_succ. replace (Z.succ (Z.pos (digits2_pos m)) - 1) with (Z.succ (Z.pos (digits2_pos m) - 1)) by lia.
    rewrite Z.pow_succ_r by lia. lia.
  - simpl. lia.
Qed.

Lemma iter_xO_double (m d : positive) : 2 * Z.pos m <= Z.pos (Pos.iter xO m d).
Proof.
  apply (Pos.iter_ind _ xO m (fun _ x => 2 * Z.pos m <= Z.pos x)).
  - lia.
  - intros p a H. lia.
Qed.

Lemma stepDown_nonneg (d : float) :
  (delayStepDown <? d)%float = true -> nonNegative (d - delayStepDown)%float.
Proof.
  unfold nonNegative. rewrite FloatAxioms.ltb_spec, FloatAxioms.leb_spec, FloatAxioms.sub_spec.
  pose proof (Prim2SF_valid d) as Hv.
  change (Prim2SF 0) with (S754_zero false).
  change (Prim2SF delayStepDown) with (S754_finite false 7205759403792794 (-57)).
  destruct (Prim2SF d) as [s|s| |s m e];
    [destruct s; discriminate
    |destruct s; [discriminate|reflexivity]
    |discriminate
    |destruct s; [discriminate|]].
  unfold SFltb, SFcompare. intros Hlt.
  unfold SF64sub, SFsub. cbv zeta. unfold cond_Zopp.
  apply binary_normalize_nonneg.
  destruct (Z.compare_spec (-57) e) as [He|He|He]; try discriminate.
  - subst e. rewrite Z.min_id. unfold shl_align.
    change IntDef.Z.sub with Z.sub. rewrite Z.sub_diag. cbn [fst].
    destruct (Pos.compare_cont Eq 7205759403792794 m) eqn:Ec; try discriminate.
    assert (7205759403792794 < m)%positive by (apply Pos.compare_lt_iff; exact Ec).
    lia.
  - rewrite Z.min_r by lia. unfold shl_align.
    change IntDef.Z.sub with Z.sub. rewrite Z.sub_diag.
    destruct (-57 - e) as [|p|p] eqn:Ed; try lia. cbn [fst].
    pose proof (iter_xO_double m p) as Hd.
    assert (Hm : 2 ^ 52 <= Z.pos m).
    { simpl in Hv. unfold bounded, canonical_mantissa in Hv.
      apply andb_prop in Hv as [Hc _]. apply Z.eqb_eq in Hc.
      unfold fexp, emin, prec, emax in Hc.
      pose proof (digits2_pos_lower m) as Hl.
      change IntDef.Z.max with Z.max in Hc.
      change IntDef.Z.sub with Z.sub in Hc.
      change IntDef.Z.add with Z.add in Hc.
      assert (Hdig : Z.pos (digits2_pos m) = 53).
      { destruct (Z.max_spec (Z.pos (digits2_pos m) + e - 53) (3 - 1024 - 53)) as [[? Hx]|[? Hx]];
          rewrite Hx in Hc; lia. }
      rewrite Hdig in Hl.
      exact Hl. }
    change (2 ^ 52) with 4503599627370496 in Hm. lia.
Qed.

Lemma positive_not_zero (x : float) : (0 <? x)%float = true -> (x =? 0)%float = false.
Proof.
  rewrite FloatAxioms.ltb_spec, FloatAxioms.eqb_spec.
  change (Prim2SF 0) with (S754_zero false).
  destruct (Prim2SF x) as [s|s| |s m e]; try discriminate;
    destruct s; try discriminate; reflexivity.
Qed.

(** ** Facts kept by every stretch of a run *)

Lemma delaysOf_nil (tr : list Event) :
  delaysOf tr = [] -> forall f o n, ~ In (EvDelay f o n) tr.
Proof.
  intros H f o n Hin.
  assert (Hd : In n (delaysOf tr)).
  { unfold delaysOf. apply in_flat_map. exists (EvDelay f o n). split; [exact Hin|left; reflexivity]. }
  rewrite H in Hd. destruct Hd.
Qed.

Lemma sameSettings_refl (c : Config) : sameSettings c c.
Proof. unfold sameSettings. repeat split. Qed.

Lemma sameSettings_trans (c c1 c2 : Config) :
  sameSettings c c1 -> sameSettings c1 c2 -> sameSettings c c2.
Proof. unfold sameSettings. intuition congruence. Qed.

Lemma noReuse_quotaFree (tr : list Event) : quotaKeys tr = [] -> noReuse tr.
Proof.
  intros H tr1 k u r tr2 -> Hq. rewrite quotaKeys_app in H. simpl in H.
  rewrite Hq in H. destruct (quotaKeys tr1); discriminate.
Qed.

Lemma noReuse_app (ex : gset string) (a b : list Event) :
  noReuse a -> noReuse b ->
  (forall x, In x (quotaKeys a) -> x ∈ ex) ->
  (forall x, In x (attemptKeys b) -> x ∉ ex) ->
  noReuse (a ++ b).
Proof.
  intros Ha Hb Hq Hf tr1 k u r tr2 E Hr.
  apply app_eq_app in E as [l [[-> E]|[-> E]]].
  - destruct l as [|e l]; simpl in E.
    + subst b. apply (Hb [] k u r tr2 eq_refl Hr).
    + injection E as <- ->. rewrite attemptKeys_app, in_app_iff. intros [H|H].
      * apply (Ha tr1 k u r l eq_refl Hr H).
      * apply (Hf k H), Hq. rewrite quotaKeys_app, in_app_iff. right. simpl. rewrite Hr. left. reflexivity.
  - apply (Hb l k u r tr2 E Hr).
Qed.

Lemma RunFacts_refl (c : Config) (w : World) : RunFacts c w c w [].
Proof.
  constructor; rewrite ?app_nil_r; auto using sameSettings_refl.
  - intros ? ? E. destruct tr1; discriminate.
  - intros x [].
  - intros x [].
  - apply noReuse_quotaFree. reflexivity.
  - intros f o n [].
Qed.

Lemma RunFacts_trans (c c1 c2 : Config) (w w1 w2 : World) (a b : list Event) :
  RunFacts c w c1 w1 a -> noCancel a -> RunFacts c1 w1 c2 w2 b ->
  RunFacts c w c2 w2 (a ++ b).
Proof.
  intros [] Hn [].
  assert (El : exhaustedKeys c1 = exhaustedKeys c) by apply rf_settings0.
  assert (Ek : apiKeys c1 = apiKeys c) by apply rf_settings0.
  assert (Ed : delay c1 = delay c) by apply rf_settings0.
  rewrite El in *. rewrite Ek in *. rewrite Ed in *.
  constructor.
  - rewrite rf_trace1, rf_trace0, app_assoc. reflexivity.
  - eapply sameSettings_trans; eauto.
  - rewrite rf_store1, rf_store0, foundLinks_app, app_assoc. reflexivity.
  - apply cancelLast_app; auto.
  - set_solver.
  - intros x. rewrite quotaKeys_app, in_app_iff. intros [H|H]; auto.
  - intros x. rewrite attemptKeys_app, in_app_iff. intros [H|H]; auto.
    destruct (rf_fresh1 x H) as [H1 H2]. split; [exact H1|]. set_solver.
  - apply (noReuse_app (exAt (exhaustedKeys c) w1)); auto.
    intros x H. apply (rf_fresh1 x H).
  - intros H. destruct (rf_nonneg0 H) as [H1 H2]. destruct (rf_nonneg1 H1) as [H3 H4].
    split; [exact H3|]. rewrite delaysOf_app. apply Forall_app. auto.
  - intros H. destruct (rf_fixed0 H) as [H1 H2]. destruct (rf_fixed1 H) as [H3 H4].
    split; [congruence|]. rewrite delaysOf_app, H2, H4. reflexivity.
  - intros f o n. rewrite in_app_iff. intros [H|H]; auto.
  - congruence.
Qed.

Lemma RunFacts_url (c : Config) (k : string) (w w' : World) r (tr : list Event) :
  UrlRun (exhaustedKeys c) k w r w' tr -> RunFacts c w c w' tr.
Proof.
  intros [].
  destruct (urlEvents_silent k tr ur_events0) as (H1 & H2 & H3 & H4 & H5 & H6).
  constructor; auto using sameSettings_refl.
  - rewrite H1, app_nil_r. reflexivity.
  - rewrite H3. intros x [].
  - intros tr1 k0 u r0 tr2 -> _.
    apply Forall_app in ur_events0 as [_ Hs]. apply Forall_cons in Hs as [_ Hs].
    destruct (urlEvents_silent k tr2 Hs) as (_ & _ & -> & _). intros [].
  - intros H. rewrite H4. split; [exact H|constructor].
  - intros f o n H. destruct (delaysOf_nil tr H4 f o n H).
Qed.

(** ** Steps that leave no mark *)

Lemma quiet_silent (tr : list Event) :
  Forall quietEvent tr ->
  foundLinks tr = [] /\ attemptKeys tr = [] /\ delaysOf tr = [] /\ quotaKeys tr = [] /\
  (forall p, attemptsOn p tr = []) /\ noCancel tr /\
  (forall q links, ~ In (EvFound q links) tr) /\ pagesOf tr = [].
Proof.
  induction 1 as [|e tr He _ IH].
  - repeat split; auto; unfold noCancel; simpl; tauto.
  - destruct IH as (H1 & H2 & H3 & H4 & H5 & H6 & H7 & H8).
    change (e :: tr) with ([e] ++ tr)%list. trace_app. rewrite H1, H2, H3, H4, H8.
    destruct e as [[]| | | | | | |]; try destruct He; simpl; repeat split; auto;
      try (intros p; rewrite H5; reflexivity);
      try (intros [E|E]; [discriminate|exact (H6 E)]);
      try (intros q links [E|E]; [discriminate|exact (H7 q links E)]).
Qed.

Lemma quietStep_refl (w : World) : quietStep w w [].
Proof. repeat split; auto. rewrite app_nil_r. reflexivity. Qed.

Lemma quietStep_trans (w w1 w2 : World) (a b : list Event) :
  quietStep w w1 a -> quietStep w1 w2 b -> quietStep w w2 (a ++ b).
Proof.
  intros (A1 & A2 & A3 & A4) (B1 & B2 & B3 & B4). repeat split.
  - rewrite B1, A1, app_assoc. reflexivity.
  - apply Forall_app; auto.
  - congruence.
  - congruence.
Qed.

Lemma RunFacts_quiet (c : Config) (w w' : World) (tr : list Event) :
  quietStep w w' tr -> RunFacts c w c w' tr.
Proof.
  intros (H1 & H2 & H3 & H4).
  destruct (quiet_silent tr H2) as (Q1 & Q2 & Q3 & Q4 & Q5 & Q6 & Q7 & Q8).
  constructor; auto using sameSettings_refl, noCancel_cancelLast.
  - rewrite Q1, app_nil_r. reflexivity.
  - unfold exAt. rewrite H3. reflexivity.
  - rewrite Q4. intros x [].
  - rewrite Q2. intros x [].
  - apply noReuse_quotaFree, Q4.
  - rewrite Q3. intros H. split; [exact H|constructor].
  - intros f o n H. destruct (delaysOf_nil tr Q3 f o n H).
Qed.

Lemma logv_quiet (v : bool) (s : string) (w : World) u w' :
  logv v s w = (u, w') -> quietStep w w' [].
Proof.
  unfold logv, println, ret. destruct v; intros [= <- <-]; repeat split; wsimpl; auto;
    rewrite app_nil_r; reflexivity.
Qed.

Lemma logErr_quiet (s : string) (w : World) u w' :
  logErr s w = (u, w') -> quietStep w w' [].
Proof.
  unfold logErr. intros [= <- <-]; repeat split; wsimpl; auto.
  rewrite app_nil_r; reflexivity.
Qed.

Lemma delayControl_quiet (c : Config) (w : World) u w' :
  delayControl c w = (u, w') -> exists tr, quietStep w w' tr.
Proof.
  unfold delayControl, sleep, emit, ret.
  destruct (0 <? _)%float; intros [= <- <-].
  - eexists [_]. repeat split; wsimpl; auto. repeat constructor.
  - exists []. apply quietStep_refl.
Qed.

Lemma getRandomApiKey_quiet (env : Env) (c : Config) (w : World) r w' :
  getRandomApiKey env c w = (r, w') -> quietStep w w' [].
Proof.
  intros H. apply getRandomApiKey_spec in H as (H1 & H2 & H3 & H4 & H5 & _).
  repeat split; auto. rewrite app_nil_r. exact H5.
Qed.

Lemma RunFacts_local (c : Config) (w : World) (c' : Config) (w' : World) (tr : list Event) :
  trace w' = (trace w ++ tr)%list -> maps w' = maps w -> fs w' = fs w ->
  sameSettings c c' -> requestStore c' = (requestStore c ++ foundLinks tr)%list ->
  cancelLast tr -> quotaKeys tr = [] -> attemptKeys tr = [] ->
  (nonNegative (dynamicDelay c) ->
   nonNegative (dynamicDelay c') /\ Forall nonNegative (delaysOf tr)) ->
  ((delay c =? 0)%float = false -> dynamicDelay c' = dynamicDelay c /\ delaysOf tr = []) ->
  (forall f o n, In (EvDelay f o n) tr -> delayStepOK (delay c) f o n) ->
  RunFacts c w c' w' tr.
Proof.
  intros H1 H2 H3 H4 H5 H6 H7 H8 H9 H10 H11.
  constructor; auto.
  - unfold exAt. rewrite H2. reflexivity.
  - rewrite H7. intros x [].
  - rewrite H8. intros x [].
  - apply noReuse_quotaFree, H7.
Qed.

(** ** One attempt *)

Lemma quiet_calm (tr : list Event) : Forall quietEvent tr -> Forall calmEvent tr.
Proof.
  intros H. eapply Forall_impl; [exact H|].
  intros [[]| | | | | | |]; simpl; auto.
Qed.

Lemma calm_silent (tr : list Event) :
  Forall calmEvent tr ->
  noCancel tr /\ pagesOf tr = [] /\ (forall p, attemptsOn p tr = []) /\
  (forall q links, ~ In (EvFound q links) tr).
Proof.
  induction 1 as [|e tr He _ IH].
  - repeat split; auto; unfold noCancel; simpl; tauto.
  - destruct IH as (H1 & H2 & H3 & H4).
    change (e :: tr) with ([e] ++ tr)%list. trace_app. rewrite H2.
    destruct e as [[]| | | | | | |]; try destruct He; simpl; repeat split; auto;
      try (intros p; rewrite H3; reflexivity);
      try (intros [E|E]; [discriminate|exact (H1 E)]);
      try (intros q links [E|E]; [discriminate|exact (H4 q links E)]).
Qed.

Lemma AttemptFacts_next (p tk maxTries : Z) (c : Config) (w : World) (c' : Config)
    (w' : World) (tr : list Event) (t : Z) :
  RunFacts c w c' w' tr -> Forall calmEvent tr ->
  resultsFound c' = resultsFound c -> t = tk + 1 \/ t = maxTries ->
  AttemptFacts p tk maxTries c w c' (Next t) w' tr /\ (forall q, attemptsOn q tr = []) /\
  Next t <> Return.
Proof.
  intros Hr Hc Hf Ht. destruct (calm_silent tr Hc) as (H1 & H2 & H3 & H4).
  split; [|split; [exact H3|discriminate]].
  constructor; auto.
  - rewrite H3. simpl. lia.
  - intros q links H. destruct (H4 q links H).
  - discriminate.
  - intros tk' [= <-]. exact Ht.
Qed.

Ltac settings := unfold sameSettings; cbn; repeat split; reflexivity.

Ltac notIn := let HH := fresh in intros HH; simpl in HH; intuition discriminate.

Ltac local_facts :=
  apply RunFacts_local; wsimpl;
  [ rewrite <- ?app_assoc, ?app_nil_r; reflexivity | reflexivity | reflexivity | settings
  | cbn; rewrite ?app_nil_r; reflexivity
  | apply noCancel_cancelLast; notIn | reflexivity | reflexivity | | | ].

Lemma settleAttempt_facts (p tk maxTries : Z) (c : Config) (combined : list string)
    (respErr : option string) (w : World) c' e w' :
  settleAttempt p tk maxTries c combined respErr w = ((c', e), w') ->
  exists tr, AttemptFacts p tk maxTries c w c' e w' tr /\ (forall q, attemptsOn q tr = []) /\
             e <> Return.
Proof.
  unfold settleAttempt. cbv zeta.
  destruct (0 <? length (uniqueStrings combined))%nat eqn:Ef.
  - cbv beta iota zeta delta [bind ret emit]. cbn [delay dynamicDelay set_requestCounter
      set_noResultCounter set_resultsFound set_requestStore].
    destruct ((delay c =? 0)%float && (delayStepDown <? dynamicDelay c)%float) eqn:Ed;
      intros [= <- <- <-].
    + apply andb_prop in Ed as [Ed1 Ed2].
      exists [EvFound p (uniqueStrings combined);
              EvDelay true (dynamicDelay c) (dynamicDelay c - delayStepDown)%float].
      split; [|split; [reflexivity|discriminate]].
      constructor; try (simpl; auto; fail).
      * local_facts.
        -- intros _. cbn. split; [|repeat constructor]; apply stepDown_nonneg, Ed2.
        -- intros E. cbn in E. congruence.
        -- intros f o n [E|[[= <- <- <-]|[]]]; [discriminate|].
           repeat split; auto.
      * intros _. notIn.
      * intros q links [[= <- <-]|[E|[]]]; [|discriminate].
        split; [reflexivity|apply uniqueStrings_NoDup].
      * intros _. split; [reflexivity|]. eexists. left. reflexivity.
      * intros E. congruence.
      * discriminate.
    + exists [EvFound p (uniqueStrings combined)].
      split; [|split; [reflexivity|discriminate]].
      constructor; try (simpl; auto; fail).
      * local_facts.
        -- intros H. cbn. split; [exact H|constructor].
        -- intros _. cbn. auto.
        -- intros f o n. notIn.
      * intros _. notIn.
      * intros q links [[= <- <-]|[]]. split; [reflexivity|apply uniqueStrings_NoDup].
      * intros _. split; [reflexivity|]. eexists. left. reflexivity.
      * intros E. congruence.
      * discriminate.
  - destruct respErr as [msg|].
    + cbv beta iota zeta delta [bind ret]. intros H.
      destruct (logv (verbose c) ("Error: " +:+ msg) w) as [u1 w1] eqn:E1.
      destruct (delayControl c w1) as [u2 w2] eqn:E2.
      injection H as <- <- <-.
      apply logv_quiet in E1. apply delayControl_quiet in E2 as [s2 E2].
      pose proof (quietStep_trans _ _ _ _ _ E1 E2) as Hq.
      exists ([] ++ s2)%list. apply AttemptFacts_next; auto.
      * apply RunFacts_quiet, Hq.
      * apply quiet_calm, Hq.
    + cbv beta iota zeta delta [bind ret emit]. cbn [delay dynamicDelay set_noResultCounter].
      intros H.
      destruct (delayControl c w) as [u1 w1] eqn:E1.
      apply delayControl_quiet in E1 as [s1 E1].
      destruct (delay c =? 0)%float eqn:Ed.
      * match type of H with context [delayControl ?c2 ?w2] =>
          destruct (delayControl c2 w2) as [u2 w3] eqn:E2;
          pose (cE := c2); pose (wE := w2) end.
        apply delayControl_quiet in E2 as [s2 E2].
        injection H as <- <- <-.
        exists (s1 ++ [EvDelay false (dynamicDelay c) (dynamicDelay c + delayStepUp)%float]
                   ++ s2)%list.
        apply AttemptFacts_next; auto.
        -- eapply RunFacts_trans; [apply RunFacts_quiet, E1|apply quiet_silent, E1|].
           eapply (RunFacts_trans _ cE _ _ wE);
             [|notIn|apply RunFacts_quiet, E2].
           subst cE wE. local_facts.
           ++ intros Hn. cbn. split; [|repeat constructor]; apply stepUp_nonneg, Hn.
           ++ intros E. congruence.
           ++ intros f o n [[= <- <- <-]|[]]. split; [exact Ed|reflexivity].
        -- apply Forall_app. split; [apply quiet_calm, E1|].
           constructor; [exact I|apply quiet_calm, E2].
      * match type of H with context [delayControl ?c2 ?w2] =>
          destruct (delayControl c2 w2) as [u2 w3] eqn:E2;
          pose (cE := c2) end.
        apply delayControl_quiet in E2 as [s2 E2].
        injection H as <- <- <-.
        exists (s1 ++ [] ++ s2)%list.
        apply AttemptFacts_next; auto.
        -- eapply RunFacts_trans; [apply RunFacts_quiet, E1|apply quiet_silent, E1|].
           eapply (RunFacts_trans _ cE _ _ w1);
             [|notIn|apply RunFacts_quiet, E2].
           subst cE. local_facts.
           ++ intros Hn. cbn. split; [exact Hn|constructor].
           ++ intros _. cbn. auto.
           ++ intros f o n [].
        -- apply Forall_app. split; [apply quiet_calm, E1|apply quiet_calm, E2].
Qed.

Lemma RunFacts_attempt (c : Config) (w w' : World) (p : Z) (k : string) :
  trace w' = (trace w ++ [EvAttempt p k])%list -> maps w' = maps w -> fs w' = fs w ->
  In k (apiKeys c) -> k ∉ exAt (exhaustedKeys c) w ->
  RunFacts c w c w' [EvAttempt p k].
Proof.
  intros H1 H2 H3 H4 H5.
  constructor.
  - exact H1.
  - apply sameSettings_refl.
  - rewrite app_nil_r. reflexivity.
  - apply noCancel_cancelLast. notIn.
  - unfold exAt. rewrite H2. reflexivity.
  - intros x [].
  - intros x [<-|[]]. auto.
  - apply noReuse_quotaFree. reflexivity.
  - intros H. split; [exact H|constructor].
  - intros _. split; reflexivity.
  - intros f o n. notIn.
  - exact H3.
Qed.

Lemma RunFacts_cancel (c : Config) (w w' : World) :
  trace w' = (trace w ++ [EvCheck true])%list -> maps w' = maps w -> fs w' = fs w ->
  RunFacts c w c w' [EvCheck true].
Proof.
  intros H1 H2 H3.
  apply RunFacts_local; auto using sameSettings_refl.
  - rewrite app_nil_r. reflexivity.
  - apply (cancelLast_end []). intros [].
  - intros f o n. notIn.
Qed.

Lemma AttemptFacts_return (p tk maxTries : Z) (c : Config) (w w' : World) (tr : list Event) :
  RunFacts c w c w' tr -> pagesOf tr = [] ->
  (length (attemptsOn p tr) <= 1)%nat -> (forall q, q <> p -> attemptsOn q tr = []) ->
  (forall q links, ~ In (EvFound q links) tr) ->
  AttemptFacts p tk maxTries c w c Return w' tr.
Proof.
  intros H1 H2 H3 H4 H5. constructor; auto; try discriminate.
  - congruence.
  - intros q links H. destruct (H5 q links H).
Qed.

Lemma AttemptFacts_prefix (p tk maxTries : Z) (c : Config) (w w1 : World) (c' : Config)
    (e : AttemptEnd) (w' : World) (pre tr : list Event) :
  RunFacts c w c w1 pre -> noCancel pre -> pagesOf pre = [] ->
  (length (attemptsOn p pre) <= 1)%nat -> (forall q, q <> p -> attemptsOn q pre = []) ->
  (forall q links, ~ In (EvFound q links) pre) ->
  AttemptFacts p tk maxTries c w1 c' e w' tr -> (forall q, attemptsOn q tr = []) ->
  AttemptFacts p tk maxTries c w c' e w' (pre ++ tr).
Proof.
  intros H1 H2 H3 H4 H5 H6 [] H7. constructor.
  - eapply RunFacts_trans; eauto.
  - intros He. apply noCancel_app. auto.
  - rewrite pagesOf_app, H3, af_pages0. reflexivity.
  - rewrite attemptsOn_app, H7, app_nil_r. exact H4.
  - intros q Hq. rewrite attemptsOn_app, H7, (H5 q Hq). reflexivity.
  - intros q links. rewrite in_app_iff. intros [H|H]; [destruct (H6 q links H)|eauto].
  - intros He. destruct (af_break0 He) as [Hb [links Hl]].
    split; [exact Hb|]. exists links. apply in_app_iff. auto.
  - intros He. destruct (af_other0 He) as [Hb Hl].
    split; [exact Hb|]. intros q links. rewrite in_app_iff. intros [H|H].
    + exact (H6 q links H).
    + exact (Hl q links H).
  - exact af_next0.
Qed.

Lemma attemptBody_facts (env : Env) (p startIdx tk maxTries : Z) (ext : string)
    (c : Config) (w : World) c' e w' :
  attemptBody env p startIdx tk maxTries ext c w = ((c', e), w') ->
  exists tr, AttemptFacts p tk maxTries c w c' e w' tr.
Proof.
  unfold attemptBody. cbv beta iota zeta delta [bind ret ctxCancelled nextTick emit].
  wsimpl. intros H.
  destruct (ctxErr env (tick w)) eqn:Ec.
  { injection H as <- <- <-. exists [EvCheck true].
    apply AttemptFacts_return;
      [apply RunFacts_cancel; reflexivity|reflexivity|simpl; lia
      |intros; reflexivity|intros q links; notIn]. }
  match type of H with context [getRandomApiKey env c ?w0] =>
    pose (w0' := w0);
    assert (Q0 : quietStep w w0' [EvCheck false]) by
      (repeat split; repeat constructor);
    destruct (getRandomApiKey env c w0) as [k w1] eqn:Ek
  end.
  pose proof (getRandomApiKey_quiet _ _ _ _ _ Ek) as Q1.
  pose proof (quietStep_trans _ _ _ _ _ Q0 Q1) as Q01. simpl in Q01.
  assert (Hret : forall u w2, logErr "No valid API keys remaining." w1 = (u, w2) ->
            AttemptFacts p tk maxTries c w c Return w2 [EvCheck false]).
  { intros u w2 El. apply logErr_quiet in El.
    pose proof (quietStep_trans _ _ _ _ _ Q01 El) as Q. simpl in Q.
    apply AttemptFacts_return;
      [apply RunFacts_quiet, Q|reflexivity|simpl; lia
      |intros; reflexivity|intros q links; notIn]. }
  destruct k as [k|].
  2:{ destruct (logErr _ w1) as [u w2] eqn:El. injection H as <- <- <-. eauto. }
  destruct (String.eqb k EmptyString) eqn:Ee.
  { destruct (logErr _ w1) as [u w2] eqn:El. injection H as <- <- <-. eauto. }
  destruct (logv (verbose c) _ w1) as [u w2] eqn:El.
  apply logv_quiet in El.
  pose proof (quietStep_trans _ _ _ _ _ Q01 El) as Q. simpl in Q.
  apply getRandomApiKey_spec in Ek as (_ & K2 & _ & _ & _ & Kk).
  destruct (Kk k eq_refl) as [Kin Kfresh]. clear Kk.
  match type of H with context [urlLoop env c k ?urls [] None ?w3] =>
    pose (w3' := w3);
    destruct (urlLoop env c k urls [] None w3) as [r wu] eqn:Eu
  end.
  apply urlLoop_spec in Eu as [trU Hu].
  assert (Hpre : RunFacts c w c w3' ([EvCheck false] ++ [EvAttempt p k])).
  { eapply RunFacts_trans; [apply RunFacts_quiet, Q|notIn|].
    apply RunFacts_attempt; subst w3'; wsimpl; auto.
    unfold exAt. destruct Q as (_ & _ & -> & _). exact Kfresh. }
  assert (Hpu : RunFacts c w c wu (([EvCheck false] ++ [EvAttempt p k]) ++ trU)).
  { eapply RunFacts_trans; [exact Hpre|notIn|]. apply (RunFacts_url c k _ _ r _ Hu). }
  destruct (urlEvents_silent k trU (ur_events _ _ _ _ _ _ Hu)) as (U1 & U2 & U3 & U4 & U5 & U6).
  assert (Uf : forall q links, ~ In (EvFound q links) trU).
  { intros q links Hin. pose proof (ur_events _ _ _ _ _ _ Hu) as Hev.
    rewrite List.Forall_forall in Hev. destruct (Hev _ Hin) as [[b E]|(u0 & r0 & E)]; discriminate. }
  assert (Hat : attemptsOn p (([EvCheck false] ++ [EvAttempt p k]) ++ trU) = [k]).
  { trace_app. rewrite U5. simpl. rewrite Z.eqb_refl. reflexivity. }
  assert (Hot : forall q, q <> p -> attemptsOn q (([EvCheck false] ++ [EvAttempt p k]) ++ trU) = []).
  { intros q Hq. trace_app. rewrite U5. simpl.
    destruct (Z.eqb_spec p q); [congruence|reflexivity]. }
  assert (Hnf : forall q links, ~ In (EvFound q links) (([EvCheck false] ++ [EvAttempt p k]) ++ trU)).
  { intros q links. rewrite in_app_iff. intros [Hin|Hin]; [revert Hin; notIn|exact (Uf q links Hin)]. }
  destruct r as [[combined respErr]|].
  - apply settleAttempt_facts in H as (trS & HS & HSa & HSr).
    exists ((([EvCheck false] ++ [EvAttempt p k]) ++ trU) ++ trS)%list.
    eapply AttemptFacts_prefix; [exact Hpu| | | |exact Hot|exact Hnf|exact HS|exact HSa].
    + apply noCancel_app. split; [notIn|]. apply (ur_done _ _ _ _ _ _ Hu). discriminate.
    + rewrite pagesOf_app, U2. reflexivity.
    + rewrite Hat. simpl. lia.
  - injection H as <- <- <-.
    exists (([EvCheck false] ++ [EvAttempt p k]) ++ trU)%list.
    apply AttemptFacts_return; [exact Hpu| | |exact Hot|exact Hnf].
    + rewrite pagesOf_app, U2. reflexivity.
    + rewrite Hat. simpl. lia.
Qed.

(** ** The attempts of one page *)

Lemma LoopFacts_nil (p : Z) (budget : nat) (c : Config) (w : World) :
  LoopFacts p budget c w c false w [].
Proof.
  constructor; auto using RunFacts_refl.
  - intros _ [].
  - simpl. lia.
  - intros q links [].
Qed.

Lemma LoopFacts_last (p tk maxTries : Z) (budget : nat) (c : Config) (w : World)
    (c' : Config) (e : AttemptEnd) (w' : World) (tr : list Event) :
  AttemptFacts p tk maxTries c w c' e w' tr -> (1 <= budget)%nat ->
  (forall t, e <> Next t) ->
  LoopFacts p budget c w c' (match e with Return => true | _ => false end) w' tr.
Proof.
  intros [] Hb He. constructor; auto.
  - intros H. apply af_nocancel0. intros ->. discriminate.
  - lia.
  - destruct e as [| |t]; [right; apply af_other0; discriminate
                          |left; apply af_break0; reflexivity
                          |destruct (He t eq_refl)].
Qed.

Lemma LoopFacts_step (p tk maxTries t : Z) (b1 b2 : nat) (c c1 c2 : Config)
    (w w1 w2 : World) (r : bool) (a b : list Event) :
  AttemptFacts p tk maxTries c w c1 (Next t) w1 a ->
  LoopFacts p b1 c1 w1 c2 r w2 b -> (1 + b1 <= b2)%nat ->
  LoopFacts p b2 c w c2 r w2 (a ++ b).
Proof.
  intros [] [] Hb.
  assert (Hn : noCancel a) by (apply af_nocancel0; discriminate).
  destruct af_other0 as [Hf Hnf]; [discriminate|].
  constructor.
  - eapply RunFacts_trans; eauto.
  - intros Hr. apply noCancel_app. auto.
  - rewrite pagesOf_app, af_pages0, lf_pages0. reflexivity.
  - rewrite attemptsOn_app, length_app. lia.
  - intros q Hq. rewrite attemptsOn_app, af_others0, lf_others0; auto.
  - intros q links. rewrite in_app_iff. intros [H|H]; eauto.
  - destruct lf_found0 as [[H1 [links H2]]|[H1 H2]].
    + left. split; [exact H1|]. exists links. apply in_app_iff. auto.
    + right. split; [congruence|]. intros q links. rewrite in_app_iff.
      intros [H|H]; [exact (Hnf q links H)|exact (H2 q links H)].
Qed.

Lemma attemptLoop_facts (env : Env) (p startIdx maxTries : Z) (ext : string) (fuel : nat) :
  forall tk c w c' r w',
  attemptLoop env fuel p startIdx tk maxTries ext c w = ((c', r), w') ->
  exists tr, LoopFacts p (Z.to_nat (maxTries - tk)) c w c' r w' tr.
Proof.
  induction fuel as [|fuel IH]; intros tk c w c' r w' H.
  - injection H as <- <- <-. exists []. apply LoopFacts_nil.
  - cbn [attemptLoop] in H.
    destruct (Z.ltb_spec tk maxTries) as [Hlt|Hge].
    2:{ injection H as <- <- <-. exists []. apply LoopFacts_nil. }
    cbv beta iota zeta delta [bind ret] in H.
    destruct (attemptBody env p startIdx tk maxTries ext c w) as [[c1 e] w1] eqn:Eb.
    apply attemptBody_facts in Eb as [a Ha].
    destruct e as [| |t].
    + injection H as <- <- <-. exists a.
      apply (LoopFacts_last _ _ _ _ _ _ _ _ _ _ Ha); [lia|discriminate].
    + injection H as <- <- <-. exists a.
      apply (LoopFacts_last _ _ _ _ _ _ _ _ _ _ Ha); [lia|discriminate].
    + apply IH in H as [b Hb]. exists (a ++ b)%list.
      eapply LoopFacts_step; [exact Ha|exact Hb|].
      destruct (af_next _ _ _ _ _ _ _ _ _ Ha t eq_refl) as [->| ->]; lia.
Qed.

(** The attempt loop never runs out of fuel when given one unit per
    remaining try. *)
Lemma attemptLoop_fuel (env : Env) (p startIdx maxTries : Z) (ext : string) (fuel1 : nat) :
  forall fuel2 tk c w,
  maxTries - tk <= Z.of_nat fuel1 -> maxTries - tk <= Z.of_nat fuel2 ->
  attemptLoop env fuel1 p startIdx tk maxTries ext c w =
  attemptLoop env fuel2 p startIdx tk maxTries ext c w.
Proof.
  induction fuel1 as [|fuel1 IH]; intros fuel2 tk c w H1 H2.
  - destruct fuel2 as [|fuel2]; [reflexivity|]. cbn [attemptLoop].
    destruct (Z.ltb_spec tk maxTries); [lia|reflexivity].
  - destruct fuel2 as [|fuel2]; cbn [attemptLoop];
      destruct (Z.ltb_spec tk maxTries) as [Hlt|Hge]; try reflexivity; try lia.
    cbv beta iota zeta delta [bind ret].
    destruct (attemptBody env p startIdx tk maxTries ext c w) as [[c1 e] w1] eqn:Eb.
    apply attemptBody_facts in Eb as [a Ha].
    destruct e as [| |t]; try reflexivity.
    apply IH; destruct (af_next _ _ _ _ _ _ _ _ _ Ha t eq_refl) as [->| ->]; lia.
Qed.

(** ** The pages of one intent *)

Lemma in_pagesOf (p : Z) (tr : list Event) : In p (pagesOf tr) <-> In (EvPage p) tr.
Proof.
  unfold pagesOf. rewrite in_flat_map. split.
  - intros (e & He & Hp). destruct e; simpl in Hp; try tauto.
    destruct Hp as [<-|[]]. exact He.
  - intros H. exists (EvPage p). split; [exact H|left; reflexivity].
Qed.

Lemma PagesFacts_nil (p0 : Z) (c : Config) (w : World) : PagesFacts p0 c w c w [].
Proof.
  constructor; auto using RunFacts_refl; simpl; try tauto; try lia.
Qed.

Lemma PagesFacts_cancel (p0 : Z) (c : Config) (w w' : World) :
  trace w' = (trace w ++ [EvCheck true])%list -> maps w' = maps w -> fs w' = fs w ->
  PagesFacts p0 c w c w' [EvCheck true].
Proof.
  intros H1 H2 H3.
  constructor; auto using RunFacts_cancel; simpl; try tauto; try lia;
    try (intros q links; notIn).
Qed.

Lemma PagesFacts_page (p0 : Z) (c : Config) (w w0 : World) (c1 : Config) (r : bool)
    (w1 : World) (a : list Event) :
  p0 < pages c ->
  trace w0 = (trace w ++ pageHead p0)%list -> maps w0 = maps w -> fs w0 = fs w ->
  LoopFacts p0 (length (apiKeys c)) c w0 c1 r w1 a ->
  PagesFacts p0 c w c1 w1 (pageHead p0 ++ a).
Proof.
  intros Hp H1 H2 H3 [].
  assert (Hh : RunFacts c w c w0 (pageHead p0)).
  { apply RunFacts_local;
      [exact H1|exact H2|exact H3|apply sameSettings_refl
      |rewrite app_nil_r; reflexivity|apply noCancel_cancelLast; notIn
      |reflexivity|reflexivity
      |intros H; split; [exact H|constructor]
      |intros _; split; reflexivity
      |intros f o n; notIn]. }
  constructor.
  - eapply RunFacts_trans; [exact Hh|notIn|exact lf_run0].
  - intros q. rewrite pagesOf_app, lf_pages0. simpl. intros [<-|[]]. lia.
  - rewrite pagesOf_app, lf_pages0. simpl. lia.
  - intros q. rewrite attemptsOn_app. simpl.
    destruct (Z.eq_dec q p0) as [->|Hq]; [exact lf_attempts0|].
    rewrite lf_others0 by exact Hq. simpl. lia.
  - intros q Hq. rewrite attemptsOn_app. simpl. apply lf_others0. lia.
  - intros q Hq. rewrite pagesOf_app. simpl. left.
    destruct (Z.eq_dec q p0) as [->|Hne]; [reflexivity|].
    rewrite attemptsOn_app in Hq. simpl in Hq. rewrite lf_others0 in Hq by exact Hne.
    congruence.
  - intros q links. rewrite in_app_iff. intros [H|H]; [revert H; notIn|].
    destruct (lf_found_page0 q links H) as [-> Hn].
    split; [lia|]. split; [|exact Hn]. rewrite pagesOf_app, lf_pages0. simpl. left. reflexivity.
  - intros p. rewrite pagesOf_app, lf_pages0. simpl. intros [<-|[]].
    right. intros q [<-|[]]. lia.
Qed.

Lemma PagesFacts_more (p0 : Z) (c c1 c2 c' : Config) (w w1 w' : World)
    (a b : list Event) :
  PagesFacts p0 c w c1 w1 a -> noCancel a ->
  pagesOf a = [p0] -> (exists links, In (EvFound p0 links) a) ->
  sameSettings c1 c2 -> requestStore c2 = requestStore c1 ->
  dynamicDelay c2 = dynamicDelay c1 ->
  PagesFacts (p0 + 1) c2 w1 c' w' b ->
  PagesFacts p0 c w c' w' (a ++ b).
Proof.
  intros [] Hn Hp Hf Hs Hst Hd [].
  assert (Hc12 : RunFacts c1 w1 c2 w1 []).
  { apply RunFacts_local;
      [rewrite app_nil_r; reflexivity|reflexivity|reflexivity|exact Hs
      |rewrite app_nil_r; exact Hst
      |intros tr1 tr2 E; destruct tr1; discriminate
      |reflexivity|reflexivity
      |intros H; split; [congruence|constructor]
      |intros _; split; [exact Hd|reflexivity]
      |intros f o n []]. }
  assert (Hr : RunFacts c w c' w' (a ++ [] ++ b)).
  { eapply RunFacts_trans; [exact pf_run0|exact Hn|].
    eapply RunFacts_trans; [exact Hc12|intros []|exact pf_run1]. }
  simpl in Hr.
  assert (Ep : pages c2 = pages c).
  { transitivity (pages c1); [apply Hs|apply (rf_settings _ _ _ _ _ pf_run0)]. }
  assert (Ek : apiKeys c2 = apiKeys c).
  { transitivity (apiKeys c1); [apply Hs|apply (rf_settings _ _ _ _ _ pf_run0)]. }
  rewrite Ep in *. rewrite Ek in *.
  constructor.
  - exact Hr.
  - intros q. rewrite pagesOf_app, in_app_iff. intros [H|H].
    + apply pf_range0, H.
    + apply pf_range1 in H. lia.
  - rewrite pagesOf_app, length_app, Hp. simpl.
    assert (p0 < pages c) by (apply pf_range0; rewrite Hp; left; reflexivity). lia.
  - intros q. rewrite attemptsOn_app, length_app.
    destruct (Z_lt_le_dec q (p0 + 1)) as [Hq|Hq].
    + rewrite (pf_attempts_lo1 q Hq). simpl. specialize (pf_attempts0 q). lia.
    + assert (attemptsOn q a = []) as ->.
      { destruct (attemptsOn q a) as [|x l] eqn:E; [reflexivity|].
        assert (Hin : In q (pagesOf a)) by (apply pf_attempt_pages0; congruence).
        rewrite Hp in Hin. destruct Hin as [<-|[]]. lia. }
      simpl. apply pf_attempts1.
  - intros q Hq. rewrite attemptsOn_app, pf_attempts_lo0, pf_attempts_lo1; auto. lia.
  - intros q Hq. rewrite pagesOf_app, in_app_iff. rewrite attemptsOn_app in Hq.
    destruct (attemptsOn q a) eqn:E.
    + right. apply pf_attempt_pages1. exact Hq.
    + left. apply pf_attempt_pages0. congruence.
  - intros q links. rewrite in_app_iff, pagesOf_app, in_app_iff. intros [H|H].
    + destruct (pf_found_lo0 q links H) as (H1 & H2 & H3). auto.
    + destruct (pf_found_lo1 q links H) as (H1 & H2 & H3). split; [lia|auto].
  - intros p. rewrite pagesOf_app, in_app_iff, Hp. intros [[<-|[]]|H].
    + left. destruct Hf as [links Hl]. exists links. apply in_app_iff. auto.
    + destruct (pf_stop1 p H) as [[links Hl]|Hle].
      * left. exists links. apply in_app_iff. auto.
      * right. intros q. rewrite in_app_iff. intros [[<-|[]]|Hq]; [|auto].
        apply pf_range1 in H. lia.
Qed.

Lemma pageLoop_step (env : Env) (ext : string) (p0 : Z) (c : Config) (w : World)
    c1 r1 w1 :
  p0 < pages c -> resultsFound c = false ->
  attemptLoop env (length (apiKeys c)) p0 (wrap64 (p0 * 10 + 1)) 0
    (Z.of_nat (length (apiKeys c))) ext c
    {| tick := S (tick w); fs := fs w; maps := maps w; stdout := stdout w;
       stderr := stderr w; trace := (trace w ++ [EvCheck false]) ++ [EvPage p0] |}
  = ((c1, r1), w1) ->
  exists a,
    PagesFacts p0 c w c1 w1 (pageHead p0 ++ a) /\
    pagesOf (pageHead p0 ++ a) = [p0] /\
    (r1 = false -> noCancel (pageHead p0 ++ a)) /\
    (resultsFound c1 = true -> exists links, In (EvFound p0 links) (pageHead p0 ++ a)).
Proof.
  intros Hp Hf Ea.
  apply attemptLoop_facts in Ea as [a Ha].
  rewrite Z.sub_0_r, Nat2Z.id in Ha.
  exists a. split; [|split; [|split]].
  - eapply PagesFacts_page; [exact Hp| | | |exact Ha]; wsimpl; auto.
    rewrite <- app_assoc. reflexivity.
  - rewrite pagesOf_app, (lf_pages _ _ _ _ _ _ _ _ Ha). reflexivity.
  - intros Hr. apply noCancel_app. split; [notIn|].
    apply (lf_nocancel _ _ _ _ _ _ _ _ Ha Hr).
  - intros Ht. destruct (lf_found _ _ _ _ _ _ _ _ Ha) as [[_ [links Hl]]|[He _]].
    + exists links. apply in_app_iff. auto.
    + congruence.
Qed.

Lemma pageLoop_facts (env : Env) (ext : string) (fuel : nat) :
  forall p0 c w c' r w',
  resultsFound c = false ->
  pageLoop env fuel p0 ext c w = ((c', r), w') ->
  exists tr, PagesFacts p0 c w c' w' tr.
Proof.
  induction fuel as [|fuel IH]; intros p0 c w c' r w' Hf H.
  - injection H as <- <- <-. exists []. apply PagesFacts_nil.
  - cbn [pageLoop] in H.
    destruct (Z.ltb_spec p0 (pages c)) as [Hlt|Hge].
    2:{ injection H as <- <- <-. exists []. apply PagesFacts_nil. }
    cbv beta iota zeta delta [bind ret ctxCancelled nextTick emit] in H. wsimpl.
    destruct (ctxErr env (tick w)) eqn:Ec.
    { injection H as <- <- <-. exists [EvCheck true].
      apply PagesFacts_cancel; reflexivity. }
    match type of H with context [attemptLoop env ?f p0 ?s 0 ?m ext c ?w0] =>
      destruct (attemptLoop env f p0 s 0 m ext c w0) as [[c1 r1] w1] eqn:Ea
    end.
    destruct (pageLoop_step _ _ _ _ _ _ _ _ Hlt Hf Ea) as (a & Ha & Hp & Hn & Hfound).
    destruct r1.
    { injection H as <- <- <-. eauto. }
    destruct (resultsFound c1) eqn:Er; cbn [negb] in H.
    2:{ injection H as <- <- <-. eauto. }
    apply IH in H as [b Hb]; [|reflexivity].
    exists ((pageHead p0 ++ a) ++ b)%list.
    eapply PagesFacts_more; [exact Ha|auto|exact Hp|auto| | | |exact Hb].
    + settings.
    + reflexivity.
    + reflexivity.
Qed.

(** The page loop never runs out of fuel when given one unit per
    remaining page. *)
Lemma pageLoop_fuel (env : Env) (ext : string) (fuel1 : nat) :
  forall fuel2 p0 c w,
  resultsFound c = false ->
  pages c - p0 <= Z.of_nat fuel1 -> pages c - p0 <= Z.of_nat fuel2 ->
  pageLoop env fuel1 p0 ext c w = pageLoop env fuel2 p0 ext c w.
Proof.
  induction fuel1 as [|fuel1 IH]; intros fuel2 p0 c w Hf H1 H2.
  - destruct fuel2 as [|fuel2]; [reflexivity|]. cbn [pageLoop].
    destruct (Z.ltb_spec p0 (pages c)); [lia|reflexivity].
  - destruct fuel2 as [|fuel2]; cbn [pageLoop];
      destruct (Z.ltb_spec p0 (pages c)) as [Hlt|Hge]; try reflexivity; try lia.
    cbv beta iota zeta delta [bind ret ctxCancelled nextTick emit]. wsimpl.
    destruct (ctxErr env (tick w)); [reflexivity|].
    match goal with |- context [attemptLoop env ?f p0 ?s 0 ?m ext c ?w0] =>
      destruct (attemptLoop env f p0 s 0 m ext c w0) as [[c1 r1] w1] eqn:Ea
    end.
    destruct (pageLoop_step _ _ _ _ _ _ _ _ Hlt Hf Ea) as (a & Ha & _).
    destruct r1; [reflexivity|].
    destruct (resultsFound c1); cbn [negb]; [|reflexivity].
    assert (Ep : pages c1 = pages c) by apply (rf_settings _ _ _ _ _ (pf_run _ _ _ _ _ _ Ha)).
    apply IH; [reflexivity| |]; cbn; rewrite Ep; lia.
Qed.

(** ** One intent: [dorkRun] *)

Lemma resetRun_facts (c : Config) :
  requestStore (resetRun c) = [] /\ resultsFound (resetRun c) = false /\
  pages (resetRun c) = effectivePages c /\ apiKeys (resetRun c) = apiKeys c /\
  exhaustedKeys (resetRun c) = exhaustedKeys c /\ delay (resetRun c) = delay c /\
  dynamicDelay (resetRun c) = dynamicDelay c /\ target (resetRun c) = target c.
Proof.
  unfold resetRun, effectivePages. cbn.
  destruct (pages c =? 0)%Z; cbn; repeat split; reflexivity.
Qed.

Lemma dorkRun_facts (env : Env) (c : Config) (ext : string) (w : World) :
  PagesFacts 0 (resetRun c) w (dorkConfig env c ext w) (dorkWorld env c ext w)
    (dorkTrace env c ext w) /\
  dorkResult env c ext w = foundLinks (dorkTrace env c ext w).
Proof.
  unfold dorkTrace, dorkResult, dorkConfig, dorkWorld, dorkRun.
  cbv beta iota zeta delta [bind ret notFound].
  destruct (resetRun_facts c) as (R1 & R2 & _).
  destruct (pageLoop env (Z.to_nat (pages (resetRun c))) 0 ext (resetRun c) w)
    as [[c' r] w'] eqn:E.
  apply pageLoop_facts in E as [tr Ht]; [|exact R2].
  pose proof (rf_trace _ _ _ _ _ (pf_run _ _ _ _ _ _ Ht)) as Htr.
  pose proof (rf_store _ _ _ _ _ (pf_run _ _ _ _ _ _ Ht)) as Hst.
  rewrite R1 in Hst. simpl in Hst.
  assert (Hd : drop (length (trace w)) (trace w') = tr).
  { rewrite Htr. apply drop_app_length. }
  destruct r; [|destruct (length (requestStore c') =? 0)%nat eqn:El];
    cbn [fst snd]; rewrite Hd; split; auto.
  apply Nat.eqb_eq in El. rewrite <- Hst.
  destruct (requestStore c'); [reflexivity|discriminate].
Qed.

Lemma dorkTrace_spec (env : Env) (c : Config) (ext : string) (w : World) :
  trace (dorkWorld env c ext w) = (trace w ++ dorkTrace env c ext w)%list.
Proof.
  destruct (dorkRun_facts env c ext w) as [H _].
  exact (rf_trace _ _ _ _ _ (pf_run _ _ _ _ _ _ H)).
Qed.

Lemma attemptsOn_keys (p : Z) (tr : list Event) (k : string) :
  In k (attemptsOn p tr) -> In k (attemptKeys tr).
Proof.
  unfold attemptsOn, attemptKeys. rewrite !in_flat_map.
  intros (e & He & Hk). exists e. split; [exact He|].
  destruct e; simpl in *; try tauto. destruct (_ =? _)%Z; [exact Hk|destruct Hk].
Qed.

(** ** After a quota answer *)

(** An event of a sequence cut in two lies in the first part or in the
    second. *)
Lemma app_split_elt {A} (l1 l2 before after : list A) (x : A) :
  (l1 ++ l2 = before ++ x :: after)%list ->
  (exists m, l1 = (before ++ x :: m)%list /\ after = (m ++ l2)%list) \/
  (exists m, before = (l1 ++ m)%list /\ l2 = (m ++ x :: after)%list).
Proof.
  intros E. apply app_eq_app in E as [l [[-> E]|[-> E]]].
  - destruct l as [|y l]; simpl in E.
    + right. exists []. rewrite !app_nil_r. auto.
    + injection E as <- ->. left. exists l. auto.
  - right. exists l. auto.
Qed.

Lemma in_attemptsOn (p : Z) (k : string) (tr : list Event) :
  In k (attemptsOn p tr) <-> In (EvAttempt p k) tr.
Proof.
  unfold attemptsOn. rewrite in_flat_map. split.
  - intros (e & He & Hk). destruct e; simpl in Hk; try tauto.
    destruct (Z.eqb_spec page p) as [->|]; [|destruct Hk].
    destruct Hk as [<-|[]]. exact He.
  - intros H. exists (EvAttempt p k). split; [exact H|].
    simpl. rewrite Z.eqb_refl. left. reflexivity.
Qed.

Lemma in_quotaKeys (before after : list Event) (k u : string) (r : HttpResult) :
  isQuota r = true -> quotaKeys (before ++ EvGet k u r :: after) <> [].
Proof.
  intros Hq. rewrite quotaKeys_app. simpl. rewrite Hq.
  destruct (quotaKeys before); discriminate.
Qed.

(** A sequence without quota answer cannot be cut at one. *)
Lemma quotaFree_cut (tr before after : list Event) (k u : string) (r : HttpResult) :
  quotaKeys tr = [] -> tr = (before ++ EvGet k u r :: after)%list -> isQuota r = true -> False.
Proof. intros H -> Hq. exact (in_quotaKeys _ _ _ _ _ Hq H). Qed.

(** Once the cancellation is seen nothing follows, so it is seen after
    every other event. *)
Lemma cancel_after (tr before after : list Event) (x : Event) :
  cancelLast tr -> In (EvCheck true) tr -> tr = (before ++ x :: after)%list ->
  x <> EvCheck true -> In (EvCheck true) after.
Proof.
  intros Hl Hin -> Hx. apply in_app_iff in Hin as [Hin|[Hin|Hin]]; [|congruence|exact Hin].
  apply in_split in Hin as (a & b & ->). exfalso.
  specialize (Hl a (b ++ x :: after)%list). rewrite <- app_assoc in Hl.
  specialize (Hl eq_refl). destruct b; discriminate.
Qed.

(** The request loop: left by [return] only at a check point that saw the
    cancellation; and once a request was answered by the quota signal (or
    any error), the attempt ends with an error recorded. *)
Lemma urlLoop_error_kept (env : Env) (c : Config) (k : string) (urls : list string) :
  forall comb err w r w',
  urlLoop env c k urls comb err w = (r, w') ->
  exists tr, trace w' = (trace w ++ tr)%list /\
    (r = None -> In (EvCheck true) tr) /\
    (forall comb' err', r = Some (comb', err') ->
       quotaKeys tr <> [] \/ err <> None -> err' <> None).
Proof.
  induction urls as [|u rest IH]; intros comb err w r w' H.
  - injection H as <- <-. exists []. rewrite app_nil_r. split; [reflexivity|].
    split; [discriminate|]. intros comb' err' [= <- <-] [Hq|He]; [destruct Hq; reflexivity|exact He].
  - cbn [urlLoop] in H. mrun H.
    destruct (ctxErr env (tick w)) eqn:Ec.
    { injection H as <- <-. exists [EvCheck true]. wsimpl.
      split; [reflexivity|]. split; [left; reflexivity|discriminate]. }
    set (ev := EvGet k u (httpGet env (S (tick w)) u)) in *.
    wsimpl.
    assert (Hstep : forall comb1 err1 w1,
              trace w1 = ((trace w ++ [EvCheck false]) ++ [ev])%list ->
              urlLoop env c k rest comb1 err1 w1 = (r, w') ->
              (quotaKeys [ev] <> [] \/ err <> None -> err1 <> None) ->
              exists tr, trace w' = (trace w ++ tr)%list /\
                (r = None -> In (EvCheck true) tr) /\
                (forall comb' err', r = Some (comb', err') ->
                   quotaKeys tr <> [] \/ err <> None -> err' <> None)).
    { intros comb1 err1 w1 Ht H1 He.
      apply IH in H1 as (tr & Htr & Hn & Hs).
      exists ([EvCheck false; ev] ++ tr)%list. split; [|split].
      - rewrite Htr, Ht, <- !app_assoc. reflexivity.
      - intros Hr. apply in_app_iff. right. auto.
      - intros comb' err' Hr Hq. apply (Hs comb' err' Hr).
        change ([EvCheck false; ev] ++ tr)%list with ([EvCheck false] ++ [ev] ++ tr)%list in Hq.
        rewrite !quotaKeys_app in Hq. simpl quotaKeys at 1 in Hq. simpl app at 1 in Hq.
        destruct (quotaKeys tr) eqn:Eq; [right|left; discriminate].
        rewrite app_nil_r in Hq. apply He. exact Hq. }
    destruct (httpGet env (S (tick w)) u) as [msg|gr] eqn:Eg.
    + eapply Hstep; [|exact H|discriminate]. reflexivity.
    + destruct (Error gr) as [msg|] eqn:Ee.
      * destruct (nonEmpty msg) eqn:En.
        -- destruct (holdsQuota msg) eqn:Eq; mrun H; wsimpl;
             (eapply Hstep; [|exact H|discriminate]); reflexivity.
        -- destruct (filterLinks env (Items gr) (target c) _) as [links w1] eqn:Ef.
           apply filterLinks_frame in Ef as (F1 & F2 & F3 & F4 & F5). wsimpl.
           eapply Hstep; [|exact H|]; [rewrite F5; reflexivity|].
           subst ev. simpl. rewrite Ee.
           assert (msg = EmptyString) as ->.
           { unfold nonEmpty in En. apply Bool.negb_false_iff, String.eqb_eq in En. exact En. }
           simpl. intros [Hq|Hq]; [destruct Hq; reflexivity|exact Hq].
      * destruct (filterLinks env (Items gr) (target c) _) as [links w1] eqn:Ef.
        apply filterLinks_frame in Ef as (F1 & F2 & F3 & F4 & F5). wsimpl.
        eapply Hstep; [|exact H|]; [rewrite F5; reflexivity|].
        subst ev. simpl. rewrite Ee. intros [Hq|Hq]; [destruct Hq; reflexivity|exact Hq].
Qed.

Lemma quiet_settle (tr : list Event) : Forall quietEvent tr -> Forall settleEvent tr.
Proof.
  intros H. eapply Forall_impl; [exact H|].
  intros [[]| | | | | | |]; simpl; auto.
Qed.

Lemma settle_silent (tr : list Event) :
  Forall settleEvent tr ->
  quotaKeys tr = [] /\ (forall p, attemptsOn p tr = []) /\ noCancel tr.
Proof.
  induction 1 as [|e tr He _ IH].
  - repeat split; auto. intros [].
  - destruct IH as (H1 & H2 & H3).
    change (e :: tr) with ([e] ++ tr)%list. trace_app. rewrite H1.
    destruct e as [[]| | | | | | |]; try destruct He; simpl; repeat split; auto;
      try (intros p; rewrite H2; reflexivity);
      try (intros [E|E]; [discriminate|exact (H3 E)]).
Qed.

(** The end of an attempt: with an error recorded and no link found, the
    attempt counter moves on by one. *)
Lemma settleAttempt_counts (p tk maxTries : Z) (c : Config) (combined : list string)
    (respErr : option string) (w : World) c' e w' :
  settleAttempt p tk maxTries c combined respErr w = ((c', e), w') ->
  exists tr, trace w' = (trace w ++ tr)%list /\ Forall settleEvent tr /\
    match e with
    | Return => False
    | Break => exists links, In (EvFound p links) tr
    | Next t => respErr <> None -> t = tk + 1
    end.
Proof.
  unfold settleAttempt. cbv zeta.
  destruct (0 <? length (uniqueStrings combined))%nat eqn:Ef.
  - cbv beta iota zeta delta [bind ret emit]. cbn [delay dynamicDelay set_requestCounter
      set_noResultCounter set_resultsFound set_requestStore].
    destruct ((delay c =? 0)%float && (delayStepDown <? dynamicDelay c)%float) eqn:Ed;
      intros [= <- <- <-]; wsimpl.
    + eexists [_; _]. split; [rewrite <- app_assoc; reflexivity|].
      split; [repeat constructor|]. eexists. left. reflexivity.
    + eexists [_]. split; [reflexivity|].
      split; [repeat constructor|]. eexists. left. reflexivity.
  - destruct respErr as [msg|].
    + cbv beta iota zeta delta [bind ret]. intros H.
      destruct (logv (verbose c) ("Error: " +:+ msg) w) as [u1 w1] eqn:E1.
      destruct (delayControl c w1) as [u2 w2] eqn:E2.
      injection H as <- <- <-.
      apply logv_quiet in E1. apply delayControl_quiet in E2 as [s2 E2].
      destruct (quietStep_trans _ _ _ _ _ E1 E2) as (H1 & H2 & _).
      exists ([] ++ s2)%list. split; [exact H1|]. split; [apply quiet_settle, H2|reflexivity].
    + cbv beta iota zeta delta [bind ret emit]. cbn [delay dynamicDelay set_noResultCounter].
      intros H.
      destruct (delayControl c w) as [u1 w1] eqn:E1.
      apply delayControl_quiet in E1 as [s1 (A1 & A2 & _)].
      destruct (delay c =? 0)%float eqn:Ed.
      * match type of H with context [delayControl ?c2 ?w2] =>
          destruct (delayControl c2 w2) as [u2 w3] eqn:E2 end.
        apply delayControl_quiet in E2 as [s2 (B1 & B2 & _)].
        injection H as <- <- <-. wsimpl.
        exists (s1 ++ [EvDelay false (dynamicDelay c) (dynamicDelay c + delayStepUp)%float]
                   ++ s2)%list.
        split; [rewrite B1, A1, <- !app_assoc; reflexivity|].
        split; [|congruence].
        apply Forall_app. split; [apply quiet_settle, A2|].
        constructor; [exact I|apply quiet_settle, B2].
      * match type of H with context [delayControl ?c2 ?w2] =>
          destruct (delayControl c2 w2) as [u2 w3] eqn:E2 end.
        apply delayControl_quiet in E2 as [s2 (B1 & B2 & _)].
        injection H as <- <- <-.
        exists (s1 ++ s2)%list.
        split; [rewrite B1, A1, <- !app_assoc; reflexivity|].
        split; [|congruence].
        apply Forall_app. split; apply quiet_settle; assumption.
Qed.

(** No credential is selected only when the whole pool is in the
    Exhausted Set. *)
Lemma getRandomApiKey_none_exhausted (env : Env) (c : Config) (w w' : World) :
  getRandomApiKey env c w = (None, w') ->
  forall k, In k (apiKeys c) -> k ∈ exAt (exhaustedKeys c) w.
Proof.
  unfold getRandomApiKey. intros H.
  cbv beta iota zeta delta [bind ret mapAt nextTick] in H.
  fold (exAt (exhaustedKeys c) w) in H.
  set (available := filter (fun k => k ∉ exAt (exhaustedKeys c) w) (apiKeys c)) in *.
  destruct (length available =? 0)%nat eqn:El; [|discriminate].
  apply Nat.eqb_eq in El. intros k Hk.
  destruct (decide (k ∈ exAt (exhaustedKeys c) w)) as [Hin|Hout]; [exact Hin|].
  assert (Ha : k ∈ available).
  { apply list_elem_of_filter. split; [exact Hout|apply list_elem_of_In, Hk]. }
  destruct available; [inversion Ha|discriminate].
Qed.

(** One pass through the body of the attempt loop of page [p]: it sees the
    cancellation, or makes one attempt, or finds the whole pool exhausted
    and returns; and after a quota answer it ends at a check point that saw
    the cancellation, or with links found, or with the attempt counter
    moved on by one. *)
Lemma attemptBody_goes_on (env : Env) (p startIdx tk maxTries : Z) (ext : string)
    (c : Config) (w : World) c' e w' :
  attemptBody env p startIdx tk maxTries ext c w = ((c', e), w') ->
  ~ In EmptyString (apiKeys c) ->
  exists tr, trace w' = (trace w ++ tr)%list /\
    (In (EvCheck true) tr \/ (exists k, attemptsOn p tr = [k]) \/
     (e = Return /\ forall k, In k (apiKeys c) -> k ∈ exAt (exhaustedKeys c) w')) /\
    (forall before k u r after,
       tr = (before ++ EvGet k u r :: after)%list -> isQuota r = true ->
       match e with
       | Return => In (EvCheck true) after
       | Break => exists links, In (EvFound p links) after
       | Next t => t = tk + 1
       end).
Proof.
  unfold attemptBody. cbv beta iota zeta delta [bind ret ctxCancelled nextTick emit].
  wsimpl. intros H Hne.
  destruct (ctxErr env (tick w)) eqn:Ec.
  { injection H as <- <- <-. exists [EvCheck true]. wsimpl.
    split; [reflexivity|]. split; [left; left; reflexivity|].
    intros before k u r after E Hq. exfalso.
    apply (quotaFree_cut [EvCheck true] before after k u r); auto. }
  match type of H with context [getRandomApiKey env c ?w0] =>
    pose (w0' := w0);
    assert (Q0 : quietStep w w0' [EvCheck false]) by
      (repeat split; repeat constructor);
    destruct (getRandomApiKey env c w0) as [k w1] eqn:Ek
  end.
  pose proof (getRandomApiKey_quiet _ _ _ _ _ Ek) as Q1.
  pose proof (quietStep_trans _ _ _ _ _ Q0 Q1) as Q01. simpl in Q01.
  destruct k as [k|].
  2:{ destruct (logErr _ w1) as [u w2] eqn:El. injection H as <- <- <-.
      apply logErr_quiet in El.
      destruct (quietStep_trans _ _ _ _ _ Q01 El) as (T1 & _ & T3 & _). simpl in T1.
      exists [EvCheck false]. split; [exact T1|]. split.
      - right. right. split; [reflexivity|]. intros k Hk.
        unfold exAt. rewrite T3.
        apply (getRandomApiKey_none_exhausted _ _ _ _ Ek k Hk).
      - intros before k u0 r after E Hq. exfalso.
        apply (quotaFree_cut [EvCheck false] before after k u0 r); auto. }
  apply getRandomApiKey_spec in Ek as (_ & K2 & _ & _ & _ & Kk).
  destruct (Kk k eq_refl) as [Kin Kfresh]. clear Kk.
  destruct (String.eqb_spec k EmptyString) as [->|Hk].
  { destruct (Hne Kin). }
  destruct (logv (verbose c) _ w1) as [u w2] eqn:El.
  apply logv_quiet in El.
  destruct (quietStep_trans _ _ _ _ _ Q01 El) as (T1 & _ & T3 & _). simpl in T1.
  match type of H with context [urlLoop env c k ?urls [] None ?w3] =>
    pose (w3' := w3);
    destruct (urlLoop env c k urls [] None w3) as [r wu] eqn:Eu
  end.
  pose proof Eu as Eu'.
  apply urlLoop_spec in Eu as [trU Hu].
  apply urlLoop_error_kept in Eu' as (trU' & HtU & Hnone & Hsome).
  assert (trU' = trU) as ->.
  { apply (app_inv_head (trace w3')). transitivity (trace wu); [symmetry; exact HtU|].
    exact (ur_trace _ _ _ _ _ _ Hu). }
  wsimpl.
  destruct (urlEvents_silent k trU (ur_events _ _ _ _ _ _ Hu)) as (U1 & U2 & U3 & U4 & U5 & U6).
  set (pre := ([EvCheck false] ++ [EvAttempt p k])%list) in *.
  assert (Hpre : trace wu = (trace w ++ pre ++ trU)%list).
  { rewrite HtU, T1. subst pre. rewrite <- !app_assoc. reflexivity. }
  assert (Hat : attemptsOn p (pre ++ trU) = [k]).
  { subst pre. trace_app. rewrite U5. simpl. rewrite Z.eqb_refl. reflexivity. }
  destruct r as [[combined respErr]|].
  - apply settleAttempt_counts in H as (trS & HtS & HS & He).
    destruct (settle_silent trS HS) as (S1 & S2 & S3).
    exists ((pre ++ trU) ++ trS)%list. split; [|split].
    + rewrite HtS, Hpre, <- !app_assoc. reflexivity.
    + right. left. exists k. rewrite attemptsOn_app, Hat, S2. reflexivity.
    + intros before k0 u0 r0 after E Hq.
      apply app_split_elt in E as [(m & E1 & E2)|(m & E1 & E2)].
      2:{ destruct (quotaFree_cut trS m after k0 u0 r0 S1 E2 Hq). }
      assert (Hqk : quotaKeys trU <> []).
      { assert (Hq' : quotaKeys (pre ++ trU) <> []) by (rewrite E1; apply in_quotaKeys, Hq).
        subst pre. rewrite !quotaKeys_app in Hq'. exact Hq'. }
      destruct e as [| |t].
      * destruct He.
      * destruct He as [links Hl]. exists links. rewrite E2. apply in_app_iff. auto.
      * apply He. apply (Hsome combined respErr eq_refl). auto.
  - injection H as <- <- <-.
    exists (pre ++ trU)%list. split; [exact Hpre|]. split.
    + left. apply in_app_iff. right. apply Hnone. reflexivity.
    + intros before k0 u0 r0 after E Hq.
      apply (cancel_after (pre ++ trU) before after (EvGet k0 u0 r0)); [| |exact E|discriminate].
      * apply cancelLast_app; [subst pre; notIn|exact (ur_last _ _ _ _ _ _ Hu)].
      * apply in_app_iff. right. apply Hnone. reflexivity.
Qed.

Lemma goesOn_more (ks : list string) (l : nat) (w1 w2 : World) (p : Z) (f1 f2 : Prop)
    (after more : list Event) :
  goesOn ks l w1 p f1 after -> exAt l w1 ⊆ exAt l w2 -> (f1 -> f2) ->
  goesOn ks l w2 p f2 (after ++ more).
Proof.
  intros [[k H]|[[links H]|[H|[H|H]]]] Hw Hf.
  - left. exists k. apply in_app_iff. auto.
  - right. left. exists links. apply in_app_iff. auto.
  - right. right. left. apply in_app_iff. auto.
  - right. right. right. left. intros k' Hk. apply Hw, H, Hk.
  - right. right. right. right. auto.
Qed.

(** The attempt loop of page [p], given one unit of fuel per remaining
    try. *)
Lemma attemptLoop_goes_on (env : Env) (p startIdx maxTries : Z) (ext : string)
    (ks : list string) (l : nat) (fuel : nat) :
  forall tk c w c' r w',
  apiKeys c = ks -> exhaustedKeys c = l -> ~ In EmptyString ks ->
  maxTries - tk <= Z.of_nat fuel ->
  attemptLoop env fuel p startIdx tk maxTries ext c w = ((c', r), w') ->
  exists tr, trace w' = (trace w ++ tr)%list /\
    (maxTries <= tk -> tr = []) /\
    (In (EvCheck true) tr \/ (exists k, In (EvAttempt p k) tr) \/
     (forall k, In k ks -> k ∈ exAt l w') \/ maxTries <= tk) /\
    (forall before k u r after,
       tr = (before ++ EvGet k u r :: after)%list -> isQuota r = true ->
       goesOn ks l w' p (maxTries <= tk + Z.of_nat (length (attemptsOn p tr))) after).
Proof.
  induction fuel as [|fuel IH]; intros tk c w c' r w' Hks Hl Hne Hfuel H.
  - injection H as <- <- <-. exists []. rewrite app_nil_r.
    split; [reflexivity|]. split; [reflexivity|]. split; [right; right; right; lia|].
    intros before k u r0 after E. destruct before; discriminate.
  - cbn [attemptLoop] in H.
    destruct (Z.ltb_spec tk maxTries) as [Hlt|Hge].
    2:{ injection H as <- <- <-. exists []. rewrite app_nil_r.
        split; [reflexivity|]. split; [reflexivity|]. split; [right; right; right; lia|].
        intros before k u r0 after E. destruct before; discriminate. }
    cbv beta iota zeta delta [bind ret] in H.
    destruct (attemptBody env p startIdx tk maxTries ext c w) as [[c1 e] w1] eqn:Eb.
    pose proof Eb as Eb'.
    apply attemptBody_facts in Eb as [a Ha].
    apply attemptBody_goes_on in Eb' as (a' & Hta & Hstart & Hcut); [|rewrite Hks; exact Hne].
    assert (a' = a) as ->.
    { apply (app_inv_head (trace w)). rewrite <- Hta.
      exact (rf_trace _ _ _ _ _ (af_run _ _ _ _ _ _ _ _ _ Ha)). }
    rewrite Hks, Hl in Hstart.
    assert (Hone : forall k, attemptsOn p a = [k] -> In (EvAttempt p k) a).
    { intros k E. apply in_attemptsOn. rewrite E. left. reflexivity. }
    destruct e as [| |t].
    + injection H as <- <- <-. exists a. split; [exact Hta|]. split; [lia|]. split.
      * destruct Hstart as [Hs|[[k Hs]|[_ Hs]]]; eauto.
      * intros before k u r0 after E Hq. right. right. left. exact (Hcut _ _ _ _ _ E Hq).
    + injection H as <- <- <-. exists a. split; [exact Hta|]. split; [lia|]. split.
      * destruct Hstart as [Hs|[[k Hs]|[Hs _]]]; eauto. discriminate.
      * intros before k u r0 after E Hq. right. left. exact (Hcut _ _ _ _ _ E Hq).
    + destruct (rf_settings _ _ _ _ _ (af_run _ _ _ _ _ _ _ _ _ Ha))
        as (_ & _ & _ & _ & _ & _ & _ & _ & _ & _ & _ & _ & _ & Sk & Sl & _).
      assert (Hn : noCancel a) by (apply (af_nocancel _ _ _ _ _ _ _ _ _ Ha); discriminate).
      assert (Hk1 : exists k, attemptsOn p a = [k]).
      { destruct Hstart as [Hs|[Hs|[Hs _]]]; [destruct (Hn Hs)|exact Hs|discriminate]. }
      destruct Hk1 as [k1 Hk1].
      apply IH in H as (b & Htb & Hnil & Hsb & Hcb);
        [|congruence|congruence|exact Hne
         |destruct (af_next _ _ _ _ _ _ _ _ _ Ha t eq_refl) as [->| ->]; lia].
      exists (a ++ b)%list. split; [rewrite Htb, Hta, app_assoc; reflexivity|].
      split; [lia|]. split.
      * right. left. exists k1. apply in_app_iff. left. auto.
      * intros before k u r0 after E Hq.
        apply app_split_elt in E as [(m & E1 & E2)|(m & E1 & E2)].
        -- specialize (Hcut _ _ _ _ _ E1 Hq). simpl in Hcut. subst t. rewrite E2.
           destruct Hsb as [Hs|[[k' Hs]|[Hs|Hs]]].
           ++ right. right. left. apply in_app_iff. auto.
           ++ left. exists k'. apply in_app_iff. auto.
           ++ right. right. right. left. exact Hs.
           ++ right. right. right. right.
              rewrite attemptsOn_app, length_app, Hk1. simpl. lia.
        -- destruct (Z_lt_le_dec t maxTries) as [Ht|Ht].
           2:{ rewrite (Hnil Ht) in E2. destruct m; discriminate. }
           destruct (af_next _ _ _ _ _ _ _ _ _ Ha t eq_refl) as [->| ->]; [|lia].
           specialize (Hcb _ _ _ _ _ E2 Hq).
           rewrite <- (app_nil_r after).
           eapply goesOn_more; [exact Hcb|reflexivity|].
           rewrite attemptsOn_app, length_app, Hk1. simpl. lia.
Qed.

(** The page loop: a quota answer is received on the page entered last,
    and the run goes on from it as [goesOn] says. *)
Lemma pageLoop_goes_on (env : Env) (ext : string) (ks : list string) (l : nat) (fuel : nat) :
  forall p0 c w c' r w',
  apiKeys c = ks -> exhaustedKeys c = l -> ~ In EmptyString ks ->
  resultsFound c = false ->
  pageLoop env fuel p0 ext c w = ((c', r), w') ->
  exists tr, trace w' = (trace w ++ tr)%list /\
    forall before k u r0 after,
      tr = (before ++ EvGet k u r0 :: after)%list -> isQuota r0 = true ->
      exists p, last (pagesOf before) = Some p /\
        goesOn ks l w' p (length ks <= length (attemptsOn p tr))%nat after.
Proof.
  induction fuel as [|fuel IH]; intros p0 c w c' r w' Hks Hl Hne Hf H.
  - injection H as <- <- <-. exists []. rewrite app_nil_r. split; [reflexivity|].
    intros before k u r0 after E. destruct before; discriminate.
  - cbn [pageLoop] in H.
    destruct (Z.ltb_spec p0 (pages c)) as [Hlt|Hge].
    2:{ injection H as <- <- <-. exists []. rewrite app_nil_r. split; [reflexivity|].
        intros before k u r0 after E. destruct before; discriminate. }
    cbv beta iota zeta delta [bind ret ctxCancelled nextTick emit] in H. wsimpl.
    destruct (ctxErr env (tick w)) eqn:Ec.
    { injection H as <- <- <-. exists [EvCheck true]. split; [reflexivity|].
      intros before k u r0 after E Hq.
      destruct (quotaFree_cut [EvCheck true] before after k u r0 eq_refl E Hq). }
    match type of H with context [attemptLoop env ?f p0 ?s 0 ?m ext c ?w0] =>
      destruct (attemptLoop env f p0 s 0 m ext c w0) as [[c1 r1] w1] eqn:Ea
    end.
    pose proof Ea as Ea'.
    destruct (pageLoop_step _ _ _ _ _ _ _ _ Hlt Hf Ea) as (a0 & Ha0 & _).
    apply attemptLoop_facts in Ea as [a Ha].
    apply (attemptLoop_goes_on env p0 _ _ ext ks l) in Ea' as (a' & Hta & _ & _ & Hcut);
      [|exact Hks|exact Hl|exact Hne|rewrite Hks; lia].
    assert (a' = a) as ->.
    { match type of Hta with trace w1 = (trace ?w0 ++ _)%list =>
        apply (app_inv_head (trace w0)) end.
      rewrite <- Hta. exact (rf_trace _ _ _ _ _ (lf_run _ _ _ _ _ _ _ _ Ha)). }
    assert (a0 = a) as ->.
    { apply (app_inv_head (pageHead p0)), (app_inv_head (trace w)).
      rewrite <- (rf_trace _ _ _ _ _ (pf_run _ _ _ _ _ _ Ha0)), Hta. wsimpl.
      unfold pageHead. rewrite <- !app_assoc. reflexivity. }
    wsimpl.
    assert (Hpage : forall before k u r0 after,
              (pageHead p0 ++ a)%list = (before ++ EvGet k u r0 :: after)%list ->
              isQuota r0 = true ->
              last (pagesOf before) = Some p0 /\
              goesOn ks l w1 p0
                (length ks <= length (attemptsOn p0 (pageHead p0 ++ a)))%nat after).
    { intros before k u r0 after E Hq.
      apply app_split_elt in E as [(m & E1 & E2)|(m & E1 & E2)].
      { destruct (quotaFree_cut (pageHead p0) before m k u r0 eq_refl E1 Hq). }
      split.
      - rewrite E1, pagesOf_app.
        pose proof (lf_pages _ _ _ _ _ _ _ _ Ha) as Hp.
        rewrite E2, pagesOf_app in Hp. apply app_eq_nil in Hp as [-> _]. reflexivity.
      - rewrite <- (app_nil_r after).
        eapply goesOn_more; [exact (Hcut _ _ _ _ _ E2 Hq)|reflexivity|].
        rewrite attemptsOn_app, length_app. rewrite Hks. lia. }
    assert (Hhere : trace w1 = (trace w ++ pageHead p0 ++ a)%list).
    { rewrite Hta. unfold pageHead. rewrite <- !app_assoc. reflexivity. }
    destruct r1.
    { injection H as <- <- <-. exists (pageHead p0 ++ a)%list. split; [exact Hhere|].
      intros before k u r0 after E Hq. exists p0. exact (Hpage _ _ _ _ _ E Hq). }
    destruct (resultsFound c1) eqn:Er; cbn [negb] in H.
    2:{ injection H as <- <- <-. exists (pageHead p0 ++ a)%list. split; [exact Hhere|].
        intros before k u r0 after E Hq. exists p0. exact (Hpage _ _ _ _ _ E Hq). }
    destruct (rf_settings _ _ _ _ _ (lf_run _ _ _ _ _ _ _ _ Ha))
      as (_ & _ & _ & _ & _ & _ & _ & _ & _ & _ & _ & _ & _ & Sk & Sl & _).
    pose proof H as H'.
    apply pageLoop_facts in H' as [b0 Hb0]; [|reflexivity].
    apply IH in H as (b & Htb & Hcb);
      [|cbn; congruence|cbn; congruence|exact Hne|reflexivity].
    assert (Hgrow : exAt l w1 ⊆ exAt l w').
    { pose proof (rf_grow _ _ _ _ _ (pf_run _ _ _ _ _ _ Hb0)) as Hg.
      cbn in Hg. rewrite Sl, Hl in Hg. exact Hg. }
    exists ((pageHead p0 ++ a) ++ b)%list.
    split; [rewrite Htb, Hhere, <- !app_assoc; reflexivity|].
    intros before k u r0 after E Hq.
    apply app_split_elt in E as [(m & E1 & E2)|(m & E1 & E2)].
    + destruct (Hpage _ _ _ _ _ E1 Hq) as [Hp Hg]. exists p0. split; [exact Hp|].
      rewrite E2. eapply goesOn_more; [exact Hg|exact Hgrow|].
      rewrite (attemptsOn_app p0 (pageHead p0 ++ a) b), (length_app _ (attemptsOn p0 b)). lia.
    + destruct (Hcb _ _ _ _ _ E2 Hq) as (q & Hp & Hg). exists q. split.
      * rewrite E1, pagesOf_app, last_app, Hp. reflexivity.
      * rewrite <- (app_nil_r after).
        eapply goesOn_more; [exact Hg|reflexivity|].
        rewrite (attemptsOn_app q (pageHead p0 ++ a) b), (length_app _ (attemptsOn q b)). lia.
Qed.

(** One intent. *)
Lemma dorkRun_goes_on (env : Env) (c : Config) (ext : string) (w : World) :
  ~ In EmptyString (apiKeys c) ->
  forall before k u r after,
    dorkTrace env c ext w = (before ++ EvGet k u r :: after)%list -> isQuota r = true ->
    exists p, last (pagesOf before) = Some p /\
      goesOn (apiKeys c) (exhaustedKeys c) (dorkWorld env c ext w) p
        (length (apiKeys c) <= length (attemptsOn p (dorkTrace env c ext w)))%nat after.
Proof.
  intros Hne. unfold dorkTrace, dorkWorld, dorkRun.
  cbv beta iota zeta delta [bind ret notFound println logErr].
  destruct (resetRun_facts c) as (R1 & R2 & _ & Rk & Rl & _).
  destruct (pageLoop env (Z.to_nat (pages (resetRun c))) 0 ext (resetRun c) w)
    as [[c' r] w'] eqn:E.
  apply (pageLoop_goes_on env ext (apiKeys c) (exhaustedKeys c)) in E as (tr & Htr & Hcut);
    [|exact Rk|exact Rl|exact Hne|exact R2].
  assert (Hd : drop (length (trace w)) (trace w') = tr).
  { rewrite Htr. apply drop_app_length. }
  destruct r; [|destruct (length (requestStore c') =? 0)%nat eqn:El];
    cbn [fst snd trace]; rewrite Hd; exact Hcut.
Qed.

(** C1, as amended.  An intent enters at most [pageCount] pages (10 when no
    page count is given), and on each page makes at most as many credential
    attempts as the pool has entries, each with a credential of the pool. *)
Theorem dorkRun_page_and_attempt_bounds (env : Env) (c : Config) (ext : string) (w : World) :
  let tr := dorkTrace env c ext w in
  Z.of_nat (length (pagesOf tr)) <= Z.max 0 (effectivePages c) /\
  forall p,
    (length (attemptsOn p tr) <= length (apiKeys c))%nat /\
    forall k, In k (attemptsOn p tr) -> In k (apiKeys c).
Proof.
  destruct (dorkRun_facts env c ext w) as [H _].
  destruct (resetRun_facts c) as (_ & _ & Rp & Rk & _).
  cbv zeta. split.
  - pose proof (pf_count _ _ _ _ _ _ H) as Hc. rewrite Rp, Z.sub_0_r in Hc. exact Hc.
  - intros p. split.
    + rewrite <- Rk. apply (pf_attempts _ _ _ _ _ _ H).
    + intros k Hk. rewrite <- Rk.
      apply (rf_fresh _ _ _ _ _ (pf_run _ _ _ _ _ _ H)), (attemptsOn_keys p), Hk.
Qed.

(** C5, as amended.  Once a check point has seen the cancellation, nothing
    more happens in the intent (no page, no attempt, no transport call), and
    the call returns, as an ordinary result, the links found until then: the
    links of each page without repetition, one page after the other. *)
Theorem dorkRun_cancel_returns_partial (env : Env) (c : Config) (ext : string) (w : World)
    (before after : list Event) :
  dorkTrace env c ext w = (before ++ EvCheck true :: after)%list ->
  after = [] /\
  dorkResult env c ext w = foundLinks before /\
  forall p links, In (EvFound p links) before -> NoDup links.
Proof.
  intros E. destruct (dorkRun_facts env c ext w) as [H Hr].
  pose proof (rf_last _ _ _ _ _ (pf_run _ _ _ _ _ _ H) before after E) as ->.
  split; [reflexivity|]. split.
  - rewrite Hr, E, foundLinks_app. simpl. rewrite app_nil_r. reflexivity.
  - intros p links Hin. apply (pf_found_lo _ _ _ _ _ _ H p links).
    rewrite E. apply in_or_app. left. exact Hin.
Qed.

(** C6.  A page on which no attempt found a link is the last page of the
    intent: no later page is entered and no attempt is made on one; and the
    intent returns the links found, all of which come from earlier pages. *)
Theorem dorkRun_empty_page_ends_intent (env : Env) (c : Config) (ext : string) (w : World)
    (p : Z) :
  let tr := dorkTrace env c ext w in
  In (EvPage p) tr ->
  (forall links, ~ In (EvFound p links) tr) ->
  (forall q, In (EvPage q) tr -> q <= p) /\
  (forall q k, In (EvAttempt q k) tr -> q <= p) /\
  (forall q links, In (EvFound q links) tr -> q < p) /\
  dorkResult env c ext w = foundLinks tr.
Proof.
  cbv zeta. intros Hp Hn. destruct (dorkRun_facts env c ext w) as [H Hr].
  assert (Hq : forall q, In (EvPage q) (dorkTrace env c ext w) -> q <= p).
  { apply in_pagesOf in Hp. destruct (pf_stop _ _ _ _ _ _ H p Hp) as [[links Hl]|Hle].
    - destruct (Hn links Hl).
    - intros q Hq. apply Hle, in_pagesOf, Hq. }
  split; [exact Hq|]. split; [|split; [|exact Hr]]; cycle 1.
  { intros q links Hl. destruct (pf_found_lo _ _ _ _ _ _ H q links Hl) as (_ & Hin & _).
    apply in_pagesOf, Hq in Hin. destruct (Z.eq_dec q p) as [->|Hne]; [|lia].
    destruct (Hn links Hl). }
  intros q k Hk. apply Hq, in_pagesOf, (pf_attempt_pages _ _ _ _ _ _ H).
  intros E. unfold attemptsOn in E.
  assert (Hin : In k (flat_map (fun e => match e with
                                         | EvAttempt q0 k0 => if (q0 =? q)%Z then [k0] else []
                                         | _ => []
                                         end) (dorkTrace env c ext w))).
  { apply in_flat_map. exists (EvAttempt q k). split; [exact Hk|].
    simpl. rewrite Z.eqb_refl. left. reflexivity. }
  rewrite E in Hin. destruct Hin.
Qed.

(** C4, as amended.  The Exhausted Set only grows during an intent; a
    credential whose request was answered by the quota signal is in the set
    when the intent ends and is not selected again after that answer; every
    credential selected was outside the set when the intent began; and the
    intent ends by returning the links found, not by a fatal error.  After
    a quota answer the intent goes on: with a pool that holds no empty
    credential, a further attempt is made on the page of the request, with
    another credential, or links are found on that page, or a check point
    sees the cancellation; unless no credential of the pool is left outside
    the set, or the page has used up its attempts, which are as many as the
    pool has entries. *)
Theorem dorkRun_quota_marks_credential (env : Env) (c : Config) (ext : string) (w : World) :
  let tr := dorkTrace env c ext w in
  let w' := dorkWorld env c ext w in
  exAt (exhaustedKeys c) w ⊆ exAt (exhaustedKeys c) w' /\
  (forall before k u r after,
     tr = (before ++ EvGet k u r :: after)%list -> isQuota r = true ->
     k ∈ exAt (exhaustedKeys c) w' /\ ~ In k (attemptKeys after) /\
     (~ In EmptyString (apiKeys c) ->
      exists p, last (pagesOf before) = Some p /\
        ((exists k', k' <> k /\ In (EvAttempt p k') after) \/
         (exists links, In (EvFound p links) after) \/
         In (EvCheck true) after \/
         (forall k', In k' (apiKeys c) -> k' ∈ exAt (exhaustedKeys c) w') \/
         (length (apiKeys c) <= length (attemptsOn p tr))%nat))) /\
  (forall k, In k (attemptKeys tr) -> k ∉ exAt (exhaustedKeys c) w) /\
  dorkResult env c ext w = foundLinks tr.
Proof.
  cbv zeta. destruct (dorkRun_facts env c ext w) as [H Hr].
  destruct (resetRun_facts c) as (_ & _ & _ & _ & Rl & _).
  destruct (pf_run _ _ _ _ _ _ H). rewrite Rl in *.
  split; [exact rf_grow0|]. split; [|split; [|exact Hr]].
  - intros before k u r after E Hq.
    pose proof (rf_noReuse0 before k u r after E Hq) as Hno.
    split; [|split; [exact Hno|]].
    + apply rf_quota0. rewrite E, quotaKeys_app, in_app_iff. right.
      simpl. rewrite Hq. left. reflexivity.
    + intros Hne.
      destruct (dorkRun_goes_on env c ext w Hne _ _ _ _ _ E Hq) as (p & Hp & Hg).
      exists p. split; [exact Hp|].
      destruct Hg as [[k' Hk']|Hg]; [|right; exact Hg].
      left. exists k'. split; [|exact Hk'].
      intros ->. apply Hno, (attemptsOn_keys p), in_attemptsOn, Hk'.
  - intros k Hk. apply (rf_fresh0 k Hk).
Qed.

(** C7.  From a non-negative adaptive delay, every value assigned to it
    during an intent is non-negative, and so is the value the intent ends
    with.  It is assigned only while the fixed delay is zero: 0.05 s less
    after an attempt that found links (when more than 0.05 s were left),
    0.1 s more after an attempt that found none and met no error.  When the
    fixed delay is not zero (in particular when a fixed override is set) the
    adaptive delay is never assigned. *)
Theorem dorkRun_adaptive_delay (env : Env) (c : Config) (ext : string) (w : World) :
  nonNegative (dynamicDelay c) ->
  let tr := dorkTrace env c ext w in
  let c' := dorkConfig env c ext w in
  nonNegative (dynamicDelay c') /\
  Forall nonNegative (delaysOf tr) /\
  (forall found old new,
     In (EvDelay found old new) tr -> delayStepOK (delay c) found old new) /\
  ((delay c =? 0)%float = false -> dynamicDelay c' = dynamicDelay c /\ delaysOf tr = []) /\
  ((0 <? delay c)%float = true -> dynamicDelay c' = dynamicDelay c /\ delaysOf tr = []).
Proof.
  intros Hn. cbv zeta. destruct (dorkRun_facts env c ext w) as [H _].
  destruct (resetRun_facts c) as (_ & _ & _ & _ & _ & Rd & Rdd & _).
  destruct (pf_run _ _ _ _ _ _ H). rewrite Rd, Rdd in *.
  destruct (rf_nonneg0 Hn) as [H1 H2].
  split; [exact H1|]. split; [exact H2|]. split; [exact rf_steps0|].
  split; [exact rf_fixed0|].
  intros Hpos. apply rf_fixed0, positive_not_zero, Hpos.
Qed.

(** ** State carried from one target to the next *)

Lemma preserves_ret {X A} (f : World -> X) (a : A) : preserves f (ret a).
Proof. intros w. reflexivity. Qed.

Lemma preserves_bind {X A B} (f : World -> X) (m : M A) (k : A -> M B) :
  preserves f m -> (forall a, preserves f (k a)) -> preserves f (bind m k).
Proof.
  intros Hm Hk w. unfold bind. specialize (Hm w).
  destruct (m w) as [a w1]. simpl in Hm. rewrite (Hk a w1). exact Hm.
Qed.

Lemma targetsOf_app (a b : list Event) : targetsOf (a ++ b) = (targetsOf a ++ targetsOf b)%list.
Proof. apply flat_map_app. Qed.

Lemma emit_targets (e : Event) : targetsOf [e] = [] -> preserves ranTargets (emit e).
Proof.
  intros H w. unfold ranTargets, emit. wsimpl. rewrite targetsOf_app, H, app_nil_r. reflexivity.
Qed.

Ltac prim := intros w; reflexivity.

Lemma nextTick_targets : preserves ranTargets nextTick. Proof. prim. Qed.
Lemma println_targets s : preserves ranTargets (println s). Proof. prim. Qed.
Lemma printAll_targets l : preserves ranTargets (printAll l). Proof. prim. Qed.
Lemma logErr_targets s : preserves ranTargets (logErr s). Proof. prim. Qed.
Lemma getFs_targets : preserves ranTargets getFs. Proof. prim. Qed.
Lemma putFs_targets f : preserves ranTargets (putFs f). Proof. prim. Qed.
Lemma mapAt_targets l : preserves ranTargets (mapAt l). Proof. prim. Qed.
Lemma mapAdd_targets l k : preserves ranTargets (mapAdd l k). Proof. prim. Qed.
Lemma notFound_targets c : preserves ranTargets (notFound c). Proof. prim. Qed.

Lemma nextTick_maps : preserves maps nextTick. Proof. prim. Qed.
Lemma emit_maps e : preserves maps (emit e). Proof. prim. Qed.
Lemma println_maps s : preserves maps (println s). Proof. prim. Qed.
Lemma printAll_maps l : preserves maps (printAll l). Proof. prim. Qed.
Lemma logErr_maps s : preserves maps (logErr s). Proof. prim. Qed.
Lemma getFs_maps : preserves maps getFs. Proof. prim. Qed.
Lemma putFs_maps f : preserves maps (putFs f). Proof. prim. Qed.
Lemma mapAt_maps l : preserves maps (mapAt l). Proof. prim. Qed.
Lemma notFound_maps c : preserves maps (notFound c). Proof. prim. Qed.

Create HintDb pres discriminated.
#[global] Hint Resolve nextTick_targets println_targets printAll_targets logErr_targets
  getFs_targets putFs_targets mapAt_targets mapAdd_targets notFound_targets
  nextTick_maps emit_maps println_maps printAll_maps logErr_maps getFs_maps putFs_maps
  mapAt_maps notFound_maps : pres.
#[global] Hint Extern 1 (preserves ranTargets (emit _)) =>
  apply emit_targets; reflexivity : pres.

Ltac pres :=
  repeat first
    [ apply preserves_ret
    | solve [auto with pres]
    | apply preserves_bind; [|intros ?]
    | match goal with
      | |- preserves _ (if ?b then _ else _) => destruct b
      | |- preserves _ (match ?x with _ => _ end) => destruct x
      end ].

Lemma logv_targets v s : preserves ranTargets (logv v s).
Proof. unfold logv. pres. Qed.
Lemma logv_maps v s : preserves maps (logv v s).
Proof. unfold logv. pres. Qed.
Lemma sleep_targets d : preserves ranTargets (sleep d).
Proof. unfold sleep. pres. Qed.
#[global] Hint Resolve logv_targets logv_maps sleep_targets : pres.

Lemma ctxCancelled_targets env : preserves ranTargets (ctxCancelled env).
Proof. unfold ctxCancelled. pres. Qed.
Lemma ctxCancelled_maps env : preserves maps (ctxCancelled env).
Proof. unfold ctxCancelled. pres. Qed.
Lemma fileExists_targets p : preserves ranTargets (fileExists p).
Proof. unfold fileExists. pres. Qed.
Lemma fileExists_maps p : preserves maps (fileExists p).
Proof. unfold fileExists. pres. Qed.
Lemma readLines_targets p : preserves ranTargets (readLines p).
Proof. unfold readLines. pres. Qed.
Lemma readLines_maps p : preserves maps (readLines p).
Proof. unfold readLines. pres. Qed.
#[global] Hint Resolve ctxCancelled_targets ctxCancelled_maps fileExists_targets
  fileExists_maps readLines_targets readLines_maps : pres.

Lemma outputOrPrintUnique_targets urls p : preserves ranTargets (outputOrPrintUnique urls p).
Proof. unfold outputOrPrintUnique. pres. Qed.
Lemma outputOrPrintUnique_maps urls p : preserves maps (outputOrPrintUnique urls p).
Proof. unfold outputOrPrintUnique. pres. Qed.
#[global] Hint Resolve outputOrPrintUnique_targets outputOrPrintUnique_maps : pres.

Lemma getRandomApiKey_targets env c : preserves ranTargets (getRandomApiKey env c).
Proof. unfold getRandomApiKey. pres. Qed.
Lemma buildInurlQuery_targets d : preserves ranTargets (buildInurlQuery d).
Proof. unfold buildInurlQuery. pres. Qed.
Lemma buildContentsQuery_targets d : preserves ranTargets (buildContentsQuery d).
Proof. unfold buildContentsQuery. pres. Qed.
Lemma urlDecodeLikeSed_targets env s : preserves ranTargets (urlDecodeLikeSed env s).
Proof. unfold urlDecodeLikeSed. pres. Qed.
Lemma delayControl_targets c : preserves ranTargets (delayControl c).
Proof. unfold delayControl. pres. Qed.
Lemma httpGetJSON_targets env u : preserves ranTargets (httpGetJSON env u).
Proof. unfold httpGetJSON. pres. Qed.
#[global] Hint Resolve getRandomApiKey_targets buildInurlQuery_targets
  buildContentsQuery_targets urlDecodeLikeSed_targets delayControl_targets
  httpGetJSON_targets : pres.

Lemma filterLoop_targets env items target : preserves ranTargets (filterLoop env items target).
Proof. induction items as [|l rest IH]; cbn [filterLoop]; pres. Qed.
#[global] Hint Resolve filterLoop_targets : pres.

Lemma filterLinks_targets env items target : preserves ranTargets (filterLinks env items target).
Proof. unfold filterLinks. pres. Qed.
#[global] Hint Resolve filterLinks_targets : pres.

Lemma urlLoop_targets env c k urls :
  forall comb err, preserves ranTargets (urlLoop env c k urls comb err).
Proof. induction urls as [|u rest IH]; intros comb err; cbn [urlLoop]; pres. Qed.
#[global] Hint Resolve urlLoop_targets : pres.

Lemma settleAttempt_targets p tk mt c comb err :
  preserves ranTargets (settleAttempt p tk mt c comb err).
Proof. unfold settleAttempt. pres. Qed.
#[global] Hint Resolve settleAttempt_targets : pres.

Lemma attemptBody_targets env p s tk mt ext c :
  preserves ranTargets (attemptBody env p s tk mt ext c).
Proof. unfold attemptBody. pres. Qed.
#[global] Hint Resolve attemptBody_targets : pres.

Lemma attemptLoop_targets env p s mt ext fuel :
  forall tk c, preserves ranTargets (attemptLoop env fuel p s tk mt ext c).
Proof. induction fuel as [|fuel IH]; intros tk c; cbn [attemptLoop]; pres. Qed.
#[global] Hint Resolve attemptLoop_targets : pres.

Lemma pageLoop_targets env ext fuel :
  forall p c, preserves ranTargets (pageLoop env fuel p ext c).
Proof. induction fuel as [|fuel IH]; intros p c; cbn [pageLoop]; pres. Qed.
#[global] Hint Resolve pageLoop_targets : pres.

Lemma dorkRun_targets env c ext : preserves ranTargets (dorkRun env c ext).
Proof. unfold dorkRun. pres. Qed.
#[global] Hint Resolve dorkRun_targets : pres.

Lemma dictionaryAttack_targets env c : preserves ranTargets (dictionaryAttack env c).
Proof. unfold dictionaryAttack, printTarget. pres. Qed.

Lemma extensionList_targets c : preserves ranTargets (extensionList c).
Proof. unfold extensionList. pres. Qed.
#[global] Hint Resolve extensionList_targets : pres.

Lemma extensionLoop_targets env exts :
  forall all c, preserves ranTargets (extensionLoop env exts all c).
Proof. induction exts as [|e rest IH]; intros all c; cbn [extensionLoop]; pres. Qed.
#[global] Hint Resolve extensionLoop_targets : pres.

Lemma extensionAttack_targets env c : preserves ranTargets (extensionAttack env c).
Proof. unfold extensionAttack. pres. Qed.

Lemma subdomainAttack_targets env c : preserves ranTargets (subdomainAttack env c).
Proof. unfold subdomainAttack, printTarget. pres. Qed.

Lemma contentsLoop_targets env lines : forall c, preserves ranTargets (contentsLoop env lines c).
Proof. induction lines as [|l rest IH]; intros c; cbn [contentsLoop]; pres. Qed.
#[global] Hint Resolve contentsLoop_targets : pres.

Lemma contentsAttack_targets env c : preserves ranTargets (contentsAttack env c).
Proof. unfold contentsAttack, printTarget. pres. Qed.
#[global] Hint Resolve dictionaryAttack_targets extensionAttack_targets
  subdomainAttack_targets contentsAttack_targets : pres.

Lemma chained_app (ks : list string) (d : float) (a b : list TargetRun) :
  forall ex ex1 ex2,
  chained ks d ex a ex1 -> chained ks d ex1 b ex2 -> chained ks d ex (a ++ b) ex2.
Proof.
  induction a as [|t a IH]; intros ex ex1 ex2 Ha Hb; simpl in *.
  - subst ex1. exact Hb.
  - destruct Ha as (H0 & H1 & H2 & H3). eauto 6.
Qed.

Lemma chained_pairs (ks : list string) (d : float) (l : list TargetRun) :
  forall ex ex' pre a b post,
  chained ks d ex l ex' -> l = (pre ++ a :: b :: post)%list ->
  exhaustedAtStart b = exhaustedAtEnd a /\
  (poolAtStart a = ks /\ poolAtStart b = ks) /\
  (delayAtStart a = d /\ delayAtStart b = d).
Proof.
  induction l as [|t l IH]; intros ex ex' pre a b post H E.
  - destruct pre; discriminate.
  - destruct H as (H0 & H1 & H2 & H3). destruct pre as [|t' pre]; simpl in E.
    + injection E as -> ->. simpl in H3. destruct H3 as (H4 & H5 & H6 & _). auto.
    + injection E as -> E. eapply IH; eauto.
Qed.

Lemma observeTarget_spec {A} (c2 : Config) (run : M (A * Config)) (w : World) :
  preserves ranTargets run ->
  exists d1,
    ranTargets (snd (observeTarget c2 run w)) =
      (ranTargets w ++ [{| poolAtStart := apiKeys c2;
                           delayAtStart := dynamicDelay c2;
                           exhaustedAtStart := exAt (exhaustedKeys c2) w;
                           delayAtEnd := d1;
                           exhaustedAtEnd :=
                             exAt (exhaustedKeys c2) (snd (observeTarget c2 run w)) |}])%list.
Proof.
  intros Hr. unfold observeTarget. cbv beta iota zeta delta [bind ret mapAt emit].
  specialize (Hr w). destruct (run w) as [[a c2'] w1]. cbn [fst snd] in *.
  exists (dynamicDelay c2'). unfold ranTargets in *. wsimpl.
  rewrite targetsOf_app, Hr. reflexivity.
Qed.

Lemma targetStep_after {A B} (c2 : Config) (m : M A) (k : A -> M B) (w : World) :
  (exists d1,
    ranTargets (snd (m w)) =
      (ranTargets w ++ [{| poolAtStart := apiKeys c2;
                           delayAtStart := dynamicDelay c2;
                           exhaustedAtStart := exAt (exhaustedKeys c2) w;
                           delayAtEnd := d1;
                           exhaustedAtEnd := exAt (exhaustedKeys c2) (snd (m w)) |}])%list) ->
  (forall a, preserves ranTargets (k a)) -> (forall a, preserves maps (k a)) ->
  targetStep c2 w (snd (bind m k w)).
Proof.
  intros [d1 H] Ht Hm. right. exists d1. unfold bind.
  destruct (m w) as [a w1]. cbn [snd] in *.
  rewrite (Ht a w1), H. unfold exAt. rewrite (Hm a w1). reflexivity.
Qed.

Lemma targetBody_step (env : Env) (c2 : Config) (w : World) :
  targetStep c2 w (snd (targetBody env c2 w)).
Proof.
  unfold targetBody.
  destruct (nonEmpty (dork c2)).
  - apply targetStep_after.
    + apply observeTarget_spec. pres.
    + intros a. pres.
    + intros a. pres.
  - cbv zeta.
    destruct (if nonEmpty (extension c2) then Some (extensionAttack env)
              else if nonEmpty (dictionary c2) then Some (dictionaryAttack env)
              else if subdomainMode c2 then Some (subdomainAttack env)
              else if nonEmpty (contents c2) then Some (contentsAttack env)
              else None) as [attack|] eqn:Em.
    + assert (Ha : forall c, preserves ranTargets (attack c)).
      { repeat match type of Em with
               | (if ?b then _ else _) = _ => destruct b
               end; inversion Em; subst; intros c; auto with pres. }
      apply targetStep_after.
      * apply observeTarget_spec. pres.
      * intros a. pres.
      * intros a. pres.
    + left. split; reflexivity.
Qed.

Lemma targetStep_chained (c c2 : Config) (w w' : World) :
  apiKeys c2 = apiKeys c ->
  dynamicDelay c2 = dynamicDelay c -> exhaustedKeys c2 = exhaustedKeys c ->
  targetStep c2 w w' ->
  exists l, ranTargets w' = (ranTargets w ++ l)%list /\
            chained (apiKeys c) (dynamicDelay c) (exAt (exhaustedKeys c) w) l
              (exAt (exhaustedKeys c) w').
Proof.
  intros Hp Hd Hk [[Ht Hm]|[d1 Ht]].
  - exists []. rewrite app_nil_r. split; [exact Ht|]. simpl. unfold exAt. rewrite Hm. reflexivity.
  - rewrite Hp, Hd, Hk in Ht. eexists. split; [exact Ht|]. simpl. auto.
Qed.

Lemma domainsLoop_chained (env : Env) (lines : list string) :
  forall c w,
  exists l,
    ranTargets (snd (domainsLoop env lines c w)) = (ranTargets w ++ l)%list /\
    chained (apiKeys c) (dynamicDelay c) (exAt (exhaustedKeys c) w) l
      (exAt (exhaustedKeys c) (snd (domainsLoop env lines c w))).
Proof.
  induction lines as [|line rest IH]; intros c w.
  - exists []. rewrite app_nil_r. split; reflexivity.
  - cbn [domainsLoop]. cbv beta iota zeta delta [bind ret ctxCancelled nextTick emit].
    wsimpl.
    set (w0 := {| tick := S (tick w); fs := fs w; maps := maps w; stdout := stdout w;
                  stderr := stderr w; trace := (trace w ++ [EvCheck (ctxErr env (tick w))])%list |}).
    assert (H0 : ranTargets w0 = ranTargets w /\ maps w0 = maps w).
    { unfold ranTargets. subst w0. wsimpl. rewrite targetsOf_app, app_nil_r. auto. }
    destruct H0 as [H0 H0m].
    assert (Hx : exAt (exhaustedKeys c) w0 = exAt (exhaustedKeys c) w)
      by (unfold exAt; rewrite H0m; reflexivity).
    destruct (ctxErr env (tick w)).
    { exists []. rewrite app_nil_r. cbn [snd]. split; [exact H0|exact Hx]. }
    destruct (String.eqb (Strings.TrimSpace line) EmptyString).
    { destruct (IH c w0) as (l & H1 & H2). exists l. rewrite H1, H0, <- Hx. auto. }
    pose proof (targetBody_step env (set_target (Strings.TrimSpace line) c) w0) as Hs.
    apply (targetStep_chained c) in Hs as (l1 & H1 & H2); [|reflexivity|reflexivity|reflexivity].
    destruct (targetBody env (set_target (Strings.TrimSpace line) c) w0) as [err w1].
    cbn [snd] in *. rewrite H0 in H1. rewrite Hx in H2.
    destruct err as [e|].
    + exists l1. cbn [snd]. auto.
    + destruct (IH c w1) as (l2 & H3 & H4). exists (l1 ++ l2)%list.
      rewrite H3, H1, app_assoc. split; [reflexivity|].
      eapply chained_app; eauto.
Qed.

Lemma readDomainsFile_chained (env : Env) (c : Config) (w : World) :
  chained (apiKeys c) (dynamicDelay c) (exAt (exhaustedKeys c) w) (domainsTargets env c w)
    (exAt (exhaustedKeys c) (snd (readDomainsFile env c w))).
Proof.
  unfold domainsTargets, readDomainsFile.
  cbv beta iota zeta delta [bind ret readLines getFs].
  destruct (files (fs w) !! domainsFile c) as [content|];
    [destruct (bool_decide (domainsFile c ∈ noRead (fs w)))|]; cbn [negb].
  - cbn [snd]. rewrite drop_all. reflexivity.
  - destruct (scanOk content); cbn [negb].
    + destruct (domainsLoop_chained env (linesOf content) c w) as (l & H1 & H2).
      rewrite H1, drop_app_length. exact H2.
    + cbn [snd]. rewrite drop_all. reflexivity.
  - cbn [snd]. rewrite drop_all. reflexivity.
Qed.

(** C3, as amended.  The targets of a domains file share one Credential Pool
    and one Exhausted Set: of two consecutive targets both run with the pool
    of the run, and the later one starts with the exhausted set the earlier
    one ended with.  The adaptive delay is not carried over: each target
    starts from the delay the run was started with. *)
Theorem readDomainsFile_carries_exhausted_set (env : Env) (c : Config) (w : World)
    (pre : list TargetRun) (a b : TargetRun) (post : list TargetRun) :
  domainsTargets env c w = (pre ++ a :: b :: post)%list ->
  exhaustedAtStart b = exhaustedAtEnd a /\
  (poolAtStart a = apiKeys c /\ poolAtStart b = apiKeys c) /\
  (delayAtStart a = dynamicDelay c /\ delayAtStart b = dynamicDelay c).
Proof.
  intros E. eapply chained_pairs; [apply readDomainsFile_chained|exact E].
Qed.

(** ** The claims on concrete runs *)

(** C1 as stated fails: the credential of an attempt is drawn at random
    among those not exhausted, so after a transport error the same credential
    can be drawn again on the same page.  Here [A] is attempted twice on page
    0 although [B] is in the pool. *)
Lemma dorkRun_may_repeat_a_credential :
  ~ AttemptBudgetClaim (envOf (fun _ _ => HttpErr "timeout") never)
      (plainConfig ["A"; "B"] 1) EmptyString (startWorld emptyFs).
Proof.
  intros [_ H]. destruct (H 0) as [_ Hn].
  assert (E : attemptsOn 0 (dorkTrace (envOf (fun _ _ => HttpErr "timeout") never)
                              (plainConfig ["A"; "B"] 1) EmptyString (startWorld emptyFs))
              = ["A"; "A"]) by (vm_compute; reflexivity).
  rewrite E in Hn. inversion Hn as [|x l Hnin _]. apply Hnin. left.
Qed.

(** C4 as stated fails in its last part: the attempts of a page are counted,
    not the credentials tried, so the page can end on a quota answer while a
    credential that was never tried remains.  Here [A] fails in transport,
    is drawn again and answered by the quota signal; the two attempts of the
    page are used up and [B] is never tried. *)
Lemma dorkRun_may_stop_with_credentials_left :
  ~ QuotaClaim (envOf timeoutThenQuota never) (plainConfig ["A"; "B"] 1) EmptyString
      (startWorld emptyFs).
Proof.
  intros H.
  pose (tr := dorkTrace (envOf timeoutThenQuota never) (plainConfig ["A"; "B"] 1)
                EmptyString (startWorld emptyFs)).
  assert (E : tr = (firstn 10 tr ++
                    EvGet "A"
                      "https://www.googleapis.com/customsearch/v1?key=A&cx=759aed2f7b4be4b83&start=1&q=site%3Aexample.com"
                      (errorResponse "Quota exceeded") :: skipn 11 tr)%list)
    by (vm_compute; reflexivity).
  destruct (H _ _ _ _ _ E eq_refl) as (_ & _ & Hc).
  destruct Hc as (p & k' & Hin).
  - exists "B". split; [right; left; reflexivity|].
    apply (bool_decide_eq_false_1 _). vm_compute. reflexivity.
  - vm_compute in Hin. destruct Hin as [Hin|[]]. discriminate.
Qed.

(** With [A] over quota the intent marks [A] and goes on with [B]. *)
Lemma quotaOnA_marks_A :
  let env := envOf quotaOnA never in
  let c := plainConfig ["A"; "B"] 1 in
  let w := startWorld emptyFs in
  elements (exAt 0 (dorkWorld env c EmptyString w)) = ["A"] /\
  attemptKeys (dorkTrace env c EmptyString w) = ["A"; "B"].
Proof. vm_compute. split; reflexivity. Qed.

(** C5 as stated fails in one word: the links returned are deduplicated page
    by page, not as a whole.  Here both pages answer with the same five
    links, the cancellation is seen before the third page, and the call
    returns each link twice. *)
Lemma dorkRun_cancel_may_return_a_link_twice :
  ~ CancelClaim (envOf samePage (cancelFrom 20)) (plainConfig ["K"] 5) EmptyString
      (startWorld emptyFs).
Proof.
  intros H.
  pose (tr := dorkTrace (envOf samePage (cancelFrom 20)) (plainConfig ["K"] 5) EmptyString
                (startWorld emptyFs)).
  assert (E : tr = (removelast tr ++ EvCheck true :: [])%list) by (vm_compute; reflexivity).
  destruct (H _ _ E) as (_ & Hn & _).
  assert (Er : dorkResult (envOf samePage (cancelFrom 20)) (plainConfig ["K"] 5) EmptyString
                 (startWorld emptyFs) = (pageLinks "a" ++ pageLinks "a")%list)
    by (vm_compute; reflexivity).
  rewrite Er in Hn. apply NoDup_app in Hn as (_ & Hd & _).
  apply (Hd "http://example.com/a1"); left.
Qed.

(** A five-page run cancelled after its second page: the trace ends with
    the check point that saw the cancellation, two pages were entered, and
    the ten links of those pages are returned. *)
Lemma dorkRun_cancel_returns_partial_witness :
  let env := envOf twoPages (cancelFrom 20) in
  let c := plainConfig ["K"] 5 in
  let w := startWorld emptyFs in
  dorkTrace env c EmptyString w =
    (removelast (dorkTrace env c EmptyString w) ++ [EvCheck true])%list /\
  pagesOf (dorkTrace env c EmptyString w) = [0; 1] /\
  dorkResult env c EmptyString w = (pageLinks "a" ++ pageLinks "b")%list.
Proof.
  cbv zeta.
  assert (E : dorkTrace (envOf twoPages (cancelFrom 20)) (plainConfig ["K"] 5) EmptyString
                (startWorld emptyFs) =
              (removelast (dorkTrace (envOf twoPages (cancelFrom 20)) (plainConfig ["K"] 5)
                             EmptyString (startWorld emptyFs)) ++ [EvCheck true])%list)
    by (vm_compute; reflexivity).
  split; [exact E|]. split; [vm_compute; reflexivity|].
  destruct (dorkRun_cancel_returns_partial _ _ _ _ _ _ E) as (_ & -> & _).
  vm_compute. reflexivity.
Defined.

Lemma foundOn_false (p : Z) (tr : list Event) :
  foundOn p tr = false -> forall links, ~ In (EvFound p links) tr.
Proof.
  intros H links Hin. apply Bool.not_true_iff_false in H. apply H.
  apply existsb_exists. exists (EvFound p links). split; [exact Hin|apply Z.eqb_refl].
Qed.

(** A five-page run whose second page is empty: two pages are entered and
    the links of the first are returned. *)
Lemma dorkRun_empty_page_ends_intent_witness :
  let tr := dorkTrace (envOf onePage never) (plainConfig ["K"] 5) EmptyString
              (startWorld emptyFs) in
  pagesOf tr = [0; 1] /\
  (forall q, In (EvPage q) tr -> q <= 1) /\
  dorkResult (envOf onePage never) (plainConfig ["K"] 5) EmptyString (startWorld emptyFs) =
    pageLinks "a".
Proof.
  cbv zeta.
  assert (Hp : pagesOf (dorkTrace (envOf onePage never) (plainConfig ["K"] 5) EmptyString
                          (startWorld emptyFs)) = [0; 1]) by (vm_compute; reflexivity).
  split; [exact Hp|].
  destruct (dorkRun_empty_page_ends_intent (envOf onePage never) (plainConfig ["K"] 5)
              EmptyString (startWorld emptyFs) 1) as (H1 & _ & _ & H2).
  - apply (proj1 (in_pagesOf 1 _)). rewrite Hp. right. left. reflexivity.
  - apply foundOn_false. vm_compute. reflexivity.
  - split; [exact H1|]. rewrite H2. vm_compute. reflexivity.
Defined.

(** From the initial 0.25 s the delay of a run with two successful pages
    and an empty one ends non-negative. *)
Lemma dorkRun_adaptive_delay_witness :
  nonNegative delayInitial /\
  nonNegative (dynamicDelay (dorkConfig (envOf twoPages never) (plainConfig ["K"] 5)
                               EmptyString (startWorld emptyFs))).
Proof.
  split; [reflexivity|].
  exact (proj1 (dorkRun_adaptive_delay (envOf twoPages never) (plainConfig ["K"] 5)
                  EmptyString (startWorld emptyFs) eq_refl)).
Defined.

(** C3 as stated fails for the adaptive delay: [readDomainsFile] runs every
    target on a copy of the configuration ([c2 := *c]), so what a target does
    to the delay is lost with the copy.  Here the first target ends with a
    delay of 0.35 s and the second starts again from 0.25 s. *)
Lemma readDomainsFile_resets_adaptive_delay :
  ~ SharedAcrossTargets (envOf quotaOnA never) domainsConfig (startWorld domainsFs).
Proof.
  intros H.
  pose (ts := domainsTargets (envOf quotaOnA never) domainsConfig (startWorld domainsFs)).
  assert (E : ts = ([] ++ nth 0 ts noTarget :: nth 1 ts noTarget :: [])%list)
    by (vm_compute; reflexivity).
  destruct (H _ _ _ _ E) as [Hd _].
  apply (f_equal (fun x => (x <? 0.3125)%float)) in Hd. vm_compute in Hd. discriminate.
Qed.

(** Two targets with [A] over quota: the second starts with [A] marked and
    with the initial delay. *)
Lemma readDomainsFile_carries_exhausted_set_witness :
  let ts := domainsTargets (envOf quotaOnA never) domainsConfig (startWorld domainsFs) in
  ts = ([] ++ nth 0 ts noTarget :: nth 1 ts noTarget :: [])%list /\
  elements (exhaustedAtStart (nth 1 ts noTarget)) = ["A"] /\
  delayAtStart (nth 1 ts noTarget) = delayInitial.
Proof.
  cbv zeta.
  pose (ts := domainsTargets (envOf quotaOnA never) domainsConfig (startWorld domainsFs)).
  assert (E : ts = ([] ++ nth 0 ts noTarget :: nth 1 ts noTarget :: [])%list)
    by (vm_compute; reflexivity).
  split; [exact E|].
  destruct (readDomainsFile_carries_exhausted_set _ _ _ _ _ _ _ E) as (H1 & _ & _ & H2).
  fold ts. rewrite H1, H2. split; [vm_compute; reflexivity|reflexivity].
Defined.

(** * Further properties of the code *)

(** ** [uniqueStrings] *)

Lemma uniqueGo_sublist (l : list string) : forall seen, sublist (uniqueGo seen l) l.
Proof.
  induction l as [|s r IH]; intros seen; simpl; [constructor|].
  destruct (String.eqb s EmptyString); [apply sublist_cons, IH|].
  case_bool_decide; [apply sublist_cons, IH|apply sublist_skip, IH].
Qed.

Lemma uniqueGo_fixed (l : list string) : forall seen : gset string,
  NoDup l -> EmptyString ∉ l -> (forall x, x ∈ l -> x ∉ seen) -> uniqueGo seen l = l.
Proof.
  induction l as [|s r IH]; intros seen Hn He Hs; simpl; [reflexivity|].
  apply NoDup_cons in Hn as [Hsr Hn].
  apply not_elem_of_cons in He as [Hse He].
  destruct (String.eqb_spec s EmptyString) as [E|_]; [congruence|].
  rewrite bool_decide_false by (apply Hs; left).
  f_equal. apply IH; [exact Hn|exact He|].
  intros x Hx. rewrite not_elem_of_union, not_elem_of_singleton. split.
  - intros ->. exact (Hsr Hx).
  - apply Hs. right. exact Hx.
Qed.

(** What has been seen after a pass over [l]. *)
Lemma uniqueGo_app (a b : list string) : forall seen : gset string,
  uniqueGo seen (a ++ b) =
  (uniqueGo seen a ++ uniqueGo (list_to_set (uniqueGo seen a) ∪ seen) b)%list.
Proof.
  induction a as [|s r IH]; intros seen; simpl.
  - f_equal. set_solver.
  - destruct (String.eqb s EmptyString); [apply IH|].
    case_bool_decide as Hs; [apply IH|].
    simpl. f_equal. rewrite IH. f_equal. f_equal. set_solver.
Qed.

Lemma uniqueGo_ext (l : list string) : forall seen seen' : gset string,
  (forall x, x ∈ l -> x ∈ seen <-> x ∈ seen') -> uniqueGo seen l = uniqueGo seen' l.
Proof.
  induction l as [|s r IH]; intros seen seen' H; simpl; [reflexivity|].
  destruct (String.eqb s EmptyString).
  - apply IH. intros x Hx. apply H. right. exact Hx.
  - assert (Hs : s ∈ seen <-> s ∈ seen') by (apply H; left).
    destruct (decide (s ∈ seen)) as [Hin|Hout].
    + rewrite !bool_decide_true by tauto. apply IH. intros x Hx. apply H. right. exact Hx.
    + rewrite !bool_decide_false by tauto. f_equal. apply IH.
      intros x Hx. rewrite !elem_of_union, !elem_of_singleton.
      assert (x ∈ seen <-> x ∈ seen') by (apply H; right; exact Hx). tauto.
Qed.

Lemma filter_keeps_all (x : string) (l : list string) :
  x ∉ l -> filter (fun y => y <> x) l = l.
Proof.
  induction l as [|y l IH]; intros H; [reflexivity|].
  apply not_elem_of_cons in H as [Hxy H].
  rewrite filter_cons_True by congruence. f_equal. apply IH, H.
Qed.

(** Having seen [x] before the pass amounts to dropping [x] after it. *)
Lemma uniqueGo_seen (x : string) (l : list string) : forall seen : gset string,
  uniqueGo ({[x]} ∪ seen) l = filter (fun y => y <> x) (uniqueGo seen l).
Proof.
  induction l as [|s r IH]; intros seen; simpl; [reflexivity|].
  destruct (String.eqb s EmptyString); [apply IH|].
  destruct (decide (s ∈ seen)) as [Hin|Hout].
  { rewrite !bool_decide_true by set_solver. apply IH. }
  rewrite (bool_decide_false (s ∈ seen)) by exact Hout.
  destruct (decide (s = x)) as [->|Hne].
  - rewrite bool_decide_true by set_solver. rewrite filter_cons_False by tauto.
    symmetry. apply filter_keeps_all.
    rewrite (proj2 (uniqueGo_spec r ({[x]} ∪ seen))). set_solver.
  - rewrite bool_decide_false by set_solver. rewrite filter_cons_True by exact Hne.
    f_equal. rewrite <- IH. apply uniqueGo_ext. intros y _. set_solver.
Qed.

(** X1.  [uniqueStrings] returns its argument without the empty strings and
    without the repetitions, in the order of the first occurrences: an empty
    head is dropped, any other head is kept in front and dropped from what
    the rest gives.  It leaves a list alone exactly when the list has
    neither an empty string nor a repetition; and deduplicating a list whose
    head part was deduplicated before gives what deduplicating the whole
    gives. *)
Theorem uniqueStrings_first_occurrences (l : list string) :
  NoDup (uniqueStrings l) /\
  (forall x, x ∈ uniqueStrings l <-> x ∈ l /\ x <> EmptyString) /\
  sublist (uniqueStrings l) l /\
  (uniqueStrings l = l <-> NoDup l /\ EmptyString ∉ l) /\
  (forall r, uniqueStrings (uniqueStrings l ++ r) = uniqueStrings (l ++ r)) /\
  uniqueStrings [] = [] /\
  (forall x, uniqueStrings (x :: l) =
             if decide (x = EmptyString) then uniqueStrings l
             else x :: filter (fun y => y <> x) (uniqueStrings l)).
Proof.
  assert (Hcons : forall x, uniqueStrings (x :: l) =
             if decide (x = EmptyString) then uniqueStrings l
             else x :: filter (fun y => y <> x) (uniqueStrings l)).
  { intros x. unfold uniqueStrings. cbn [uniqueGo].
    destruct (String.eqb_spec x EmptyString) as [E|E].
    - rewrite decide_True by exact E. reflexivity.
    - rewrite decide_False by exact E. rewrite bool_decide_false by set_solver.
      f_equal. apply uniqueGo_seen. }
  split; [apply uniqueStrings_NoDup|].
  split; [apply elem_of_uniqueStrings|].
  split; [apply uniqueGo_sublist|].
  split.
  - split.
    + intros E. rewrite <- E. split; [apply uniqueStrings_NoDup|].
      rewrite elem_of_uniqueStrings. tauto.
    + intros [Hn He]. apply uniqueGo_fixed; auto. intros x _. set_solver.
  - split; [|split; [reflexivity|exact Hcons]].
    intros r. unfold uniqueStrings. rewrite !uniqueGo_app.
    assert (Hu : uniqueGo ∅ (uniqueGo ∅ l) = uniqueGo ∅ l).
    { apply uniqueGo_fixed.
      - apply (uniqueStrings_NoDup l).
      - intros H. apply (elem_of_uniqueStrings l) in H. tauto.
      - intros x _. set_solver. }
    rewrite Hu. reflexivity.
Qed.

(** ** [getRandomApiKey] *)

(** X2.  [getRandomApiKey] fails exactly when every credential of the pool is
    in the exhausted-key map (an empty pool included); otherwise it returns
    a credential of the pool that is not in the map.  It changes neither the
    map, the files nor the output. *)
Theorem getRandomApiKey_available (env : Env) (c : Config) (w : World) :
  let r := fst (getRandomApiKey env c w) in
  let w' := snd (getRandomApiKey env c w) in
  (r = None <-> forall k, In k (apiKeys c) -> k ∈ exAt (exhaustedKeys c) w) /\
  (forall k, r = Some k -> In k (apiKeys c) /\ k ∉ exAt (exhaustedKeys c) w) /\
  maps w' = maps w /\ fs w' = fs w /\ stdout w' = stdout w /\ stderr w' = stderr w.
Proof.
  cbv zeta.
  destruct (getRandomApiKey env c w) as [r w'] eqn:E. cbn [fst snd].
  destruct (getRandomApiKey_spec env c w r w' E) as (H1 & H2 & H3 & H4 & _ & H6).
  split; [|tauto].
  unfold getRandomApiKey in E. cbv beta iota zeta delta [bind ret mapAt nextTick] in E.
  fold (exAt (exhaustedKeys c) w) in E.
  set (available := filter (fun k => k ∉ exAt (exhaustedKeys c) w) (apiKeys c)) in *.
  destruct (length available =? 0)%nat eqn:El.
  - injection E as <- _. split; [intros _|reflexivity].
    apply Nat.eqb_eq, length_zero_iff_nil in El.
    intros k Hk. destruct (decide (k ∈ exAt (exhaustedKeys c) w)) as [|Hn]; [assumption|].
    assert (Hin : k ∈ available).
    { apply list_elem_of_filter. split; [exact Hn|apply list_elem_of_In, Hk]. }
    rewrite El in Hin. inversion Hin.
  - injection E as <- _. split; [discriminate|]. intros Hall. exfalso.
    apply Nat.eqb_neq in El. destruct available as [|k rest] eqn:Ea; [apply El; reflexivity|].
    assert (Hin : k ∈ available) by (rewrite Ea; left).
    apply list_elem_of_filter in Hin as [Hn Hin].
    apply Hn, Hall, list_elem_of_In, Hin.
Qed.

(** ** [readApiKeysFromFile] *)

Lemma linesOf_trimmed (content k : string) :
  In k (linesOf content) -> k <> EmptyString /\ Strings.TrimSpace k = k.
Proof.
  unfold linesOf. intros H. apply trimmedNonBlank_spec in H as (y & _ & -> & Hne).
  split; [exact Hne|apply TrimSpace_idem].
Qed.

(** X3.  [readApiKeysFromFile] succeeds exactly when the file can be read to
    its end and has a line that is not blank.  It then stores the lines of
    the file, trimmed and without the blank ones, in file order, as the pool,
    so that no credential of the pool is empty or padded and
    [getRandomApiKey] never returns the empty credential.  When it fails it
    leaves the receiver as it was, and it says [no API keys in file] exactly
    for a file read to its end with blank lines only. *)
Theorem readApiKeysFromFile_loads_pool (path : string) (c : Config) (w : World) :
  let c' := fst (fst (readApiKeysFromFile path c w)) in
  let err := snd (fst (readApiKeysFromFile path c w)) in
  snd (readApiKeysFromFile path c w) = w /\
  (err = None <->
   exists content, files (fs w) !! path = Some content /\ (path ∉ noRead (fs w)) /\
                   scanOk content = true /\ linesOf content <> []) /\
  (err = Some NoApiKeys <->
   exists content, files (fs w) !! path = Some content /\ (path ∉ noRead (fs w)) /\
                   scanOk content = true /\ linesOf content = []) /\
  (err <> None -> c' = c) /\
  (err = None ->
   (exists content, files (fs w) !! path = Some content /\ apiKeys c' = linesOf content) /\
   (forall k, In k (apiKeys c') -> k <> EmptyString /\ Strings.TrimSpace k = k) /\
   forall env w2 k, fst (getRandomApiKey env c' w2) = Some k -> k <> EmptyString).
Proof.
  cbv zeta. unfold readApiKeysFromFile. cbv beta iota zeta delta [bind ret getFs].
  destruct (files (fs w) !! path) as [content|] eqn:Ef.
  2:{ cbn [fst snd]. split; [reflexivity|]. split; [|split; [|split]].
      - split; [discriminate|]. intros (x & Hx & _). discriminate.
      - split; [discriminate|]. intros (x & Hx & _). discriminate.
      - reflexivity.
      - discriminate. }
  case_bool_decide as Hr.
  { cbn [fst snd]. split; [reflexivity|]. split; [|split; [|split]].
    - split; [discriminate|]. intros (x & _ & Hx & _). tauto.
    - split; [discriminate|]. intros (x & _ & Hx & _). tauto.
    - reflexivity.
    - discriminate. }
  destruct (scanOk content) eqn:Es; cbn [negb].
  2:{ cbn [fst snd]. split; [reflexivity|]. split; [|split; [|split]].
      - split; [discriminate|]. intros (x & [= <-] & _ & Hx & _). congruence.
      - split; [discriminate|]. intros (x & [= <-] & _ & Hx & _). congruence.
      - reflexivity.
      - discriminate. }
  destruct (length (linesOf content) =? 0)%nat eqn:El.
  - apply Nat.eqb_eq, length_zero_iff_nil in El. cbn [fst snd].
    split; [reflexivity|]. split; [|split; [|split]].
    + split; [discriminate|]. intros (x & [= <-] & _ & _ & Hx). congruence.
    + split; [|reflexivity]. intros _. exists content. auto.
    + reflexivity.
    + discriminate.
  - apply Nat.eqb_neq in El.
    assert (Hl : linesOf content <> []) by (intros E; apply El; rewrite E; reflexivity).
    cbn [fst snd]. split; [reflexivity|]. split; [|split; [|split]].
    + split; [|reflexivity]. intros _. exists content. auto.
    + split; [discriminate|]. intros (x & [= <-] & _ & _ & Hx). congruence.
    + intros H. congruence.
    + intros _. change (apiKeys (set_apiKeys (linesOf content) c)) with (linesOf content).
      split; [exists content; auto|]. split.
      * intros k Hk. apply (linesOf_trimmed content k Hk).
      * intros env w2 k Hk.
        destruct (getRandomApiKey env (set_apiKeys (linesOf content) c) w2) as [r w3] eqn:E.
        apply getRandomApiKey_spec in E as (_ & _ & _ & _ & _ & E).
        cbn [fst] in Hk. destruct (E k Hk) as [Hin _]. apply (linesOf_trimmed content k Hin).
Qed.

(** ** [outputOrPrintUnique] *)

Lemma sortStrings_Sorted (l : list string) : Sorted String.le (sortStrings l).
Proof. apply (Sorted_merge_sort String.le). Qed.

(** Two sorted lists without repetition that hold the same strings are equal. *)
Lemma sorted_lines_unique (a b : list string) :
  Sorted String.le a -> Sorted String.le b -> NoDup a -> NoDup b ->
  (forall x, x ∈ a <-> x ∈ b) -> a = b.
Proof.
  intros Sa Sb Na Nb H. apply (Sorted_unique String.le); auto.
  apply NoDup_Permutation; auto.
Qed.

(** X4.  Without an output path the sink prints the lines of the result set
    that are not empty, each once, in byte-wise ascending order, and touches
    neither the files nor standard error; what it prints does not depend on
    the order or the repetitions in the result set. *)
Theorem outputOrPrintUnique_prints_sorted (urls : list string) (w : World) :
  let w' := snd (outputOrPrintUnique urls EmptyString w) in
  let printed := sortStrings (uniqueStrings urls) in
  stdout w' = (stdout w ++ printed)%list /\
  Sorted String.le printed /\ NoDup printed /\
  (forall u, u ∈ printed <-> u ∈ urls /\ u <> EmptyString) /\
  fs w' = fs w /\ stderr w' = stderr w /\
  forall urls2, (forall u, u ∈ urls <-> u ∈ urls2) ->
    outputOrPrintUnique urls2 EmptyString w = outputOrPrintUnique urls EmptyString w.
Proof.
  cbv zeta. unfold outputOrPrintUnique. cbn [String.eqb]. unfold printAll. cbn [fst snd stdout fs stderr].
  split; [reflexivity|]. split; [apply sortStrings_Sorted|].
  split; [apply sortStrings_NoDup, uniqueStrings_NoDup|].
  split; [intros u; rewrite elem_of_sortStrings; apply elem_of_uniqueStrings|].
  split; [reflexivity|]. split; [reflexivity|].
  intros urls2 H.
  assert (E : sortStrings (uniqueStrings urls2) = sortStrings (uniqueStrings urls)).
  { apply sorted_lines_unique; auto using sortStrings_Sorted, sortStrings_NoDup,
      uniqueStrings_NoDup.
    intros x. rewrite !elem_of_sortStrings, !elem_of_uniqueStrings, H. reflexivity. }
  rewrite E. reflexivity.
Qed.

Lemma newLines_ext (uniq : list string) : forall ex ex' : gset string,
  (forall x, x ∈ uniq -> x ∈ ex <-> x ∈ ex') -> newLines ex uniq = newLines ex' uniq.
Proof.
  induction uniq as [|u r IH]; intros ex ex' H; simpl; [reflexivity|].
  assert (Hu : u ∈ ex <-> u ∈ ex') by (apply H; left).
  destruct (decide (u ∈ ex)) as [Hin|Hout].
  - rewrite !bool_decide_true by tauto. apply IH. intros x Hx. apply H. right. exact Hx.
  - rewrite !bool_decide_false by tauto. f_equal. apply IH.
    intros x Hx. rewrite !elem_of_union, !elem_of_singleton.
    assert (x ∈ ex <-> x ∈ ex') by (apply H; right; exact Hx). tauto.
Qed.

Lemma newLines_filter (uniq : list string) : forall ex : gset string,
  NoDup uniq -> newLines ex uniq = filter (fun u => u ∉ ex) uniq.
Proof.
  induction uniq as [|u r IH]; intros ex Hn; simpl; [reflexivity|].
  apply NoDup_cons in Hn as [Hur Hn].
  destruct (decide (u ∈ ex)) as [Hin|Hout].
  - rewrite bool_decide_true by exact Hin. rewrite filter_cons_False by tauto.
    apply IH, Hn.
  - rewrite bool_decide_false by exact Hout. rewrite filter_cons_True by exact Hout.
    f_equal. rewrite <- (IH ex Hn). apply newLines_ext.
    intros x Hx. rewrite elem_of_union, elem_of_singleton. split; [|tauto].
    intros [->|H]; [destruct (Hur Hx)|exact H].
Qed.

Lemma StronglySorted_sublist {A} (R : relation A) (l k : list A) :
  sublist l k -> StronglySorted R k -> StronglySorted R l.
Proof.
  induction 1 as [|x l k Hs IH|x l k Hs IH]; intros Hk.
  - constructor.
  - apply StronglySorted_inv in Hk as [Hk Hx]. constructor; [auto|].
    apply Forall_forall. intros y Hy. rewrite Forall_forall in Hx. apply Hx.
    eapply elem_of_sublist; eauto.
  - apply StronglySorted_inv in Hk as [Hk _]. auto.
Qed.

Lemma Sorted_filter_lines (P : string -> Prop) `{!forall x, Decision (P x)} (l : list string) :
  Sorted String.le l -> Sorted String.le (filter P l).
Proof.
  intros Hs. apply StronglySorted_Sorted.
  apply (StronglySorted_sublist _ _ l); [apply sublist_filter|].
  apply Sorted_StronglySorted; [apply _|exact Hs].
Qed.

Lemma outputOrPrintUnique_file (urls : list string) (p : string) (w : World) :
  p <> EmptyString -> p ∉ noAppend (fs w) ->
  snd (outputOrPrintUnique urls p w) =
  {| tick := tick w;
     fs := {| files := <[p := default EmptyString (files (fs w) !! p) +:+
                              String.concat EmptyString
                                (map (fun u => u +:+ newline) (appendedLines (fs w) p urls))]>
                          (files (fs w));
              noRead := noRead (fs w); noAppend := noAppend (fs w) |};
     maps := maps w; stdout := stdout w; stderr := stderr w; trace := trace w |}.
Proof.
  intros Hp Ha. unfold appendedLines.
  unfold outputOrPrintUnique. rewrite (proj2 (String.eqb_neq _ _) Hp).
  cbv beta iota zeta delta [bind fileExists readLines getFs ret putFs]. unfold knownLines.
  destruct (files (fs w) !! p) as [content|] eqn:Ef.
  - rewrite bool_decide_true by eauto. cbv beta iota zeta. rewrite Ef.
    destruct (bool_decide (p ∈ noRead (fs w))); cbv beta iota zeta;
      rewrite ?Ef, (bool_decide_false _ Ha); cbn [snd];
      rewrite newLines_filter by apply sortStrings_NoDup, uniqueStrings_NoDup;
      reflexivity.
  - rewrite bool_decide_false by (intros [x Hx]; discriminate). cbv beta iota zeta.
    rewrite ?Ef, (bool_decide_false _ Ha). cbn [snd].
    rewrite newLines_filter by apply sortStrings_NoDup, uniqueStrings_NoDup.
    reflexivity.
Qed.

Lemma elem_of_appendedLines (f : FileSys) (p : string) (urls : list string) (u : string) :
  u ∈ appendedLines f p urls <-> u ∈ urls /\ u <> EmptyString /\ u ∉ knownLines f p.
Proof.
  unfold appendedLines.
  rewrite list_elem_of_filter, elem_of_sortStrings, elem_of_uniqueStrings, elem_of_list_to_set.
  tauto.
Qed.

(** X5.  With an output path that can be opened for appending, the sink only
    appends: the file holds what it held (nothing when it was missing)
    followed by the new lines, each ended by a newline.  The new lines are
    the lines of the result set that are not empty and not among the lines
    the sink read from the file, each once, in ascending order; the lines
    read are those of [readLines], trimmed and without the blank ones, up to
    the first line too long for the scanner, and none when the file cannot
    be read.  No other file changes and nothing is printed. *)
Theorem outputOrPrintUnique_appends_new_lines (urls : list string) (p : string) (w : World) :
  p <> EmptyString -> p ∉ noAppend (fs w) ->
  let w' := snd (outputOrPrintUnique urls p w) in
  let old := default EmptyString (files (fs w) !! p) in
  exists new : list string,
    files (fs w') =
      <[p := old +:+ String.concat EmptyString (map (fun u => u +:+ newline) new)]>
        (files (fs w)) /\
    Sorted String.le new /\ NoDup new /\
    (forall u, u ∈ new <-> u ∈ urls /\ u <> EmptyString /\ u ∉ knownLines (fs w) p) /\
    noRead (fs w') = noRead (fs w) /\ noAppend (fs w') = noAppend (fs w) /\
    stdout w' = stdout w /\ stderr w' = stderr w.
Proof.
  intros Hp Ha. cbv zeta. exists (appendedLines (fs w) p urls).
  rewrite (outputOrPrintUnique_file urls p w Hp Ha).
  cbn [fs files noRead noAppend stdout stderr].
  split; [reflexivity|].
  split; [apply Sorted_filter_lines, sortStrings_Sorted|].
  split; [apply NoDup_filter, sortStrings_NoDup, uniqueStrings_NoDup|].
  split; [apply elem_of_appendedLines|auto].
Qed.

(** *** Lines and newlines *)

Lemma splitGo_newline_cons (a : ascii) (r cur : string) :
  Strings.splitGo newline 0 cur (String a r) =
  if Ascii.eqb (ascii_of_nat 10) a
  then cur :: Strings.splitGo newline 0 EmptyString r
  else Strings.splitGo newline 0 (cur +:+ String a EmptyString) r.
Proof.
  change (Strings.splitGo newline 0 cur (String a r))
    with (if Strings.HasPrefix (String a r) newline
          then cur :: Strings.splitGo newline (String.length newline - 1) EmptyString r
          else Strings.splitGo newline O (cur +:+ String a EmptyString) r).
  unfold Strings.HasPrefix, newline. cbn [String.prefix String.length Nat.sub].
  destruct (ascii_dec (ascii_of_nat 10) a) as [<-|Hne].
  - rewrite Ascii.eqb_refl. destruct r; reflexivity.
  - rewrite (proj2 (Ascii.eqb_neq _ _) Hne). reflexivity.
Qed.

Lemma splitGo_newline_app (x : string) : forall cur y,
  Strings.splitGo newline 0 cur (x +:+ newline +:+ y) =
  (Strings.splitGo newline 0 cur x ++ Strings.splitGo newline 0 EmptyString y)%list.
Proof.
  induction x as [|a r IH]; intros cur y.
  - rewrite append_nil_l. unfold newline at 2. rewrite append_cons, append_nil_l.
    rewrite splitGo_newline_cons, Ascii.eqb_refl. reflexivity.
  - rewrite append_cons, !splitGo_newline_cons.
    destruct (Ascii.eqb (ascii_of_nat 10) a); [simpl; f_equal|]; apply IH.
Qed.

Lemma scanGo_app (a b : list string) :
  snd (scanGo a) = true ->
  scanGo (a ++ b) = ((fst (scanGo a) ++ fst (scanGo b))%list, snd (scanGo b)).
Proof.
  induction a as [|l a IH]; intros H.
  - cbn. destruct (scanGo b). reflexivity.
  - cbn [scanGo app] in *.
    destruct (N.of_nat (String.length l) <? maxScanTokenSize)%N; [|discriminate H].
    destruct (scanGo a) as [ls ok]. cbn [fst snd] in *. rewrite (IH H). reflexivity.
Qed.

Lemma scanLines_app (x y : string) :
  scanOk x = true ->
  scanLines (x +:+ newline +:+ y) =
  ((fst (scanLines x) ++ fst (scanLines y))%list, scanOk y).
Proof.
  intros H. unfold scanLines, Strings.Split. rewrite splitGo_newline_app.
  apply scanGo_app, H.
Qed.

Lemma linesOf_app (x y : string) :
  scanOk x = true ->
  linesOf (x +:+ newline +:+ y) = (linesOf x ++ linesOf y)%list /\
  scanOk (x +:+ newline +:+ y) = scanOk y.
Proof.
  intros H. unfold linesOf, scanOk at 1. rewrite (scanLines_app x y H). cbn [fst snd].
  unfold trimmedNonBlank. rewrite map_app, filter_app. auto.
Qed.

Lemma linesOf_nil : linesOf EmptyString = [] /\ scanOk EmptyString = true.
Proof. split; reflexivity. Qed.

(** The scanner stops at the first line that does not fit its buffer: the
    lines before it are kept, and the error is reported. *)
Lemma scanGo_stops (short : list string) (long : string) (rest : list string) :
  Forall shortLine short -> ~ shortLine long ->
  scanGo (short ++ long :: rest) = (short, false).
Proof.
  intros Hs Hl. induction Hs as [|l short Hl' _ IH].
  - cbn [app scanGo]. unfold shortLine in Hl.
    destruct (N.of_nat (String.length long) <? maxScanTokenSize)%N; [destruct Hl|]; reflexivity.
  - cbn [app scanGo]. rewrite Hl', IH. reflexivity.
Qed.

Lemma linesOf_clean (u : string) : cleanLine u -> linesOf u = [u] /\ scanOk u = true.
Proof.
  intros (Hne & Ht & Hc & Hs). unfold linesOf, scanOk, scanLines.
  rewrite (Split_no_sep _ _ Hc). cbn [scanGo]. unfold shortLine in Hs. rewrite Hs.
  cbn [fst snd]. split; [|reflexivity].
  unfold trimmedNonBlank. simpl. rewrite Ht, filter_cons_True, filter_nil; [reflexivity|].
  unfold nonEmpty. rewrite (proj2 (String.eqb_neq _ _) Hne). reflexivity.
Qed.

Lemma concat_lines_cons (x : string) (l : list string) :
  String.concat EmptyString (x :: l) = x +:+ String.concat EmptyString l.
Proof.
  destruct l as [|y l]; simpl.
  - rewrite append_nil_r. reflexivity.
  - rewrite append_nil_l. reflexivity.
Qed.

Lemma linesOf_written (new : list string) :
  Forall cleanLine new ->
  linesOf (String.concat EmptyString (map (fun u => u +:+ newline) new)) = new /\
  scanOk (String.concat EmptyString (map (fun u => u +:+ newline) new)) = true.
Proof.
  induction 1 as [|u new Hu _ [IH1 IH2]]; [apply linesOf_nil|].
  cbn [map]. rewrite concat_lines_cons, append_assoc.
  destruct (linesOf_clean u Hu) as [C1 C2].
  destruct (linesOf_app u (String.concat EmptyString (map (fun u => u +:+ newline) new)) C2)
    as [A1 A2].
  rewrite A1, A2, IH1, C1. auto.
Qed.

Lemma linesOf_appended (old : string) (new : list string) :
  scanOk old = true ->
  old = EmptyString \/ (exists s, old = s +:+ newline) ->
  Forall cleanLine new ->
  linesOf (old +:+ String.concat EmptyString (map (fun u => u +:+ newline) new)) =
  (linesOf old ++ new)%list.
Proof.
  intros Hok [->|[s ->]] Hn.
  - rewrite append_nil_l. rewrite (proj1 (linesOf_written new Hn)). reflexivity.
  - assert (Hs : scanOk s = true /\ linesOf (s +:+ newline) = linesOf s).
    { destruct (scanOk s) eqn:Es.
      - split; [reflexivity|].
        rewrite <- (append_nil_r (s +:+ newline)), append_assoc.
        rewrite (proj1 (linesOf_app s EmptyString Es)), (proj1 linesOf_nil), app_nil_r.
        reflexivity.
      - exfalso. revert Hok Es. unfold scanOk, scanLines, Strings.Split.
        rewrite <- (append_nil_r (s +:+ newline)), append_assoc, splitGo_newline_app.
        generalize (Strings.splitGo newline 0 EmptyString s). intros l.
        induction l as [|x l IH]; cbn [scanGo app]; [discriminate|].
        destruct (N.of_nat (String.length x) <? maxScanTokenSize)%N; [|discriminate].
        destruct (scanGo l) as [ls ok]; destruct (scanGo (l ++ _)) as [ls2 ok2].
        cbn [snd] in *. exact IH. }
    destruct Hs as [Hs1 Hs2]. rewrite append_assoc.
    rewrite (proj1 (linesOf_app s _ Hs1)), (proj1 (linesOf_written new Hn)), Hs2.
    reflexivity.
Qed.

Lemma newLines_nil (uniq : list string) (ex : gset string) :
  (forall u, u ∈ uniq -> u ∈ ex) -> newLines ex uniq = [].
Proof.
  induction uniq as [|u r IH]; intros H; simpl; [reflexivity|].
  rewrite bool_decide_true by (apply H; left). apply IH. intros x Hx. apply H. right. exact Hx.
Qed.

(** X6.  Run a second time with the same result set on the same file, the
    sink leaves everything as the first run left it, provided the file can
    be read and appended to, it was missing, empty or ended by a newline
    before the first run, with no line too long for the scanner, and every
    line of the result set is trimmed (of the white space of Unicode), holds
    no newline and is short enough for the scanner. *)
Theorem outputOrPrintUnique_second_run_appends_nothing (urls : list string) (p : string)
    (w : World) :
  p <> EmptyString -> p ∉ noAppend (fs w) -> p ∉ noRead (fs w) ->
  (forall content, files (fs w) !! p = Some content ->
     scanOk content = true /\
     (content = EmptyString \/ exists s, content = s +:+ newline)) ->
  (forall u, u ∈ urls ->
     Strings.TrimSpace u = u /\ Strings.Contains u newline = false /\ shortLine u) ->
  let w1 := snd (outputOrPrintUnique urls p w) in
  snd (outputOrPrintUnique urls p w1) = w1.
Proof.
  intros Hp Ha Hr Hold Hclean. cbv zeta.
  pose proof (outputOrPrintUnique_file urls p w Hp Ha) as E1.
  set (new := appendedLines (fs w) p urls) in *.
  pose proof (elem_of_appendedLines (fs w) p urls) as Hnew. fold new in Hnew.
  set (w1 := snd (outputOrPrintUnique urls p w)) in *.
  assert (Hf : files (fs w1) =
               <[p := default EmptyString (files (fs w) !! p) +:+
                      String.concat EmptyString (map (fun u => u +:+ newline) new)]>
                 (files (fs w))) by (rewrite E1; reflexivity).
  assert (Hnr : noRead (fs w1) = noRead (fs w)) by (rewrite E1; reflexivity).
  assert (Hna : noAppend (fs w1) = noAppend (fs w)) by (rewrite E1; reflexivity).
  clearbody w1 new. clear E1.
  assert (Hcl : Forall cleanLine new).
  { apply Forall_forall. intros u Hu. apply Hnew in Hu as (Hu & Hne & _).
    destruct (Hclean u Hu) as (? & ? & ?). repeat split; auto. }
  set (old := default EmptyString (files (fs w) !! p)) in *.
  assert (Ho : scanOk old = true /\ (old = EmptyString \/ exists s, old = s +:+ newline)).
  { subst old. destruct (files (fs w) !! p) as [content|] eqn:Ef;
      [apply Hold; reflexivity|split; [reflexivity|left; reflexivity]]. }
  destruct Ho as [Hok Ho].
  assert (Hk0 : knownLines (fs w) p = linesOf old).
  { unfold knownLines. subst old. destruct (files (fs w) !! p) as [content|] eqn:Ef.
    - rewrite bool_decide_false by exact Hr. reflexivity.
    - reflexivity. }
  assert (Hf1 : files (fs w1) !! p =
                Some (old +:+ String.concat EmptyString (map (fun u => u +:+ newline) new))).
  { rewrite Hf. apply lookup_insert_eq. }
  assert (Hk1 : knownLines (fs w1) p = (linesOf old ++ new)%list).
  { unfold knownLines. rewrite Hf1, Hnr, bool_decide_false by exact Hr.
    apply linesOf_appended; assumption. }
  assert (Ha1 : p ∉ noAppend (fs w1)) by (rewrite Hna; exact Ha).
  assert (E2 : appendedLines (fs w1) p urls = []).
  { destruct (appendedLines (fs w1) p urls) as [|u r] eqn:El; [reflexivity|]. exfalso.
    assert (Hu : u ∈ appendedLines (fs w1) p urls) by (rewrite El; left).
    apply elem_of_appendedLines in Hu as (Hu & Hne & Hnk). apply Hnk.
    rewrite Hk1, elem_of_app.
    destruct (decide (u ∈ linesOf old)) as [|Hno]; [left; assumption|right].
    apply Hnew. rewrite Hk0. auto. }
  rewrite (outputOrPrintUnique_file urls p w1 Hp Ha1), E2, Hf1.
  cbn [map String.concat default]. rewrite append_nil_r, insert_id by exact Hf1.
  destruct w1 as [t1 [fl nr na] m1 o1 e1 tr1]. reflexivity.
Qed.

(** ** The dictionary terms: [buildInurlQuery] and the [|||] sentinel *)

Lemma buildInurlQuery_joins (dict : string) (w : World) :
  buildInurlQuery dict w = (Strings.Join (dictionaryEntries (fs w) dict) "|||", w).
Proof.
  unfold buildInurlQuery, dictionaryEntries.
  cbv beta iota zeta delta [bind fileExists readLines getFs ret].
  destruct (files (fs w) !! dict) as [content|] eqn:Ef.
  - rewrite bool_decide_true by eauto. cbv beta iota zeta. rewrite Ef.
    destruct (bool_decide (dict ∈ noRead (fs w))); reflexivity.
  - rewrite bool_decide_false by (intros [x Hx]; discriminate). cbv beta iota zeta.
    destruct (Strings.Contains dict ","); reflexivity.
Qed.

Lemma splitGo_sentinel_skip (t : string) : forall cur s,
  Strings.Contains t "|" = false ->
  Strings.splitGo "|||" 0 cur (t +:+ s) = Strings.splitGo "|||" 0 (cur +:+ t) s.
Proof.
  induction t as [|a r IH]; intros cur s H.
  - rewrite append_nil_l, append_nil_r. reflexivity.
  - apply Contains_cons in H as [Hp Hc]. rewrite append_cons.
    change (Strings.splitGo "|||" 0 cur (String a (r +:+ s)))
      with (if Strings.HasPrefix (String a (r +:+ s)) "|||"
            then cur :: Strings.splitGo "|||" (String.length "|||" - 1) EmptyString (r +:+ s)
            else Strings.splitGo "|||" O (cur +:+ String a EmptyString) (r +:+ s)).
    assert (E : Strings.HasPrefix (String a (r +:+ s)) "|||" = false).
    { unfold Strings.HasPrefix in *. cbn [String.prefix] in *.
      destruct (ascii_dec "|" a); [|reflexivity]. destruct r; discriminate. }
    rewrite E, (IH _ _ Hc), append_assoc. reflexivity.
Qed.

Lemma splitGo_sentinel (cur s : string) :
  Strings.splitGo "|||" 0 cur ("|||" +:+ s) = cur :: Strings.splitGo "|||" 0 EmptyString s.
Proof. rewrite !append_cons, append_nil_l. destruct s; reflexivity. Qed.

Lemma Split_Join_sentinel (t : string) (ts : list string) : forall cur,
  Forall (fun x => Strings.Contains x "|" = false) (t :: ts) ->
  Strings.splitGo "|||" 0 cur (Strings.Join (t :: ts) "|||") =
  (cur +:+ t) :: ts.
Proof.
  revert t. induction ts as [|t' ts IH]; intros t cur H.
  - apply Forall_cons in H as [Ht _]. unfold Strings.Join. cbn [String.concat].
    rewrite <- (append_nil_r t) at 1. rewrite (splitGo_sentinel_skip t cur _ Ht). reflexivity.
  - apply Forall_cons in H as [Ht H]. unfold Strings.Join in *.
    change (String.concat "|||" (t :: t' :: ts))
      with (t +:+ "|||" +:+ String.concat "|||" (t' :: ts)).
    rewrite (splitGo_sentinel_skip t cur _ Ht), splitGo_sentinel, (IH t' EmptyString H).
    rewrite append_nil_l. reflexivity.
Qed.

Lemma Join_nonEmpty (t : string) (ts : list string) :
  t <> EmptyString -> nonEmpty (Strings.Join (t :: ts) "|||") = true.
Proof.
  intros Ht. unfold nonEmpty, Strings.Join. apply Bool.negb_true_iff, String.eqb_neq.
  destruct t as [|a r]; [congruence|]. destruct ts; simpl; discriminate.
Qed.

Lemma cleanNonBlank_nonEmpty (l : list string) (t : string) :
  t ∈ cleanNonBlank l -> t <> EmptyString.
Proof.
  unfold cleanNonBlank. rewrite list_elem_of_filter. unfold nonEmpty.
  rewrite Bool.negb_true_iff, String.eqb_neq. tauto.
Qed.

(** X7.  The terms [dorkRun] splits out of [c.inUrl] are the terms
    [buildInurlQuery] joined into it, provided no term holds the character
    [|] of the sentinel; when [buildInurlQuery] found no term, [dorkRun]
    falls back on the dictionary argument as it was given. *)
Theorem dictTerms_of_buildInurlQuery (c : Config) (w : World) :
  Forall (fun t => Strings.Contains t "|" = false) (dictionaryEntries (fs w) (dictionary c)) ->
  let c' := set_inUrl (fst (buildInurlQuery (dictionary c) w)) c in
  dictTerms c' =
  match dictionaryEntries (fs w) (dictionary c) with
  | [] => [dictionary c]
  | terms => terms
  end.
Proof.
  intros H. cbv zeta. rewrite buildInurlQuery_joins. cbn [fst]. unfold dictTerms.
  change (inUrl (set_inUrl ?x c)) with x.
  change (dictionary (set_inUrl ?x c)) with (dictionary c).
  destruct (dictionaryEntries (fs w) (dictionary c)) as [|t ts] eqn:E.
  - reflexivity.
  - assert (Ht : t <> EmptyString).
    { unfold dictionaryEntries in E. eapply cleanNonBlank_nonEmpty. rewrite E. left. }
    rewrite (Join_nonEmpty t ts Ht). unfold Strings.Split.
    rewrite (Split_Join_sentinel t ts EmptyString H), append_nil_l. reflexivity.
Qed.

(** ** What a call adds to a list kept in the world *)

Lemma grows_ret {X A} (f : World -> list X) (P : A -> list X -> Prop) (a : A) :
  P a [] -> grows f P (ret a).
Proof. intros H w. exists []. rewrite app_nil_r. split; [reflexivity|exact H]. Qed.

Lemma grows_bind {X A B} (f : World -> list X) (P : A -> list X -> Prop)
    (Q : B -> list X -> Prop) (m : M A) (k : A -> M B) :
  grows f P m ->
  (forall a l1, P a l1 -> grows f (fun b l2 => Q b (l1 ++ l2)%list) (k a)) ->
  grows f Q (bind m k).
Proof.
  intros Hm Hk w. unfold bind. destruct (Hm w) as (l1 & E1 & H1).
  destruct (m w) as [a w1]. cbn [fst snd] in *.
  destruct (Hk a l1 H1 w1) as (l2 & E2 & H2).
  exists (l1 ++ l2)%list. rewrite E2, E1, app_assoc. split; [reflexivity|exact H2].
Qed.

Lemma grows_impl {X A} (f : World -> list X) (P Q : A -> list X -> Prop) (m : M A) :
  grows f P m -> (forall a l, P a l -> Q a l) -> grows f Q m.
Proof. intros Hm H w. destruct (Hm w) as (l & E & Hl). eauto. Qed.

(** A step that leaves the list alone, followed by any step. *)
Lemma grows_after {X A B} (f : World -> list X) (Q : B -> list X -> Prop)
    (m : M A) (k : A -> M B) :
  preserves f m -> (forall a, grows f Q (k a)) -> grows f Q (bind m k).
Proof.
  intros Hm Hk w. unfold bind. specialize (Hm w).
  destruct (m w) as [a w1]. cbn [snd] in Hm.
  destruct (Hk a w1) as (l & E & Hl). exists l. rewrite E, Hm. auto.
Qed.

(** The same, where the rest may rely on a property of the value returned. *)
Lemma grows_after_val {X A B} (f : World -> list X) (V : A -> Prop)
    (Q : B -> list X -> Prop) (m : M A) (k : A -> M B) :
  preserves f m -> (forall w, V (fst (m w))) ->
  (forall a, V a -> grows f Q (k a)) -> grows f Q (bind m k).
Proof.
  intros Hm Hv Hk w. unfold bind. specialize (Hm w). specialize (Hv w).
  destruct (m w) as [a w1]. cbn [fst snd] in *.
  destruct (Hk a Hv w1) as (l & E & Hl). exists l. rewrite E, Hm. auto.
Qed.

Lemma grows_before {X A B} (f : World -> list X) (P : A -> list X -> Prop)
    (Q : B -> list X -> Prop) (m : M A) (k : A -> M B) :
  grows f P m -> (forall a, preserves f (k a)) ->
  (forall a b l, P a l -> Q b l) -> grows f Q (bind m k).
Proof.
  intros Hm Hk H w. unfold bind. destruct (Hm w) as (l & E & Hl).
  destruct (m w) as [a w1]. cbn [fst snd] in *.
  exists l. rewrite (Hk a w1), E. split; [reflexivity|]. eapply H, Hl.
Qed.

Lemma grows_quiet {X A} (f : World -> list X) (m : M A) :
  preserves f m -> grows f (fun _ l => l = []) m.
Proof. intros H w. exists []. rewrite app_nil_r. auto. Qed.

Lemma requestsOf_app (a b : list Event) :
  requestsOf (a ++ b) = (requestsOf a ++ requestsOf b)%list.
Proof. apply flat_map_app. Qed.

Lemma emit_requests (e : Event) : requestsOf [e] = [] -> preserves requestsMade (emit e).
Proof.
  intros H w. unfold requestsMade, emit. cbn [snd trace].
  rewrite requestsOf_app, H, app_nil_r. reflexivity.
Qed.

(** Steps that touch neither the requests made nor the output streams are
    recognised by computation; [emit] needs the event looked at. *)
Ltac frame :=
  repeat first
    [ apply preserves_ret
    | apply emit_requests; reflexivity
    | solve [auto with pres]
    | solve [intros ?; reflexivity]
    | apply preserves_bind; [|intros ?]
    | match goal with
      | |- preserves _ (if ?b then _ else _) => destruct b
      | |- preserves _ (match ?x with _ => _ end) => destruct x
      end ].

Lemma ctxCancelled_requests env : preserves requestsMade (ctxCancelled env).
Proof. unfold ctxCancelled. frame. Qed.
Lemma getRandomApiKey_requests env c : preserves requestsMade (getRandomApiKey env c).
Proof. unfold getRandomApiKey. frame. Qed.
Lemma httpGetJSON_requests env u : preserves requestsMade (httpGetJSON env u).
Proof. unfold httpGetJSON. frame. Qed.
Lemma delayControl_requests c : preserves requestsMade (delayControl c).
Proof. unfold delayControl, sleep. frame. Qed.
Lemma logv_requests v s : preserves requestsMade (logv v s).
Proof. unfold logv. frame. Qed.
#[global] Hint Resolve ctxCancelled_requests getRandomApiKey_requests httpGetJSON_requests
  delayControl_requests logv_requests : pres.

Lemma filterLoop_requests env items target : preserves requestsMade (filterLoop env items target).
Proof. induction items as [|l rest IH]; cbn [filterLoop]; unfold urlDecodeLikeSed; frame. Qed.
#[global] Hint Resolve filterLoop_requests : pres.

Lemma filterLinks_requests env items target : preserves requestsMade (filterLinks env items target).
Proof. unfold filterLinks. frame. Qed.
#[global] Hint Resolve filterLinks_requests : pres.

Lemma settleAttempt_requests p tk mt c comb err :
  preserves requestsMade (settleAttempt p tk mt c comb err).
Proof. unfold settleAttempt. frame. Qed.
#[global] Hint Resolve settleAttempt_requests : pres.

(** ** The transport calls of an intent *)

Lemma emit_get_requests (k u : string) (r : HttpResult) :
  grows requestsMade (fun _ l => l = [u]) (emit (EvGet k u r)).
Proof.
  intros w. exists [u]. unfold requestsMade, emit. cbn [fst snd trace].
  rewrite requestsOf_app. auto.
Qed.

(** The request loop of one attempt calls the URLs it is given, in order,
    until it is through or sees the cancellation. *)
Lemma urlLoop_requests (env : Env) (c : Config) (k : string) (urls : list string) :
  forall comb err,
  grows requestsMade (fun _ l => l `prefix_of` urls) (urlLoop env c k urls comb err).
Proof.
  induction urls as [|u rest IH]; intros comb err; cbn [urlLoop].
  - apply grows_ret. reflexivity.
  - apply grows_after; [frame|]. intros [|].
    + apply grows_ret. apply prefix_nil.
    + apply grows_after; [frame|]. intros r.
      eapply grows_bind; [apply emit_get_requests|]. intros ? l1 Hl1. cbv beta in Hl1. subst l1.
      assert (Hrest : forall comb' err',
                grows requestsMade (fun _ l2 => ([u] ++ l2)%list `prefix_of` u :: rest)
                  (urlLoop env c k rest comb' err')).
      { intros comb' err'. eapply grows_impl; [apply IH|].
        intros ? l Hl. simpl. apply prefix_cons, Hl. }
      destruct r as [msg|gr]; [apply Hrest|].
      destruct (Error gr) as [msg|].
      * destruct (nonEmpty msg).
        -- apply grows_after; [frame|]. intros _. apply Hrest.
        -- apply grows_after; [frame|]. intros links. apply Hrest.
      * apply grows_after; [frame|]. intros links. apply Hrest.
Qed.

Lemma buildURLs_length (c : Config) (ext base : string) :
  length (buildURLs c ext base) = urlsPerAttempt c ext.
Proof.
  unfold urlsPerAttempt, buildURLs.
  repeat match goal with
         | |- context [if ?b then _ else _] => destruct b
         end; try reflexivity;
    rewrite ?length_map; try reflexivity.
  induction (filter _ _) as [|x l IH]; [reflexivity|].
  cbn [flat_map]. rewrite !length_app, IH. reflexivity.
Qed.

Lemma buildURLs_sameSettings (c c' : Config) (ext base : string) :
  sameSettings c c' -> buildURLs c' ext base = buildURLs c ext base.
Proof.
  intros (H1 & H2 & H3 & _ & H5 & _ & _ & H8 & _ & _ & H11 & H12 & H13 & _).
  unfold buildURLs, withExcl, dictTerms.
  rewrite H1, H2, H3, H5, H8, H11, H12, H13. reflexivity.
Qed.

Lemma getRandomApiKey_pool (env : Env) (c : Config) (w : World) :
  forall k, fst (getRandomApiKey env c w) = Some k -> In k (apiKeys c).
Proof.
  intros k H. destruct (getRandomApiKey env c w) as [r w'] eqn:E.
  apply getRandomApiKey_spec in E as (_ & _ & _ & _ & _ & E). apply E, H.
Qed.

Lemma attemptBody_requests (env : Env) (p idx tk mt : Z) (ext : string) (c : Config) :
  grows requestsMade
    (fun _ l => (length l <= urlsPerAttempt c ext)%nat /\ Forall (requestOf c ext idx) l)
    (attemptBody env p idx tk mt ext c).
Proof.
  unfold attemptBody.
  apply grows_after; [frame|]. intros [|]; [apply grows_ret; split; [simpl; lia|constructor]|].
  apply (grows_after_val _ (fun r => forall k, r = Some k -> In k (apiKeys c)));
    [frame|intros w k; apply getRandomApiKey_pool|].
  intros [k|] Hk; [|apply grows_after; [frame|]; intros _; apply grows_ret;
                     split; [simpl; lia|constructor]].
  destruct (String.eqb k EmptyString);
    [apply grows_after; [frame|]; intros _; apply grows_ret; split; [simpl; lia|constructor]|].
  apply grows_after; [frame|]. intros _.
  apply grows_after; [frame|]. intros _.
  eapply grows_before; [apply urlLoop_requests| |].
  - intros [[comb err]|]; frame.
  - intros ? ? l Hl. cbv beta in Hl. split.
    + apply prefix_length in Hl. rewrite buildURLs_length in Hl. exact Hl.
    + apply Forall_forall. intros u Hu. exists k. split; [apply Hk; reflexivity|].
      destruct Hl as [rest ->]. apply list_elem_of_In. apply elem_of_app. left. exact Hu.
Qed.

Lemma requestOf_sameSettings (c c1 : Config) (ext : string) (idx : Z) (u : string) :
  sameSettings c c1 -> requestOf c1 ext idx u -> requestOf c ext idx u.
Proof.
  intros Hs (k & Hk & Hu). exists k.
  rewrite (buildURLs_sameSettings c c1 ext _ Hs) in Hu.
  assert (E : apiKeys c1 = apiKeys c) by apply Hs. rewrite E in Hk. auto.
Qed.

Lemma urlsPerAttempt_sameSettings (c c1 : Config) (ext : string) :
  sameSettings c c1 -> urlsPerAttempt c1 ext = urlsPerAttempt c ext.
Proof. intros Hs. unfold urlsPerAttempt. rewrite (buildURLs_sameSettings c c1 ext _ Hs). reflexivity. Qed.

Lemma attemptLoop_requests (env : Env) (p idx mt : Z) (ext : string) (c : Config) (fuel : nat) :
  forall tk c1 w, sameSettings c c1 ->
  exists l,
    requestsMade (snd (attemptLoop env fuel p idx tk mt ext c1 w)) = (requestsMade w ++ l)%list /\
    (length l <= fuel * urlsPerAttempt c ext)%nat /\
    Forall (requestOf c ext idx) l.
Proof.
  induction fuel as [|fuel IH]; intros tk c1 w Hs; cbn [attemptLoop].
  - exists []. rewrite app_nil_r. repeat split; [simpl; lia|constructor].
  - destruct (tk <? mt)%Z.
    2:{ exists []. rewrite app_nil_r. repeat split; [simpl; lia|constructor]. }
    unfold bind at 1.
    destruct (attemptBody_requests env p idx tk mt ext c1 w) as (l1 & E1 & H1 & H2).
    destruct (attemptBody env p idx tk mt ext c1 w) as [[c2 e] w1] eqn:E.
    cbn [fst snd] in E1.
    rewrite (urlsPerAttempt_sameSettings c c1 ext Hs) in H1.
    assert (H2' : Forall (requestOf c ext idx) l1).
    { eapply Forall_impl; [exact H2|]. intros u. apply requestOf_sameSettings, Hs. }
    destruct e as [| |tk'].
    + exists l1. cbn [snd]. repeat split; [exact E1|lia|exact H2'].
    + exists l1. cbn [snd]. repeat split; [exact E1|lia|exact H2'].
    + apply attemptBody_facts in E as [tr Hf].
      assert (Hs2 : sameSettings c c2).
      { eapply sameSettings_trans; [exact Hs|]. apply (rf_settings _ _ _ _ _ (af_run _ _ _ _ _ _ _ _ _ Hf)). }
      destruct (IH tk' c2 w1 Hs2) as (l2 & E2 & H3 & H4).
      exists (l1 ++ l2)%list. rewrite E2, E1, app_assoc.
      repeat split; [rewrite length_app; lia|apply Forall_app; auto].
Qed.

Lemma pageLoop_requests (env : Env) (ext : string) (c : Config) (fuel : nat) :
  forall p c1 w, sameSettings c c1 ->
  exists l,
    requestsMade (snd (pageLoop env fuel p ext c1 w)) = (requestsMade w ++ l)%list /\
    (length l <= fuel * (length (apiKeys c) * urlsPerAttempt c ext))%nat /\
    Forall (requestFrom c ext p) l.
Proof.
  induction fuel as [|fuel IH]; intros p c1 w Hs; cbn [pageLoop].
  - exists []. rewrite app_nil_r. repeat split; [simpl; lia|constructor].
  - assert (Ep : pages c1 = pages c) by apply Hs.
    assert (Ek : apiKeys c1 = apiKeys c) by apply Hs.
    destruct (Z.ltb_spec p (pages c1)) as [Hlt|Hge].
    2:{ exists []. rewrite app_nil_r. repeat split; [simpl; lia|constructor]. }
    unfold bind at 1.
    pose proof (ctxCancelled_requests env w) as E0.
    destruct (ctxCancelled env w) as [b w0]. cbn [snd] in E0.
    destruct b.
    { exists []. rewrite app_nil_r. cbn [snd]. repeat split; [exact E0|simpl; lia|constructor]. }
    unfold bind at 1.
    pose proof (emit_requests (EvPage p) eq_refl w0) as E1.
    destruct (emit (EvPage p) w0) as [u1 w1]. cbn [snd] in E1.
    cbv zeta. unfold bind at 1. rewrite Ek.
    destruct (attemptLoop_requests env p (wrap64 (p * 10 + 1)) (Z.of_nat (length (apiKeys c)))
                ext c (length (apiKeys c)) 0 c1 w1 Hs) as (l1 & E2 & H1 & H2).
    destruct (attemptLoop env (length (apiKeys c)) p (wrap64 (p * 10 + 1)) 0
                (Z.of_nat (length (apiKeys c))) ext c1 w1) as [[c2 r] w2] eqn:E.
    cbn [snd] in E2.
    assert (H2' : Forall (requestFrom c ext p) l1).
    { eapply Forall_impl; [exact H2|]. intros u Hu. exists p. split; [lia|exact Hu]. }
    assert (E3 : requestsMade w2 = (requestsMade w ++ l1)%list) by (rewrite E2, E1, E0; reflexivity).
    destruct r; [exists l1; cbn [snd]; repeat split; [exact E3|lia|exact H2']|].
    destruct (negb (resultsFound c2));
      [exists l1; cbn [snd]; repeat split; [exact E3|lia|exact H2']|].
    apply attemptLoop_facts in E as [tr Hf].
    assert (Hs2 : sameSettings c (set_resultsFound false c2)).
    { eapply sameSettings_trans; [exact Hs|].
      eapply sameSettings_trans; [apply (rf_settings _ _ _ _ _ (lf_run _ _ _ _ _ _ _ _ Hf))|].
      unfold sameSettings. cbn. repeat split; reflexivity. }
    destruct (IH (p + 1) (set_resultsFound false c2) w2 Hs2) as (l2 & E4 & H3 & H4).
    exists (l1 ++ l2)%list. rewrite E4, E3, app_assoc.
    repeat split; [rewrite length_app; lia|].
    apply Forall_app. split; [exact H2'|].
    eapply Forall_impl; [exact H4|]. intros u (q & Hq & Hu). exists q. split; [lia|exact Hu].
Qed.

Lemma requestsOf_dorkTrace (env : Env) (c : Config) (ext : string) (w : World) (l : list string) :
  requestsMade (dorkWorld env c ext w) = (requestsMade w ++ l)%list ->
  requestsOf (dorkTrace env c ext w) = l.
Proof.
  unfold requestsMade. rewrite dorkTrace_spec, requestsOf_app. apply app_inv_head.
Qed.

Lemma dorkRun_requests (env : Env) (c : Config) (ext : string) (w : World) :
  (length (requestsOf (dorkTrace env c ext w)) <=
   Z.to_nat (effectivePages c) * (length (apiKeys c) * urlsPerAttempt c ext))%nat /\
  Forall (requestFrom (resetRun c) ext 0) (requestsOf (dorkTrace env c ext w)).
Proof.
  destruct (resetRun_facts c) as (_ & _ & Rp & Rk & _).
  destruct (pageLoop_requests env ext (resetRun c) (Z.to_nat (pages (resetRun c))) 0
              (resetRun c) w (sameSettings_refl _)) as (l & E & H1 & H2).
  assert (El : requestsOf (dorkTrace env c ext w) = l).
  { apply requestsOf_dorkTrace. unfold dorkWorld, dorkRun.
    cbv beta iota zeta delta [bind ret notFound].
    destruct (pageLoop env (Z.to_nat (pages (resetRun c))) 0 ext (resetRun c) w)
      as [[c' r] w'].
    cbn [snd] in E. destruct r; [exact E|].
    destruct (length (requestStore c') =? 0)%nat; exact E. }
  rewrite El. split; [|exact H2].
  assert (Eu : urlsPerAttempt (resetRun c) ext = urlsPerAttempt c ext).
  { unfold urlsPerAttempt, resetRun, buildURLs, withExcl, dictTerms.
    destruct (pages _ =? 0)%Z; reflexivity. }
  rewrite Rp, Rk, Eu in H1. exact H1.
Qed.

Lemma urlsPerAttempt_bound (c : Config) (ext : string) :
  (urlsPerAttempt c ext <= Nat.max 8 (3 * length (dictTerms c)))%nat.
Proof.
  unfold urlsPerAttempt, buildURLs.
  repeat match goal with
         | |- context [if ?b then _ else _] => destruct b
         end; cbn [length flat_map map app]; try lia.
  - set (terms := filter (fun x => nonEmpty x = true) (map Strings.TrimSpace (dictTerms c))).
    assert (Hl : (length terms <= length (dictTerms c))%nat).
    { subst terms. etransitivity; [apply length_filter|]. rewrite length_map. reflexivity. }
    assert (Hf : forall l : list string,
              length (flat_map (fun x =>
                [ buildOne EmptyString (withExcl c (inurl ("site:*." +:+ target c) x));
                  buildOne EmptyString (withExcl c (inurl ("site:*.*." +:+ target c) x));
                  buildOne EmptyString (withExcl c (inurl ("site:*.*.*." +:+ target c) x)) ]) l)
              = (3 * length l)%nat).
    { induction l as [|x l IH]; [reflexivity|]. cbn [flat_map length app]. rewrite IH. lia. }
    rewrite Hf. lia.
  - rewrite length_map.
    etransitivity; [apply length_filter|]. rewrite length_map. lia.
Qed.

(** X8.  An intent makes at most [pages * keys * n] transport calls, where
    [pages] is the page count in force (10 when none is given), [keys] the
    size of the pool and [n] the number of queries one attempt builds for the
    mode; and [n] is at most 8, or three per dictionary term. *)
Theorem dorkRun_request_budget (env : Env) (c : Config) (ext : string) (w : World) :
  (length (requestsOf (dorkTrace env c ext w)) <=
   Z.to_nat (effectivePages c) * (length (apiKeys c) * urlsPerAttempt c ext))%nat /\
  (urlsPerAttempt c ext <= Nat.max 8 (3 * length (dictTerms c)))%nat.
Proof.
  split; [apply dorkRun_requests|apply urlsPerAttempt_bound].
Qed.

(** X9.  Every transport call of an intent goes to the search endpoint with
    a credential of the pool, the fixed engine identifier, the start index
    [10 * p + 1] of a page [p] below the page count in force, and a query
    text that ends with the exclusion clause when one is configured. *)
Theorem dorkRun_request_form (env : Env) (c : Config) (ext : string) (w : World) (u : string) :
  In u (requestsOf (dorkTrace env c ext w)) ->
  exists k p q,
    In k (apiKeys c) /\ 0 <= p < effectivePages c /\
    u = buildOne (baseURL k (wrap64 (p * 10 + 1))) (withExcl c q).
Proof.
  intros Hu. destruct (dorkRun_requests env c ext w) as [_ H].
  rewrite Forall_forall in H. apply list_elem_of_In, H in Hu as (p & Hp & k & Hk & Hin).
  destruct (resetRun_facts c) as (_ & _ & Rp & Rk & _).
  rewrite Rp in Hp. rewrite Rk in Hk.
  destruct (buildURLs_withExcl _ _ _ _ Hin) as [q ->].
  exists k, p, q. repeat split; try tauto.
  f_equal. unfold withExcl, resetRun. destruct (pages _ =? 0)%Z; reflexivity.
Qed.

(** ** What an intent prints *)

Lemma filterLoop_stderr env items target : preserves stderr (filterLoop env items target).
Proof. induction items as [|l rest IH]; cbn [filterLoop]; unfold urlDecodeLikeSed; frame. Qed.
Lemma filterLoop_stdout env items target : preserves stdout (filterLoop env items target).
Proof. induction items as [|l rest IH]; cbn [filterLoop]; unfold urlDecodeLikeSed; frame. Qed.
#[global] Hint Resolve filterLoop_stderr filterLoop_stdout : pres.

Lemma urlLoop_stderr env c k urls :
  forall comb err, preserves stderr (urlLoop env c k urls comb err).
Proof.
  induction urls as [|u rest IH]; intros comb err; cbn [urlLoop];
    unfold ctxCancelled, httpGetJSON, filterLinks; frame.
Qed.
Lemma urlLoop_stdout env c k urls :
  forall comb err, preserves stdout (urlLoop env c k urls comb err).
Proof.
  induction urls as [|u rest IH]; intros comb err; cbn [urlLoop];
    unfold ctxCancelled, httpGetJSON, filterLinks; frame.
Qed.
#[global] Hint Resolve urlLoop_stderr urlLoop_stdout : pres.

Lemma settleAttempt_stderr p tk mt c comb err :
  preserves stderr (settleAttempt p tk mt c comb err).
Proof. unfold settleAttempt, logv, delayControl, sleep. frame. Qed.
#[global] Hint Resolve settleAttempt_stderr : pres.

Lemma logErr_stderr (s : string) : grows stderr (fun _ l => l = [s]) (logErr s).
Proof. intros w. exists [s]. auto. Qed.

Lemma attemptBody_stderr (env : Env) (p idx tk mt : Z) (ext : string) (c : Config) :
  grows stderr
    (saidAtExit (fun r : Config * AttemptEnd =>
                   match snd r with Return => true | _ => false end))
    (attemptBody env p idx tk mt ext c).
Proof.
  assert (Hquit : grows stderr
            (saidAtExit (fun r : Config * AttemptEnd =>
                           match snd r with Return => true | _ => false end))
            (bind (logErr "No valid API keys remaining.") (fun _ => ret (c, Return)))).
  { eapply grows_bind; [apply logErr_stderr|]. intros ? l1 Hl1. cbv beta in Hl1. subst l1.
    apply grows_ret. right. split; reflexivity. }
  unfold attemptBody.
  apply grows_after; [unfold ctxCancelled; frame|].
  intros [|]; [apply grows_ret; left; reflexivity|].
  apply grows_after; [unfold getRandomApiKey; frame|].
  intros [k|]; [|exact Hquit].
  destruct (String.eqb k EmptyString); [exact Hquit|].
  apply grows_after; [unfold logv; frame|]. intros _.
  apply grows_after; [frame|]. intros _.
  apply grows_after; [frame|].
  intros [[comb err]|]; [|apply grows_ret; left; reflexivity].
  eapply grows_impl; [apply grows_quiet, settleAttempt_stderr|].
  intros a l ->. left. reflexivity.
Qed.

Lemma attemptLoop_stderr (env : Env) (p idx mt : Z) (ext : string) (fuel : nat) :
  forall tk c,
  grows stderr (saidAtExit (fun r : Config * bool => snd r))
    (attemptLoop env fuel p idx tk mt ext c).
Proof.
  induction fuel as [|fuel IH]; intros tk c; cbn [attemptLoop].
  - apply grows_ret. left. reflexivity.
  - destruct (tk <? mt)%Z; [|apply grows_ret; left; reflexivity].
    eapply grows_bind; [apply attemptBody_stderr|].
    intros [c' e] l1 [->|[He ->]].
    + destruct e; [apply grows_ret; left; reflexivity..|]. apply IH.
    + destruct e; try discriminate. apply grows_ret. right. split; reflexivity.
Qed.

Lemma pageLoop_stderr (env : Env) (ext : string) (fuel : nat) :
  forall p c,
  grows stderr (saidAtExit (fun r : Config * bool => snd r)) (pageLoop env fuel p ext c).
Proof.
  induction fuel as [|fuel IH]; intros p c; cbn [pageLoop].
  - apply grows_ret. left. reflexivity.
  - destruct (p <? pages c)%Z; [|apply grows_ret; left; reflexivity].
    apply grows_after; [unfold ctxCancelled; frame|].
    intros [|]; [apply grows_ret; left; reflexivity|].
    apply grows_after; [frame|]. intros _. cbv zeta.
    eapply grows_bind; [apply attemptLoop_stderr|].
    intros [c' r] l1 [->|[Hr ->]].
    + destruct r; [apply grows_ret; left; reflexivity|].
      destruct (negb (resultsFound c')); [apply grows_ret; left; reflexivity|]. apply IH.
    + cbn [snd] in Hr. subst r. apply grows_ret. right. split; reflexivity.
Qed.

Lemma settleAttempt_stdout p tk mt c comb err :
  verbose c = false -> preserves stdout (settleAttempt p tk mt c comb err).
Proof.
  intros H. unfold settleAttempt, logv, delayControl, sleep. cbv zeta.
  cbn [verbose set_requestStore set_resultsFound set_noResultCounter set_requestCounter
       set_dynamicDelay]. rewrite H. frame.
Qed.

Lemma attemptBody_stdout env p idx tk mt ext c :
  verbose c = false -> preserves stdout (attemptBody env p idx tk mt ext c).
Proof.
  intros H. pose proof (settleAttempt_stdout p tk mt c) as Hs.
  unfold attemptBody, logv, ctxCancelled, getRandomApiKey. rewrite H. frame; apply Hs, H.
Qed.

Lemma attemptLoop_stdout (env : Env) (p idx mt : Z) (ext : string) (fuel : nat) :
  forall tk c w, verbose c = false ->
  stdout (snd (attemptLoop env fuel p idx tk mt ext c w)) = stdout w.
Proof.
  induction fuel as [|fuel IH]; intros tk c w H; cbn [attemptLoop]; [reflexivity|].
  destruct (tk <? mt)%Z; [|reflexivity].
  unfold bind at 1. pose proof (attemptBody_stdout env p idx tk mt ext c H w) as E1.
  destruct (attemptBody env p idx tk mt ext c w) as [[c2 e] w1] eqn:E. cbn [snd] in E1.
  destruct e as [| |tk']; [exact E1..|].
  apply attemptBody_facts in E as [tr Hf].
  assert (Hv : verbose c2 = false).
  { rewrite <- H. apply (rf_settings _ _ _ _ _ (af_run _ _ _ _ _ _ _ _ _ Hf)). }
  rewrite (IH tk' c2 w1 Hv). exact E1.
Qed.

Lemma pageLoop_stdout (env : Env) (ext : string) (fuel : nat) :
  forall p c w, verbose c = false ->
  stdout (snd (pageLoop env fuel p ext c w)) = stdout w.
Proof.
  induction fuel as [|fuel IH]; intros p c w H; cbn [pageLoop]; [reflexivity|].
  destruct (p <? pages c)%Z; [|reflexivity].
  cbv beta iota zeta delta [bind ctxCancelled nextTick emit ret]. cbn [fst snd tick].
  destruct (ctxErr env (tick w)); [reflexivity|].
  match goal with
  | |- context [attemptLoop env ?f p ?i 0 ?m ext c ?w0] =>
      pose proof (attemptLoop_stdout env p i m ext f 0 c w0 H) as E1;
      destruct (attemptLoop env f p i 0 m ext c w0) as [[c2 r] w2] eqn:E
  end.
  cbn [snd stdout] in E1.
  destruct r; [exact E1|].
  destruct (negb (resultsFound c2)); [exact E1|].
  apply attemptLoop_facts in E as [tr Hf].
  assert (Hv : verbose (set_resultsFound false c2) = false).
  { cbn [verbose set_resultsFound]. rewrite <- H.
    apply (rf_settings _ _ _ _ _ (lf_run _ _ _ _ _ _ _ _ Hf)). }
  rewrite (IH (p + 1) _ w2 Hv). exact E1.
Qed.

Lemma dorkRun_fs (env : Env) (c : Config) (ext : string) (w : World) :
  fs (snd (dorkRun env c ext w)) = fs w.
Proof.
  destruct (dorkRun_facts env c ext w) as [H _].
  apply (rf_fs _ _ _ _ _ (pf_run _ _ _ _ _ _ H)).
Qed.

Lemma dorkRun_stdout (env : Env) (c : Config) (ext : string) (w : World) :
  verbose c = false -> stdout (snd (dorkRun env c ext w)) = stdout w.
Proof.
  intros Hv. unfold dorkRun. cbv beta iota zeta delta [bind ret notFound].
  assert (Hv' : verbose (resetRun c) = false).
  { unfold resetRun. destruct (pages _ =? 0)%Z; exact Hv. }
  pose proof (pageLoop_stdout env ext (Z.to_nat (pages (resetRun c))) 0 (resetRun c) w Hv')
    as E.
  destruct (pageLoop env (Z.to_nat (pages (resetRun c))) 0 ext (resetRun c) w)
    as [[c' r] w']. cbn [snd] in E.
  destruct r; [exact E|]. destruct (length (requestStore c') =? 0)%nat; exact E.
Qed.

Lemma dorkRun_stderr (env : Env) (c : Config) (ext : string) (w : World) :
  stderr (snd (dorkRun env c ext w)) = stderr w \/
  stderr (snd (dorkRun env c ext w)) = (stderr w ++ [noKeysMessage])%list.
Proof.
  unfold dorkRun. cbv beta iota zeta delta [bind ret notFound].
  destruct (pageLoop_stderr env ext (Z.to_nat (pages (resetRun c))) 0 (resetRun c) w)
    as (l & E & Hl).
  destruct (pageLoop env (Z.to_nat (pages (resetRun c))) 0 ext (resetRun c) w)
    as [[c' r] w']. cbn [fst snd] in *.
  assert (E' : stderr w' = stderr w \/ stderr w' = (stderr w ++ [noKeysMessage])%list).
  { destruct Hl as [->|[_ ->]]; [left; rewrite E, app_nil_r; reflexivity|right; exact E]. }
  destruct r; [exact E'|]. destruct (length (requestStore c') =? 0)%nat; exact E'.
Qed.

(** X10.  An intent leaves the files as they are; unless the verbose flag is
    set it prints nothing on standard output; and on standard error it
    prints nothing or, once, that no valid API key remains. *)
Theorem dorkRun_side_effects (env : Env) (c : Config) (ext : string) (w : World) :
  let w' := dorkWorld env c ext w in
  fs w' = fs w /\
  (verbose c = false -> stdout w' = stdout w) /\
  (stderr w' = stderr w \/ stderr w' = (stderr w ++ [noKeysMessage])%list).
Proof.
  cbv zeta. unfold dorkWorld. split; [apply dorkRun_fs|].
  split; [apply dorkRun_stdout|apply dorkRun_stderr].
Qed.

(** ** An intent with no credential left *)

Lemma getRandomApiKey_none (env : Env) (c : Config) (w : World) :
  (forall k, In k (apiKeys c) -> k ∈ exAt (exhaustedKeys c) w) ->
  getRandomApiKey env c w = (None, w).
Proof.
  intros H. unfold getRandomApiKey. cbv beta iota zeta delta [bind ret mapAt].
  fold (exAt (exhaustedKeys c) w).
  assert (E : filter (fun k => k ∉ exAt (exhaustedKeys c) w) (apiKeys c) = []).
  { induction (apiKeys c) as [|k l IH]; [reflexivity|].
    rewrite filter_cons_False by (intros Hn; apply Hn, H; left; reflexivity).
    apply IH. intros x Hx. apply H. right. exact Hx. }
  rewrite E. reflexivity.
Qed.

Lemma drop_own_trace (tr l : list Event) : drop (length tr) (tr ++ l) = l.
Proof. apply drop_app_length. Qed.

Lemma drop_whole_trace (tr : list Event) : drop (length tr) tr = [].
Proof. apply drop_all. Qed.

Ltac run_step :=
  cbv beta iota zeta delta [bind ret ctxCancelled nextTick emit notFound logErr];
  cbn [fst snd tick trace stderr].

Lemma dorkRun_exhausted_run (env : Env) (c : Config) (ext : string) (w : World) :
  (forall k, In k (apiKeys c) -> k ∈ exAt (exhaustedKeys c) w) ->
  exists c' w' tr,
    dorkRun env c ext w = (([], c'), w') /\ trace w' = (trace w ++ tr)%list /\
    attemptKeys tr = [] /\ requestsOf tr = [] /\
    (apiKeys c = [] -> stderr w' = stderr w) /\
    (apiKeys c <> [] -> 0 < effectivePages c ->
     ctxErr env (tick w) = false -> ctxErr env (S (tick w)) = false ->
     stderr w' = (stderr w ++ [noKeysMessage])%list).
Proof.
  intros Hall.
  destruct (resetRun_facts c) as (R1 & R2 & Rp & Rk & Rl & _).
  unfold dorkRun. cbv zeta.
  set (c0 := resetRun c) in *.
  destruct (Z.to_nat (pages c0)) as [|n] eqn:En; cbn [pageLoop].
  { run_step. rewrite R1. cbn [length Nat.eqb]. eexists _, _, []. split; [reflexivity|].
    rewrite app_nil_r. repeat split; try reflexivity. intros _ Hp. rewrite <- Rp in Hp. lia. }
  destruct (Z.ltb_spec 0 (pages c0)) as [Hlt|Hge]; [|lia].
  run_step.
  destruct (ctxErr env (tick w)) eqn:Ec0.
  { rewrite R1. eexists _, _, [EvCheck true]. split; [reflexivity|]. cbn [trace stderr].
    repeat split; try reflexivity. discriminate. }
  rewrite Rk.
  destruct (apiKeys c) as [|k0 ks] eqn:Ek.
  { cbn [length attemptLoop]. run_step. rewrite R2. cbn [negb]. rewrite R1. cbn [length Nat.eqb].
    eexists _, _, [EvCheck false; EvPage 0]. split; [reflexivity|]. cbn [trace stderr].
    rewrite <- app_assoc. repeat split; try reflexivity. congruence. }
  cbn [length attemptLoop]. rewrite (proj2 (Z.ltb_lt 0 _)) by lia.
  unfold attemptBody. run_step.
  destruct (ctxErr env (S (tick w))) eqn:Ec1.
  { rewrite R1. eexists _, _, [EvCheck false; EvPage 0; EvCheck true].
    split; [reflexivity|]. cbn [trace stderr].
    rewrite <- !app_assoc. repeat split; try reflexivity; try discriminate. }
  rewrite getRandomApiKey_none.
  2:{ intros k Hk. unfold exAt. cbn [maps]. rewrite Rl. apply Hall. rewrite <- Rk. exact Hk. }
  run_step. rewrite R1.
  eexists _, _, [EvCheck false; EvPage 0; EvCheck false]. split; [reflexivity|].
  cbn [trace stderr]. rewrite <- !app_assoc.
  repeat split; try reflexivity; try discriminate.
Qed.

(** X11.  When every credential of the pool is in the exhausted-key map as
    the intent begins, the intent makes no attempt and no transport call and
    returns no link.  With a pool that is not empty it says so on standard
    error (unless the page count is not positive or a check point sees the
    cancellation first); with an empty pool it ends without a word. *)
Theorem dorkRun_pool_exhausted (env : Env) (c : Config) (ext : string) (w : World) :
  (forall k, In k (apiKeys c) -> k ∈ exAt (exhaustedKeys c) w) ->
  dorkResult env c ext w = [] /\
  attemptKeys (dorkTrace env c ext w) = [] /\
  requestsOf (dorkTrace env c ext w) = [] /\
  (apiKeys c = [] -> stderr (dorkWorld env c ext w) = stderr w) /\
  (apiKeys c <> [] -> 0 < effectivePages c ->
   ctxErr env (tick w) = false -> ctxErr env (S (tick w)) = false ->
   stderr (dorkWorld env c ext w) = (stderr w ++ [noKeysMessage])%list).
Proof.
  intros Hall.
  destruct (dorkRun_exhausted_run env c ext w Hall)
    as (c' & w' & tr & E & Ht & H1 & H2 & H3 & H4).
  unfold dorkResult, dorkTrace, dorkWorld. rewrite E. cbn [fst snd].
  rewrite Ht, drop_own_trace. auto.
Qed.

(** ** The targets of a domains file *)

Lemma targetNames_app (a b : list Event) :
  targetNames (a ++ b) = (targetNames a ++ targetNames b)%list.
Proof. apply flat_map_app. Qed.

Lemma targetNames_length (tr : list Event) :
  length (targetNames tr) = length (targetsOf tr).
Proof.
  induction tr as [|e tr IH]; [reflexivity|].
  change (e :: tr) with ([e] ++ tr)%list.
  rewrite targetNames_app, targetsOf_app, !length_app, IH. destruct e; reflexivity.
Qed.

Lemma emit_names (e : Event) : targetNames [e] = [] -> preserves ranNames (emit e).
Proof.
  intros H w. unfold ranNames, emit. wsimpl. rewrite targetNames_app, H, app_nil_r. reflexivity.
Qed.

Lemma nextTick_names : preserves ranNames nextTick. Proof. prim. Qed.
Lemma println_names s : preserves ranNames (println s). Proof. prim. Qed.
Lemma printAll_names l : preserves ranNames (printAll l). Proof. prim. Qed.
Lemma logErr_names s : preserves ranNames (logErr s). Proof. prim. Qed.
Lemma getFs_names : preserves ranNames getFs. Proof. prim. Qed.
Lemma putFs_names f : preserves ranNames (putFs f). Proof. prim. Qed.
Lemma mapAt_names l : preserves ranNames (mapAt l). Proof. prim. Qed.
Lemma mapAdd_names l k : preserves ranNames (mapAdd l k). Proof. prim. Qed.
Lemma notFound_names c : preserves ranNames (notFound c). Proof. prim. Qed.

#[global] Hint Resolve nextTick_names println_names printAll_names logErr_names getFs_names putFs_names mapAt_names mapAdd_names notFound_names : pres.
#[global] Hint Extern 1 (preserves ranNames (emit _)) =>
  apply emit_names; reflexivity : pres.

Lemma logv_names v s : preserves ranNames (logv v s).
Proof. unfold logv. pres. Qed.
Lemma sleep_names d : preserves ranNames (sleep d).
Proof. unfold sleep. pres. Qed.
#[global] Hint Resolve logv_names sleep_names : pres.

Lemma ctxCancelled_names env : preserves ranNames (ctxCancelled env).
Proof. unfold ctxCancelled. pres. Qed.
Lemma fileExists_names p : preserves ranNames (fileExists p).
Proof. unfold fileExists. pres. Qed.
Lemma readLines_names p : preserves ranNames (readLines p).
Proof. unfold readLines. pres. Qed.
#[global] Hint Resolve ctxCancelled_names fileExists_names readLines_names : pres.

Lemma outputOrPrintUnique_names urls p : preserves ranNames (outputOrPrintUnique urls p).
Proof. unfold outputOrPrintUnique. pres. Qed.
#[global] Hint Resolve outputOrPrintUnique_names : pres.

Lemma getRandomApiKey_names env c : preserves ranNames (getRandomApiKey env c).
Proof. unfold getRandomApiKey. pres. Qed.
Lemma buildInurlQuery_names d : preserves ranNames (buildInurlQuery d).
Proof. unfold buildInurlQuery. pres. Qed.
Lemma buildContentsQuery_names d : preserves ranNames (buildContentsQuery d).
Proof. unfold buildContentsQuery. pres. Qed.
Lemma urlDecodeLikeSed_names env s : preserves ranNames (urlDecodeLikeSed env s).
Proof. unfold urlDecodeLikeSed. pres. Qed.
Lemma delayControl_names c : preserves ranNames (delayControl c).
Proof. unfold delayControl. pres. Qed.
Lemma httpGetJSON_names env u : preserves ranNames (httpGetJSON env u).
Proof. unfold httpGetJSON. pres. Qed.
#[global] Hint Resolve getRandomApiKey_names buildInurlQuery_names buildContentsQuery_names urlDecodeLikeSed_names delayControl_names httpGetJSON_names : pres.

Lemma filterLoop_names env items target : preserves ranNames (filterLoop env items target).
Proof. induction items as [|l rest IH]; cbn [filterLoop]; pres. Qed.
#[global] Hint Resolve filterLoop_names : pres.

Lemma filterLinks_names env items target : preserves ranNames (filterLinks env items target).
Proof. unfold filterLinks. pres. Qed.
#[global] Hint Resolve filterLinks_names : pres.

Lemma urlLoop_names env c k urls :
  forall comb err, preserves ranNames (urlLoop env c k urls comb err).
Proof. induction urls as [|u rest IH]; intros comb err; cbn [urlLoop]; pres. Qed.
#[global] Hint Resolve urlLoop_names : pres.

Lemma settleAttempt_names p tk mt c comb err :
  preserves ranNames (settleAttempt p tk mt c comb err).
Proof. unfold settleAttempt. pres. Qed.
#[global] Hint Resolve settleAttempt_names : pres.

Lemma attemptBody_names env p s tk mt ext c :
  preserves ranNames (attemptBody env p s tk mt ext c).
Proof. unfold attemptBody. pres. Qed.
#[global] Hint Resolve attemptBody_names : pres.

Lemma attemptLoop_names env p s mt ext fuel :
  forall tk c, preserves ranNames (attemptLoop env fuel p s tk mt ext c).
Proof. induction fuel as [|fuel IH]; intros tk c; cbn [attemptLoop]; pres. Qed.
#[global] Hint Resolve attemptLoop_names : pres.

Lemma pageLoop_names env ext fuel :
  forall p c, preserves ranNames (pageLoop env fuel p ext c).
Proof. induction fuel as [|fuel IH]; intros p c; cbn [pageLoop]; pres. Qed.
#[global] Hint Resolve pageLoop_names : pres.

Lemma dorkRun_names env c ext : preserves ranNames (dorkRun env c ext).
Proof. unfold dorkRun. pres. Qed.
#[global] Hint Resolve dorkRun_names : pres.

Lemma dictionaryAttack_names env c : preserves ranNames (dictionaryAttack env c).
Proof. unfold dictionaryAttack, printTarget. pres. Qed.

Lemma extensionList_names c : preserves ranNames (extensionList c).
Proof. unfold extensionList. pres. Qed.
#[global] Hint Resolve extensionList_names : pres.

Lemma extensionLoop_names env exts :
  forall all c, preserves ranNames (extensionLoop env exts all c).
Proof. induction exts as [|e rest IH]; intros all c; cbn [extensionLoop]; pres. Qed.
#[global] Hint Resolve extensionLoop_names : pres.

Lemma extensionAttack_names env c : preserves ranNames (extensionAttack env c).
Proof. unfold extensionAttack. pres. Qed.

Lemma subdomainAttack_names env c : preserves ranNames (subdomainAttack env c).
Proof. unfold subdomainAttack, printTarget. pres. Qed.

Lemma contentsLoop_names env lines : forall c, preserves ranNames (contentsLoop env lines c).
Proof. induction lines as [|l rest IH]; intros c; cbn [contentsLoop]; pres. Qed.
#[global] Hint Resolve contentsLoop_names : pres.

Lemma contentsAttack_names env c : preserves ranNames (contentsAttack env c).
Proof. unfold contentsAttack, printTarget. pres. Qed.
#[global] Hint Resolve dictionaryAttack_names extensionAttack_names subdomainAttack_names contentsAttack_names : pres.

Lemma observeTarget_one {A} (c2 : Config) (run : M (A * Config)) :
  preserves ranNames run ->
  grows ranNames (fun _ l => l = [target c2]) (observeTarget c2 run).
Proof.
  intros Hr w. unfold observeTarget. cbv beta iota zeta delta [bind ret mapAt emit].
  specialize (Hr w). destruct (run w) as [[a c2'] w1]. cbn [fst snd] in *.
  exists [target c2]. unfold ranNames in *. wsimpl.
  rewrite targetNames_app, Hr. auto.
Qed.

Lemma ctxCancelled_never (env : Env) (w : World) :
  (forall t, ctxErr env t = false) -> fst (ctxCancelled env w) = false.
Proof. intros H. unfold ctxCancelled. cbv. apply H. Qed.

Lemma targetBody_outcome (env : Env) (c2 : Config) :
  grows ranNames (targetOutcome env c2) (targetBody env c2).
Proof.
  assert (Hend : forall l : list string,
            grows ranNames (fun b l2 => (l ++ l2)%list = l /\
                                        ((forall t, ctxErr env t = false) -> b = None))
              (bind (ctxCancelled env)
                 (fun cancelled => if cancelled then ret (Some ctxCanceledError)
                                   else ret None))).
  { intros l.
    apply (grows_after_val _ (fun b => (forall t, ctxErr env t = false) -> b = false));
      [pres|intros w Hn; apply ctxCancelled_never, Hn|].
    intros b Hb. destruct b; apply grows_ret; rewrite app_nil_r;
      (split; [reflexivity|]); [|reflexivity].
    intros Hn. specialize (Hb Hn). discriminate. }
  unfold targetBody, targetOutcome, modeSet in *.
  destruct (nonEmpty (dork c2)) eqn:Ed.
  - cbn [orb]. eapply grows_bind; [apply observeTarget_one; pres|].
    intros res l Hl. cbv beta in Hl. subst l.
    apply (grows_after_val _ (fun b => (forall t, ctxErr env t = false) -> b = false));
      [pres|intros w Hn; apply ctxCancelled_never, Hn|].
    intros b Hb. destruct b.
    + apply grows_ret. rewrite app_nil_r. split; [reflexivity|].
      intros Hn. specialize (Hb Hn). discriminate.
    + destruct (length res =? 0)%nat.
      * apply grows_after; [pres|]. intros _. apply grows_ret. rewrite app_nil_r. auto.
      * apply grows_after; [pres|]. intros _. apply grows_ret. rewrite app_nil_r. auto.
  - cbv zeta. cbn [orb].
    destruct (nonEmpty (extension c2)); [|destruct (nonEmpty (dictionary c2));
      [|destruct (subdomainMode c2); [|destruct (nonEmpty (contents c2))]]]; cbn [orb].
    1-4: eapply grows_bind; [apply observeTarget_one; pres|];
         intros ? l Hl; cbv beta in Hl; subst l;
         eapply grows_impl; [apply (Hend [target c2])|];
         intros b l2 [E Hb]; cbv beta; rewrite E; auto.
    apply grows_ret. auto.
Qed.

Lemma modeSet_set_target (t : string) (c : Config) : modeSet (set_target t c) = modeSet c.
Proof. reflexivity. Qed.

(** The loop runs the lines that are not blank, trimmed, in order, as far as
    it gets. *)
Lemma domainsLoop_outcome (env : Env) (c : Config) (lines : list string) :
  grows ranNames
    (fun r l =>
       (modeSet c = false -> l = []) /\
       (modeSet c = true -> l `prefix_of` trimmedNonBlank lines) /\
       (modeSet c = true -> (forall t, ctxErr env t = false) ->
        r = None /\ l = trimmedNonBlank lines))
    (domainsLoop env lines c).
Proof.
  induction lines as [|line rest IH]; cbn [domainsLoop].
  - apply grows_ret. split; [reflexivity|]. split; [intros _; apply prefix_nil|]. auto.
  - assert (Et : trimmedNonBlank (line :: rest) =
                 if String.eqb (Strings.TrimSpace line) EmptyString
                 then trimmedNonBlank rest
                 else Strings.TrimSpace line :: trimmedNonBlank rest).
    { unfold trimmedNonBlank, nonEmpty. cbn [map]. rewrite filter_cons.
      destruct (String.eqb (Strings.TrimSpace line) EmptyString); cbn [negb];
        [rewrite decide_False by discriminate|rewrite decide_True by reflexivity];
        reflexivity. }
    rewrite Et.
    apply (grows_after_val _ (fun b => (forall t, ctxErr env t = false) -> b = false));
      [pres|intros w Hn; apply ctxCancelled_never, Hn|].
    intros b Hb. destruct b.
    { apply grows_ret. split; [reflexivity|]. split; [intros _; apply prefix_nil|].
      intros _ Hn. specialize (Hb Hn). discriminate. }
    cbv zeta. destruct (String.eqb (Strings.TrimSpace line) EmptyString); [exact IH|].
    eapply grows_bind; [apply targetBody_outcome|].
    intros err l1 (H1 & H2). rewrite modeSet_set_target in H1. cbn [target set_target] in H1.
    destruct err as [e|].
    + apply grows_ret. rewrite app_nil_r. subst l1.
      destruct (modeSet c).
      * split; [intros H; discriminate H|]. split; [intros _; apply prefix_cons, prefix_nil|].
        intros _ Hn. specialize (H2 Hn). discriminate.
      * split; [reflexivity|]. split; intros H; discriminate H.
    + eapply grows_impl; [apply IH|]. intros r l2 (H4 & H5 & H6). cbv beta. subst l1.
      destruct (modeSet c).
      * split; [intros H; discriminate H|]. split.
        -- intros _. apply prefix_cons, H5. reflexivity.
        -- intros _ Hn. destruct (H6 eq_refl Hn) as [-> ->]. auto.
      * split; [intros _; apply H4; reflexivity|]. split; intros H; discriminate H.
Qed.

Lemma linesOf_nonblank (content : string) :
  trimmedNonBlank (linesOf content) = linesOf content.
Proof. unfold linesOf. apply trimmedNonBlank_idem. Qed.

(** X12.  [readDomainsFile] runs the lines of the domains file that are not
    blank as targets, trimmed and in file order: as far as it gets in any
    case, and all of them, returning no error, when no check point sees a
    cancellation.  When the file is missing or cannot be read to its end it
    runs no target, changes nothing and returns the [file not found] error;
    with no mode configured it runs no target either. *)
Theorem readDomainsFile_targets (env : Env) (c : Config) (w : World) :
  let names := domainsNames env c w in
  length (domainsTargets env c w) = length names /\
  (modeSet c = false -> names = []) /\
  (~ readable (fs w) (domainsFile c) ->
   readDomainsFile env c w =
     (Some ("[!] Error, file not found: " +:+ domainsFile c), w)) /\
  (forall content,
     files (fs w) !! domainsFile c = Some content ->
     domainsFile c ∉ noRead (fs w) -> scanOk content = true -> modeSet c = true ->
     names `prefix_of` linesOf content /\
     ((forall t, ctxErr env t = false) ->
      fst (readDomainsFile env c w) = None /\ names = linesOf content)).
Proof.
  cbv zeta.
  assert (Hlen : length (domainsTargets env c w) = length (domainsNames env c w)).
  { unfold domainsTargets, domainsNames, ranTargets, ranNames.
    rewrite !length_drop, !targetNames_length. reflexivity. }
  split; [exact Hlen|]. clear Hlen.
  unfold domainsNames, readDomainsFile, readable.
  cbv beta iota zeta delta [bind ret readLines getFs].
  destruct (files (fs w) !! domainsFile c) as [content|] eqn:Ef.
  2:{ cbn [negb fst snd]. rewrite drop_all. split; [reflexivity|].
      split; [reflexivity|]. intros x Hx. discriminate Hx. }
  case_bool_decide as Hr.
  { cbn [negb fst snd]. rewrite drop_all. split; [reflexivity|].
    split; [reflexivity|]. intros x _ Hn. tauto. }
  destruct (scanOk content) eqn:Es; cbn [negb].
  2:{ cbn [fst snd]. rewrite drop_all. split; [reflexivity|].
      split; [reflexivity|]. intros x [= <-] _ Hx. congruence. }
  destruct (domainsLoop_outcome env c (linesOf content) w) as (l & E & H1 & H2 & H3).
  rewrite E, drop_app_length. rewrite linesOf_nonblank in H2, H3.
  split; [exact H1|]. split.
  - intros Hn. exfalso. apply Hn. exists content. auto.
  - intros x [= <-] _ _ Hm. split; [apply H2, Hm|]. intros Hn. apply (H3 Hm Hn).
Qed.

Lemma observeTarget_frame {A} (c2 : Config) (run : M (A * Config)) (w : World) :
  fs (snd (observeTarget c2 run w)) = fs (snd (run w)) /\
  stdout (snd (observeTarget c2 run w)) = stdout (snd (run w)) /\
  tick (snd (observeTarget c2 run w)) = tick (snd (run w)).
Proof.
  unfold observeTarget. cbv beta iota zeta delta [bind ret mapAt emit].
  destruct (run w) as [[a c2'] w1]. cbn [fst snd fs stdout tick]. auto.
Qed.

(** X13.  In a domains-file run in custom-query mode, when the check that
    follows the intent of a target sees the cancellation, the run ends with
    the context's error, and the links the intent returned are neither
    printed nor written to a file. *)
Theorem targetBody_cancel_drops_links (env : Env) (c2 : Config) (w : World) :
  nonEmpty (dork c2) = true ->
  ctxErr env (tick (dorkWorld env c2 EmptyString w)) = true ->
  fst (targetBody env c2 w) = Some ctxCanceledError /\
  fs (snd (targetBody env c2 w)) = fs w /\
  (verbose c2 = false -> stdout (snd (targetBody env c2 w)) = stdout w).
Proof.
  intros Hd Hc. unfold dorkWorld in Hc.
  destruct (observeTarget_frame c2 (dorkRun env c2 EmptyString) w) as (F1 & F2 & F3).
  rewrite dorkRun_fs in F1. rewrite <- F3 in Hc.
  assert (E : exists w2, targetBody env c2 w = (Some ctxCanceledError, w2) /\
                         fs w2 = fs w /\ stdout w2 = stdout (snd (dorkRun env c2 EmptyString w))).
  { unfold targetBody. rewrite Hd. unfold bind at 1.
    destruct (observeTarget c2 (dorkRun env c2 EmptyString) w) as [res w1]. cbn [snd] in *.
    cbv beta iota zeta delta [bind ret ctxCancelled nextTick emit]. cbn [fst snd tick].
    rewrite Hc. eexists. split; [reflexivity|]. cbn [fs stdout]. auto. }
  destruct E as (w2 & -> & E1 & E2). cbn [fst snd].
  split; [reflexivity|]. split; [exact E1|].
  intros Hv. rewrite E2. apply dorkRun_stdout, Hv.
Qed.

(** ** [SafeSet] *)

Lemma SafeSet_Add_spec (s : SafeSet.t) (v : string) (w : World) :
  fst (SafeSet.Add s v w) = bool_decide (v ∉ exAt (SafeSet.m s) w) /\
  exAt (SafeSet.m s) (snd (SafeSet.Add s v w)) = {[v]} ∪ exAt (SafeSet.m s) w /\
  (forall l, l <> SafeSet.m s -> exAt l (snd (SafeSet.Add s v w)) = exAt l w).
Proof.
  unfold SafeSet.Add. cbv beta iota zeta delta [bind ret mapAt mapAdd]. fold (exAt (SafeSet.m s) w).
  destruct (decide (v ∈ exAt (SafeSet.m s) w)) as [Hin|Hout].
  - rewrite bool_decide_true by exact Hin. rewrite bool_decide_false by tauto.
    cbn [fst snd]. split; [reflexivity|]. split; [set_solver|reflexivity].
  - rewrite bool_decide_false by exact Hout. rewrite bool_decide_true by exact Hout.
    cbn [fst snd]. split; [reflexivity|]. unfold exAt. cbn [maps]. split.
    + rewrite lookup_insert_eq. reflexivity.
    + intros l Hl. rewrite lookup_insert_ne by congruence. reflexivity.
Qed.

Lemma addAll_spec (s : SafeSet.t) (vs : list string) : forall w,
  let bs := fst (addAll s vs w) in
  let w' := snd (addAll s vs w) in
  length bs = length vs /\
  exAt (SafeSet.m s) w' = list_to_set vs ∪ exAt (SafeSet.m s) w /\
  NoDup (accepted vs bs) /\
  (forall v, v ∈ accepted vs bs <-> v ∈ vs /\ v ∉ exAt (SafeSet.m s) w).
Proof.
  induction vs as [|v rest IH]; intros w; cbv zeta.
  - cbn. split; [reflexivity|]. split; [set_solver|]. split; [constructor|].
    intros v. rewrite !elem_of_nil. tauto.
  - cbn [addAll]. unfold bind, ret.
    destruct (SafeSet_Add_spec s v w) as (A1 & A2 & _).
    destruct (SafeSet.Add s v w) as [b w1]. cbn [fst snd] in A1, A2. cbv beta iota.
    specialize (IH w1). cbv zeta in IH.
    destruct (addAll s rest w1) as [bs w2]. cbn [fst snd] in IH |- *.
    destruct IH as (I1 & I2 & I3 & I4). cbn [fst snd length].
    split; [rewrite I1; reflexivity|]. split; [rewrite I2, A2; set_solver|].
    rewrite A2 in I4. subst b. clear I2.
    destruct (decide (v ∈ exAt (SafeSet.m s) w)) as [Hin|Hout].
    + rewrite bool_decide_false by tauto. cbn [accepted]. split; [exact I3|].
      intros x. rewrite I4, elem_of_cons. set_solver.
    + rewrite bool_decide_true by exact Hout. cbn [accepted]. split.
      * constructor; [|exact I3]. rewrite I4. set_solver.
      * intros x. rewrite !elem_of_cons, I4. rewrite elem_of_union, elem_of_singleton.
        destruct (decide (x = v)) as [->|Hx]; [tauto|]. tauto.
Qed.

(** X14.  A set made by [NewSafeSet] is empty and shares its map with no
    other.  [Add] accepts a value exactly when the set does not hold it yet,
    and the set holds it afterwards; so of the values offered to a new set one
    after the other, each distinct one is accepted exactly once, however
    often it is offered, and the set ends up holding them all. *)
Theorem SafeSet_accepts_each_value_once (vs : list string) (w : World) :
  let s := fst (NewSafeSet w) in
  let w0 := snd (NewSafeSet w) in
  let bs := fst (addAll s vs w0) in
  let w' := snd (addAll s vs w0) in
  maps w !! SafeSet.m s = None /\ exAt (SafeSet.m s) w0 = ∅ /\
  (forall l, l <> SafeSet.m s -> exAt l w0 = exAt l w) /\
  length bs = length vs /\
  exAt (SafeSet.m s) w' = list_to_set vs /\
  NoDup (accepted vs bs) /\
  (forall v, v ∈ accepted vs bs <-> v ∈ vs) /\
  (forall v, fst (SafeSet.Add s v w') = bool_decide (v ∉ vs)).
Proof.
  cbv zeta. unfold NewSafeSet. cbn [fst snd SafeSet.m].
  set (l0 := fresh (dom (maps w))).
  set (w0 := {| tick := tick w; fs := fs w; maps := <[l0 := ∅]> (maps w);
                stdout := stdout w; stderr := stderr w; trace := trace w |}).
  assert (Hfresh : maps w !! l0 = None).
  { apply not_elem_of_dom. apply is_fresh. }
  assert (H0 : exAt l0 w0 = ∅).
  { unfold exAt. subst w0. cbn [maps]. rewrite lookup_insert_eq. reflexivity. }
  split; [exact Hfresh|]. split; [exact H0|]. split.
  { intros l Hl. unfold exAt. subst w0. cbn [maps]. rewrite lookup_insert_ne by congruence.
    reflexivity. }
  destruct (addAll_spec {| SafeSet.m := l0 |} vs w0) as (A1 & A2 & A3 & A4).
  cbn [SafeSet.m] in *. rewrite H0 in A2, A4.
  split; [exact A1|]. split; [rewrite A2; set_solver|]. split; [exact A3|]. split.
  - intros v. rewrite A4. set_solver.
  - intros v. destruct (SafeSet_Add_spec {| SafeSet.m := l0 |} v
                          (snd (addAll {| SafeSet.m := l0 |} vs w0))) as (B1 & _).
    cbn [SafeSet.m] in B1. rewrite B1, A2.
    apply bool_decide_ext. set_solver.
Qed.

(** ** [subdomainAttack] *)

Lemma dorkRun_settings (env : Env) (c : Config) (ext : string) (w : World) :
  outputPath (snd (fst (dorkRun env c ext w))) = outputPath c /\
  verbose (snd (fst (dorkRun env c ext w))) = verbose c.
Proof.
  destruct (dorkRun_facts env c ext w) as [H _].
  pose proof (rf_settings _ _ _ _ _ (pf_run _ _ _ _ _ _ H)) as Hs.
  unfold dorkConfig in Hs.
  assert (E : outputPath (resetRun c) = outputPath c /\ verbose (resetRun c) = verbose c).
  { unfold resetRun. destruct (pages _ =? 0)%Z; split; reflexivity. }
  destruct E as [E1 E2]. rewrite <- E1, <- E2.
  split; apply Hs.
Qed.

Lemma nonEmpty_true (s : string) : nonEmpty s = true <-> s <> EmptyString.
Proof. destruct s; cbn; split; congruence. Qed.

Lemma hostsOf_spec (env : Env) (res : list string) :
  Sorted String.le (hostsOf env res) /\ NoDup (hostsOf env res) /\
  (forall h, h ∈ hostsOf env res <->
             h <> EmptyString /\ exists u, u ∈ res /\ hostOf env u = h).
Proof.
  unfold hostsOf. split; [apply sortStrings_Sorted|]. split.
  - apply sortStrings_NoDup, NoDup_elements.
  - intros h. rewrite elem_of_sortStrings, elem_of_elements, elem_of_list_to_set.
    rewrite list_elem_of_filter, list_elem_of_fmap, nonEmpty_true.
    split.
    + intros [Hn (u & -> & Hu)]. split; [exact Hn|]. exists u. auto.
    + intros [Hn (u & Hu & <-)]. split; [exact Hn|]. exists u. auto.
Qed.

(** X15.  Without an output path, and not verbose, [subdomainAttack] prints
    the hosts of the links its intent returned and nothing else: each host
    once, in ascending order, leaving out the links no host can be read from.
    It writes no file. *)
Theorem subdomainAttack_prints_hosts (env : Env) (c : Config) (w : World) :
  outputPath c = EmptyString -> verbose c = false ->
  let w' := snd (subdomainAttack env c w) in
  let hosts := hostsOf env (dorkResult env c EmptyString w) in
  stdout w' = (stdout w ++ hosts)%list /\ fs w' = fs w /\
  Sorted String.le hosts /\ NoDup hosts /\
  (forall h, h ∈ hosts <->
     h <> EmptyString /\
     exists u, u ∈ dorkResult env c EmptyString w /\ hostOf env u = h).
Proof.
  intros Ho Hv. cbv zeta.
  destruct (hostsOf_spec env (dorkResult env c EmptyString w)) as (S1 & S2 & S3).
  assert (E : stdout (snd (subdomainAttack env c w)) =
              (stdout w ++ hostsOf env (dorkResult env c EmptyString w))%list /\
              fs (snd (subdomainAttack env c w)) = fs w).
  { unfold subdomainAttack, printTarget, logv, dorkResult. rewrite Hv.
    cbv beta iota zeta delta [bind ret notFound].
    pose proof (dorkRun_settings env c EmptyString w) as [P1 _].
    pose proof (dorkRun_stdout env c EmptyString w Hv) as P2.
    pose proof (dorkRun_fs env c EmptyString w) as P3.
    destruct (dorkRun env c EmptyString w) as [[res c'] w1]. cbn [fst snd] in *.
    destruct res as [|u res].
    - cbn [length Nat.eqb snd]. rewrite P2, P3. unfold hostsOf. cbn.
      rewrite app_nil_r. auto.
    - cbn [length Nat.eqb]. rewrite P1, Ho.
      change (nonEmpty EmptyString) with false. cbv iota.
      unfold printAll. cbn [snd stdout fs]. rewrite P2, P3. auto. }
  destruct E as [E1 E2]. auto.
Qed.

(** ** [urlDecodeLikeSed] and the order of the map *)

Lemma sedGo_skip tbl k a r : sedGo tbl (S k) (String a r) = sedGo tbl k r.
Proof. reflexivity. Qed.

Lemma sedGo_scan tbl a r :
  sedGo tbl 0 (String a r) =
  match find (fun kv => Strings.HasPrefix (String a r) (fst kv)) tbl with
  | Some kv => snd kv +:+ sedGo tbl (String.length (fst kv) - 1) r
  | None => String a (sedGo tbl O r)
  end.
Proof. reflexivity. Qed.

Lemma splitGo_scan sep cur a r :
  Strings.splitGo sep 0 cur (String a r) =
  if Strings.HasPrefix (String a r) sep
  then cur :: Strings.splitGo sep (String.length sep - 1) EmptyString r
  else Strings.splitGo sep O (cur +:+ String a EmptyString) r.
Proof. reflexivity. Qed.

Lemma splitGo_cur (sep : string) (s : string) : forall n cur,
  exists x l, Strings.splitGo sep n EmptyString s = x :: l /\
              Strings.splitGo sep n cur s = (cur +:+ x) :: l.
Proof.
  induction s as [|a r IH]; intros n cur.
  - exists EmptyString, []. cbn. rewrite append_nil_r. auto.
  - destruct n as [|n].
    + rewrite !splitGo_scan. destruct (Strings.HasPrefix (String a r) sep).
      * eexists _, _. split; [reflexivity|]. rewrite append_nil_r. reflexivity.
      * destruct (IH 0%nat (String a EmptyString)) as (x & l & E1 & E2).
        destruct (IH 0%nat (cur +:+ String a EmptyString)) as (x' & l' & E1' & E2').
        rewrite E1 in E1'. injection E1' as <- <-.
        rewrite append_nil_l, E2, E2'. eexists _, _. split; [reflexivity|].
        rewrite append_assoc. reflexivity.
    + apply (IH n cur).
Qed.

Lemma Join_cons_cons (x y : string) (l : list string) (v : string) :
  Strings.Join (x :: y :: l) v = x +:+ v +:+ Strings.Join (y :: l) v.
Proof. reflexivity. Qed.

(** [strings.ReplaceAll] is the one-pass replacement of a single entry. *)
Lemma Join_splitGo (k v : string) (s : string) : forall n,
  Strings.Join (Strings.splitGo k n EmptyString s) v = sedGo [(k, v)] n s.
Proof.
  induction s as [|a r IH]; intros n; [reflexivity|].
  destruct n as [|n]; [|rewrite sedGo_skip; apply IH].
  rewrite sedGo_scan, splitGo_scan. cbn [find fst snd].
  destruct (Strings.HasPrefix (String a r) k).
  - cbn [fst snd]. rewrite <- IH.
    destruct (splitGo_cur k r (String.length k - 1) EmptyString) as (x & l & E & _).
    rewrite E. rewrite Join_cons_cons. reflexivity.
  - rewrite <- IH.
    destruct (splitGo_cur k r 0 (EmptyString +:+ String a EmptyString)) as (x & l & E1 & E2).
    rewrite E1, E2. destruct l; reflexivity.
Qed.

Lemma ReplaceAll_sedGo (s k v : string) : Strings.ReplaceAll s k v = sedGo [(k, v)] 0 s.
Proof. apply Join_splitGo. Qed.

Lemma sedEntry_inv (kv : string * string) :
  sedEntry kv = true ->
  exists b c, kv = (String "%" b, String c EmptyString) /\
              allBytes hexByte b = true /\ hexByte c = false /\ c <> "%"%char.
Proof.
  destruct kv as [[|p b] [|c [|]]]; cbn; try discriminate.
  intros H. apply andb_prop in H as [H H4]. apply andb_prop in H as [H H3].
  apply andb_prop in H as [H1 H2]. apply Ascii.eqb_eq in H1 as ->.
  exists b, c. split; [reflexivity|]. split; [exact H2|].
  split; [apply Bool.negb_true_iff, H3|].
  apply Bool.negb_true_iff in H4. apply Ascii.eqb_neq, H4.
Qed.

Lemma string_prefix_cons (a b : ascii) (s t : string) :
  String.prefix (String a s) (String b t) = Ascii.eqb a b && String.prefix s t.
Proof.
  cbn [String.prefix]. destruct (Ascii.ascii_dec a b) as [->|Hne].
  - rewrite Ascii.eqb_refl. reflexivity.
  - apply Ascii.eqb_neq in Hne. rewrite Hne. reflexivity.
Qed.

Lemma string_prefix_nil_r (s : string) : String.prefix s EmptyString = bool_decide (s = EmptyString).
Proof. destruct s; reflexivity. Qed.

Lemma string_prefix_nil_l (s : string) : String.prefix EmptyString s = true.
Proof. destruct s; reflexivity. Qed.

(** In a table of such entries a key can only start at a percent sign. *)
Lemma find_percent (tbl : list (string * string)) (a : ascii) (r : string) kv :
  Forall (fun e => sedEntry e = true) tbl ->
  find (fun kv => Strings.HasPrefix (String a r) (fst kv)) tbl = Some kv ->
  a = "%"%char /\ In kv tbl /\ Strings.HasPrefix (String a r) (fst kv) = true.
Proof.
  intros Ht Hf. apply find_some in Hf as [Hin Hp]. split; [|auto].
  rewrite Forall_forall in Ht. apply list_elem_of_In in Hin. apply Ht, sedEntry_inv in Hin as (b & c & -> & _).
  cbn [fst] in Hp. unfold Strings.HasPrefix in Hp. rewrite string_prefix_cons in Hp.
  apply andb_prop in Hp as [Hp _]. apply Ascii.eqb_eq in Hp. congruence.
Qed.

(** A run of hexadecimal digits starts the rewritten text exactly when it
    starts the text. *)
Lemma prefix_sedGo (tbl : list (string * string)) (b : string) :
  Forall (fun e => sedEntry e = true) tbl -> allBytes hexByte b = true ->
  forall r, String.prefix b (sedGo tbl 0 r) = String.prefix b r.
Proof.
  intros Ht. induction b as [|x b IH]; intros Hb r.
  - rewrite !string_prefix_nil_l. reflexivity.
  - cbn [allBytes] in Hb. apply andb_prop in Hb as [Hx Hb].
    destruct r as [|y r]; [reflexivity|]. rewrite sedGo_scan.
    destruct (find _ tbl) as [kv|] eqn:F.
    + destruct (find_percent tbl y r kv Ht F) as (-> & Hin & _).
      rewrite Forall_forall in Ht. apply list_elem_of_In in Hin. apply Ht, sedEntry_inv in Hin as (b' & c & -> & _ & Hc & _).
      cbn [fst snd]. rewrite append_cons, append_nil_l, !string_prefix_cons.
      replace (Ascii.eqb x c) with false.
      2:{ symmetry. apply Ascii.eqb_neq. intros ->. congruence. }
      replace (Ascii.eqb x "%") with false.
      2:{ symmetry. apply Ascii.eqb_neq. intros ->. discriminate Hx. }
      reflexivity.
    + rewrite !string_prefix_cons, (IH Hb). reflexivity.
Qed.

Lemma prefix_noPercent (b : string) : allBytes hexByte b = true ->
  forall r, String.prefix b r = true -> noPercent (String.length b) r = true.
Proof.
  induction b as [|x b IH]; intros Hb r Hp; [reflexivity|].
  cbn [allBytes] in Hb. apply andb_prop in Hb as [Hx Hb].
  destruct r as [|y r]; [reflexivity|]. rewrite string_prefix_cons in Hp.
  apply andb_prop in Hp as [E Hp]. apply Ascii.eqb_eq in E as <-.
  cbn [String.length noPercent]. rewrite (IH Hb r Hp), Bool.andb_true_r.
  apply Bool.negb_true_iff, Ascii.eqb_neq. intros ->. discriminate Hx.
Qed.

Lemma find_snoc {A} (f : A -> bool) (l : list A) (x : A) :
  find f (l ++ [x]) = match find f l with Some y => Some y | None => if f x then Some x else None end.
Proof. induction l as [|y l IH]; cbn; [reflexivity|]. destruct (f y); auto. Qed.

(** Replacing the occurrences of one more key in a text already rewritten
    gives what one pass with the longer table gives. *)
Lemma sedGo_snoc (tbl : list (string * string)) (k v : string) :
  Forall (fun e => sedEntry e = true) tbl -> sedEntry (k, v) = true ->
  forall s n,
    sedGo [(k, v)] 0 (sedGo tbl n s) = sedGo (tbl ++ [(k, v)]) n s /\
    (noPercent n s = true ->
     sedGo [(k, v)] n (sedGo tbl 0 s) = sedGo (tbl ++ [(k, v)]) n s).
Proof.
  intros Ht Hk. destruct (sedEntry_inv _ Hk) as (b & c & E & Hb & Hc & Hcp).
  injection E as -> ->.
  induction s as [|a r IH]; intros n.
  { split; [|intros _]; destruct n; reflexivity. }
  assert (A0 : sedGo [(String "%" b, String c EmptyString)] 0 (sedGo tbl 0 (String a r)) =
               sedGo (tbl ++ [(String "%" b, String c EmptyString)]) 0 (String a r)).
  { rewrite (sedGo_scan (tbl ++ _)), find_snoc, (sedGo_scan tbl).
    destruct (find _ tbl) as [kv|] eqn:F.
    - destruct (find_percent tbl a r kv Ht F) as (-> & Hin & _).
      rewrite Forall_forall in Ht. apply list_elem_of_In in Hin.
      apply Ht, sedEntry_inv in Hin as (b' & c' & -> & _ & _ & Hc').
      cbn [fst snd]. rewrite !append_cons, !append_nil_l, sedGo_scan.
      cbn [find fst snd]. unfold Strings.HasPrefix. rewrite string_prefix_cons.
      replace (Ascii.eqb "%" c') with false.
      2:{ symmetry. apply Ascii.eqb_neq. congruence. }
      cbn [andb]. f_equal. apply (proj1 (IH _)).
    - rewrite sedGo_scan. cbn [find fst snd]. unfold Strings.HasPrefix.
      rewrite !string_prefix_cons, (prefix_sedGo tbl b Ht Hb).
      destruct (Ascii.eqb "%" a && String.prefix b r) eqn:P.
      + cbn [fst snd]. f_equal. apply (proj2 (IH _)). apply andb_prop in P as [_ P].
        replace (String.length (String "%" b) - 1)%nat with (String.length b)
          by (cbn [String.length]; lia).
        apply prefix_noPercent; assumption.
      + f_equal. apply (proj1 (IH 0%nat)). }
  split.
  - destruct n as [|n]; [exact A0|]. rewrite !sedGo_skip. apply (proj1 (IH n)).
  - intros Hn. destruct n as [|n]; [exact A0|].
    cbn [noPercent] in Hn. apply andb_prop in Hn as [Ha Hn].
    rewrite sedGo_scan. destruct (find _ tbl) as [kv|] eqn:F.
    + destruct (find_percent tbl a r kv Ht F) as (-> & _). discriminate Ha.
    + rewrite !sedGo_skip. apply (proj2 (IH n)), Hn.
Qed.

Lemma sedGo_empty (s : string) : sedGo [] 0 s = s.
Proof. induction s as [|a r IH]; [reflexivity|]. rewrite sedGo_scan. cbn [find]. congruence. Qed.

(** The loop of [urlDecodeLikeSed], whatever the order, is one pass with
    the table in that order. *)
Lemma applyRepls_sedGo (order : list (string * string)) : forall tbl s,
  Forall (fun e => sedEntry e = true) (tbl ++ order) ->
  applyRepls order (sedGo tbl 0 s) = sedGo (tbl ++ order) 0 s.
Proof.
  induction order as [|[k v] order IH]; intros tbl s H.
  - rewrite app_nil_r. reflexivity.
  - unfold applyRepls in *. cbn [fold_left fst snd]. rewrite ReplaceAll_sedGo.
    apply Forall_app in H as H'. destruct H' as [Ht Ho]. apply Forall_cons in Ho as [Hk Ho].
    rewrite (proj1 (sedGo_snoc tbl k v Ht Hk s 0%nat)).
    rewrite IH; rewrite <- app_assoc; [reflexivity|exact H].
Qed.

Lemma prefix_comparable (k k' : string) : forall s,
  String.prefix k s = true -> String.prefix k' s = true ->
  String.prefix k k' = true \/ String.prefix k' k = true.
Proof.
  revert k'. induction k as [|a k IH]; intros k' s H H'.
  - left. apply string_prefix_nil_l.
  - destruct k' as [|a' k']; [right; reflexivity|].
    destruct s as [|x s]; [discriminate H|]. rewrite string_prefix_cons in H, H'.
    apply andb_prop in H as [E H]. apply andb_prop in H' as [E' H'].
    apply Ascii.eqb_eq in E, E'. subst. rewrite !string_prefix_cons, Ascii.eqb_refl. cbn [andb].
    apply (IH k' s); assumption.
Qed.

Lemma prefixFree_unique (tbl : list (string * string)) (s : string) kv kv' :
  prefixFree tbl = true -> In kv tbl -> In kv' tbl ->
  String.prefix (fst kv) s = true -> String.prefix (fst kv') s = true -> kv = kv'.
Proof.
  unfold prefixFree. rewrite forallb_forall. intros H Hin Hin' P P'.
  pose proof (H kv Hin) as H1. pose proof (H kv' Hin') as H2.
  rewrite forallb_forall in H1, H2. specialize (H1 kv' Hin'). specialize (H2 kv Hin).
  destruct (decide (kv = kv')) as [|Hne]; [assumption|].
  rewrite bool_decide_false in H1 by exact Hne. rewrite bool_decide_false in H2 by congruence.
  cbn [orb] in H1, H2. apply Bool.negb_true_iff in H1, H2.
  destruct (prefix_comparable _ _ s P P'); congruence.
Qed.

Lemma find_Permutation (tbl tbl' : list (string * string)) (s : string) :
  prefixFree tbl = true -> tbl' ≡ₚ tbl ->
  find (fun kv => Strings.HasPrefix s (fst kv)) tbl' =
  find (fun kv => Strings.HasPrefix s (fst kv)) tbl.
Proof.
  intros Hf Hp.
  destruct (find _ tbl) as [kv|] eqn:F; destruct (find _ tbl') as [kv'|] eqn:F'; try reflexivity.
  - apply find_some in F as [I P]. apply find_some in F' as [I' P'].
    f_equal. apply (prefixFree_unique tbl s); auto.
    apply list_elem_of_In. rewrite <- Hp. apply list_elem_of_In, I'.
  - apply find_some in F as [I P]. pose proof (find_none _ _ F' kv) as N.
    cbv beta in N. rewrite N in P; [discriminate|].
    apply list_elem_of_In. rewrite Hp. apply list_elem_of_In, I.
  - apply find_some in F' as [I P]. pose proof (find_none _ _ F kv') as N.
    cbv beta in N. rewrite N in P; [discriminate|].
    apply list_elem_of_In. rewrite <- Hp. apply list_elem_of_In, I.
Qed.

Lemma sedGo_Permutation (tbl tbl' : list (string * string)) :
  prefixFree tbl = true -> tbl' ≡ₚ tbl ->
  forall s n, sedGo tbl' n s = sedGo tbl n s.
Proof.
  intros Hf Hp. induction s as [|a r IH]; intros n; [reflexivity|].
  destruct n as [|n]; [|rewrite !sedGo_skip; apply IH].
  rewrite !sedGo_scan, (find_Permutation tbl tbl' _ Hf Hp).
  destruct (find _ tbl); rewrite ?IH; reflexivity.
Qed.

Lemma applyRepls_any_order (order : list (string * string)) (s : string) :
  order ≡ₚ repls -> applyRepls order s = sedGo repls 0 s.
Proof.
  intros Hp. rewrite <- (sedGo_empty s) at 1. rewrite applyRepls_sedGo.
  - apply sedGo_Permutation; [reflexivity|exact Hp].
  - cbn [app]. rewrite Hp. repeat constructor.
Qed.

(** X16.  The link [urlDecodeLikeSed] returns does not depend on the order in
    which the replacement map is visited: whenever the loop visits every
    entry once, the result is the text after percent-decoding with all the
    replacements made in a single pass from left to right. *)
Theorem urlDecodeLikeSed_order_independent (env : Env) (s : string) (w : World) :
  rangeOrder env (tick w) repls ≡ₚ repls ->
  fst (urlDecodeLikeSed env s w) = sedGo repls 0 (default s (Url.QueryUnescape s)) /\
  (forall env', rangeOrder env' (tick w) repls ≡ₚ repls ->
                fst (urlDecodeLikeSed env' s w) = fst (urlDecodeLikeSed env s w)).
Proof.
  assert (H : forall e, rangeOrder e (tick w) repls ≡ₚ repls ->
            fst (urlDecodeLikeSed e s w) = sedGo repls 0 (default s (Url.QueryUnescape s))).
  { intros e Hp. unfold urlDecodeLikeSed. cbv beta iota zeta delta [bind ret nextTick].
    cbn [fst]. apply applyRepls_any_order, Hp. }
  intros Hp. split; [apply H, Hp|]. intros env' Hp'. rewrite (H env Hp). apply H, Hp'.
Qed.

(** ** Where the links of an intent come from *)

Lemma linkEventsOf_app (a b : list Event) :
  linkEventsOf (a ++ b) = (linkEventsOf a ++ linkEventsOf b)%list.
Proof. apply flat_map_app. Qed.

Lemma In_linkEventsOf (tr : list Event) (e : Event) :
  In e (linkEventsOf tr) <->
  In e tr /\ match e with EvGet _ _ _ | EvFound _ _ => True | _ => False end.
Proof.
  unfold linkEventsOf. rewrite in_flat_map. split.
  - intros (x & Hx & He). destruct x; cbn in He; try tauto;
      destruct He as [<-|[]]; auto.
  - intros [He Hk]. exists e. split; [exact He|]. destruct e; cbn; tauto.
Qed.

Lemma emit_links (e : Event) : linkEventsOf [e] = [] -> preserves linkEvents (emit e).
Proof.
  intros H w. unfold linkEvents, emit. cbn [snd trace].
  rewrite linkEventsOf_app, H, app_nil_r. reflexivity.
Qed.

Ltac frameL :=
  repeat first
    [ apply preserves_ret
    | apply emit_links; reflexivity
    | solve [auto with pres]
    | solve [intros ?; reflexivity]
    | apply preserves_bind; [|intros ?]
    | match goal with
      | |- preserves _ (if ?b then _ else _) => destruct b
      | |- preserves _ (match ?x with _ => _ end) => destruct x
      end ].

Lemma ctxCancelled_links env : preserves linkEvents (ctxCancelled env).
Proof. unfold ctxCancelled. frameL. Qed.
Lemma getRandomApiKey_links env c : preserves linkEvents (getRandomApiKey env c).
Proof. unfold getRandomApiKey. frameL. Qed.
Lemma httpGetJSON_links env u : preserves linkEvents (httpGetJSON env u).
Proof. unfold httpGetJSON. frameL. Qed.
Lemma delayControl_links c : preserves linkEvents (delayControl c).
Proof. unfold delayControl, sleep. frameL. Qed.
Lemma logv_links v s : preserves linkEvents (logv v s).
Proof. unfold logv. frameL. Qed.
#[global] Hint Resolve ctxCancelled_links getRandomApiKey_links httpGetJSON_links
  delayControl_links logv_links : pres.

Lemma filterLoop_links env items target : preserves linkEvents (filterLoop env items target).
Proof. induction items as [|l rest IH]; cbn [filterLoop]; unfold urlDecodeLikeSed; frameL. Qed.
#[global] Hint Resolve filterLoop_links : pres.

Lemma filterLinks_links env items target : preserves linkEvents (filterLinks env items target).
Proof. unfold filterLinks. frameL. Qed.
#[global] Hint Resolve filterLinks_links : pres.

Lemma filterLinks_decoded (env : Env) (items : list string) (target : string) (w : World)
    (e : string) :
  In e (fst (filterLinks env items target w)) ->
  e <> EmptyString /\ decodedFrom env items target e.
Proof.
  unfold filterLinks. cbv beta iota zeta delta [bind ret].
  pose proof (filterLoop_sound env target items w) as Hs.
  destruct (filterLoop env items target w) as [out w1]. cbn [fst] in *.
  intros He. apply list_elem_of_In, elem_of_uniqueStrings in He as [He Hne].
  split; [exact Hne|]. apply Hs, list_elem_of_In, He.
Qed.

Lemma answered_app (env : Env) (target : string) (a b : list Event) (e : string) :
  answered env target a e \/ answered env target b e -> answered env target (a ++ b) e.
Proof.
  intros [(k & u & gr & H & ?)|(k & u & gr & H & ?)]; exists k, u, gr;
    (split; [apply in_or_app; auto|assumption]).
Qed.

Lemma sourced_app (env : Env) (target : string) (a b : list Event) :
  sourced env target a -> sourced env target b -> sourced env target (a ++ b).
Proof.
  intros Ha Hb p links e Hin He. apply answered_app.
  apply in_app_or in Hin as [Hin|Hin]; [left; eapply Ha|right; eapply Hb]; eassumption.
Qed.

Lemma sourced_nil (env : Env) (target : string) : sourced env target [].
Proof. intros p links e []. Qed.

Lemma emit_get_links (k u : string) (r : HttpResult) :
  grows linkEvents (fun _ l => l = [EvGet k u r]) (emit (EvGet k u r)).
Proof.
  intros w. exists [EvGet k u r]. unfold linkEvents, emit. cbn [fst snd trace].
  rewrite linkEventsOf_app. auto.
Qed.

Lemma emit_found_links (p : Z) (links : list string) :
  grows linkEvents (fun _ l => l = [EvFound p links]) (emit (EvFound p links)).
Proof.
  intros w. exists [EvFound p links]. unfold linkEvents, emit. cbn [fst snd trace].
  rewrite linkEventsOf_app. auto.
Qed.

(** The request loop stores nothing, and what it collects beyond [comb] was
    read from the responses it received. *)
Lemma urlLoop_links (env : Env) (c : Config) (k : string) (urls : list string) :
  forall comb err,
  grows linkEvents
    (fun r l => (forall p links, ~ In (EvFound p links) l) /\
                forall comb' err', r = Some (comb', err') ->
                forall e, In e comb' -> In e comb \/ answered env (target c) l e)
    (urlLoop env c k urls comb err).
Proof.
  induction urls as [|u rest IH]; intros comb err; cbn [urlLoop].
  - apply grows_ret. split; [intros p links []|].
    intros comb' err' [= <- <-] e He. left. exact He.
  - apply grows_after; [frameL|]. intros [|].
    + apply grows_ret. split; [intros p links []|]. intros ? ? H. discriminate H.
    + apply grows_after; [frameL|]. intros r.
      eapply grows_bind; [apply emit_get_links|]. intros ? l1 Hl1. cbv beta in Hl1. subst l1.
      assert (Hrest : forall comb2 err2,
                (forall e, In e comb2 ->
                           In e comb \/ answered env (target c) [EvGet k u r] e) ->
                grows linkEvents
                  (fun r' l2 =>
                     (forall p links, ~ In (EvFound p links) ([EvGet k u r] ++ l2)) /\
                     forall comb' err', r' = Some (comb', err') ->
                     forall e, In e comb' ->
                       In e comb \/ answered env (target c) ([EvGet k u r] ++ l2) e)
                  (urlLoop env c k rest comb2 err2)).
      { intros comb2 err2 H2. eapply grows_impl; [apply IH|].
        intros r' l2 [Hn Hc]. split.
        - intros p links [Hin|Hin]; [discriminate Hin|]. apply (Hn _ _ Hin).
        - intros comb' err' -> e He.
          destruct (Hc _ _ eq_refl e He) as [Hin|Ha].
          + destruct (H2 e Hin) as [?|Ha]; [left; assumption|].
            right. apply answered_app. left. exact Ha.
          + right. apply answered_app. right. exact Ha. }
      assert (Hlinks : forall gr, r = HttpOk gr ->
                nonEmpty (default EmptyString (Error gr)) = false ->
                grows linkEvents
                  (fun r' l2 =>
                     (forall p links, ~ In (EvFound p links) ([EvGet k u r] ++ l2)) /\
                     forall comb' err', r' = Some (comb', err') ->
                     forall e, In e comb' ->
                       In e comb \/ answered env (target c) ([EvGet k u r] ++ l2) e)
                  (bind (filterLinks env (Items gr) (target c))
                        (fun links => urlLoop env c k rest (comb ++ links) err))).
      { intros gr -> Hgr.
        apply (grows_after_val _ (fun links => forall e, In e links ->
                 e <> EmptyString /\ decodedFrom env (Items gr) (target c) e));
          [frameL|intros w e; apply filterLinks_decoded|].
        intros links Hl. apply Hrest. intros e He.
        apply in_app_or in He as [He|He]; [left; exact He|right].
        destruct (Hl e He) as [Hne Hd]. exists k, u, gr.
        split; [left; reflexivity|]. auto. }
      destruct r as [msg|gr]; [apply Hrest; auto|].
      destruct (Error gr) as [msg|] eqn:Eg.
      * destruct (nonEmpty msg) eqn:En.
        -- apply grows_after; [frameL|]. intros _. apply Hrest; auto.
        -- apply (Hlinks gr eq_refl). rewrite Eg. exact En.
      * apply (Hlinks gr eq_refl). rewrite Eg. reflexivity.
Qed.

(** What the end of an attempt stores is taken from [comb]. *)
Lemma settleAttempt_links (p tk mt : Z) (c : Config) (comb : list string) (err : option string) :
  grows linkEvents
    (fun _ l => forall q links e, In (EvFound q links) l -> In e links -> In e comb)
    (settleAttempt p tk mt c comb err).
Proof.
  unfold settleAttempt. cbv zeta.
  destruct (0 <? length (uniqueStrings comb))%nat.
  - eapply grows_bind; [apply emit_found_links|]. intros ? l1 Hl1. cbv beta in Hl1. subst l1.
    eapply grows_impl; [apply grows_quiet; frameL|].
    intros ? l Hl. cbv beta in Hl. subst l.
    intros q links e [H|[]] He. injection H as <- <-.
    apply list_elem_of_In, elem_of_uniqueStrings in He as [He _].
    apply list_elem_of_In, He.
  - eapply grows_impl; [apply grows_quiet; frameL|].
    intros ? l Hl. cbv beta in Hl. subst l. intros q links e [].
Qed.

Lemma attemptBody_links (env : Env) (p idx tk mt : Z) (ext : string) (c : Config) :
  grows linkEvents (fun _ l => sourced env (target c) l) (attemptBody env p idx tk mt ext c).
Proof.
  unfold attemptBody.
  apply grows_after; [frameL|]. intros [|]; [apply grows_ret, sourced_nil|].
  apply grows_after; [frameL|].
  intros [k|]; [|apply grows_after; [frameL|]; intros _; apply grows_ret, sourced_nil].
  destruct (String.eqb k EmptyString);
    [apply grows_after; [frameL|]; intros _; apply grows_ret, sourced_nil|].
  apply grows_after; [frameL|]. intros _.
  apply grows_after; [frameL|]. intros _.
  eapply grows_bind; [apply urlLoop_links|].
  intros r l1 [Hn Hc]. destruct r as [[comb err]|].
  - eapply grows_impl; [apply settleAttempt_links|].
    intros ? l2 H2 q links e Hin He. cbv beta in H2.
    apply in_app_or in Hin as [Hin|Hin]; [destruct (Hn _ _ Hin)|].
    apply answered_app. left.
    destruct (Hc _ _ eq_refl e (H2 _ _ _ Hin He)) as [[]|Ha]. exact Ha.
  - apply grows_ret. rewrite app_nil_r. intros q links e Hin. destruct (Hn _ _ Hin).
Qed.

Lemma attemptLoop_links (env : Env) (p idx mt : Z) (ext : string) (c : Config) (fuel : nat) :
  forall tk c1 w, sameSettings c c1 ->
  exists l,
    linkEvents (snd (attemptLoop env fuel p idx tk mt ext c1 w)) = (linkEvents w ++ l)%list /\
    sourced env (target c) l.
Proof.
  induction fuel as [|fuel IH]; intros tk c1 w Hs; cbn [attemptLoop].
  - exists []. rewrite app_nil_r. split; [reflexivity|apply sourced_nil].
  - destruct (tk <? mt)%Z.
    2:{ exists []. rewrite app_nil_r. split; [reflexivity|apply sourced_nil]. }
    unfold bind at 1.
    destruct (attemptBody_links env p idx tk mt ext c1 w) as (l1 & E1 & H1).
    assert (Et : target c1 = target c) by apply Hs. rewrite Et in H1.
    destruct (attemptBody env p idx tk mt ext c1 w) as [[c2 e] w1] eqn:E.
    cbn [fst snd] in E1.
    destruct e as [| |tk'].
    + exists l1. cbn [snd]. auto.
    + exists l1. cbn [snd]. auto.
    + apply attemptBody_facts in E as [tr Hf].
      assert (Hs2 : sameSettings c c2).
      { eapply sameSettings_trans; [exact Hs|].
        apply (rf_settings _ _ _ _ _ (af_run _ _ _ _ _ _ _ _ _ Hf)). }
      destruct (IH tk' c2 w1 Hs2) as (l2 & E2 & H2).
      exists (l1 ++ l2)%list. rewrite E2, E1, app_assoc.
      split; [reflexivity|apply sourced_app; assumption].
Qed.

Lemma pageLoop_links (env : Env) (ext : string) (c : Config) (fuel : nat) :
  forall p c1 w, sameSettings c c1 ->
  exists l,
    linkEvents (snd (pageLoop env fuel p ext c1 w)) = (linkEvents w ++ l)%list /\
    sourced env (target c) l.
Proof.
  induction fuel as [|fuel IH]; intros p c1 w Hs; cbn [pageLoop].
  - exists []. rewrite app_nil_r. split; [reflexivity|apply sourced_nil].
  - destruct (p <? pages c1)%Z.
    2:{ exists []. rewrite app_nil_r. split; [reflexivity|apply sourced_nil]. }
    unfold bind at 1.
    pose proof (ctxCancelled_links env w) as E0.
    destruct (ctxCancelled env w) as [b w0]. cbn [snd] in E0.
    destruct b.
    { exists []. rewrite app_nil_r. cbn [snd]. split; [exact E0|apply sourced_nil]. }
    unfold bind at 1.
    pose proof (emit_links (EvPage p) eq_refl w0) as E1.
    destruct (emit (EvPage p) w0) as [u1 w1]. cbn [snd] in E1.
    cbv zeta. unfold bind at 1.
    destruct (attemptLoop_links env p (wrap64 (p * 10 + 1)) (Z.of_nat (length (apiKeys c1)))
                ext c (length (apiKeys c1)) 0 c1 w1 Hs) as (l1 & E2 & H1).
    destruct (attemptLoop env (length (apiKeys c1)) p (wrap64 (p * 10 + 1)) 0
                (Z.of_nat (length (apiKeys c1))) ext c1 w1) as [[c2 r] w2] eqn:E.
    cbn [snd] in E2.
    assert (E3 : linkEvents w2 = (linkEvents w ++ l1)%list) by (rewrite E2, E1, E0; reflexivity).
    destruct r; [exists l1; cbn [snd]; auto|].
    destruct (negb (resultsFound c2)); [exists l1; cbn [snd]; auto|].
    apply attemptLoop_facts in E as [tr Hf].
    assert (Hs2 : sameSettings c (set_resultsFound false c2)).
    { eapply sameSettings_trans; [exact Hs|].
      eapply sameSettings_trans; [apply (rf_settings _ _ _ _ _ (lf_run _ _ _ _ _ _ _ _ Hf))|].
      unfold sameSettings. cbn. repeat split; reflexivity. }
    destruct (IH (p + 1) (set_resultsFound false c2) w2 Hs2) as (l2 & E4 & H2).
    exists (l1 ++ l2)%list. rewrite E4, E3, app_assoc.
    split; [reflexivity|apply sourced_app; assumption].
Qed.

Lemma dorkRun_sourced (env : Env) (c : Config) (ext : string) (w : World) :
  sourced env (target c) (linkEventsOf (dorkTrace env c ext w)).
Proof.
  destruct (resetRun_facts c) as (_ & _ & _ & _ & _ & _ & _ & Rt).
  destruct (pageLoop_links env ext (resetRun c) (Z.to_nat (pages (resetRun c))) 0
              (resetRun c) w (sameSettings_refl _)) as (l & E & H).
  rewrite Rt in H.
  assert (El : linkEventsOf (dorkTrace env c ext w) = l).
  { assert (E' : linkEvents (dorkWorld env c ext w) = (linkEvents w ++ l)%list).
    { unfold dorkWorld, dorkRun. cbv beta iota zeta delta [bind ret notFound].
      destruct (pageLoop env (Z.to_nat (pages (resetRun c))) 0 ext (resetRun c) w)
        as [[c' r] w'].
      cbn [snd] in E. destruct r; [exact E|].
      destruct (length (requestStore c') =? 0)%nat; exact E. }
    unfold linkEvents in E'. rewrite dorkTrace_spec, linkEventsOf_app in E'.
    apply app_inv_head in E'. exact E'. }
  rewrite El. exact H.
Qed.

(** X17.  Every link an intent returns was read from a response of that
    intent: it is not empty, and it is the decoding of an item of a response
    without error message, received for a request of this intent, in which
    the item holds the target (in any letter case) and not the provider's
    marker. *)
Theorem dorkRun_links_come_from_responses (env : Env) (c : Config) (ext : string)
    (w : World) (e : string) :
  In e (dorkResult env c ext w) ->
  e <> EmptyString /\
  exists k u gr,
    In (EvGet k u (HttpOk gr)) (dorkTrace env c ext w) /\
    In u (requestsOf (dorkTrace env c ext w)) /\
    nonEmpty (default EmptyString (Error gr)) = false /\
    decodedFrom env (Items gr) (target c) e.
Proof.
  intros He. destruct (dorkRun_facts env c ext w) as [_ Hr]. rewrite Hr in He.
  unfold foundLinks in He. apply in_flat_map in He as (ev & Hev & He).
  destruct ev; try destruct He.
  pose proof (dorkRun_sourced env c ext w) as Hs.
  destruct (Hs _ _ e (proj2 (In_linkEventsOf _ _) (conj Hev I)) He)
    as (k & u & gr & Hg & Hn & Hne & Hd).
  apply In_linkEventsOf in Hg as [Hg _].
  split; [exact Hne|]. exists k, u, gr. split; [exact Hg|]. split; [|auto].
  unfold requestsOf. apply in_flat_map. exists (EvGet k u (HttpOk gr)).
  split; [exact Hg|left; reflexivity].
Qed.

(** ** [extensionAttack] *)

Lemma extensionList_world (c : Config) (w : World) : snd (extensionList c w) = w.
Proof.
  unfold extensionList. cbv beta iota zeta delta [bind ret fileExists readLines getFs].
  destruct (bool_decide (is_Some (files (fs w) !! extension c))).
  - destruct (files (fs w) !! extension c); [|reflexivity].
    destruct (bool_decide (extension c ∈ noRead (fs w))); reflexivity.
  - destruct (Strings.Contains (extension c) ","); [reflexivity|].
    destruct (nonEmpty (extension c)); reflexivity.
Qed.

(** The loop over the extensions writes no file and, when not verbose, prints
    nothing; when it stops at a cancellation it has just said so. *)
Lemma extensionLoop_frame (env : Env) (exts : list string) : forall all c w,
  verbose c = false ->
  let r := fst (fst (extensionLoop env exts all c w)) in
  let c' := snd (fst (extensionLoop env exts all c w)) in
  let w' := snd (extensionLoop env exts all c w) in
  fs w' = fs w /\ stdout w' = stdout w /\
  outputPath c' = outputPath c /\ verbose c' = false /\
  (r = None -> last (stderr w') = Some cancelledMessage).
Proof.
  induction exts as [|ext rest IH]; intros all c w Hv; cbv zeta.
  - cbn. repeat split; auto. discriminate.
  - cbn [extensionLoop]. unfold logv. rewrite Hv.
    cbv beta iota zeta delta [bind ret ctxCancelled nextTick emit logErr].
    destruct (ctxErr env (tick w)).
    + cbn [fst snd fs stdout stderr]. repeat split; auto.
      intros _. rewrite last_snoc. reflexivity.
    + match goal with |- context [dorkRun env c ext ?W] => set (w0 := W) end.
      assert (E1 : fs w0 = fs w) by reflexivity.
      assert (E2 : stdout w0 = stdout w) by reflexivity.
      clearbody w0.
      pose proof (dorkRun_fs env c ext w0) as F1.
      pose proof (dorkRun_stdout env c ext w0 Hv) as F2.
      destruct (dorkRun_settings env c ext w0) as [S1 S2].
      destruct (dorkRun env c ext w0) as [[res c1] w1]. cbn [fst snd] in *.
      rewrite Hv in S2.
      specialize (IH (if (0 <? length res)%nat then (all ++ res)%list else all) c1 w1 S2).
      cbv zeta in IH. destruct IH as (I1 & I2 & I3 & I4 & I5).
      rewrite I1, I2, I3, F1, F2, S1, E1, E2. repeat split; auto.
Qed.

(** X18.  Without an output path, and not verbose, [extensionAttack] writes no
    file and prints only once the loop over the extensions is through: the
    links collected over all the extensions, without the empty ones and the
    repetitions, in the order they were found.  When a check point of the loop
    sees the cancellation, it prints none of the links collected so far, and
    the last line on standard error says that the operation was cancelled. *)
Theorem extensionAttack_prints_at_the_end (env : Env) (c : Config) (w : World) :
  outputPath c = EmptyString -> verbose c = false ->
  let w' := snd (extensionAttack env c w) in
  let r := fst (fst (extensionLoop env (fst (extensionList c w)) [] c w)) in
  fs w' = fs w /\
  match r with
  | Some all => stdout w' = (stdout w ++ uniqueStrings all)%list
  | None => stdout w' = stdout w /\ last (stderr w') = Some cancelledMessage
  end.
Proof.
  intros Ho Hv. cbv zeta. unfold extensionAttack.
  cbv beta iota zeta delta [bind ret notFound printAll].
  pose proof (extensionList_world c w) as Ew.
  destruct (extensionList c w) as [exts w0]. cbn [fst snd] in *. subst w0.
  pose proof (extensionLoop_frame env exts [] c w Hv) as H. cbv zeta in H.
  destruct (extensionLoop env exts [] c w) as [[r c'] w1]. cbn [fst snd] in *.
  destruct H as (H1 & H2 & H3 & H4 & H5).
  destruct r as [all|].
  - destruct all as [|u all].
    + cbn. rewrite app_nil_r. auto.
    + cbn [length Nat.eqb]. rewrite H3, Ho. change (nonEmpty EmptyString) with false.
      cbn [snd fs stdout]. rewrite H1, H2. auto.
  - cbn [fst snd]. auto.
Qed.

(** ** The further properties on concrete runs *)

(** Lines [b], [a], an empty line and [b] again, sent to a file that holds
    the line [a]: only [b] is appended. *)
Lemma outputOrPrintUnique_appends_new_lines_witness :
  let urls := ["b"; "a"; EmptyString; "b"] in
  let w' := snd (outputOrPrintUnique urls "out.txt" (startWorld oneLineFs)) in
  "out.txt" <> EmptyString /\ ("out.txt" ∉ noAppend oneLineFs) /\
  exists new : list string,
    files (fs w') =
      <["out.txt" := ("a" +:+ newline) +:+
                     String.concat EmptyString (map (fun u => u +:+ newline) new)]>
        (files oneLineFs) /\
    (forall u, u ∈ new <->
       u ∈ urls /\ u <> EmptyString /\ u ∉ knownLines oneLineFs "out.txt").
Proof.
  cbv zeta.
  assert (Hp : "out.txt" <> EmptyString) by discriminate.
  assert (Ha : "out.txt" ∉ noAppend (fs (startWorld oneLineFs))) by apply not_elem_of_empty.
  split; [exact Hp|]. split; [exact Ha|].
  destruct (outputOrPrintUnique_appends_new_lines ["b"; "a"; EmptyString; "b"] "out.txt"
              (startWorld oneLineFs) Hp Ha) as (new & Hf & _ & _ & Hm & _).
  exists new. split; [exact Hf|exact Hm].
Defined.

(** Two lines sent twice to a file that does not exist: the second run
    changes nothing. *)
Lemma outputOrPrintUnique_second_run_appends_nothing_witness :
  let w1 := snd (outputOrPrintUnique ["b"; "a"] "out.txt" (startWorld emptyFs)) in
  files (fs w1) !! "out.txt" = Some ("a" +:+ newline +:+ "b" +:+ newline) /\
  snd (outputOrPrintUnique ["b"; "a"] "out.txt" w1) = w1.
Proof.
  cbv zeta. split; [vm_compute; reflexivity|].
  apply (outputOrPrintUnique_second_run_appends_nothing ["b"; "a"] "out.txt"
           (startWorld emptyFs)).
  - discriminate.
  - apply not_elem_of_empty.
  - apply not_elem_of_empty.
  - intros content H. cbn in H. rewrite lookup_empty in H. discriminate H.
  - intros u Hu. apply elem_of_cons in Hu as [->|Hu]; [repeat split; reflexivity|].
    apply elem_of_cons in Hu as [->|Hu]; [repeat split; reflexivity|].
    apply elem_of_nil in Hu. destruct Hu.
Defined.

(** The terms [admin] and [login] given with a comma come back as the terms
    of the dictionary case. *)
Lemma dictTerms_of_buildInurlQuery_witness :
  dictionaryEntries emptyFs "admin, login" = ["admin"; "login"] /\
  dictTerms (set_inUrl (fst (buildInurlQuery "admin, login" (startWorld emptyFs)))
               dictionaryConfig) = ["admin"; "login"].
Proof.
  assert (E : dictionaryEntries emptyFs "admin, login" = ["admin"; "login"])
    by (vm_compute; reflexivity).
  split; [exact E|].
  assert (H : Forall (fun t => Strings.Contains t "|" = false)
                (dictionaryEntries (fs (startWorld emptyFs)) (dictionary dictionaryConfig))).
  { change (dictionaryEntries (fs (startWorld emptyFs)) (dictionary dictionaryConfig))
      with (dictionaryEntries emptyFs "admin, login").
    rewrite E. repeat constructor. }
  pose proof (dictTerms_of_buildInurlQuery dictionaryConfig (startWorld emptyFs) H) as T.
  change (dictionaryEntries (fs (startWorld emptyFs)) (dictionary dictionaryConfig))
    with (dictionaryEntries emptyFs "admin, login") in T.
  rewrite E in T. exact T.
Defined.

(** The first transport call of a five-page run with one credential. *)
Lemma dorkRun_request_form_witness :
  let tr := dorkTrace (envOf twoPages never) (plainConfig ["K"] 5) EmptyString
              (startWorld emptyFs) in
  In (hd EmptyString (requestsOf tr)) (requestsOf tr) /\
  exists k p q, In k ["K"] /\ 0 <= p < 5 /\
    hd EmptyString (requestsOf tr) =
    buildOne (baseURL k (wrap64 (p * 10 + 1))) (withExcl (plainConfig ["K"] 5) q).
Proof.
  cbv zeta.
  assert (Hin : In (hd EmptyString (requestsOf (dorkTrace (envOf twoPages never)
                      (plainConfig ["K"] 5) EmptyString (startWorld emptyFs))))
                  (requestsOf (dorkTrace (envOf twoPages never) (plainConfig ["K"] 5)
                      EmptyString (startWorld emptyFs))))
    by (vm_compute; left; reflexivity).
  split; [exact Hin|].
  exact (dorkRun_request_form (envOf twoPages never) (plainConfig ["K"] 5) EmptyString
           (startWorld emptyFs) _ Hin).
Defined.

(** With the only credential marked exhausted the run returns nothing, makes
    no request and says so once. *)
Lemma dorkRun_pool_exhausted_witness :
  let env := envOf twoPages never in
  let c := plainConfig ["K"] 5 in
  (forall k, In k (apiKeys c) -> k ∈ exAt (exhaustedKeys c) exhaustedWorld) /\
  dorkResult env c EmptyString exhaustedWorld = [] /\
  requestsOf (dorkTrace env c EmptyString exhaustedWorld) = [] /\
  stderr (dorkWorld env c EmptyString exhaustedWorld) = [noKeysMessage].
Proof.
  cbv zeta.
  assert (H : forall k, In k (apiKeys (plainConfig ["K"] 5)) ->
                        k ∈ exAt (exhaustedKeys (plainConfig ["K"] 5)) exhaustedWorld).
  { intros k [<-|[]]. apply (bool_decide_unpack _). vm_compute. exact I. }
  split; [exact H|].
  destruct (dorkRun_pool_exhausted (envOf twoPages never) (plainConfig ["K"] 5) EmptyString
              exhaustedWorld H) as (H1 & _ & H3 & _ & H5).
  split; [exact H1|]. split; [exact H3|].
  apply H5; [discriminate|reflexivity|reflexivity|reflexivity].
Defined.

(** A target of a domains file whose intent finds five links and is cancelled
    right after: the error is returned and nothing is printed. *)
Lemma targetBody_cancel_drops_links_witness :
  let env := envOf samePage (cancelFrom 6) in
  let c2 := set_target "example.com" domainsConfig in
  let w := startWorld emptyFs in
  dorkResult env c2 EmptyString w = pageLinks "a" /\
  fst (targetBody env c2 w) = Some ctxCanceledError /\
  stdout (snd (targetBody env c2 w)) = [].
Proof.
  cbv zeta. split; [vm_compute; reflexivity|].
  destruct (targetBody_cancel_drops_links (envOf samePage (cancelFrom 6))
              (set_target "example.com" domainsConfig) (startWorld emptyFs))
    as (H1 & _ & H3); [reflexivity|vm_compute; reflexivity|].
  split; [exact H1|]. apply H3. reflexivity.
Defined.

(** Ten links of one host: the host is printed once. *)
Lemma subdomainAttack_prints_hosts_witness :
  let env := hostsEnv twoPages never in
  let c := plainConfig ["K"] 5 in
  length (dorkResult env c EmptyString (startWorld emptyFs)) = 10%nat /\
  stdout (snd (subdomainAttack env c (startWorld emptyFs))) = ["example.com"].
Proof.
  cbv zeta. split; [vm_compute; reflexivity|].
  destruct (subdomainAttack_prints_hosts (hostsEnv twoPages never) (plainConfig ["K"] 5)
              (startWorld emptyFs)) as (H1 & _); [reflexivity|reflexivity|].
  rewrite H1. vm_compute. reflexivity.
Defined.

(** The table visited backwards gives the same text as the table visited
    forwards. *)
Lemma urlDecodeLikeSed_order_independent_witness :
  let s := "http://example.com/?q%3Da%2520b%21" in
  rangeOrder (hostsEnv twoPages never) 0 repls = rev repls /\
  fst (urlDecodeLikeSed (hostsEnv twoPages never) s (startWorld emptyFs)) =
  fst (urlDecodeLikeSed (envOf twoPages never) s (startWorld emptyFs)).
Proof.
  cbv zeta. split; [reflexivity|].
  assert (H : rangeOrder (envOf twoPages never) (tick (startWorld emptyFs)) repls ≡ₚ repls)
    by reflexivity.
  assert (H' : rangeOrder (hostsEnv twoPages never) (tick (startWorld emptyFs)) repls ≡ₚ repls)
    by (symmetry; apply Permutation_rev).
  exact (proj2 (urlDecodeLikeSed_order_independent (envOf twoPages never) _
                  (startWorld emptyFs) H) (hostsEnv twoPages never) H').
Defined.

(** The first link of a two-page run. *)
Lemma dorkRun_links_come_from_responses_witness :
  let env := envOf twoPages never in
  let c := plainConfig ["K"] 5 in
  let w := startWorld emptyFs in
  In "http://example.com/a1" (dorkResult env c EmptyString w) /\
  exists k u gr,
    In (EvGet k u (HttpOk gr)) (dorkTrace env c EmptyString w) /\
    decodedFrom env (Items gr) "example.com" "http://example.com/a1".
Proof.
  cbv zeta.
  assert (H : In "http://example.com/a1"
                (dorkResult (envOf twoPages never) (plainConfig ["K"] 5) EmptyString
                   (startWorld emptyFs))) by (vm_compute; left; reflexivity).
  split; [exact H|].
  destruct (dorkRun_links_come_from_responses _ _ _ _ _ H)
    as (_ & k & u & gr & Hg & _ & _ & Hd).
  exists k, u, gr. split; [exact Hg|exact Hd].
Defined.

(** Two extensions, each answered with the same five links: the links are
    printed once. *)
Lemma extensionAttack_prints_at_the_end_witness :
  let env := envOf samePage never in
  stdout (snd (extensionAttack env extensionConfig (startWorld emptyFs))) = pageLinks "a".
Proof.
  cbv zeta.
  destruct (extensionAttack_prints_at_the_end (envOf samePage never)
extensionConfig (startWorld emptyFs)
              eq_refl eq_refl) as [_ H].
  revert H.
  replace (fst (fst (extensionLoop (envOf samePage never)
                  (fst (extensionList extensionConfig
                          (startWorld emptyFs))) []
                  extensionConfig (startWorld emptyFs))))
    with (Some (pageLinks "a" ++ pageLinks "a")%list) by (vm_compute; reflexivity).
  intros ->. vm_compute. reflexivity.
Defined.

(** A line or an entry made of a no-break space only is blank: a keys file
    with such a line alone holds no credential, a dictionary argument with
    such an entry has one term less, and a line ending with it is read back
    without it. *)
Example unicode_blank_is_blank :
  linesOf (nbsp +:+ newline) = [] /\
  linesOf ("a" +:+ nbsp +:+ newline +:+ "b") = ["a"; "b"] /\
  dictionaryEntries emptyFs ("admin," +:+ nbsp) = ["admin"] /\
  snd (fst (readApiKeysFromFile "keys.txt" (mainConfig 0)
              (startWorld {| files := {[ "keys.txt" := nbsp +:+ newline ]};
                             noRead := ∅; noAppend := ∅ |}))) = Some NoApiKeys.
Proof. repeat split; vm_compute; reflexivity. Qed.
